(** * Shepherd: the process orchestration engine, embedded and verified

    A shallow embedding of the core of [frontendtony/shepherd]:
    - [internal/config]   : the catalog records ([RetryConfig], [Process], [Config])
                            and the validation of a configuration ([Validate],
                            [detectCycles], [applyDefaults]);
    - [internal/process]  : [retry.go] (backoff and retry eligibility),
                            the dependency graph ([NewDependencyGraph], [StartOrder],
                            [StopOrder], [Dependents], [Dependencies]),
                            the managed process ([Start], [Stop], the setters) and
                            the manager ([StopProcess], [RestartProcess], [StopAll],
                            [monitor], [cascadeFailure]);
    - [internal/logging]  : the ring buffer.

    Conventions.
    - Go [int] and [time.Duration] are [Z]; every value that occurs is far
      from the 64-bit bounds (indices below a slice length, counters below a
      map size), so no wrap-around is written out where none can happen.
    - A Go [map[string]T] is a [gmap string T]; a [map[string]bool] that only
      ever stores [true] is a [gset string].
    - [for k := range m] visits the keys of a map in an order Go leaves
      unspecified: the embedding takes the order from an oracle [rangeKeys]
      that is only assumed to enumerate every key exactly once. One oracle
      stands for the order of one call; a property that relates two calls
      gives each call an oracle of its own.
    - A [float64] is a primitive binary64 float of the kernel, with its
      IEEE operations rounding to nearest even, one operation at a time;
      [math.Pow] of Go's library is an argument [pow] and [rand.Float64()]
      an argument [rnd]; [time.Duration(x)] truncates toward zero and gives
      [MinInt64] where the value is no [int64].
    - The manager is read sequentially: one call runs to its end with no
      monitor goroutine interleaved; [monitor] itself is read from the exit
      of its child on, in the two halves its [select] separates. Where an
      operation ends a child, the monitor of that child runs beside the
      rest of the operation: the effects stated for whole operations are
      stated where no child is ended or where the outcome does not depend
      on that monitor, and the run in which it reads the state last is
      stated on its own. *)

From Stdlib Require Import ZArith Lia.
From Corelib Require Import PrimFloat FloatOps SpecFloat.
From stdpp Require Import gmap strings list relations pretty.

#[global] Set Warnings "-clear-no-such-hyp".
Open Scope Z_scope.

(* ===================================================================== *)
(** * Part I: the embedding *)
(* ===================================================================== *)

(** ** internal/config: catalog records *)

Module config.

Record RetryConfig := {
  Enabled : bool;
  MaxAttempts : Z;
  InitialBackoff : Z;          (* nanoseconds *)
  MaxBackoff : Z;              (* nanoseconds *)
  BackoffMultiplier : float         (* a [float64] *)
}.

Record Process := {
  Command : string;
  DependsOn : list string;
  Retry : RetryConfig
}.

Record Config := {
  Processes : gmap string Process
}.

Definition DefaultRetryConfig : RetryConfig :=
  {| Enabled := false; MaxAttempts := 3;
     InitialBackoff := 2 * 1000000000; MaxBackoff := 60 * 1000000000;
     BackoffMultiplier := 2 |}.

End config.

(** ** internal/process/retry.go *)

Module retry.
Import config.

(** [float64(n)] for a Go integer [n]: the binary64 nearest to [n], ties to
    even. *)
Definition float64 (n : Z) : float := SF2Prim (binary_normalize prec emax n 0 false).

Definition MinInt64 : Z := - 2 ^ 63.

(** [time.Duration(x)] for a float [x]: the conversion truncates toward
    zero. Go leaves the result to the implementation when the truncated value
    is no [int64], and for NaN and the infinities; amd64 answers [MinInt64]
    then (the "integer indefinite" value of CVTTSD2SI). *)
Definition durationOf (x : float) : Z :=
  match Prim2SF x with
  | S754_zero _ => 0
  | S754_finite s m e =>
      let magnitude := Z.shiftl (Z.pos m) e in
      let n := if s then - magnitude else magnitude in
      if ((MinInt64 <=? n) && (n <? 2 ^ 63))%bool then n else MinInt64
  | S754_infinity _ | S754_nan => MinInt64
  end.

(** [nextBackoff(attempt, cfg)]. [pow] is [math.Pow] of Go's library and
    [rnd] the draw of [rand.Float64()]. Every operation rounds on its own,
    as the compiler has it on amd64; [0.1] is the constant as a [float64]. *)
Definition nextBackoff (pow : float -> float -> float) (rnd : float)
    (attempt : Z) (cfg : RetryConfig) : Z :=
  let base := (float64 (InitialBackoff cfg)
               * pow (BackoffMultiplier cfg) (float64 attempt))%float in
  let maxBackoff := float64 (MaxBackoff cfg) in
  let base := if (maxBackoff <? base)%float then maxBackoff else base in
  let jitter := (base * 0x1.999999999999ap-4)%float in
  let base := (base - jitter + rnd * 2 * jitter)%float in
  durationOf base.

(** [shouldRetry(attempt, cfg)]. *)
Definition shouldRetry (attempt : Z) (cfg : RetryConfig) : bool :=
  if negb (Enabled cfg) then false
  else if MaxAttempts cfg =? 0 then true
  else attempt <? MaxAttempts cfg.

End retry.

(** ** internal/logging: the ring buffer *)

Module logging.

Definition DefaultBufferSize : Z := 1000.

(** The mutex guards every method, so each method is one atomic state
    transformer on the record. *)
Record RingBuffer := {
  lines : list string;
  size : Z;
  pos : Z;
  count : Z
}.

(** [NewRingBuffer(size)]: [make([]string, size)] is [size] empty strings. *)
Definition NewRingBuffer (size : Z) : RingBuffer :=
  let size := if size <=? 0 then DefaultBufferSize else size in
  {| lines := replicate (Z.to_nat size) ""; size := size; pos := 0; count := 0 |}.

(** [WriteString(line)]. Go's [%] is the truncated remainder [Z.rem]. The
    store [rb.lines[rb.pos] = line] would panic out of range; the index is
    in range in every buffer built by [NewRingBuffer] ([written_inv] below),
    where stdpp's insert and Go's store agree. *)
Definition WriteString (line : string) (rb : RingBuffer) : RingBuffer :=
  {| lines := <[Z.to_nat (pos rb) := line]> (lines rb);
     size := size rb;
     pos := Z.rem (pos rb + 1) (size rb);
     count := if count rb <? size rb then count rb + 1 else count rb |}.

(** [Lines(n)]: the last [n] lines; every line when [n <= 0] or [n > count]. *)
Definition Lines (n : Z) (rb : RingBuffer) : list string :=
  let n := if (n <=? 0) || (count rb <? n) then count rb else n in
  if n =? 0 then []
  else
    let start := Z.rem (pos rb - n + size rb) (size rb) in
    (fun i => lines rb !!! Z.to_nat (Z.rem (start + i) (size rb))) <$> seqZ 0 n.

Definition All (rb : RingBuffer) : list string := Lines 0 rb.

Definition Len (rb : RingBuffer) : Z := count rb.

End logging.

(** ** internal/process: the dependency graph *)

Module graph.
Import config.

(** [forward]: process -> what it depends on; [reverse]: process -> the
    processes that depend on it; [nodes]: all known process names. *)
Record DependencyGraph := {
  forward : gmap string (list string);
  reverse : gmap string (list string);
  nodes : gset string
}.

Inductive error :=
  | ErrUnknownProcess (t : string)      (* "unknown process: %s" *)
  | ErrCycle                            (* "dependency cycle detected" *)
  | ErrFuel.                            (* the embedding ran out of fuel; never returned,
                                           see [StartOrder_fuel] *)

Inductive result (A : Type) :=
  | Ok (a : A)
  | Err (e : error).
Arguments Ok {A} a.
Arguments Err {A} e.

(** [m[name]] on a [map[string][]string]: [nil] for a missing key. *)
Definition edges (m : gmap string (list string)) (name : string) : list string :=
  default [] (m !! name).

Definition emptyGraph : DependencyGraph :=
  {| forward := ∅; reverse := ∅; nodes := ∅ |}.

(** The body of the loop of [NewDependencyGraph] for one catalog entry. *)
Definition addProcess (procs : gmap string Process) (g : DependencyGraph)
    (name : string) : DependencyGraph :=
  let deps := from_option DependsOn [] (procs !! name) in
  {| nodes := {[name]} ∪ nodes g;
     forward := <[name := deps]> (forward g);
     reverse := foldl (fun r dep => <[dep := edges r dep ++ [name]]> r) (reverse g) deps |}.

(** Fuel for the two depth-first searches: the number of names the graph
    mentions. Each nested call marks a name not marked before, so the
    searches never go deeper ([walk_spec] below). *)
Definition fuelOf (g : DependencyGraph) : nat :=
  size (dom (forward g) ∪ dom (reverse g)).

(** [collectDeps], the closure inside [StartOrder]; [required] is threaded. *)
Fixpoint collectDeps (g : DependencyGraph) (fuel : nat) (name : string)
    (required : gset string) : gset string :=
  if decide (name ∈ required) then required
  else
    let required := {[name]} ∪ required in
    match fuel with
    | O => required
    | S fuel =>
        foldl (fun req dep => collectDeps g fuel dep req) required (edges (forward g) name)
    end.

(** The loop over [targets] at the head of [StartOrder]. *)
Fixpoint collectTargets (g : DependencyGraph) (targets : list string)
    (required : gset string) : result (gset string) :=
  match targets with
  | [] => Ok required
  | t :: targets =>
      if decide (t ∈ nodes g) then
        collectTargets g targets (collectDeps g (fuelOf g) t required)
      else Err (ErrUnknownProcess t)
  end.

(** The body of the inner loop of Kahn's algorithm in [StartOrder]:
    [inDegree[dep]--; if inDegree[dep] == 0 { queue = append(queue, dep) }]. *)
Definition release (required : gset string) (st : gmap string Z * list string)
    (dep : string) : gmap string Z * list string :=
  if decide (dep ∈ required) then
    let inDegree := <[dep := default 0 (st.1 !! dep) - 1]> st.1 in
    if default 0 (inDegree !! dep) =? 0 then (inDegree, st.2 ++ [dep])
    else (inDegree, st.2)
  else st.

(** [for len(queue) > 0 { ... }]; [None] when the fuel runs out first. *)
Fixpoint kahnLoop (g : DependencyGraph) (required : gset string) (fuel : nat)
    (inDegree : gmap string Z) (queue order : list string) : option (list string) :=
  match queue with
  | [] => Some order
  | node :: queue =>
      match fuel with
      | O => None
      | S fuel =>
          let order := order ++ [node] in
          let st := foldl (release required) (inDegree, queue) (edges (reverse g) node) in
          kahnLoop g required fuel st.1 st.2 order
      end
  end.

(** The in-place reversal at the end of [StopOrder]:
    [for i, j := 0, len(order)-1; i < j; i, j = i+1, j-1 { swap }].
    [StopOrder] gives it [len(order)] units of fuel for its [len(order)/2]
    iterations. *)
Fixpoint reverseInPlace (fuel : nat) (i j : Z) (order : list string) : list string :=
  match fuel with
  | O => order
  | S fuel =>
      if i <? j then
        let oi := order !!! Z.to_nat i in
        let oj := order !!! Z.to_nat j in
        reverseInPlace fuel (i + 1) (j - 1)
          (<[Z.to_nat j := oi]> (<[Z.to_nat i := oj]> order))
      else order
  end.

(** The closure [walk] of [Dependents] and of [Dependencies]: the two are
    the same code over [g.reverse] and over [g.forward]; [adj] is that map.
    The state is the pair of the locals [visited] and [result]. *)
Fixpoint walk (adj : string -> list string) (fuel : nat) (n : string)
    (st : gset string * list string) : gset string * list string :=
  match fuel with
  | O => st
  | S fuel =>
      foldl (fun st dep =>
               if decide (dep ∈ st.1) then st
               else walk adj fuel dep ({[dep]} ∪ st.1, st.2 ++ [dep]))
            st (adj n)
  end.

Definition Dependents (g : DependencyGraph) (name : string) : list string :=
  (walk (edges (reverse g)) (fuelOf g) name (∅, [])).2.

Definition Dependencies (g : DependencyGraph) (name : string) : list string :=
  (walk (edges (forward g)) (fuelOf g) name (∅, [])).2.

Section range.
(** The order in which [range] visits the keys of a map. *)
Variable rangeKeys : gset string -> list string.

Definition NewDependencyGraph (cfg : Config) : DependencyGraph :=
  foldl (addProcess (Processes cfg)) emptyGraph (rangeKeys (dom (Processes cfg))).

(** [count] of the first loop of Kahn's algorithm: the dependencies of
    [name] that are required, with multiplicity. *)
Definition requiredDeps (g : DependencyGraph) (required : gset string)
    (name : string) : Z :=
  Z.of_nat (length (filter (fun dep => dep ∈ required) (edges (forward g) name))).

Definition StartOrder (g : DependencyGraph) (targets : list string)
    : result (list string) :=
  match collectTargets g targets ∅ with
  | Err e => Err e
  | Ok required =>
      let inDegree :=
        foldl (fun deg name => <[name := requiredDeps g required name]> deg)
              ∅ (rangeKeys required) in
      let queue :=
        filter (fun name => default 0 (inDegree !! name) = 0) (rangeKeys (dom inDegree)) in
      match kahnLoop g required (size required) inDegree queue [] with
      | None => Err ErrFuel
      | Some order =>
          if decide (length order = size required) then Ok order else Err ErrCycle
      end
  end.

Definition StopOrder (g : DependencyGraph) (targets : list string)
    : result (list string) :=
  match StartOrder g targets with
  | Err e => Err e
  | Ok order =>
      Ok (reverseInPlace (length order) 0 (Z.of_nat (length order) - 1) order)
  end.

(** *** [Validate] *)

(** What [Validate] returns: [nil], or the error "dependency cycle detected
    involving: ..." with the names it lists. *)
Inductive validation :=
  | Valid
  | CycleInvolving (cycleNodes : list string)
  | ValidateFuel.                       (* the embedding ran out of fuel; never
                                           returned, see [Validate_fuel] *)

(** The body of the inner loop of [Validate]; unlike [StartOrder] it
    decrements every dependent. *)
Definition releaseAll (st : gmap string Z * list string) (dep : string)
    : gmap string Z * list string :=
  let inDegree := <[dep := default 0 (st.1 !! dep) - 1]> st.1 in
  if default 0 (inDegree !! dep) =? 0 then (inDegree, st.2 ++ [dep])
  else (inDegree, st.2).

(** [for len(queue) > 0 { ...; visited++; ... }]: the final [inDegree] and
    [visited]; [None] when the fuel runs out first. *)
Fixpoint validateLoop (g : DependencyGraph) (fuel : nat) (inDegree : gmap string Z)
    (queue : list string) (visited : Z) : option (gmap string Z * Z) :=
  match queue with
  | [] => Some (inDegree, visited)
  | node :: queue =>
      match fuel with
      | O => None
      | S fuel =>
          let st := foldl releaseAll (inDegree, queue) (edges (reverse g) node) in
          validateLoop g fuel st.1 st.2 (visited + 1)
      end
  end.

Definition Validate (g : DependencyGraph) : validation :=
  let inDegree :=
    foldl (fun deg name => <[name := Z.of_nat (length (edges (forward g) name))]> deg)
          ∅ (rangeKeys (nodes g)) in
  let queue :=
    filter (fun name => default 0 (inDegree !! name) = 0) (rangeKeys (dom inDegree)) in
  match validateLoop g (size (nodes g)) inDegree queue 0 with
  | None => ValidateFuel
  | Some (inDegree, visited) =>
      if decide (visited = Z.of_nat (size (nodes g))) then Valid
      else CycleInvolving
             (filter (fun name => 0 < default 0 (inDegree !! name))
                     (rangeKeys (dom inDegree)))
  end.

End range.

End graph.

(** ** internal/process: the managed process *)

Module process.
Import config.

Inductive Status :=
  | StatusStopped | StatusStarting | StatusRunning
  | StatusFailed | StatusRetrying | StatusStopping.

Global Instance Status_eq_dec : EqDecision Status.
Proof. solve_decision. Defined.

(** [time.Time] as nanoseconds; [time.Time{}] is [zeroTime]. *)
Definition Time := Z.
Definition zeroTime : Time := 0.

Record ProcessState := {
  Name : string;
  status : Status;               (* the field [Status] *)
  PID : Z;
  StartedAt : Time;
  StoppedAt : Time;
  RetryCount : Z;
  NextRetryAt : Time;
  LastError : string;
  ExitCode : Z
}.

(** The fields of [ManagedProcess] the state transitions read and write.
    [cmd] and [ptmx] are kept as presence flags; [done] is implicit in the
    sequential reading of [Stop] below. The mutex makes every method one
    atomic transformer. *)
Record ManagedProcess := {
  name : string;
  pconfig : Process;             (* the field [config] *)
  state : ProcessState;
  cmd : bool;                    (* [p.cmd != nil && p.cmd.Process != nil] *)
  ptmx : bool                    (* [p.ptmx != nil] *)
}.

(** What the operating system answers to the two spawn attempts of [Start]:
    [pty.Start(cmd)] succeeded, or it failed and [cmd.Start()] on pipes
    succeeded, or both failed. *)
Inductive SpawnResult :=
  | PtyStarted (pid : Z)
  | PipeStarted (pid : Z)
  | SpawnFailed (err : string).

(** What [cmd.Wait()] returns: [nil], an [*exec.ExitError] with its exit
    code, or another error. *)
Inductive ExitResult :=
  | ExitNil
  | ExitError (code : Z) (msg : string)
  | ExitOther (msg : string).

Definition withStatus (s : Status) (st : ProcessState) : ProcessState :=
  {| Name := Name st; status := s; PID := PID st; StartedAt := StartedAt st;
     StoppedAt := StoppedAt st; RetryCount := RetryCount st;
     NextRetryAt := NextRetryAt st; LastError := LastError st; ExitCode := ExitCode st |}.

Definition withError (err : string) (st : ProcessState) : ProcessState :=
  {| Name := Name st; status := status st; PID := PID st; StartedAt := StartedAt st;
     StoppedAt := StoppedAt st; RetryCount := RetryCount st;
     NextRetryAt := NextRetryAt st; LastError := err; ExitCode := ExitCode st |}.

Definition withState (st : ProcessState) (p : ManagedProcess) : ManagedProcess :=
  {| name := name p; pconfig := pconfig p; state := st; cmd := cmd p; ptmx := ptmx p |}.

Definition NewManagedProcess (name : string) (cfg : Process) : ManagedProcess :=
  {| name := name; pconfig := cfg;
     state := {| Name := name; status := StatusStopped; PID := 0; StartedAt := zeroTime;
                 StoppedAt := zeroTime; RetryCount := 0; NextRetryAt := zeroTime;
                 LastError := ""; ExitCode := 0 |};
     cmd := false; ptmx := false |}.

(** [Start()]: the new process value and the returned error ([None] is
    [nil]). [now] is [time.Now()] and [spawn] the answer of the system. *)
Definition Start (now : Time) (spawn : SpawnResult) (p : ManagedProcess)
    : ManagedProcess * option string :=
  if decide (status (state p) = StatusRunning) then
    (p, Some ("process " +:+ name p +:+ " is already running"))
  else
    let st := withStatus StatusStarting (state p) in
    let started (pid : Z) (pty : bool) :=
      ({| name := name p; pconfig := pconfig p;
          state := {| Name := Name st; status := StatusRunning; PID := pid;
                      StartedAt := now; StoppedAt := zeroTime;
                      RetryCount := RetryCount st; NextRetryAt := NextRetryAt st;
                      LastError := ""; ExitCode := 0 |};
          cmd := true; ptmx := pty |}, None) in
    match spawn with
    | PtyStarted pid => started pid true
    | PipeStarted pid => started pid false
    | SpawnFailed err =>
        ({| name := name p; pconfig := pconfig p;
            state := withError err (withStatus StatusFailed st);
            cmd := cmd p; ptmx := false |},
         Some ("starting process " +:+ name p +:+ ": " +:+ err))
    end.

(** [waitForExit]: the state update made once [cmd.Wait()] has returned. *)
Definition waitForExit (now : Time) (exit : ExitResult) (p : ManagedProcess)
    : ManagedProcess :=
  let st := state p in
  let st' :=
    match exit with
    | ExitNil =>
        {| Name := Name st; status := StatusStopped; PID := 0; StartedAt := StartedAt st;
           StoppedAt := now; RetryCount := RetryCount st; NextRetryAt := NextRetryAt st;
           LastError := LastError st; ExitCode := 0 |}
    | ExitError _ msg | ExitOther msg =>
        let code := match exit with ExitError c _ => c | _ => ExitCode st end in
        if decide (status st = StatusStopping) then
          {| Name := Name st; status := StatusStopped; PID := 0; StartedAt := StartedAt st;
             StoppedAt := now; RetryCount := RetryCount st; NextRetryAt := NextRetryAt st;
             LastError := LastError st; ExitCode := code |}
        else
          {| Name := Name st; status := StatusFailed; PID := 0; StartedAt := StartedAt st;
             StoppedAt := now; RetryCount := RetryCount st; NextRetryAt := NextRetryAt st;
             LastError := msg; ExitCode := code |}
    end in
  withState st' p.

(** [Stop()], read sequentially: it marks the process [Stopping], signals
    the group and blocks on [done], which [waitForExit] closes after its
    update; so when [Stop] returns that update has been made. [Stop] always
    returns [nil]. *)
Definition Stop (now : Time) (exit : ExitResult) (p : ManagedProcess) : ManagedProcess :=
  if decide (status (state p) <> StatusRunning /\ status (state p) <> StatusStarting) then p
  else
    let p := withState (withStatus StatusStopping (state p)) p in
    if negb (cmd p) then p else waitForExit now exit p.

Definition State (p : ManagedProcess) : ProcessState := state p.

Definition SetStatus (s : Status) (p : ManagedProcess) : ManagedProcess :=
  withState (withStatus s (state p)) p.

Definition SetRetryState (count : Z) (nextRetry : Time) (p : ManagedProcess)
    : ManagedProcess :=
  let st := state p in
  withState {| Name := Name st; status := status st; PID := PID st;
               StartedAt := StartedAt st; StoppedAt := StoppedAt st;
               RetryCount := count; NextRetryAt := nextRetry;
               LastError := LastError st; ExitCode := ExitCode st |} p.

Definition SetError (err : string) (p : ManagedProcess) : ManagedProcess :=
  withState (withError err (state p)) p.

Definition ResetRetryCount (p : ManagedProcess) : ManagedProcess :=
  SetRetryState 0 zeroTime p.

(** [ProcessState.Uptime()] of [state.go], with [now] for [time.Now()];
    [t.IsZero()] is [t = zeroTime]. *)
Definition Uptime (now : Time) (s : ProcessState) : Z :=
  if decide (StartedAt s = zeroTime) then 0
  else if decide (status s = StatusRunning \/ status s = StatusStopping) then
    now - StartedAt s
  else if decide (StoppedAt s <> zeroTime) then StoppedAt s - StartedAt s
  else 0.

End process.

(** ** internal/process: the manager *)

Module manager.
Import config retry graph process.

Record StateEvent := {
  EvName : string;               (* [Name] *)
  OldState : Status;
  NewState : Status;
  Error : string
}.

(** The manager's fields. [events] is the content of the buffered channel
    (capacity 100), oldest first, with nobody receiving meanwhile;
    [processes] maps a name to the process the Go map points to. *)
Record ProcessManager := {
  mconfig : Config;              (* the field [config] *)
  mgraph : DependencyGraph;      (* the field [graph] *)
  processes : gmap string ManagedProcess;
  events : list StateEvent
}.

(** The operating system, as far as the manager's calls consult it. *)
Record World := {
  now : Time;
  spawn : string -> SpawnResult;
  exit : string -> ExitResult
}.

(** A method of the manager run sequentially: it returns a value and the
    new manager, or panics (a nil [*ManagedProcess] is dereferenced when a
    name is not in [processes]). *)
Inductive outcome (A : Type) :=
  | Return (a : A) (pm : ProcessManager)
  | Panic.
Arguments Return {A} a pm.
Arguments Panic {A}.

Definition M (A : Type) : Type := ProcessManager -> outcome A.

Global Instance M_ret : MRet M := fun A a pm => Return a pm.

Global Instance M_bind : MBind M := fun A B k m pm =>
  match m pm with
  | Return a pm' => k a pm'
  | Panic => Panic
  end.

Definition ret {A} (a : A) : M A := mret a.

(** [for _, x := range l { body }]. *)
Fixpoint forEach {A} (l : list A) (body : A -> M unit) : M unit :=
  match l with
  | [] => ret tt
  | x :: l => body x;; forEach l body
  end.

(** [pm.processes[name]], dereferenced. *)
Definition getProcess (name : string) : M ManagedProcess :=
  fun pm => match processes pm !! name with
            | Some p => Return p pm
            | None => Panic
            end.

(** A method call that mutates the process [name] points to. *)
Definition update (name : string) (p : ManagedProcess) : M unit :=
  fun pm => Return tt {| mconfig := mconfig pm; mgraph := mgraph pm;
                         processes := <[name := p]> (processes pm);
                         events := events pm |}.

Definition getGraph : M DependencyGraph := fun pm => Return (mgraph pm) pm.

(** [emitEvent]: a send that drops the event when the channel is full. *)
Definition emitEvent (name : string) (oldState newState : Status) (errMsg : string)
    : M unit :=
  fun pm =>
    if decide (length (events pm) < 100)%nat then
      Return tt {| mconfig := mconfig pm; mgraph := mgraph pm;
                   processes := processes pm;
                   events := events pm ++ [{| EvName := name; OldState := oldState;
                                              NewState := newState; Error := errMsg |}] |}
    else Return tt pm.

Definition getConfig : M Config := fun pm => Return (mconfig pm) pm.

(** The zero value of [config.Process]. *)
Definition zeroProcess : Process :=
  {| Command := ""; DependsOn := [];
     Retry := {| Enabled := false; MaxAttempts := 0; InitialBackoff := 0;
                 MaxBackoff := 0; BackoffMultiplier := 0 |} |}.

Section world.
Variable w : World.

(** [startSingle]; the monitor goroutine it launches runs later and is not
    part of the call. *)
Definition startSingle (name : string) : M (option string) :=
  p ← getProcess name;
  let oldStatus := status (State p) in
  let r := Start (now w) (spawn w name) p in
  update name r.1;;
  match r.2 with
  | Some err => emitEvent name oldStatus StatusFailed err;; ret (Some err)
  | None => emitEvent name oldStatus StatusRunning "";; ret None
  end.

(** [stopSingle]. *)
Definition stopSingle (name : string) : M (option string) :=
  p ← getProcess name;
  let oldStatus := status (State p) in
  if decide (oldStatus = StatusRetrying) then
    update name (SetStatus StatusStopped p);;
    emitEvent name oldStatus StatusStopped "";;
    ret None
  else
    update name (Stop (now w) (exit w name) p);;
    emitEvent name oldStatus StatusStopped "";;
    ret None.

(** [StopProcess]: an error of a dependent's [stopSingle] is only logged. *)
Definition StopProcess (name : string) : M (option string) :=
  g ← getGraph;
  let dependents := Dependents g name in
  forEach dependents (fun dep =>
    p ← getProcess dep;
    let st := State p in
    if decide (status st = StatusRunning \/ status st = StatusStarting \/
               status st = StatusRetrying)
    then stopSingle dep;; ret tt
    else ret tt);;
  stopSingle name.

(** The first loop of [RestartProcess]: it collects [restartDeps]. *)
Fixpoint collectRestartDeps (dependents restartDeps : list string) : M (list string) :=
  match dependents with
  | [] => ret restartDeps
  | dep :: dependents =>
      p ← getProcess dep;
      let st := State p in
      if decide (status st = StatusRunning \/ status st = StatusStarting \/
                 status st = StatusFailed \/ status st = StatusRetrying)
      then collectRestartDeps dependents (restartDeps ++ [dep])
      else collectRestartDeps dependents restartDeps
  end.

(** [RestartProcess]. *)
Definition RestartProcess (name : string) : M (option string) :=
  g ← getGraph;
  let dependents := Dependents g name in
  restartDeps ← collectRestartDeps dependents [];
  err ← StopProcess name;
  match err with
  | Some e => ret (Some ("stopping " +:+ name +:+ " for restart: " +:+ e))
  | None =>
      err ← startSingle name;
      match err with
      | Some e => ret (Some ("restarting " +:+ name +:+ ": " +:+ e))
      | None =>
          forEach restartDeps (fun dep =>
            p ← getProcess dep;
            update dep (ResetRetryCount p);;
            startSingle dep;; ret tt);;
          ret None
      end
  end.

(** [cascadeFailure]. [p] is a pointer: the second [p.State()] reads the
    process as [stopSingle] has left it. The error of [stopSingle] is
    ignored. *)
Definition cascadeFailure (name : string) : M unit :=
  g ← getGraph;
  let dependents := Dependents g name in
  forEach dependents (fun dep =>
    p ← getProcess dep;
    let st := State p in
    (if decide (status st = StatusRunning \/ status st = StatusStarting \/
                status st = StatusRetrying)
     then stopSingle dep;; ret tt
     else ret tt);;
    let errMsg := "dependency " +:+ name +:+ " failed" in
    p ← getProcess dep;
    let oldStatus := status (State p) in
    update dep (SetError errMsg (SetStatus StatusFailed p));;
    emitEvent dep oldStatus StatusFailed errMsg).

(** [monitor], from the moment [<-p.Wait()] has returned up to its
    [select]: it answers the backoff when it has scheduled a retry. [pow] and
    [rnd] are [math.Pow] and the draw of [rand.Float64()] in [nextBackoff];
    [pm.config.Processes[name]] is the zero [Process] for a name the catalog
    lacks. *)
Definition monitorExit (pow : float -> float -> float) (rnd : float) (name : string)
    : M (option Z) :=
  p ← getProcess name;
  let st := State p in
  if decide (status st = StatusStopped) then ret None
  else
    cfg ← getConfig;
    let procCfg := default zeroProcess (Processes cfg !! name) in
    let retryCount := RetryCount st in
    if shouldRetry retryCount (Retry procCfg) then
      let backoff := nextBackoff pow rnd retryCount (Retry procCfg) in
      let nextRetry := now w + backoff in
      update name (SetRetryState (retryCount + 1) nextRetry (SetStatus StatusRetrying p));;
      emitEvent name StatusFailed StatusRetrying "";;
      ret (Some backoff)
    else
      update name (SetStatus StatusFailed p);;
      emitEvent name StatusFailed StatusFailed
        ("max retries exhausted (exit code " +:+ pretty (ExitCode st) +:+ ")");;
      cascadeFailure name;;
      ret None.

(** [monitor] after its [select], when the timer fired first: the error of
    [startSingle] is only logged. *)
Definition monitorRetry (name : string) : M unit :=
  p ← getProcess name;
  if decide (status (State p) <> StatusRetrying) then ret tt
  else startSingle name;; ret tt.

End world.

(** [monitor] as a whole: [w] is the system when the exit of the child is
    noticed and [w'] the system when the timer fires; [cancelled] tells that
    [ctx.Done()] won the [select]. *)
Definition monitor (w w' : World) (pow : float -> float -> float) (rnd : float)
    (cancelled : bool) (name : string) : M unit :=
  scheduled ← monitorExit w pow rnd name;
  match scheduled with
  | None => ret tt
  | Some _ => if cancelled then ret tt else monitorRetry w' name
  end.

Section stop_all.
Variable w : World.
Variable rangeKeys : gset string -> list string.

(** The first loop of [StopAll]: the names it collects in [running]. *)
Definition runningNames (pm : ProcessManager) : list string :=
  filter (fun name =>
            from_option (fun p =>
              let st := State p in
              bool_decide (status st = StatusRunning \/ status st = StatusStarting \/
                           status st = StatusRetrying \/ status st = StatusStopping))
              false (processes pm !! name))
         (rangeKeys (dom (processes pm))).

(** [StopAll]; errors of [stopSingle] are ignored or logged. *)
Definition StopAll : M (option string) :=
  running ← (fun pm => Return (runningNames pm) pm);
  if decide (length running = 0%nat) then ret None
  else
    g ← getGraph;
    match StopOrder rangeKeys g running with
    | Err _ =>
        forEach running (fun name => stopSingle w name;; ret tt);;
        ret None
    | Ok order =>
        forEach order (fun name =>
          p ← getProcess name;
          let st := State p in
          if decide (status st = StatusRunning \/ status st = StatusStarting \/
                     status st = StatusRetrying)
          then stopSingle w name;; ret tt
          else ret tt);;
        ret None
    end.

End stop_all.

Section construct.
Variable rangeKeys : gset string -> list string.

(** [NewProcessManager], after the validation of the graph: one managed
    process per catalog entry. *)
Definition NewProcessManager (cfg : Config) : ProcessManager :=
  {| mconfig := cfg;
     mgraph := NewDependencyGraph rangeKeys cfg;
     processes := map_imap (fun name proc => Some (NewManagedProcess name proc)) (Processes cfg);
     events := [] |}.

End construct.

End manager.

(** ** internal/config: the validation of a catalog *)

Module config_check.
Import config graph.

(** The body of the innermost loop of the second loop of [detectCycles]:
    [if _, ok := cfg.Processes[dep]; ok { inDegree[name]++;
    dependents[dep] = append(dependents[dep], name) }]. *)
Definition countDependency (procs : gmap string Process) (name : string)
    (st : gmap string Z * gmap string (list string)) (dep : string)
    : gmap string Z * gmap string (list string) :=
  if decide (is_Some (procs !! dep)) then
    (<[name := default 0 (st.1 !! name) + 1]> st.1,
     <[dep := edges st.2 dep ++ [name]]> st.2)
  else st.

(** [for len(queue) > 0 { ...; visited++; ... }] of [detectCycles]: the
    final [inDegree] and [visited]; [None] when the fuel runs out first. *)
Fixpoint cycleLoop (dependents : gmap string (list string)) (fuel : nat)
    (inDegree : gmap string Z) (queue : list string) (visited : Z)
    : option (gmap string Z * Z) :=
  match queue with
  | [] => Some (inDegree, visited)
  | node :: queue =>
      match fuel with
      | O => None
      | S fuel =>
          let st := foldl releaseAll (inDegree, queue) (edges dependents node) in
          cycleLoop dependents fuel st.1 st.2 (visited + 1)
      end
  end.

(** The structs of [internal/config] the engine itself does not read. *)
Record Stack := {
  StackGroups : list string      (* the field [Groups] *)
}.

Record Group := {
  GroupProcesses : list string   (* the field [Processes] *)
}.

(** [config.Config] with its three maps; the engine's part of it is the
    record [Config] of the catalog. *)
Record ConfigFile := {
  Stacks : gmap string Stack;
  Groups : gmap string Group;
  Catalog : Config               (* the field [Processes] *)
}.

(** The messages [Validate] collects, each with the values it formats. *)
Inductive problem :=
  | NameClash (name existing kind : string)
      (* "name %q is used as both a %s and a <kind>" *)
  | UndefinedGroup (stack group : string)
      (* "stack %q references undefined group %q" *)
  | UndefinedProcess (group proc : string)
      (* "group %q references undefined process %q" *)
  | UndefinedDependency (proc dep : string)
      (* "process %q depends on undefined process %q" *)
  | SelfDependency (proc : string)
      (* "process %q depends on itself" *)
  | InitialBackoffNotPositive (proc : string)
      (* "process %q: initial_backoff must be positive" *)
  | MaxBackoffNotPositive (proc : string)
      (* "process %q: max_backoff must be positive" *)
  | InitialAboveMax (proc : string) (initial max : Z)
      (* "process %q: initial_backoff (%s) must be <= max_backoff (%s)" *)
  | MultiplierBelowOne (proc : string)
      (* "process %q: backoff_multiplier must be >= 1" *)
  | CommandRequired (proc : string)
      (* "process %q: command is required" *)
  | CycleDetected (names : list string)
      (* the error of [detectCycles] *)
  | CheckOutOfFuel.
      (* the embedding of [detectCycles] ran out of fuel; never returned *)

(** The body of the three loops over [allNames]. *)
Definition noteName (kind : string) (st : list problem * gmap string string)
    (name : string) : list problem * gmap string string :=
  let errs :=
    match st.2 !! name with
    | Some existing => st.1 ++ [NameClash name existing kind]
    | None => st.1
    end in
  (errs, <[name := kind]> st.2).

(** The retry and command checks of [Validate] for one process. *)
Definition checkProcess (errs : list problem) (procName : string) (proc : Process)
    : list problem :=
  let r := Retry proc in
  let errs :=
    if Enabled r then
      let errs := if InitialBackoff r <=? 0
                  then errs ++ [InitialBackoffNotPositive procName] else errs in
      let errs := if MaxBackoff r <=? 0
                  then errs ++ [MaxBackoffNotPositive procName] else errs in
      let errs := if MaxBackoff r <? InitialBackoff r
                  then errs ++ [InitialAboveMax procName (InitialBackoff r) (MaxBackoff r)]
                  else errs in
      if (BackoffMultiplier r <? 1)%float
      then errs ++ [MultiplierBelowOne procName] else errs
    else errs in
  if decide (Command proc = "") then errs ++ [CommandRequired procName] else errs.

(** One entry of the loop of [applyDefaults]. *)
Definition applyDefaultsTo (proc : Process) : Process :=
  let defaults := DefaultRetryConfig in
  let r := Retry proc in
  {| Command := Command proc; DependsOn := DependsOn proc;
     Retry :=
       {| Enabled := Enabled r;
          MaxAttempts := if (MaxAttempts r =? 0) && negb (Enabled r)
                         then MaxAttempts defaults else MaxAttempts r;
          InitialBackoff := if InitialBackoff r =? 0
                            then InitialBackoff defaults else InitialBackoff r;
          MaxBackoff := if MaxBackoff r =? 0 then MaxBackoff defaults else MaxBackoff r;
          BackoffMultiplier := if (BackoffMultiplier r =? 0)%float
                               then BackoffMultiplier defaults
                               else BackoffMultiplier r |} |}.

(** [applyDefaults]; a [gmap] has no [nil], so the three [make] are left
    out. *)
Definition applyDefaults (cfg : ConfigFile) : ConfigFile :=
  {| Stacks := Stacks cfg; Groups := Groups cfg;
     Catalog := {| Processes := applyDefaultsTo <$> Processes (Catalog cfg) |} |}.

Section range.
Variable rangeKeys : gset string -> list string.

(** [detectCycles]: [nil], or the error "dependency cycle detected
    involving: ..." with the names it lists, the same message as the one of
    [DependencyGraph.Validate]. *)
Definition detectCycles (cfg : Config) : validation :=
  let procs := Processes cfg in
  let inDegree := foldl (fun deg name => <[name := 0]> deg) ∅ (rangeKeys (dom procs)) in
  let st :=
    foldl (fun st name =>
             foldl (countDependency procs name) st
                   (from_option DependsOn [] (procs !! name)))
          (inDegree, ∅) (rangeKeys (dom procs)) in
  let inDegree := st.1 in
  let dependents := st.2 in
  let queue :=
    filter (fun name => default 0 (inDegree !! name) = 0) (rangeKeys (dom inDegree)) in
  match cycleLoop dependents (size procs) inDegree queue 0 with
  | None => ValidateFuel
  | Some (inDegree, visited) =>
      if decide (visited = Z.of_nat (size procs)) then Valid
      else CycleInvolving
             (filter (fun name => 0 < default 0 (inDegree !! name))
                     (rangeKeys (dom inDegree)))
  end.

(** [Validate]: the messages in the order it collects them; [nil] is the
    empty list. *)
Definition Validate (cfg : ConfigFile) : list problem :=
  let procs := Processes (Catalog cfg) in
  let st := foldl (noteName "stack") ([], ∅) (rangeKeys (dom (Stacks cfg))) in
  let st := foldl (noteName "group") st (rangeKeys (dom (Groups cfg))) in
  let st := foldl (noteName "process") st (rangeKeys (dom procs)) in
  let errs := st.1 in
  let errs :=
    foldl (fun errs stackName =>
             foldl (fun errs groupName =>
                      if decide (is_Some (Groups cfg !! groupName)) then errs
                      else errs ++ [UndefinedGroup stackName groupName])
                   errs (from_option StackGroups [] (Stacks cfg !! stackName)))
          errs (rangeKeys (dom (Stacks cfg))) in
  let errs :=
    foldl (fun errs groupName =>
             foldl (fun errs procName =>
                      if decide (is_Some (procs !! procName)) then errs
                      else errs ++ [UndefinedProcess groupName procName])
                   errs (from_option GroupProcesses [] (Groups cfg !! groupName)))
          errs (rangeKeys (dom (Groups cfg))) in
  let errs :=
    foldl (fun errs procName =>
             foldl (fun errs dep =>
                      let errs := if decide (is_Some (procs !! dep)) then errs
                                  else errs ++ [UndefinedDependency procName dep] in
                      if decide (dep = procName) then errs ++ [SelfDependency procName]
                      else errs)
                   errs (from_option DependsOn [] (procs !! procName)))
          errs (rangeKeys (dom procs)) in
  let errs :=
    foldl (fun errs procName =>
             match procs !! procName with
             | Some proc => checkProcess errs procName proc
             | None => errs
             end)
          errs (rangeKeys (dom procs)) in
  match detectCycles (Catalog cfg) with
  | Valid => errs
  | CycleInvolving names => errs ++ [CycleDetected names]
  | ValidateFuel => errs ++ [CheckOutOfFuel]
  end.

End range.

End config_check.

(* ===================================================================== *)
(** * Part II: specifications and proofs *)
(* ===================================================================== *)

(** ** Retry policy *)

Module retry_spec.
Import config retry.

(** The constraints of the data model on a retry policy. *)
Definition valid_policy (cfg : RetryConfig) : Prop :=
  0 < InitialBackoff cfg /\ InitialBackoff cfg <= MaxBackoff cfg /\
  (1 <=? BackoffMultiplier cfg)%float = true.

(** [math.Pow] at the exponent 0, where Go documents the answer 1 for every
    base: the evaluations below are all at attempt 0. *)
Definition powAtZero (x y : float) : float := 1%float.

(** [math.Pow] at a natural exponent, by repeated multiplication: Go's
    answer wherever the products are exact, as they are for the powers of 2
    the examples use. *)
Fixpoint powNat (x : float) (n : nat) : float :=
  match n with
  | O => 1%float
  | S n => (x * powNat x n)%float
  end.

Definition powInt (x y : float) : float := powNat x (Z.to_nat (durationOf y)).

(** The spec's [cap = min(initial * mult^n, max)] at [n = 0], in
    nanoseconds. *)
Definition cap0 (cfg : RetryConfig) : Z := Z.min (InitialBackoff cfg) (MaxBackoff cfg).

(** A duration [d] within [[0.9 * cap, 1.1 * cap]]. *)
Definition in_band (d cap : Z) : Prop := 9 * cap <= 10 * d <= 11 * cap.

(** A policy of one nanosecond: the smallest the data model allows. *)
Definition one_ns : RetryConfig :=
  {| Enabled := true; MaxAttempts := 0; InitialBackoff := 1; MaxBackoff := 1;
     BackoffMultiplier := 1 |}.

Definition two_seconds : RetryConfig :=
  {| Enabled := true; MaxAttempts := 5;
     InitialBackoff := 2000000000; MaxBackoff := 60000000000;
     BackoffMultiplier := 2 |}.

Definition Hour : Z := 3600 * 1000000000.

(** A backoff of 2500000 hours: an [int64] of nanoseconds still. *)
Definition long_hours : RetryConfig :=
  {| Enabled := true; MaxAttempts := 0;
     InitialBackoff := 2500000 * Hour; MaxBackoff := 2500000 * Hour;
     BackoffMultiplier := 1 |}.

(** A backoff that is no binary64: [float64] rounds it to [10^18]. *)
Definition near_1e18 : RetryConfig :=
  {| Enabled := true; MaxAttempts := 0;
     InitialBackoff := 10 ^ 18 + 60; MaxBackoff := 10 ^ 18 + 60;
     BackoffMultiplier := 1 |}.

Lemma valid_policies :
  valid_policy one_ns /\ valid_policy two_seconds /\
  valid_policy long_hours /\ valid_policy near_1e18.
Proof. unfold valid_policy. repeat split; (reflexivity || (vm_compute; congruence)). Qed.

Lemma long_hours_int64 : MaxBackoff long_hours < 2 ^ 63.
Proof. reflexivity. Qed.

(** The two conversions at work: [float64] rounds to the nearest binary64,
    ties to even, as the conversion of the kernel's integers does;
    [time.Duration] truncates toward zero, and the largest [int64], which
    [float64] rounds up to [2^63], does not come back. *)
Example conversions :
  float64 (2 ^ 53 + 1) = 9007199254740992%float /\
  float64 (2 ^ 53 + 3) = 9007199254740996%float /\
  float64 (10 ^ 18 + 60) = 1e18%float /\
  float64 (- 3) = (- 3)%float /\
  durationOf (- 0x1.cp+1)%float = - 3 /\
  durationOf 0x1.cp+1%float = 3 /\
  durationOf nan = MinInt64 /\
  durationOf (float64 (2 ^ 63 - 1)) = MinInt64.
Proof. split_and!; reflexivity. Qed.

End retry_spec.

Module retry_claims.
Import config retry retry_spec.

(** C4: [shouldRetry] is [false] for a disabled policy; for an enabled one it
    is [true] at every attempt count when [MaxAttempts] is 0, and otherwise
    [true] exactly when the attempt count is below [MaxAttempts]. *)
Theorem shouldRetry_spec (n : Z) (cfg : RetryConfig) :
  0 <= n ->
  (Enabled cfg = false -> shouldRetry n cfg = false) /\
  (Enabled cfg = true -> MaxAttempts cfg = 0 -> shouldRetry n cfg = true) /\
  (Enabled cfg = true -> MaxAttempts cfg <> 0 ->
     (shouldRetry n cfg = true <-> n < MaxAttempts cfg)).
Proof.
  intros _. unfold shouldRetry. split; [|split].
  - intros ->. reflexivity.
  - intros -> ->. reflexivity.
  - intros -> Hm. simpl.
    destruct (Z.eqb_spec (MaxAttempts cfg) 0); [done|]. apply Z.ltb_lt.
Qed.

Lemma shouldRetry_spec_witness :
  shouldRetry 0 DefaultRetryConfig = false /\
  shouldRetry 7 one_ns = true /\
  (shouldRetry 2 two_seconds = true <-> 2 < MaxAttempts two_seconds).
Proof.
  split; [|split].
  - exact (proj1 (shouldRetry_spec 0 DefaultRetryConfig ltac:(lia)) eq_refl).
  - exact (proj1 (proj2 (shouldRetry_spec 7 one_ns ltac:(lia))) eq_refl eq_refl).
  - exact (proj2 (proj2 (shouldRetry_spec 2 two_seconds ltac:(lia)))
             eq_refl ltac:(discriminate)).
Defined.

(** The tests of [shouldRetry] within its limit, replayed. *)
Example shouldRetry_within_limit :
  let cfg := {| Enabled := true; MaxAttempts := 3; InitialBackoff := 0;
                MaxBackoff := 0; BackoffMultiplier := 0 |} in
  map (fun n => shouldRetry n cfg) [0; 1; 2; 3; 4] = [true; true; true; false; false].
Proof. reflexivity. Qed.

(** C5 fails on the code. At the one-nanosecond policy (attempt 0, draw 0)
    [base - jitter] is 0.9 and [time.Duration] truncates it to 0, while the
    band around [cap = 1] holds the duration 1 only. At a backoff of
    [10^18 + 60] ns, [float64] rounds the backoff to [10^18] and the draw 0
    gives [9 * 10^17], more than a nanosecond below [0.9 * cap]. *)
Theorem nextBackoff_outside_band :
  valid_policy one_ns /\
  nextBackoff powAtZero 0 0 one_ns = 0 /\
  cap0 one_ns = 1 /\
  ~ in_band (nextBackoff powAtZero 0 0 one_ns) (cap0 one_ns) /\
  valid_policy near_1e18 /\
  nextBackoff powAtZero 0 0 near_1e18 = 9 * 10 ^ 17 /\
  ~ in_band (nextBackoff powAtZero 0 0 near_1e18 + 1) (cap0 near_1e18).
Proof.
  pose proof valid_policies as (H1 & _ & _ & H4).
  split_and!; try done; vm_compute; intros [H _]; by apply H.
Qed.

(** C6 fails on the code. The one-nanosecond policy meets the constraints
    of the data model and [nextBackoff] returns the duration 0 (attempt 0,
    draw 0.25). At a backoff of 2500000 hours and the draw 0.75 the jittered
    value is above the largest [int64], and the conversion answers
    [MinInt64]. *)
Theorem nextBackoff_not_positive :
  valid_policy one_ns /\
  nextBackoff powAtZero 0.25 0 one_ns = 0 /\
  valid_policy long_hours /\
  nextBackoff powAtZero 0.75 0 long_hours = MinInt64 /\
  MinInt64 < 0.
Proof.
  pose proof valid_policies as (H1 & _ & H3 & _).
  split_and!; done.
Qed.

(** The upper side of the band is left as well: at a backoff of
    [10^18 + 70] ns and the largest draw below 1, the result is above
    [1.1 * max_backoff]. *)
Example nextBackoff_above_band :
  let cfg := {| Enabled := true; MaxAttempts := 0; InitialBackoff := 10 ^ 18 + 70;
                MaxBackoff := 10 ^ 18 + 70; BackoffMultiplier := 1 |} in
  (0x1.fffffffffffffp-1 <? 1)%float = true /\
  nextBackoff powAtZero 0x1.fffffffffffffp-1 0 cfg = 1100000000000000128 /\
  11 * MaxBackoff cfg < 10 * 1100000000000000128.
Proof. split_and!; reflexivity. Qed.

(** The tests of [nextBackoff], replayed at the ends of the jitter: attempt
    0 of a 2 s policy stays within 200 ms of 2 s, and attempt 10 of a policy
    capped at 10 s, where [math.Pow(2, 10)] is 1024, stays at or below 11 s. *)
Example nextBackoff_tests :
  let capped := {| Enabled := true; MaxAttempts := 10; InitialBackoff := 2000000000;
                   MaxBackoff := 10000000000; BackoffMultiplier := 2 |} in
  powInt 2 10 = 1024%float /\
  nextBackoff powAtZero 0 0 two_seconds = 1800000000 /\
  nextBackoff powAtZero 0x1.fffffffffffffp-1 0 two_seconds = 2200000000 /\
  nextBackoff powInt 0 10 capped = 9000000000 /\
  nextBackoff powInt 0x1.fffffffffffffp-1 10 capped = 11000000000.
Proof. split_and!; reflexivity. Qed.

End retry_claims.

(** ** Retry policy: further properties *)

Module retry_props.
Import config retry retry_spec.

(** X12: once [shouldRetry] refuses an attempt count it refuses every
    larger one; and an enabled policy with a negative [max_attempts] refuses
    every attempt count from 0 on. *)
Theorem shouldRetry_refusal_stays (n n' : Z) (cfg : RetryConfig) :
  n <= n' ->
  (shouldRetry n cfg = false -> shouldRetry n' cfg = false) /\
  (0 <= n -> MaxAttempts cfg < 0 -> shouldRetry n cfg = false).
Proof.
  intros Hn. unfold shouldRetry. destruct (Enabled cfg); simpl; [|done].
  destruct (Z.eqb_spec (MaxAttempts cfg) 0) as [H0|H0].
  - split; [done|lia].
  - split.
    + intros H. apply Z.ltb_ge in H. apply Z.ltb_ge. lia.
    + intros H1 H2. apply Z.ltb_ge. lia.
Qed.

Definition negative_budget : RetryConfig :=
  {| Enabled := true; MaxAttempts := -1; InitialBackoff := 1; MaxBackoff := 1;
     BackoffMultiplier := 1 |}.

Lemma shouldRetry_refusal_stays_witness :
  shouldRetry 9 two_seconds = false /\ shouldRetry 3 negative_budget = false.
Proof.
  split.
  - exact (proj1 (shouldRetry_refusal_stays 5 9 two_seconds ltac:(lia)) eq_refl).
  - exact (proj2 (shouldRetry_refusal_stays 3 3 negative_budget ltac:(lia))
             ltac:(lia) ltac:(simpl; lia)).
Defined.

End retry_props.

(** ** Ring buffer *)

Module logging_spec.
Import logging.

(** The buffer of capacity [c] after the writes [ws], oldest first. *)
Definition written (c : Z) (ws : list string) : RingBuffer :=
  foldl (fun rb w => WriteString w rb) (NewRingBuffer c) ws.

(** What the fields hold after the writes [ws]: slot [i mod c] holds write
    number [i] for each of the last [c] writes. *)
Record written_inv (c : Z) (ws : list string) (rb : RingBuffer) : Prop := {
  inv_size : size rb = c;
  inv_length : length (lines rb) = Z.to_nat c;
  inv_pos : pos rb = Z.of_nat (length ws) mod c;
  inv_count : count rb = Z.min (Z.of_nat (length ws)) c;
  inv_slots : forall i : nat,
    (i < length ws)%nat -> Z.of_nat (length ws) <= Z.of_nat i + c ->
    lines rb !! Z.to_nat (Z.of_nat i mod c) = ws !! i
}.

Lemma mod_slot_ne (c i k : Z) :
  0 < c -> 0 <= i < k -> k < i + c -> i mod c <> k mod c.
Proof.
  intros Hc Hik Hk Heq.
  assert ((k - i) mod c = 0) as H0.
  { rewrite Zminus_mod, Heq, Z.sub_diag. by apply Z.mod_0_l, Z.neq_sym, Z.lt_neq. }
  rewrite Z.mod_small in H0 by lia. lia.
Qed.

Lemma written_inv_new (c : Z) : 0 < c -> written_inv c [] (NewRingBuffer c).
Proof.
  intros Hc. unfold NewRingBuffer.
  destruct (Z.leb_spec c 0) as [?|_]; [lia|].
  split; simpl.
  - done.
  - by rewrite length_replicate.
  - by rewrite Z.mod_0_l by lia.
  - lia.
  - intros i Hi. lia.
Qed.

Lemma written_inv_step (c : Z) (ws : list string) (w : string) (rb : RingBuffer) :
  0 < c -> written_inv c ws rb -> written_inv c (ws ++ [w]) (WriteString w rb).
Proof.
  intros Hc [Hsz Hlen Hpos Hcnt Hslots].
  assert (0 <= Z.of_nat (length ws) mod c < c) as Hrange by (apply Z.mod_pos_bound; lia).
  split; simpl; rewrite ?length_app; simpl.
  - done.
  - by rewrite length_insert.
  - rewrite Hsz, Hpos, Z.rem_mod_nonneg by lia.
    rewrite Zplus_mod_idemp_l. f_equal. lia.
  - rewrite Hsz, Hcnt. destruct (Z.ltb_spec (Z.min (Z.of_nat (length ws)) c) c); lia.
  - intros i Hi Hic. rewrite Hpos.
    destruct (decide (i = length ws)) as [->|Hne].
    + rewrite list_lookup_insert_eq by lia.
      by rewrite lookup_app_r, Nat.sub_diag by lia.
    + rewrite list_lookup_insert_ne.
      * rewrite lookup_app_l by lia. apply Hslots; lia.
      * intros Heq. apply Z2Nat.inj in Heq; [|lia|apply Z.mod_pos_bound; lia].
        symmetry in Heq. revert Heq. apply mod_slot_ne; lia.
Qed.

Lemma written_snoc (c : Z) (ws : list string) (w : string) :
  written c (ws ++ [w]) = WriteString w (written c ws).
Proof. unfold written. by rewrite foldl_app. Qed.

Lemma written_inv_holds (c : Z) (ws : list string) :
  0 < c -> written_inv c ws (written c ws).
Proof.
  intros Hc. induction ws as [|w ws IH] using rev_ind.
  - by apply written_inv_new.
  - rewrite written_snoc. by apply written_inv_step.
Qed.

(** The store of [WriteString] is always in range. *)
Lemma written_pos_in_range (c : Z) (ws : list string) :
  0 < c ->
  0 <= pos (written c ws) /\ (Z.to_nat (pos (written c ws)) < length (lines (written c ws)))%nat.
Proof.
  intros Hc. destruct (written_inv_holds c ws Hc) as [_ Hlen Hpos _ _].
  rewrite Hlen, Hpos. pose proof (Z.mod_pos_bound (Z.of_nat (length ws)) c Hc). lia.
Qed.

Lemma Lines_all_inv (c : Z) (ws : list string) (rb : RingBuffer) :
  0 < c -> written_inv c ws rb ->
  All rb = drop (length ws - Z.to_nat (Z.min (Z.of_nat (length ws)) c)) ws.
Proof.
  intros Hc [Hsz Hlen Hpos Hcnt Hslots]. unfold All, Lines. simpl.
  rewrite Hcnt, Hsz, Hpos.
  set (k := length ws) in *. set (n := Z.min (Z.of_nat k) c).
  destruct (Z.eqb_spec n 0) as [Hn0|Hn0].
  { assert (k = 0%nat) as Hk by lia. destruct ws; [by rewrite drop_nil|done]. }
  assert (0 < n <= c) as Hn by lia.
  apply list_eq. intros j. rewrite list_lookup_fmap, lookup_drop.
  destruct (decide (j < Z.to_nat n)%nat) as [Hj|Hj].
  - rewrite lookup_seqZ_lt by lia. simpl.
    set (i := (k - Z.to_nat n + j)%nat).
    assert (Z.rem (Z.rem (Z.of_nat k mod c - n + c) c + (0 + Z.of_nat j)) c
            = Z.of_nat i mod c) as ->.
    { pose proof (Z.mod_pos_bound (Z.of_nat k) c Hc).
      rewrite (Z.rem_mod_nonneg (_ - n + c)) by lia.
      pose proof (Z.mod_pos_bound (Z.of_nat k mod c - n + c) c Hc).
      rewrite Z.rem_mod_nonneg by lia.
      rewrite Zplus_mod_idemp_l.
      replace (Z.of_nat k mod c - n + c + (0 + Z.of_nat j))
        with (Z.of_nat k mod c + (c - n + Z.of_nat j)) by lia.
      rewrite Zplus_mod_idemp_l.
      replace (Z.of_nat k + (c - n + Z.of_nat j)) with (Z.of_nat i + 1 * c) by lia.
      by rewrite Z_mod_plus_full. }
    assert (i < k)%nat as Hik by lia.
    destruct (lookup_lt_is_Some_2 ws i Hik) as [x Hx].
    rewrite Hx. f_equal. apply list_lookup_total_correct.
    rewrite Hslots; [done|lia|lia].
  - rewrite lookup_seqZ_ge by lia. simpl.
    symmetry. apply lookup_ge_None. lia.
Qed.

End logging_spec.

Module logging_claims.
Import logging logging_spec.

(** C8: after the writes [ws] (k of them) into a fresh buffer of capacity
    [c > 0], [All] returns the last [min k c] of them in insertion order and
    [Len] returns [min k c]. *)
Theorem ring_buffer_last_lines (c : Z) (ws : list string) :
  0 < c ->
  let k := length ws in
  let m := Z.to_nat (Z.min (Z.of_nat k) c) in
  All (written c ws) = drop (k - m) ws /\
  length (All (written c ws)) = m /\
  Len (written c ws) = Z.min (Z.of_nat k) c.
Proof.
  intros Hc k m. pose proof (written_inv_holds c ws Hc) as Hinv.
  rewrite (Lines_all_inv c ws _ Hc Hinv). fold k. fold m.
  split; [done|split].
  - rewrite length_drop. lia.
  - apply (inv_count _ _ _ Hinv).
Qed.

Lemma ring_buffer_last_lines_witness :
  All (written 3 ["1"; "2"; "3"; "4"; "5"]) = ["3"; "4"; "5"] /\
  length (All (written 3 ["1"; "2"; "3"; "4"; "5"])) = 3%nat /\
  Len (written 3 ["1"; "2"; "3"; "4"; "5"]) = 3.
Proof. apply (ring_buffer_last_lines 3 ["1"; "2"; "3"; "4"; "5"]). lia. Defined.

(** The ring buffer's tests, replayed on the embedding. *)
Example ring_write_and_read :
  All (written 5 ["line 1"; "line 2"; "line 3"]) = ["line 1"; "line 2"; "line 3"] /\
  Len (written 5 ["line 1"; "line 2"; "line 3"]) = 3.
Proof. split; reflexivity. Qed.

Example ring_overflow :
  All (written 3 ["1"; "2"; "3"; "4"; "5"]) = ["3"; "4"; "5"].
Proof. reflexivity. Qed.

Example ring_lines_n :
  Lines 2 (written 10 ["l1"; "l2"; "l3"; "l4"; "l5"]) = ["l4"; "l5"] /\
  length (Lines 10 (written 10 ["l1"; "l2"; "l3"; "l4"; "l5"])) = 5%nat.
Proof. split; reflexivity. Qed.

End logging_claims.

(** ** Ring buffer: further properties *)

Module logging_props.
Import logging logging_spec.

(** [Lines] copies the [m] newest slots, oldest first. *)
Lemma Lines_slots (c : Z) (ws : list string) (rb : RingBuffer) (m : Z) :
  0 < c -> written_inv c ws rb -> 0 < m <= Z.min (Z.of_nat (length ws)) c ->
  (fun i => lines rb !!! Z.to_nat (Z.rem (Z.rem (pos rb - m + size rb) (size rb) + i) (size rb)))
    <$> seqZ 0 m
  = drop (length ws - Z.to_nat m) ws.
Proof.
  intros Hc [Hsz Hlen Hpos Hcnt Hslots] Hm. rewrite Hsz, Hpos.
  set (k := length ws) in *.
  apply list_eq. intros j. rewrite list_lookup_fmap, lookup_drop.
  destruct (decide (j < Z.to_nat m)%nat) as [Hj|Hj].
  - rewrite lookup_seqZ_lt by lia. simpl.
    set (i := (k - Z.to_nat m + j)%nat).
    assert (Z.rem (Z.rem (Z.of_nat k mod c - m + c) c + (0 + Z.of_nat j)) c
            = Z.of_nat i mod c) as ->.
    { pose proof (Z.mod_pos_bound (Z.of_nat k) c Hc).
      rewrite (Z.rem_mod_nonneg (_ - m + c)) by lia.
      pose proof (Z.mod_pos_bound (Z.of_nat k mod c - m + c) c Hc).
      rewrite Z.rem_mod_nonneg by lia.
      rewrite Zplus_mod_idemp_l.
      replace (Z.of_nat k mod c - m + c + (0 + Z.of_nat j))
        with (Z.of_nat k mod c + (c - m + Z.of_nat j)) by lia.
      rewrite Zplus_mod_idemp_l.
      replace (Z.of_nat k + (c - m + Z.of_nat j)) with (Z.of_nat i + 1 * c) by lia.
      by rewrite Z_mod_plus_full. }
    assert (i < k)%nat as Hik by lia.
    destruct (lookup_lt_is_Some_2 ws i Hik) as [x Hx].
    rewrite Hx. f_equal. apply list_lookup_total_correct.
    rewrite Hslots; [done|lia|lia].
  - rewrite lookup_seqZ_ge by lia. simpl.
    symmetry. apply lookup_ge_None. lia.
Qed.

(** The number of lines [Lines(n)] settles on. *)
Definition effective (n cnt : Z) : Z :=
  if (n <=? 0) || (cnt <? n) then cnt else n.

Lemma Lines_inv (c n : Z) (ws : list string) (rb : RingBuffer) :
  0 < c -> written_inv c ws rb ->
  Lines n rb
  = drop (length ws - Z.to_nat (effective n (Z.min (Z.of_nat (length ws)) c))) ws.
Proof.
  intros Hc Hinv. unfold Lines. rewrite (inv_count _ _ _ Hinv). fold (effective n (Z.min (Z.of_nat (length ws)) c)).
  set (m := effective n (Z.min (Z.of_nat (length ws)) c)).
  assert (0 <= m <= Z.min (Z.of_nat (length ws)) c) as Hm.
  { unfold m, effective.
    destruct (Z.leb_spec n 0), (Z.ltb_spec (Z.min (Z.of_nat (length ws)) c) n); simpl; lia. }
  destruct (Z.eqb_spec m 0) as [H0|H0].
  - rewrite H0. replace (length ws - Z.to_nat 0)%nat with (length ws) by lia.
    by rewrite drop_all.
  - apply (Lines_slots c ws rb m Hc Hinv). lia.
Qed.

(** X8: after the writes [ws] into a fresh buffer of capacity [c > 0],
    [Lines(n)] returns the last [n] lines written, oldest first, when
    [0 < n <= Len()]; for [n <= 0] and for [n > Len()] it returns what [All]
    returns. *)
Theorem Lines_last (c n : Z) (ws : list string) :
  0 < c ->
  let rb := written c ws in
  (0 < n <= Len rb -> Lines n rb = drop (length ws - Z.to_nat n) ws) /\
  (n <= 0 \/ Len rb < n -> Lines n rb = All rb) /\
  Lines n rb `suffix_of` All rb.
Proof.
  intros Hc rb. pose proof (written_inv_holds c ws Hc) as Hinv. fold rb in Hinv.
  assert (Len rb = Z.min (Z.of_nat (length ws)) c) as HLen by apply (inv_count _ _ _ Hinv).
  unfold All. rewrite !(Lines_inv c _ ws rb Hc Hinv), HLen.
  set (cnt := Z.min (Z.of_nat (length ws)) c).
  assert (effective 0 cnt = cnt) as -> by done.
  split; [|split].
  - intros Hn. unfold effective.
    destruct (Z.leb_spec n 0), (Z.ltb_spec cnt n); simpl; try lia. done.
  - intros Hn. unfold effective.
    destruct (Z.leb_spec n 0), (Z.ltb_spec cnt n); simpl; try done. lia.
  - assert (0 <= effective n cnt <= cnt) as Hm.
    { unfold effective. destruct (Z.leb_spec n 0), (Z.ltb_spec cnt n); simpl; lia. }
    set (m := effective n cnt) in *.
    exists (take (Z.to_nat cnt - Z.to_nat m) (drop (length ws - Z.to_nat cnt) ws)).
    rewrite <- (take_drop (Z.to_nat cnt - Z.to_nat m) (drop (length ws - Z.to_nat cnt) ws)) at 1.
    f_equal. rewrite drop_drop. f_equal. lia.
Qed.

Lemma Lines_last_witness :
  let rb := written 3 ["1"; "2"; "3"; "4"; "5"] in
  (0 < 2 <= Len rb -> Lines 2 rb = drop (5 - Z.to_nat 2) ["1"; "2"; "3"; "4"; "5"]) /\
  (2 <= 0 \/ Len rb < 2 -> Lines 2 rb = All rb) /\
  Lines 2 rb `suffix_of` All rb.
Proof. apply (Lines_last 3 2 ["1"; "2"; "3"; "4"; "5"]). lia. Defined.

(** X9: a buffer asked for with a capacity of zero or less gets the default
    capacity of 1000 lines: it keeps the last [min k 1000] of [k] writes. *)
Theorem NewRingBuffer_default (c : Z) (ws : list string) :
  c <= 0 ->
  let k := length ws in
  let m := Z.to_nat (Z.min (Z.of_nat k) DefaultBufferSize) in
  All (written c ws) = drop (k - m) ws /\
  Len (written c ws) = Z.min (Z.of_nat k) DefaultBufferSize.
Proof.
  intros Hc k m.
  assert (written c ws = written DefaultBufferSize ws) as ->.
  { unfold written. f_equal. unfold NewRingBuffer.
    by destruct (Z.leb_spec c 0); [|lia]. }
  assert (0 < DefaultBufferSize) as Hpos by done.
  pose proof (written_inv_holds DefaultBufferSize ws Hpos) as Hinv.
  split; [by apply Lines_all_inv|]. apply (inv_count _ _ _ Hinv).
Qed.

Lemma NewRingBuffer_default_witness :
  All (written (-5) ["a"; "b"]) = drop (2 - Z.to_nat (Z.min 2 DefaultBufferSize)) ["a"; "b"] /\
  Len (written (-5) ["a"; "b"]) = Z.min 2 DefaultBufferSize.
Proof. apply (NewRingBuffer_default (-5) ["a"; "b"]). lia. Defined.

End logging_props.

(** ** Dependency graph *)

Module graph_spec.
Import config graph.
Local Open Scope nat_scope.

(** *** Catalogs and the relation they define *)

(** [depsOf cfg x]: the [depends_on] list of [x]; empty for an unknown name. *)
Definition depsOf (cfg : Config) (name : string) : list string :=
  from_option DependsOn [] (Processes cfg !! name).

(** [x] depends on [y]. *)
Definition dependsOn (cfg : Config) (x y : string) : Prop := y ∈ depsOf cfg x.

(** No process reaches itself along dependency edges. *)
Definition acyclic (cfg : Config) : Prop := forall x, ~ tc (dependsOn cfg) x x.

(** The closure of [targets] under forward edges. *)
Definition closure (cfg : Config) (targets : list string) (y : string) : Prop :=
  exists t, t ∈ targets /\ rtc (dependsOn cfg) t y.

(** [range] visits every key of the map once. *)
Definition fair_range (rangeKeys : gset string -> list string) : Prop :=
  forall s, rangeKeys s ≡ₚ elements s.

(** Number of occurrences of [x] in [l]. *)
Definition occ (x : string) (l : list string) : nat :=
  length (filter (fun y => y = x) l).

Lemma occ_nil x : occ x [] = 0%nat.
Proof. reflexivity. Qed.

Lemma occ_cons x y l : occ x (y :: l) = ((if decide (y = x) then 1 else 0) + occ x l)%nat.
Proof. unfold occ. rewrite filter_cons. by destruct (decide (y = x)). Qed.

Lemma occ_app x l1 l2 : occ x (l1 ++ l2) = (occ x l1 + occ x l2)%nat.
Proof. unfold occ. by rewrite filter_app, length_app. Qed.

Lemma occ_pos x l : (0 < occ x l)%nat <-> x ∈ l.
Proof.
  induction l as [|y l IH]; [rewrite occ_nil; split; [lia|by intros ?%elem_of_nil]|].
  rewrite occ_cons, elem_of_cons. destruct (decide (y = x)) as [->|Hne].
  - split; [by left|lia].
  - rewrite Nat.add_0_l, IH. split; [by right|]. intros [?|?]; [congruence|done].
Qed.

Lemma edges_elem_dom (m : gmap string (list string)) n x :
  x ∈ edges m n -> n ∈ dom m.
Proof.
  unfold edges. intros Hx. apply elem_of_dom.
  destruct (m !! n); [done|]. by apply elem_of_nil in Hx.
Qed.

(** *** What [NewDependencyGraph] builds *)

(** The two adjacency maps mirror each other, with multiplicity. *)
Definition mirrored (g : DependencyGraph) : Prop :=
  forall n d, occ n (edges (reverse g) d) = occ d (edges (forward g) n).

Lemma reverse_fold_occ (name : string) (deps : list string) (r : gmap string (list string)) n d :
  occ n (edges (foldl (fun r dep => <[dep := edges r dep ++ [name]]> r) r deps) d)
  = (occ n (edges r d) + if decide (name = n) then occ d deps else 0)%nat.
Proof.
  revert r. induction deps as [|dep deps IH]; intros r; simpl.
  - rewrite occ_nil. destruct (decide _); lia.
  - rewrite IH, occ_cons. unfold edges at 1.
    destruct (decide (dep = d)) as [->|Hne].
    + rewrite lookup_insert_eq. simpl. rewrite occ_app, occ_cons, occ_nil.
      destruct (decide (name = n)); lia.
    + rewrite lookup_insert_ne by done. fold (edges r d).
      destruct (decide (name = n)); lia.
Qed.

Lemma addProcess_fold (procs : gmap string Process) (ks : list string) (g0 : DependencyGraph) :
  NoDup ks ->
  let g := foldl (addProcess procs) g0 ks in
  (forall n, n ∈ ks -> forward g !! n = Some (from_option DependsOn [] (procs !! n))) /\
  (forall n, n ∉ ks -> forward g !! n = forward g0 !! n) /\
  nodes g = list_to_set ks ∪ nodes g0 /\
  (forall n d, occ n (edges (reverse g) d)
     = (occ n (edges (reverse g0) d)
        + if decide (n ∈ ks) then occ d (from_option DependsOn [] (procs !! n)) else 0)%nat).
Proof.
  revert g0. induction ks as [|k ks IH]; intros g0 Hnd; simpl.
  - split; [|split; [|split]].
    + by intros n ?%elem_of_nil.
    + done.
    + by rewrite (left_id_L ∅ (∪)).
    + intros n d. simpl. lia.
  - apply NoDup_cons in Hnd as [Hk Hnd].
    destruct (IH (addProcess procs g0 k) Hnd) as (Hf1 & Hf2 & Hn & Hr).
    split; [|split; [|split]].
    + intros n [->|Hin]%elem_of_cons; [|by apply Hf1].
      rewrite Hf2 by done. simpl. by rewrite lookup_insert_eq.
    + intros n [Hne Hnin]%not_elem_of_cons.
      rewrite Hf2 by done. simpl. by rewrite lookup_insert_ne.
    + rewrite Hn. simpl. set_solver.
    + intros n d. rewrite Hr. simpl. rewrite reverse_fold_occ.
      destruct (decide (k = n)) as [->|Hne].
      * rewrite decide_False by done. rewrite decide_True by (by left). lia.
      * destruct (decide (n ∈ ks)) as [Hin|Hnin].
        -- rewrite decide_True by (by right). lia.
        -- rewrite decide_False; [lia|]. intros [?|?]%elem_of_cons; congruence.
Qed.

Section built.
Variable rangeKeys : gset string -> list string.
Hypothesis rangeKeys_fair : fair_range rangeKeys.
Variable cfg : Config.

Local Abbreviation g := (NewDependencyGraph rangeKeys cfg).

Lemma rangeKeys_NoDup s : NoDup (rangeKeys s).
Proof using rangeKeys_fair. rewrite (rangeKeys_fair s). apply NoDup_elements. Qed.

Lemma rangeKeys_elem s x : x ∈ rangeKeys s <-> x ∈ s.
Proof using rangeKeys_fair. rewrite (rangeKeys_fair s). apply elem_of_elements. Qed.

Lemma built_forward n : edges (forward g) n = depsOf cfg n.
Proof using rangeKeys_fair.
  destruct (addProcess_fold (Processes cfg) (rangeKeys (dom (Processes cfg))) emptyGraph
              (rangeKeys_NoDup _)) as (Hf1 & Hf2 & _ & _).
  unfold edges, depsOf. unfold NewDependencyGraph.
  destruct (decide (n ∈ rangeKeys (dom (Processes cfg)))) as [Hin|Hnin].
  - by rewrite Hf1.
  - rewrite Hf2 by done. simpl. rewrite lookup_empty. simpl.
    rewrite rangeKeys_elem in Hnin. apply not_elem_of_dom in Hnin. by rewrite Hnin.
Qed.

Lemma built_nodes : nodes g = dom (Processes cfg).
Proof using rangeKeys_fair.
  destruct (addProcess_fold (Processes cfg) (rangeKeys (dom (Processes cfg))) emptyGraph
              (rangeKeys_NoDup _)) as (_ & _ & Hn & _).
  unfold NewDependencyGraph. rewrite Hn. simpl. apply set_eq. intros x.
  rewrite elem_of_union, elem_of_list_to_set, rangeKeys_elem. set_solver.
Qed.

Lemma built_mirrored : mirrored g.
Proof using rangeKeys_fair.
  intros n d.
  destruct (addProcess_fold (Processes cfg) (rangeKeys (dom (Processes cfg))) emptyGraph
              (rangeKeys_NoDup _)) as (_ & _ & _ & Hr).
  rewrite built_forward. unfold NewDependencyGraph. rewrite Hr. simpl.
  unfold edges at 1. rewrite lookup_empty. simpl. unfold depsOf.
  case_decide as Hnin; [done|].
  rewrite rangeKeys_elem in Hnin. apply not_elem_of_dom in Hnin.
  by rewrite Hnin.
Qed.

Lemma built_reverse n d : n ∈ edges (reverse g) d <-> dependsOn cfg n d.
Proof using rangeKeys_fair.
  unfold dependsOn. rewrite <- built_forward, <- !occ_pos. by rewrite built_mirrored.
Qed.

End built.

(** *** The depth-first search [walk] *)

Section dfs.
Variable adj : string -> list string.
Variable U : gset string.
Hypothesis adj_U : forall n d, d ∈ adj n -> d ∈ U.

Definition step (x y : string) : Prop := y ∈ adj x.

(** One iteration of the loop in [walk]. *)
Definition visit (fuel : nat) (st : gset string * list string) (dep : string) :=
  if decide (dep ∈ st.1) then st
  else walk adj fuel dep ({[dep]} ∪ st.1, st.2 ++ [dep]).

(** What a run from the state [(V, res)] to [st] has done, when it was
    started to explore the names [from]: it appended fresh names [new], each
    reachable from a name of [from], and every name it appended has all its
    successors marked. *)
Definition explored (from : list string) (V : gset string) (res : list string)
    (st : gset string * list string) : Prop :=
  exists new,
    st.2 = res ++ new /\ st.1 = V ∪ list_to_set new /\ NoDup new /\
    (forall y, y ∈ new -> y ∉ V) /\
    (forall y, y ∈ new -> exists d, d ∈ from /\ rtc step d y) /\
    (forall d, d ∈ from -> d ∈ st.1) /\
    (forall y, y ∈ new -> forall d, d ∈ adj y -> d ∈ st.1).

Definition walk_ok (fuel : nat) : Prop :=
  forall n V res, size (U ∖ V) <= fuel ->
    explored (adj n) V res (walk adj fuel n (V, res)).

Lemma size_unmarked_lt (V : gset string) (d : string) :
  d ∈ U -> d ∉ V -> size (U ∖ ({[d]} ∪ V)) < size (U ∖ V).
Proof.
  intros HdU HdV. apply subset_size. apply strict_spec_alt. split; [set_solver|].
  intros Heq. assert (d ∈ U ∖ V) as Hd by set_solver.
  rewrite <- Heq in Hd. set_solver.
Qed.

Lemma visit_fold_explored (fuel : nat) (l : list string) :
  walk_ok fuel -> (forall d, d ∈ l -> d ∈ U) ->
  forall V res, size (U ∖ V) <= S fuel ->
    explored l V res (foldl (visit fuel) (V, res) l).
Proof.
  intros IHf. induction l as [|d l IHl]; intros HlU V res Hsz; simpl.
  - exists []. rewrite app_nil_r. simpl.
    split; [done|]. split; [set_solver|]. split; [constructor|].
    split; [by intros y ?%elem_of_nil|]. split; [by intros y ?%elem_of_nil|].
    split; [by intros y ?%elem_of_nil|]. by intros y ?%elem_of_nil.
  - assert (forall d', d' ∈ l -> d' ∈ U) as HlU' by (intros; apply HlU; by right).
    unfold visit at 2. simpl. destruct (decide (d ∈ V)) as [HdV|HdV].
    + destruct (IHl HlU' V res Hsz) as (new & H2 & H1 & Hnd & Hfresh & Hreach & Hfrom & Hclosed).
      exists new. repeat (split; [done|]). split; [|split; [|done]].
      * intros y Hy. destruct (Hreach y Hy) as (d' & Hd' & Hr).
        exists d'. split; [by right|done].
      * intros d' [->|Hd']%elem_of_cons; [|by apply Hfrom]. rewrite H1. set_solver.
    + assert (d ∈ U) as HdU by (apply HlU; by left).
      pose proof (size_unmarked_lt V d HdU HdV) as Hlt.
      destruct (IHf d ({[d]} ∪ V) (res ++ [d]) ltac:(lia))
        as (new1 & H2 & H1 & Hnd1 & Hfresh1 & Hreach1 & Hfrom1 & Hclosed1).
      destruct (walk adj fuel d ({[d]} ∪ V, res ++ [d])) as [V1 res1] eqn:Hw.
      simpl in *. subst V1 res1.
      destruct (IHl HlU' ({[d]} ∪ V ∪ list_to_set new1) ((res ++ [d]) ++ new1))
        as (new2 & H2' & H1' & Hnd2 & Hfresh2 & Hreach2 & Hfrom2 & Hclosed2).
      { etrans; [|exact Hsz]. apply subseteq_size. set_solver. }
      exists (d :: new1 ++ new2).
      split; [by rewrite H2', <- !app_assoc|].
      split; [rewrite H1'; set_solver|].
      split.
      { apply NoDup_cons. split.
        - intros [Hd|Hd]%elem_of_app; [apply Hfresh1 in Hd|apply Hfresh2 in Hd]; set_solver.
        - apply NoDup_app. repeat split; try done.
          intros y Hy1 Hy2. apply Hfresh2 in Hy2. set_solver. }
      split.
      { intros y [->|[Hy|Hy]%elem_of_app]%elem_of_cons; [done| |].
        - apply Hfresh1 in Hy. set_solver.
        - apply Hfresh2 in Hy. set_solver. }
      split.
      { intros y [->|[Hy|Hy]%elem_of_app]%elem_of_cons.
        - exists d. split; [by left|done].
        - destruct (Hreach1 y Hy) as (d' & Hd' & Hr).
          exists d. split; [by left|]. by eapply rtc_l.
        - destruct (Hreach2 y Hy) as (d' & Hd' & Hr).
          exists d'. split; [by right|done]. }
      split.
      { intros d' [->|Hd']%elem_of_cons; [|by apply Hfrom2].
        rewrite H1'. set_solver. }
      intros y [->|[Hy|Hy]%elem_of_app]%elem_of_cons d' Hd'.
      * rewrite H1'. apply elem_of_union_l. by apply Hfrom1.
      * rewrite H1'. apply elem_of_union_l. by eapply Hclosed1.
      * by eapply Hclosed2.
Qed.

Lemma walk_spec (fuel : nat) : walk_ok fuel.
Proof using adj_U.
  induction fuel as [|fuel IH]; intros n V res Hsz.
  - simpl. exists []. rewrite app_nil_r. simpl.
    split; [done|]. split; [set_solver|]. split; [constructor|].
    split; [by intros y ?%elem_of_nil|]. split; [by intros y ?%elem_of_nil|].
    split; [|by intros y ?%elem_of_nil].
    intros d Hd. apply adj_U in Hd.
    assert (U ∖ V ≡ ∅) as Hempty by (apply size_empty_inv; lia).
    destruct (decide (d ∈ V)); [done|]. set_solver.
  - simpl. apply (visit_fold_explored fuel (adj n) IH); [by eauto|done].
Qed.

(** From the empty set, with fuel for every name, [walk] lists exactly the
    names reachable in one step or more, each once. *)
Lemma walk_reach (fuel : nat) (n : string) :
  size U <= fuel ->
  NoDup (walk adj fuel n (∅, [])).2 /\
  forall y, y ∈ (walk adj fuel n (∅, [])).2 <-> tc step n y.
Proof using adj_U.
  intros Hfuel.
  destruct (walk_spec fuel n ∅ []) as (new & H2 & H1 & Hnd & _ & Hreach & Hfrom & Hclosed).
  { etrans; [|exact Hfuel]. apply subseteq_size. set_solver. }
  rewrite H2. simpl. split; [done|]. intros y. split.
  - intros Hy. destruct (Hreach y Hy) as (d & Hd & Hr).
    eapply tc_rtc_r; [|done]. by apply tc_once.
  - assert (forall d, d ∈ adj n -> d ∈ new) as Hstart.
    { intros d Hd. apply Hfrom in Hd. rewrite H1 in Hd. set_solver. }
    assert (forall z, z ∈ new -> forall d, d ∈ adj z -> d ∈ new) as Hcl.
    { intros z Hz d Hd. pose proof (Hclosed z Hz d Hd) as Hin.
      rewrite H1 in Hin. set_solver. }
    clear -Hstart Hcl. intros Htc. revert Hstart.
    induction Htc as [x y Hxy|x z y Hxz _ IH]; intros Hstart.
    + by apply Hstart.
    + apply IH. intros d Hd. apply (Hcl z); [by apply Hstart|done].
Qed.

End dfs.

Lemma tc_flip_iff {A} (R : relation A) x y : tc (flip R) x y <-> tc R y x.
Proof.
  assert (forall (S : relation A) a b, tc (flip S) a b -> tc S b a) as Hhalf.
  { intros S a b H. induction H as [a b H|a b c H _ IH].
    - by apply tc_once.
    - eapply tc_r; [exact IH|exact H]. }
  split; [apply Hhalf|]. intros H. by apply (Hhalf (flip R)).
Qed.

(** *** The searches on a graph built from a catalog *)

Section built_search.
Variable rangeKeys : gset string -> list string.
Hypothesis rangeKeys_fair : fair_range rangeKeys.
Variable cfg : Config.

Local Abbreviation g := (NewDependencyGraph rangeKeys cfg).
Local Abbreviation names := (dom (forward g) ∪ dom (reverse g)).

Lemma forward_names n d : d ∈ edges (forward g) n -> d ∈ names.
Proof.
  intros Hd. apply elem_of_union_r.
  assert (n ∈ edges (reverse g) d) as Hn.
  { apply built_reverse; [done|]. unfold dependsOn. by rewrite <- (built_forward rangeKeys). }
  by eapply edges_elem_dom.
Qed.

Lemma reverse_names n d : d ∈ edges (reverse g) n -> d ∈ names.
Proof.
  intros Hd. apply elem_of_union_l.
  apply built_reverse in Hd; [|done]. unfold dependsOn in Hd.
  rewrite <- (built_forward rangeKeys) in Hd by done. by eapply edges_elem_dom.
Qed.

Lemma step_forward x y : step (edges (forward g)) x y <-> dependsOn cfg x y.
Proof. unfold step, dependsOn. by rewrite built_forward. Qed.

Lemma step_reverse x y : step (edges (reverse g)) x y <-> flip (dependsOn cfg) x y.
Proof. unfold step, flip. by apply built_reverse. Qed.

Lemma tc_iff {A} (R S : relation A) x y :
  (forall a b, R a b <-> S a b) -> tc R x y <-> tc S x y.
Proof.
  intros HRS. split; intros H; induction H as [a b H|a b c H _ IH].
  - apply tc_once. by apply HRS.
  - eapply tc_l; [|exact IH]. by apply HRS.
  - apply tc_once. by apply HRS.
  - eapply tc_l; [|exact IH]. by apply HRS.
Qed.

Lemma rtc_iff {A} (R S : relation A) x y :
  (forall a b, R a b <-> S a b) -> rtc R x y <-> rtc S x y.
Proof.
  intros HRS. split; intros H; induction H as [a|a b c H _ IH].
  - done.
  - eapply rtc_l; [|exact IH]. by apply HRS.
  - done.
  - eapply rtc_l; [|exact IH]. by apply HRS.
Qed.

Lemma Dependents_spec x :
  NoDup (Dependents g x) /\
  forall y, y ∈ Dependents g x <-> tc (dependsOn cfg) y x.
Proof.
  destruct (walk_reach (edges (reverse g)) names reverse_names (fuelOf g) x) as [Hnd Hiff];
    [done|].
  split; [done|]. intros y. unfold Dependents. rewrite Hiff.
  rewrite <- tc_flip_iff. apply tc_iff. intros a b. apply step_reverse.
Qed.

Lemma Dependencies_spec x :
  NoDup (Dependencies g x) /\
  forall y, y ∈ Dependencies g x <-> tc (dependsOn cfg) x y.
Proof.
  destruct (walk_reach (edges (forward g)) names forward_names (fuelOf g) x) as [Hnd Hiff];
    [done|].
  split; [done|]. intros y. unfold Dependencies. rewrite Hiff.
  apply tc_iff, step_forward.
Qed.

(** [collectDeps] is the same search as [walk] over [g.forward], entered
    one call earlier. *)
Lemma collectDeps_walk (g0 : DependencyGraph) (fuel : nat) :
  forall name R res,
    collectDeps g0 fuel name R
    = if decide (name ∈ R) then R
      else (walk (edges (forward g0)) fuel name ({[name]} ∪ R, res)).1.
Proof.
  induction fuel as [|fuel IH]; intros name R res; simpl;
    destruct (decide (name ∈ R)) as [Hin|Hnin]; try done.
  generalize (edges (forward g0) name). intros l.
  generalize ({[name]} ∪ R). intros V. revert V res.
  induction l as [|d l IHl]; intros V res; simpl; [done|].
  rewrite (IH d V (res ++ [d])).
  destruct (decide (d ∈ V)) as [HdV|HdV]; [apply IHl|].
  destruct (walk (edges (forward g0)) fuel d ({[d]} ∪ V, res ++ [d])) as [V1 res1].
  apply IHl.
Qed.

(** [X] contains the dependencies of each of its members. *)
Definition closed (X : gset string) : Prop :=
  forall y, y ∈ X -> forall d, dependsOn cfg y d -> d ∈ X.

Lemma collectDeps_spec (name : string) (R : gset string) :
  let R' := collectDeps g (fuelOf g) name R in
  R ⊆ R' /\ name ∈ R' /\
  (forall y, y ∈ R' -> y ∈ R \/ rtc (dependsOn cfg) name y) /\
  (closed R -> closed R').
Proof.
  simpl. rewrite (collectDeps_walk g (fuelOf g) name R []).
  destruct (decide (name ∈ R)) as [Hin|Hnin].
  { split; [done|]. split; [done|]. split; [by left|done]. }
  destruct (walk_spec (edges (forward g)) names forward_names (fuelOf g)
              name ({[name]} ∪ R) [])
    as (new & _ & H1 & _ & _ & Hreach & Hfrom & Hclosed).
  { unfold fuelOf. apply subseteq_size. set_solver. }
  rewrite H1 in Hfrom, Hclosed. rewrite H1. clear H1.
  assert (forall y, y ∈ new -> rtc (dependsOn cfg) name y) as Hreach'.
  { intros y Hy. destruct (Hreach y Hy) as (d & Hd & Hr).
    eapply rtc_l; [by apply step_forward|].
    eapply rtc_iff; [|exact Hr]. intros a b. symmetry. apply step_forward. }
  split; [set_solver|]. split; [set_solver|]. split.
  - intros y [[Hy|Hy]%elem_of_union|Hy]%elem_of_union.
    + apply elem_of_singleton in Hy as ->. by right.
    + by left.
    + right. apply Hreach'. by apply elem_of_list_to_set in Hy.
  - intros HR y [[Hy|Hy]%elem_of_union|Hy]%elem_of_union d Hd.
    + apply elem_of_singleton in Hy as ->. by apply Hfrom, step_forward.
    + pose proof (HR y Hy d Hd). set_solver.
    + apply elem_of_list_to_set in Hy. eapply Hclosed; [done|]. by apply step_forward.
Qed.

Lemma collectTargets_spec (targets : list string) :
  forall R, (forall t, t ∈ targets -> t ∈ nodes g) ->
  exists Q, collectTargets g targets R = Ok Q /\
    R ⊆ Q /\ (forall t, t ∈ targets -> t ∈ Q) /\
    (forall y, y ∈ Q -> y ∈ R \/ closure cfg targets y) /\
    (closed R -> closed Q).
Proof.
  induction targets as [|t ts IH]; intros R Hknown; simpl.
  - exists R. split; [done|]. split; [done|]. split; [by intros t ?%elem_of_nil|].
    split; [by left|done].
  - rewrite decide_True by (apply Hknown; by left).
    destruct (collectDeps_spec t R) as (Hsub & Ht & Hreach & Hcl).
    destruct (IH (collectDeps g (fuelOf g) t R)) as (Q & HQ & HsubQ & HtsQ & HreachQ & HclQ).
    { intros t' Ht'. apply Hknown. by right. }
    exists Q. split; [done|]. split; [set_solver|]. split; [|split].
    + intros t' [->|Ht']%elem_of_cons; [by apply HsubQ|by apply HtsQ].
    + intros y Hy. destruct (HreachQ y Hy) as [Hy'|(t' & Ht' & Hr)].
      * destruct (Hreach y Hy') as [?|Hr]; [by left|].
        right. exists t. split; [by left|done].
      * right. exists t'. split; [by right|done].
    + intros HR. by apply HclQ, Hcl.
Qed.

Lemma collectTargets_closure (targets : list string) :
  (forall t, t ∈ targets -> t ∈ nodes g) ->
  exists Q, collectTargets g targets ∅ = Ok Q /\ closed Q /\
    forall y, y ∈ Q <-> closure cfg targets y.
Proof.
  intros Hknown.
  destruct (collectTargets_spec targets ∅ Hknown) as (Q & HQ & _ & Hts & Hreach & Hcl).
  assert (closed Q) as HclQ by (apply Hcl; by intros y ?%elem_of_empty).
  exists Q. split; [done|]. split; [done|]. intros y. split.
  - intros Hy. destruct (Hreach y Hy) as [?%elem_of_empty|?]; done.
  - intros (t & Ht & Hr). apply Hts in Ht. clear -Ht Hr HclQ.
    induction Hr as [|a b c Hab _ IH]; [done|]. apply IH. by eapply HclQ.
Qed.

Lemma collectTargets_unknown (targets : list string) :
  forall R, (exists t, t ∈ targets /\ t ∉ nodes g) ->
  exists t, t ∈ targets /\ (t ∉ nodes g) /\
    collectTargets g targets R = Err (ErrUnknownProcess t).
Proof.
  induction targets as [|t ts IH]; intros R (u & Hu & Hun); simpl.
  - by apply elem_of_nil in Hu.
  - destruct (decide (t ∈ nodes g)) as [Hin|Hnin].
    + apply elem_of_cons in Hu as [->|Hu]; [done|].
      destruct (IH (collectDeps g (fuelOf g) t R)) as (t' & Ht' & Hn' & Heq); [by eauto|].
      exists t'. split; [by right|done].
    + exists t. split; [by left|done].
Qed.

End built_search.

(** *** Kahn's algorithm in [StartOrder] *)

Section kahn.
Variable g : DependencyGraph.
Variable Q : gset string.          (* [required] *)
Hypothesis g_mirrored : mirrored g.

(** [inDegree[n]]: the zero value for a missing key. *)
Definition degOf (deg : gmap string Z) (n : string) : Z := default 0%Z (deg !! n).

(** The required dependencies of [n] not yet in [order], with multiplicity. *)
Definition pending (order : list string) (n : string) : nat :=
  length (filter (fun d => d ∈ Q /\ d ∉ order) (edges (forward g) n)).

Lemma pending_snoc (order : list string) (node n : string) :
  node ∈ Q -> node ∉ order ->
  pending order n = pending (order ++ [node]) n + occ node (edges (forward g) n).
Proof.
  intros HQ Hnot. unfold pending. induction (edges (forward g) n) as [|d l IH]; [done|].
  rewrite !filter_cons, occ_cons.
  destruct (decide (d = node)) as [->|Hne].
  - rewrite decide_True by done. rewrite decide_False by (rewrite elem_of_app; set_solver).
    simpl. lia.
  - destruct (decide (d ∈ Q /\ d ∉ order)) as [[H1 H2]|Hn].
    + rewrite decide_True by (rewrite elem_of_app; set_solver). simpl. lia.
    + rewrite decide_False by (rewrite elem_of_app; set_solver). simpl. lia.
Qed.

Lemma pending_zero (order : list string) (n : string) :
  pending order n = 0 <->
  forall d, d ∈ edges (forward g) n -> d ∈ Q -> d ∈ order.
Proof.
  unfold pending. induction (edges (forward g) n) as [|d l IH].
  - split; [by intros _ d ?%elem_of_nil|done].
  - rewrite filter_cons. destruct (decide (d ∈ Q /\ d ∉ order)) as [[H1 H2]|Hn]; simpl.
    + split; [lia|]. intros H. exfalso. apply H2, H; [by left|done].
    + rewrite IH. split.
      * intros H d' [->|Hd']%elem_of_cons HQ; [|by apply H].
        destruct (decide (d ∈ order)); [done|]. exfalso. by apply Hn.
      * intros H d' Hd'. apply H. by right.
Qed.

(** The inner loop over [g.reverse[node]]. *)
Lemma release_fold (l : list string) :
  forall deg q,
  let st := foldl (release Q) (deg, q) l in
  (forall n, n ∈ Q -> degOf st.1 n = (degOf deg n - Z.of_nat (occ n l))%Z) /\
  exists pushed, st.2 = q ++ pushed /\ NoDup pushed /\
    forall n, n ∈ pushed <-> n ∈ Q /\ (0 < degOf deg n <= Z.of_nat (occ n l))%Z.
Proof.
  induction l as [|d l IH]; intros deg q; simpl.
  - split; [intros n _; rewrite occ_nil; lia|].
    exists []. rewrite app_nil_r. split; [done|]. split; [constructor|].
    intros n. rewrite occ_nil. split; [by intros ?%elem_of_nil|lia].
  - unfold release at 2 4. simpl. destruct (decide (d ∈ Q)) as [HdQ|HdQ].
    + rewrite lookup_insert_eq. simpl. fold (degOf deg d).
      set (deg1 := <[d := (degOf deg d - 1)%Z]> deg).
      assert (forall n, degOf deg1 n
                = if decide (d = n) then (degOf deg d - 1)%Z else degOf deg n) as Hdeg1.
      { intros n. unfold degOf, deg1. rewrite lookup_insert. by destruct (decide (d = n)). }
      destruct (Z.eqb_spec (degOf deg d - 1) 0) as [Hz|Hz]; simpl.
      * destruct (IH deg1 (q ++ [d])) as (Hd & pushed & Hq & Hnd & Hp).
        split.
        { intros n Hn. rewrite (Hd n Hn), Hdeg1, occ_cons.
          destruct (decide (d = n)) as [->|?]; lia. }
        exists (d :: pushed). split; [by rewrite Hq, <- app_assoc|]. split.
        { apply NoDup_cons. split; [|done]. rewrite Hp, Hdeg1, decide_True by done. lia. }
        intros n. rewrite elem_of_cons, Hp, Hdeg1, occ_cons.
        destruct (decide (d = n)) as [->|Hne].
        -- split; [intros [_|[? ?]]; split; try done; lia|]. intros [? ?]. by left.
        -- split; [intros [?|[? ?]]; [congruence|split; [done|lia]]|].
           intros [? ?]. right. split; [done|lia].
      * destruct (IH deg1 q) as (Hd & pushed & Hq & Hnd & Hp).
        split.
        { intros n Hn. rewrite (Hd n Hn), Hdeg1, occ_cons.
          destruct (decide (d = n)) as [->|?]; lia. }
        exists pushed. split; [done|]. split; [done|].
        intros n. rewrite Hp, Hdeg1, occ_cons.
        destruct (decide (d = n)) as [->|Hne]; [|split; intros [? ?]; split; try done; lia].
        split; intros [? ?]; split; try done; lia.
    + destruct (IH deg q) as (Hd & pushed & Hq & Hnd & Hp).
      split.
      { intros n Hn. rewrite (Hd n Hn), occ_cons.
        destruct (decide (d = n)) as [->|?]; [done|lia]. }
      exists pushed. split; [done|]. split; [done|].
      intros n. rewrite Hp, occ_cons.
      destruct (decide (d = n)) as [->|?]; [by split; intros [? ?]|].
      split; intros [? ?]; split; try done; lia.
Qed.

(** The loop invariant of [for len(queue) > 0]. *)
Record kahn_inv (deg : gmap string Z) (queue order : list string) : Prop := {
  k_nodup : NoDup (order ++ queue);
  k_required : forall n, n ∈ order ++ queue -> n ∈ Q;
  k_degree : forall n, n ∈ Q -> degOf deg n = Z.of_nat (pending order n);
  k_ready : forall n, n ∈ Q -> (n ∈ order ++ queue <-> pending order n = 0);
  k_sorted : forall i n d, order !! i = Some n -> d ∈ edges (forward g) n -> d ∈ Q ->
               exists j, j < i /\ order !! j = Some d
}.

Lemma kahn_inv_step deg node queue order :
  kahn_inv deg (node :: queue) order ->
  let st := foldl (release Q) (deg, queue) (edges (reverse g) node) in
  kahn_inv st.1 st.2 (order ++ [node]).
Proof.
  intros [Hnd Hreq Hdeg Hready Hsorted]. simpl.
  destruct (release_fold (edges (reverse g) node) deg queue) as (Hd & pushed & Hq & Hndp & Hp).
  assert (node ∈ Q) as HnodeQ by (apply Hreq; set_solver).
  assert (node ∉ order) as Hnode_order.
  { apply NoDup_app in Hnd as (_ & Hdisj & _). intros Hin. apply (Hdisj node Hin). by left. }
  assert (forall n, pending order n
            = pending (order ++ [node]) n + occ n (edges (reverse g) node)) as Hpend.
  { intros n. rewrite g_mirrored. by apply pending_snoc. }
  assert (forall n, n ∈ pushed <->
            n ∈ Q /\ 0 < pending order n /\ pending (order ++ [node]) n = 0) as Hp'.
  { intros n. rewrite Hp. split.
    - intros [HnQ Hrange]. rewrite (Hdeg n HnQ) in Hrange. pose proof (Hpend n).
      split; [done|lia].
    - intros (HnQ & H1 & H2). rewrite (Hdeg n HnQ). pose proof (Hpend n). split; [done|lia]. }
  rewrite Hq. split.
  - replace ((order ++ [node]) ++ queue ++ pushed)
      with ((order ++ node :: queue) ++ pushed) by (by rewrite <- !app_assoc).
    apply NoDup_app. split; [done|]. split; [|done].
    intros n Hn Hnp. apply Hp' in Hnp as (HnQ & Hpos & _).
    apply (Hready n HnQ) in Hn. lia.
  - intros n. rewrite <- app_assoc. simpl. rewrite !elem_of_app, elem_of_cons, elem_of_app.
    intros [?|[->|[?|Hnp]]]; [apply Hreq; set_solver|done|apply Hreq; set_solver|].
    by apply Hp' in Hnp as (? & _).
  - intros n HnQ. rewrite (Hd n HnQ), (Hdeg n HnQ). pose proof (Hpend n). lia.
  - intros n HnQ.
    assert (n ∈ (order ++ [node]) ++ queue ++ pushed <->
            n ∈ order ++ node :: queue \/ n ∈ pushed) as ->.
    { rewrite !elem_of_app, !elem_of_cons, elem_of_nil. tauto. }
    rewrite (Hready n HnQ), Hp'. pose proof (Hpend n). split.
    + intros [?|(_ & _ & ?)]; lia.
    + intros H0. destruct (decide (pending order n = 0)); [by left|].
      right. split; [done|]. lia.
  - intros i n d Hi Hdn HdQ.
    destruct (decide (i < length order)) as [Hlt|Hge].
    + rewrite lookup_app_l in Hi by done.
      destruct (Hsorted i n d Hi Hdn HdQ) as (j & Hj & Hjd).
      exists j. split; [done|]. rewrite lookup_app_l by lia. done.
    + assert (length (order ++ [node]) = S (length order)) as Hlen
        by (rewrite length_app; simpl; lia).
      pose proof (lookup_lt_Some _ _ _ Hi) as Hi'.
      assert (i = length order) as -> by lia.
      rewrite lookup_app_r, Nat.sub_diag in Hi by lia. simpl in Hi.
      injection Hi as <-.
      assert (pending order node = 0) as H0 by (apply Hready; [done|set_solver]).
      rewrite pending_zero in H0. specialize (H0 d Hdn HdQ).
      apply list_elem_of_lookup in H0 as [j Hj].
      exists j. split; [by eapply lookup_lt_Some|]. rewrite lookup_app_l; [done|].
      by eapply lookup_lt_Some.
Qed.

Lemma NoDup_length_le_size (l : list string) :
  NoDup l -> (forall x, x ∈ l -> x ∈ Q) -> length l <= size Q.
Proof.
  intros Hnd Hin. rewrite <- (size_list_to_set (C := gset string) l) by done.
  apply subseteq_size. intros x Hx. apply Hin. by apply elem_of_list_to_set in Hx.
Qed.

(** The loop always ends by emptying the queue, within the fuel. *)
Lemma kahnLoop_runs (fuel : nat) :
  forall deg queue order,
    kahn_inv deg queue order -> size Q <= fuel + length order ->
    exists deg' order', kahnLoop g Q fuel deg queue order = Some order' /\
      kahn_inv deg' [] order'.
Proof.
  induction fuel as [|fuel IH]; intros deg queue order Hinv Hfuel.
  - destruct queue as [|node queue]; simpl; [by eauto|].
    pose proof (NoDup_length_le_size _ (k_nodup _ _ _ Hinv) (k_required _ _ _ Hinv)) as Hlen.
    rewrite length_app in Hlen. simpl in *. lia.
  - destruct queue as [|node queue]; simpl; [by eauto|].
    apply IH; [by apply kahn_inv_step|]. rewrite length_app. simpl. lia.
Qed.

Lemma pending_nil (n : string) :
  Z.of_nat (pending [] n) = requiredDeps g Q n.
Proof.
  unfold pending, requiredDeps. f_equal. f_equal. apply list_filter_iff.
  intros d. split; [by intros [? _]|]. intros ?. split; [done|]. by intros ?%elem_of_nil.
Qed.

End kahn.

Lemma foldl_insert_lookup (f : string -> Z) (l : list string) :
  forall (m : gmap string Z) n,
    foldl (fun deg name => <[name := f name]> deg) m l !! n
    = if decide (n ∈ l) then Some (f n) else m !! n.
Proof.
  induction l as [|k l IH]; intros m n; simpl.
  - done.
  - rewrite IH. destruct (decide (n ∈ l)) as [Hin|Hnin].
    + by rewrite decide_True by (by right).
    + destruct (decide (k = n)) as [->|Hne].
      * rewrite lookup_insert_eq. by rewrite decide_True by (by left).
      * rewrite lookup_insert_ne by done.
        rewrite decide_False; [done|]. intros [?|?]%elem_of_cons; congruence.
Qed.

(** In a finite set of names, every member reaches one that has no
    dependency inside the set, unless the catalog has a cycle. *)
Lemma minimal_in (cfg : Config) (n : nat) :
  acyclic cfg ->
  forall (S : gset string) x, size S <= n -> x ∈ S ->
  exists m, m ∈ S /\ rtc (dependsOn cfg) x m /\
    forall y, y ∈ S -> ~ dependsOn cfg m y.
Proof.
  intros Hacyc. induction n as [|n IH]; intros S x Hsz Hx.
  - assert (S ≡ ∅) as HS by (apply size_empty_inv; lia). set_solver.
  - destruct (decide (Exists (fun y => y ∈ S) (depsOf cfg x))) as [Hex|Hno].
    + apply Exists_exists in Hex as (y & Hxy & Hy).
      assert (y <> x) as Hne.
      { intros ->. apply (Hacyc x). by apply tc_once. }
      destruct (IH (S ∖ {[x]}) y) as (m & Hm & Hym & Hmin).
      { assert (size S = size ({[x]} : gset string) + size (S ∖ {[x]})) as Hsize.
        { rewrite <- size_union by set_solver. f_equal.
          apply set_eq. intros z. destruct (decide (z = x)); set_solver. }
        rewrite size_singleton in Hsize. lia. }
      { set_solver. }
      exists m. split; [set_solver|]. split; [by eapply rtc_l|].
      intros z Hz Hmz. destruct (decide (z = x)) as [->|Hzx].
      * apply (Hacyc x). eapply tc_rtc_r; [|by apply rtc_once].
        eapply tc_rtc_r; [by apply tc_once|done].
      * apply (Hmin z); [set_solver|done].
    + exists x. split; [done|]. split; [done|].
      intros y Hy Hxy. apply Hno, Exists_exists. by exists y.
Qed.

(** *** [StartOrder] and [StopOrder] on a graph built from a catalog *)

(** [buildKeys] is the order in which [NewDependencyGraph] has visited the
    catalog, [rangeKeys] the order of the maps of the call at hand. *)
Section start_order.
Variable buildKeys : gset string -> list string.
Hypothesis buildKeys_fair : fair_range buildKeys.
Variable rangeKeys : gset string -> list string.
Hypothesis rangeKeys_fair : fair_range rangeKeys.
Variable cfg : Config.

Local Abbreviation g := (NewDependencyGraph buildKeys cfg).

(** The map [inDegree] and the first [queue] of [StartOrder]. *)
Definition inDegree0 (Q : gset string) : gmap string Z :=
  foldl (fun deg name => <[name := requiredDeps g Q name]> deg) ∅ (rangeKeys Q).

Definition queue0 (Q : gset string) : list string :=
  filter (fun name => default 0%Z (inDegree0 Q !! name) = 0%Z) (rangeKeys (dom (inDegree0 Q))).

Lemma inDegree0_lookup Q n :
  inDegree0 Q !! n = if decide (n ∈ Q) then Some (requiredDeps g Q n) else None.
Proof.
  unfold inDegree0. rewrite foldl_insert_lookup, lookup_empty.
  destruct (decide (n ∈ Q)) as [Hin|Hnin].
  - by rewrite decide_True by (by apply rangeKeys_elem).
  - by rewrite decide_False by (by rewrite rangeKeys_elem).
Qed.

Lemma inDegree0_dom Q : dom (inDegree0 Q) = Q.
Proof.
  apply set_eq. intros n. rewrite elem_of_dom, inDegree0_lookup.
  destruct (decide (n ∈ Q)); split; try done; by intros [? ?].
Qed.

Lemma kahn_inv_init Q : kahn_inv g Q (inDegree0 Q) (queue0 Q) [].
Proof.
  assert (forall n, n ∈ Q -> degOf (inDegree0 Q) n = Z.of_nat (pending g Q [] n)) as Hdeg.
  { intros n Hn. unfold degOf. rewrite inDegree0_lookup, decide_True by done.
    simpl. by rewrite pending_nil. }
  assert (forall n, n ∈ queue0 Q <-> n ∈ Q /\ pending g Q [] n = 0) as Hq.
  { intros n. unfold queue0. rewrite list_elem_of_filter, rangeKeys_elem by done.
    rewrite inDegree0_dom. split.
    - intros [H0 HQ]. split; [done|]. specialize (Hdeg n HQ). unfold degOf in Hdeg. lia.
    - intros [HQ H0]. split; [|done]. specialize (Hdeg n HQ). unfold degOf in Hdeg. lia. }
  split; simpl.
  - apply NoDup_filter. by apply rangeKeys_NoDup.
  - intros n Hn. by apply Hq in Hn as [? _].
  - done.
  - intros n Hn. rewrite Hq. tauto.
  - intros i n d Hi. by rewrite lookup_nil in Hi.
Qed.

Lemma StartOrder_unfold targets Q :
  collectTargets g targets ∅ = Ok Q ->
  StartOrder rangeKeys g targets
  = match kahnLoop g Q (size Q) (inDegree0 Q) (queue0 Q) [] with
    | None => Err ErrFuel
    | Some order => if decide (length order = size Q) then Ok order else Err ErrCycle
    end.
Proof. intros HQ. unfold StartOrder. by rewrite HQ. Qed.

Lemma collectTargets_err targets :
  forall R e, collectTargets g targets R = Err e -> exists t, e = ErrUnknownProcess t.
Proof.
  induction targets as [|t ts IH]; intros R e; simpl; [done|].
  destruct (decide (t ∈ nodes g)); [by apply IH|]. intros [= <-]. by eexists.
Qed.

(** The run of Kahn's loop in [StartOrder]: it ends, and what it returns is
    duplicate-free, inside [Q], and lists each name after its required
    dependencies. *)
Lemma kahn_result Q :
  exists order, kahnLoop g Q (size Q) (inDegree0 Q) (queue0 Q) [] = Some order /\
    NoDup order /\ (forall n, n ∈ order -> n ∈ Q) /\
    (forall n, n ∈ Q -> (n ∈ order <-> pending g Q order n = 0)) /\
    (forall i n d, order !! i = Some n -> d ∈ edges (forward g) n -> d ∈ Q ->
       exists j, j < i /\ order !! j = Some d).
Proof.
  destruct (kahnLoop_runs g Q (built_mirrored buildKeys buildKeys_fair cfg) (size Q)
              (inDegree0 Q) (queue0 Q) [] (kahn_inv_init Q))
    as (deg' & order & Hrun & [Hnd Hreq _ Hready Hsorted]); [simpl; lia|].
  rewrite app_nil_r in Hnd. exists order. split; [done|]. split; [done|].
  split; [|split; [|done]].
  - intros n Hn. apply Hreq. by rewrite app_nil_r.
  - intros n Hn. rewrite <- (Hready n Hn). by rewrite app_nil_r.
Qed.

(** The model never runs out of fuel. *)
Lemma StartOrder_fuel targets : StartOrder rangeKeys g targets <> Err ErrFuel.
Proof.
  destruct (collectTargets g targets ∅) as [Q|e] eqn:HQ.
  - rewrite (StartOrder_unfold targets Q HQ).
    destruct (kahn_result Q) as (order & -> & _). by destruct (decide _).
  - unfold StartOrder. rewrite HQ.
    destruct (collectTargets_err _ _ _ HQ) as [t ->]. done.
Qed.

(** Whatever [StartOrder] returns is a topological order of the closure. *)
Lemma StartOrder_sound targets order :
  StartOrder rangeKeys g targets = Ok order ->
  NoDup order /\
  (forall y, y ∈ order <-> closure cfg targets y) /\
  (forall i n d, order !! i = Some n -> dependsOn cfg n d -> closure cfg targets d ->
     exists j, j < i /\ order !! j = Some d).
Proof.
  intros Hok.
  destruct (decide (Forall (fun t => t ∈ nodes g) targets)) as [Hknown|Hunk].
  2:{ apply not_Forall_Exists in Hunk; [|apply _]. apply Exists_exists in Hunk.
      destruct (collectTargets_unknown buildKeys cfg targets ∅ Hunk) as (t & _ & _ & Herr).
      unfold StartOrder in Hok. by rewrite Herr in Hok. }
  rewrite Forall_forall in Hknown.
  destruct (collectTargets_closure buildKeys buildKeys_fair cfg targets Hknown)
    as (Q & HQ & Hcl & Hclosure).
  rewrite (StartOrder_unfold targets Q HQ) in Hok.
  destruct (kahn_result Q) as (order' & Hrun & Hnd & Hin & _ & Hsorted).
  rewrite Hrun in Hok. destruct (decide (length order' = size Q)) as [Hlen|]; [|done].
  injection Hok as ->.
  assert (list_to_set order = Q) as Hset.
  { apply set_subseteq_size_eq.
    - intros y Hy. apply Hin. by apply elem_of_list_to_set in Hy.
    - rewrite size_list_to_set by done. lia. }
  assert (forall y, y ∈ order <-> y ∈ Q) as Hmem.
  { intros y. rewrite <- Hset. by rewrite elem_of_list_to_set. }
  split; [done|]. split.
  - intros y. by rewrite Hmem, Hclosure.
  - intros i n d Hi Hnd' Hd. apply (Hsorted i n d Hi).
    + by rewrite built_forward.
    + by apply Hclosure.
Qed.

(** Without a cycle the loop lists all of [Q]. *)
Lemma StartOrder_complete targets :
  acyclic cfg -> (forall t, t ∈ targets -> t ∈ nodes g) ->
  exists order, StartOrder rangeKeys g targets = Ok order.
Proof.
  intros Hacyc Hknown.
  destruct (collectTargets_closure buildKeys buildKeys_fair cfg targets Hknown)
    as (Q & HQ & Hcl & _).
  rewrite (StartOrder_unfold targets Q HQ).
  destruct (kahn_result Q) as (order & -> & Hnd & Hin & Hready & _).
  exists order. rewrite decide_True; [done|].
  assert (Q ⊆ list_to_set order) as Hall.
  { intros x Hx. apply elem_of_list_to_set.
    destruct (decide (x ∈ order)) as [|Hnot]; [done|]. exfalso.
    destruct (minimal_in cfg (size (Q ∖ list_to_set order)) Hacyc
                (Q ∖ list_to_set order) x) as (m & Hm & _ & Hmin);
      [done|by rewrite elem_of_difference, elem_of_list_to_set|].
    apply elem_of_difference in Hm as [HmQ Hmo]. rewrite elem_of_list_to_set in Hmo.
    apply Hmo, (Hready m HmQ), pending_zero. intros d Hd HdQ.
    destruct (decide (d ∈ order)) as [|Hdo]; [done|]. exfalso.
    apply (Hmin d).
    - by rewrite elem_of_difference, elem_of_list_to_set.
    - unfold dependsOn. by rewrite <- (built_forward buildKeys). }
  apply Nat.le_antisymm.
  - by apply NoDup_length_le_size.
  - rewrite <- (size_list_to_set (C := gset string) order) by done.
    by apply subseteq_size.
Qed.

End start_order.

(** The swap loop reverses the slice between its two indices. *)
Lemma reverseInPlace_middle (fuel : nat) :
  forall (p m s : list string),
    length m <= 2 * fuel ->
    reverseInPlace fuel (Z.of_nat (length p)) (Z.of_nat (length p + length m) - 1)
      (p ++ m ++ s)
    = p ++ rev m ++ s.
Proof.
  induction fuel as [|fuel IH]; intros p m s Hfuel; simpl.
  - destruct m; [done|simpl in Hfuel; lia].
  - destruct (Z.ltb_spec (Z.of_nat (length p)) (Z.of_nat (length p + length m) - 1))
      as [Hlt|Hge].
    + destruct m as [|a m]; [simpl in Hlt; lia|].
      destruct (exists_last (l := m)) as (m' & b & ->); [intros ->; simpl in Hlt; lia|].
      rewrite length_cons, length_app in Hlt, Hfuel. simpl in Hlt, Hfuel.
      rewrite length_cons, length_app. simpl length.
      set (i := Z.to_nat (Z.of_nat (length p))).
      set (j := Z.to_nat (Z.of_nat (length p + S (length m' + 1)) - 1)).
      assert (i = length p) as Hi by (unfold i; lia).
      assert (j = length (p ++ b :: m')) as Hj
        by (unfold j; rewrite length_app; simpl; lia).
      assert (p ++ (a :: m' ++ [b]) ++ s = (p ++ a :: m') ++ b :: s) as Hshape
        by (by rewrite <- ?app_assoc; simpl; rewrite <- ?app_assoc).
      assert ((p ++ (a :: m' ++ [b]) ++ s) !!! i = a) as ->.
      { apply list_lookup_total_middle. done. }
      assert ((p ++ (a :: m' ++ [b]) ++ s) !!! j = b) as ->.
      { rewrite Hshape. apply list_lookup_total_middle.
        rewrite Hj, !length_app. simpl. lia. }
      assert (<[j:=a]> (<[i:=b]> (p ++ (a :: m' ++ [b]) ++ s))
              = (p ++ [b]) ++ m' ++ (a :: s)) as ->.
      { rewrite Hi. replace (length p) with (length p + 0) by lia.
        rewrite insert_app_r. simpl.
        replace (p ++ b :: (m' ++ [b]) ++ s) with ((p ++ b :: m') ++ b :: s)
          by (by rewrite <- ?app_assoc; simpl; rewrite <- ?app_assoc).
        rewrite Hj. replace (length (p ++ b :: m')) with (length (p ++ b :: m') + 0) by lia.
        rewrite insert_app_r. simpl. by rewrite <- !app_assoc. }
      replace (Z.of_nat (length p) + 1)%Z with (Z.of_nat (length (p ++ [b])))
        by (rewrite length_app; simpl; lia).
      replace (Z.of_nat (length p + S (length m' + 1)) - 1 - 1)%Z
        with (Z.of_nat (length (p ++ [b]) + length m') - 1)%Z
        by (rewrite length_app; simpl; lia).
      rewrite IH by lia.
      simpl. rewrite rev_app_distr. simpl. by rewrite <- !app_assoc.
    + destruct m as [|a [|b m]]; [done|done|].
      simpl in Hge. lia.
Qed.

Lemma reverseInPlace_rev (order : list string) :
  reverseInPlace (length order) 0 (Z.of_nat (length order) - 1) order = rev order.
Proof.
  pose proof (reverseInPlace_middle (length order) [] order []) as H.
  simpl in H. rewrite !app_nil_r in H. apply H. lia.
Qed.

(** [StopOrder] runs [StartOrder] and reverses what it gets. *)
Lemma StopOrder_unfold (rangeKeys : gset string -> list string) (g : DependencyGraph)
    (targets : list string) :
  StopOrder rangeKeys g targets
  = match StartOrder rangeKeys g targets with
    | Ok order => Ok (rev order)
    | Err e => Err e
    end.
Proof.
  unfold StopOrder. destruct (StartOrder rangeKeys g targets); [|done].
  f_equal. apply reverseInPlace_rev.
Qed.

End graph_spec.

Module graph_claims.
Import config graph graph_spec.
Local Open Scope nat_scope.

(** Catalogs of the tests and of the spec's scenarios. *)
Definition retry3 : RetryConfig :=
  {| Enabled := true; MaxAttempts := 3; InitialBackoff := 2000000000;
     MaxBackoff := 60000000000; BackoffMultiplier := 2 |}.

Definition proc (deps : list string) : Process :=
  {| Command := "sleep 3600"; DependsOn := deps; Retry := retry3 |}.

(** A; B depends on A; C depends on B. *)
Definition chain : Config :=
  {| Processes := <["A" := proc []]> (<["B" := proc ["A"]]> (<["C" := proc ["B"]]> ∅)) |}.

(** A; B and C depend on A; D depends on B and C. *)
Definition diamond : Config :=
  {| Processes := <["A" := proc []]> (<["B" := proc ["A"]]>
                  (<["C" := proc ["A"]]> (<["D" := proc ["B"; "C"]]> ∅))) |}.

(** A depends on C, B on A, C on B. *)
Definition cycle3 : Config :=
  {| Processes := <["A" := proc ["C"]]> (<["B" := proc ["A"]]> (<["C" := proc ["B"]]> ∅)) |}.

Lemma elements_fair : fair_range elements.
Proof. intros s. reflexivity. Qed.

(** A rank that drops along every edge rules cycles out. *)
Definition ranked (cfg : Config) (rank : string -> nat) : Prop :=
  map_Forall (fun x p => Forall (fun y => rank y < rank x) (DependsOn p)) (Processes cfg).

Lemma ranked_acyclic (cfg : Config) (rank : string -> nat) :
  ranked cfg rank -> acyclic cfg.
Proof.
  intros Hr.
  assert (forall x y, dependsOn cfg x y -> rank y < rank x) as Hstep.
  { intros x y. unfold dependsOn, depsOf. destruct (Processes cfg !! x) as [p|] eqn:Hp; simpl.
    - intros Hy. specialize (Hr x p Hp). simpl in Hr. rewrite Forall_forall in Hr. by apply Hr.
    - by intros ?%elem_of_nil. }
  assert (forall x y, tc (dependsOn cfg) x y -> rank y < rank x) as Htc.
  { intros x y H. induction H as [x y H|x y z H _ IH]; [by apply Hstep|].
    apply Hstep in H. lia. }
  intros x Hx. apply Htc in Hx. lia.
Qed.

Definition diamond_rank (s : string) : nat :=
  if String.eqb s "D" then 2 else if String.eqb s "B" || String.eqb s "C" then 1 else 0.

Lemma diamond_acyclic : acyclic diamond.
Proof.
  apply (ranked_acyclic diamond diamond_rank).
  unfold ranked. apply (bool_decide_unpack _). vm_compute. exact I.
Qed.

(** C3: on a graph built from a catalog without cycles, [StartOrder] of
    targets that are all known returns a list without repetition whose
    members are exactly the closure of the targets under dependency edges,
    and in which every process comes after each of its dependencies that
    lies in the closure; with an unknown target it fails with the error
    "unknown process". *)
Theorem StartOrder_topological (rangeKeys : gset string -> list string)
    (cfg : Config) (targets : list string) :
  fair_range rangeKeys -> acyclic cfg ->
  let g := NewDependencyGraph rangeKeys cfg in
  ((forall t, t ∈ targets -> t ∈ nodes g) ->
     exists order, StartOrder rangeKeys g targets = Ok order /\
       NoDup order /\
       (forall y, y ∈ order <-> closure cfg targets y) /\
       (forall i n d, order !! i = Some n -> dependsOn cfg n d -> closure cfg targets d ->
          exists j, j < i /\ order !! j = Some d)) /\
  ((exists t, t ∈ targets /\ t ∉ nodes g) ->
     exists t, t ∈ targets /\ (t ∉ nodes g) /\
       StartOrder rangeKeys g targets = Err (ErrUnknownProcess t)).
Proof.
  intros Hfair Hacyc g. split.
  - intros Hknown.
    destruct (StartOrder_complete rangeKeys Hfair rangeKeys Hfair cfg targets Hacyc Hknown)
      as [order Hok].
    exists order. split; [done|]. by apply (StartOrder_sound rangeKeys Hfair rangeKeys Hfair cfg).
  - intros Hunk.
    destruct (collectTargets_unknown rangeKeys cfg targets ∅ Hunk) as (t & Ht & Hn & Herr).
    exists t. split; [done|]. split; [done|]. unfold StartOrder, g. by rewrite Herr.
Qed.

Lemma StartOrder_topological_witness :
  exists order,
    StartOrder elements (NewDependencyGraph elements diamond) ["D"] = Ok order /\
    NoDup order /\
    (forall y, y ∈ order <-> closure diamond ["D"] y) /\
    (forall i n d, order !! i = Some n -> dependsOn diamond n d ->
       closure diamond ["D"] d -> exists j, j < i /\ order !! j = Some d).
Proof.
  apply (StartOrder_topological elements diamond ["D"] elements_fair diamond_acyclic).
  intros t Ht. apply elem_of_cons in Ht as [->|Ht]; [|by apply elem_of_nil in Ht].
  rewrite (built_nodes elements elements_fair diamond).
  apply elem_of_dom. eexists. reflexivity.
Defined.

(** [dependency_test.go] replayed, with [range] in the order of [elements]. *)
Example StartOrder_linear_chain :
  StartOrder elements (NewDependencyGraph elements chain) ["C"] = Ok ["A"; "B"; "C"].
Proof. vm_compute. reflexivity. Qed.

Example StartOrder_diamond :
  StartOrder elements (NewDependencyGraph elements diamond) ["D"] = Ok ["A"; "C"; "B"; "D"].
Proof. vm_compute. reflexivity. Qed.

Example StartOrder_unknown_target :
  StartOrder elements (NewDependencyGraph elements diamond) ["nonexistent"]
  = Err (ErrUnknownProcess "nonexistent").
Proof. vm_compute. reflexivity. Qed.

Example StartOrder_cycle :
  StartOrder elements (NewDependencyGraph elements cycle3) ["A"] = Err ErrCycle.
Proof. vm_compute. reflexivity. Qed.

Example StopOrder_linear_chain :
  StopOrder elements (NewDependencyGraph elements chain) ["C"] = Ok ["C"; "B"; "A"].
Proof. vm_compute. reflexivity. Qed.

(** C9: on a graph built from a catalog, [y] is a dependent of [x] exactly
    when [x] is a dependency of [y]; [Dependents x] lists the transitive
    closure of the reverse edges from [x], and [Dependencies x] that of the
    forward edges. *)
Theorem dependents_dependencies (rangeKeys : gset string -> list string)
    (cfg : Config) (x y : string) :
  fair_range rangeKeys ->
  let g := NewDependencyGraph rangeKeys cfg in
  (y ∈ Dependents g x <-> x ∈ Dependencies g y) /\
  (y ∈ Dependents g x <-> tc (flip (dependsOn cfg)) x y) /\
  (y ∈ Dependencies g x <-> tc (dependsOn cfg) x y).
Proof.
  intros Hfair g.
  destruct (Dependents_spec rangeKeys Hfair cfg x) as [_ Hdx].
  destruct (Dependencies_spec rangeKeys Hfair cfg y) as [_ Hdy].
  destruct (Dependencies_spec rangeKeys Hfair cfg x) as [_ Hdx'].
  split; [|split].
  - unfold g. by rewrite Hdx, Hdy.
  - unfold g. by rewrite Hdx, tc_flip_iff.
  - apply Hdx'.
Qed.

Lemma dependents_dependencies_witness :
  let g := NewDependencyGraph elements diamond in
  ("D" ∈ Dependents g "A" <-> "A" ∈ Dependencies g "D") /\
  ("D" ∈ Dependents g "A" <-> tc (flip (dependsOn diamond)) "A" "D") /\
  ("D" ∈ Dependencies g "A" <-> tc (dependsOn diamond) "A" "D").
Proof. apply (dependents_dependencies elements diamond "A" "D"). exact elements_fair. Defined.

Example Dependents_transitive :
  Dependents (NewDependencyGraph elements chain) "A" = ["B"; "C"].
Proof. vm_compute. reflexivity. Qed.

Example Dependencies_transitive :
  Dependencies (NewDependencyGraph elements chain) "C" = ["B"; "A"].
Proof. vm_compute. reflexivity. Qed.

Example Dependents_leaf :
  Dependents (NewDependencyGraph elements chain) "C" = [].
Proof. vm_compute. reflexivity. Qed.

End graph_claims.

(** ** Dependency graph: further properties *)

Module graph_props.
Import config graph graph_spec graph_claims.
Local Open Scope nat_scope.

Lemma closure_step (cfg : Config) (targets : list string) (x y : string) :
  closure cfg targets x -> dependsOn cfg x y -> closure cfg targets y.
Proof.
  intros (t & Ht & Hr) Hxy. exists t. split; [done|]. by eapply rtc_r.
Qed.

Lemma closure_tc (cfg : Config) (targets : list string) (x y : string) :
  closure cfg targets x -> tc (dependsOn cfg) x y -> closure cfg targets y.
Proof.
  intros Hx Htc. induction Htc as [x y H|x y z H _ IH].
  - by eapply closure_step.
  - apply IH. by eapply closure_step.
Qed.

Lemma depsOf_known (cfg : Config) (x y : string) :
  dependsOn cfg x y -> x ∈ dom (Processes cfg).
Proof.
  unfold dependsOn, depsOf. intros H. apply elem_of_dom.
  destruct (Processes cfg !! x); [done|]. by apply elem_of_nil in H.
Qed.

(** In a finite set without a cycle through its members, every member
    reaches one that has no dependency inside the set. *)
Lemma minimal_within (cfg : Config) (S0 : gset string) (n : nat) :
  (forall x, x ∈ S0 -> ~ tc (dependsOn cfg) x x) ->
  forall (S : gset string) x, S ⊆ S0 -> size S <= n -> x ∈ S ->
  exists m, m ∈ S /\ rtc (dependsOn cfg) x m /\
    forall y, y ∈ S -> ~ dependsOn cfg m y.
Proof.
  intros Hacyc. induction n as [|n IH]; intros S x Hsub Hsz Hx.
  - assert (S ≡ ∅) as HS by (apply size_empty_inv; lia). set_solver.
  - destruct (decide (Exists (fun y => y ∈ S) (depsOf cfg x))) as [Hex|Hno].
    + apply Exists_exists in Hex as (y & Hxy & Hy).
      assert (y <> x) as Hne.
      { intros ->. apply (Hacyc x); [by apply Hsub|]. by apply tc_once. }
      destruct (IH (S ∖ {[x]}) y) as (m & Hm & Hym & Hmin).
      { set_solver. }
      { assert (size S = size ({[x]} : gset string) + size (S ∖ {[x]})) as Hsize.
        { rewrite <- size_union by set_solver. f_equal.
          apply set_eq. intros z. destruct (decide (z = x)); set_solver. }
        rewrite size_singleton in Hsize. lia. }
      { set_solver. }
      exists m. split; [set_solver|]. split; [by eapply rtc_l|].
      intros z Hz Hmz. destruct (decide (z = x)) as [->|Hzx].
      * apply (Hacyc x); [by apply Hsub|]. eapply tc_rtc_r; [|by apply rtc_once].
        eapply tc_rtc_r; [by apply tc_once|done].
      * apply (Hmin z); [set_solver|done].
    + exists x. split; [done|]. split; [done|].
      intros y Hy Hxy. apply Hno, Exists_exists. by exists y.
Qed.

Section built_props.
Variable buildKeys : gset string -> list string.
Hypothesis buildKeys_fair : fair_range buildKeys.
Variable rangeKeys : gset string -> list string.
Hypothesis rangeKeys_fair : fair_range rangeKeys.
Variable cfg : Config.

Local Abbreviation g := (NewDependencyGraph buildKeys cfg).

Lemma built_forward_dom : dom (forward g) = dom (Processes cfg).
Proof.
  destruct (addProcess_fold (Processes cfg) (buildKeys (dom (Processes cfg))) emptyGraph
              (rangeKeys_NoDup buildKeys buildKeys_fair _)) as (Hf1 & Hf2 & _ & _).
  apply set_eq. intros n. rewrite elem_of_dom. unfold NewDependencyGraph.
  destruct (decide (n ∈ buildKeys (dom (Processes cfg)))) as [Hin|Hnin].
  - rewrite Hf1 by done. split; [|by eauto].
    intros _. by apply (rangeKeys_elem buildKeys buildKeys_fair).
  - rewrite Hf2 by done. simpl. rewrite lookup_empty. split; [by intros [? ?]|].
    intros Hn. by apply (rangeKeys_elem buildKeys buildKeys_fair) in Hn.
Qed.

(** On known targets [StartOrder] answers with a list or with "dependency
    cycle detected", nothing else. *)
Lemma StartOrder_known targets :
  (forall t, t ∈ targets -> t ∈ nodes g) ->
  (exists order, StartOrder rangeKeys g targets = Ok order) \/
  StartOrder rangeKeys g targets = Err ErrCycle.
Proof.
  intros Hknown.
  destruct (collectTargets_closure buildKeys buildKeys_fair cfg targets Hknown)
    as (Q & HQ & _ & _).
  rewrite (StartOrder_unfold buildKeys rangeKeys cfg targets Q HQ).
  destruct (kahn_result buildKeys buildKeys_fair rangeKeys rangeKeys_fair cfg Q)
    as (order & -> & _).
  destruct (decide _); [left; by eexists|by right].
Qed.

Lemma StartOrder_complete_local targets :
  (forall t, t ∈ targets -> t ∈ nodes g) ->
  (forall x, closure cfg targets x -> ~ tc (dependsOn cfg) x x) ->
  exists order, StartOrder rangeKeys g targets = Ok order.
Proof.
  intros Hknown Hacyc.
  destruct (collectTargets_closure buildKeys buildKeys_fair cfg targets Hknown)
    as (Q & HQ & Hcl & Hclosure).
  rewrite (StartOrder_unfold buildKeys rangeKeys cfg targets Q HQ).
  destruct (kahn_result buildKeys buildKeys_fair rangeKeys rangeKeys_fair cfg Q)
    as (order & -> & Hnd & Hin & Hready & _).
  exists order. rewrite decide_True; [done|].
  assert (Q ⊆ list_to_set order) as Hall.
  { intros x Hx. apply elem_of_list_to_set.
    destruct (decide (x ∈ order)) as [|Hnot]; [done|]. exfalso.
    destruct (minimal_within cfg Q (size (Q ∖ list_to_set order))
                (fun y Hy => Hacyc y (proj1 (Hclosure y) Hy))
                (Q ∖ list_to_set order) x) as (m & Hm & _ & Hmin);
      [set_solver|done|by rewrite elem_of_difference, elem_of_list_to_set|].
    apply elem_of_difference in Hm as [HmQ Hmo]. rewrite elem_of_list_to_set in Hmo.
    apply Hmo, (Hready m HmQ), pending_zero. intros d Hd HdQ.
    destruct (decide (d ∈ order)) as [|Hdo]; [done|]. exfalso.
    apply (Hmin d).
    - by rewrite elem_of_difference, elem_of_list_to_set.
    - unfold dependsOn. by rewrite <- (built_forward buildKeys). }
  apply Nat.le_antisymm.
  - by apply NoDup_length_le_size.
  - rewrite <- (size_list_to_set (C := gset string) order) by done.
    by apply subseteq_size.
Qed.

(** A list that is sorted along the dependencies holds no process of a cycle. *)
Lemma sorted_no_cycle targets order :
  NoDup order ->
  (forall y, y ∈ order <-> closure cfg targets y) ->
  (forall i n d, order !! i = Some n -> dependsOn cfg n d -> closure cfg targets d ->
     exists j, j < i /\ order !! j = Some d) ->
  forall x, closure cfg targets x -> ~ tc (dependsOn cfg) x x.
Proof.
  intros Hnd Hmem Hsorted x Hx Hcyc.
  assert (forall a b, tc (dependsOn cfg) a b -> closure cfg targets a ->
            forall i, order !! i = Some a -> exists j, j < i /\ order !! j = Some b) as Hdown.
  { intros a b Htc. induction Htc as [a b H|a m b H Hmb IH]; intros Ha i Hi.
    - apply (Hsorted i a b Hi H). by eapply closure_step.
    - assert (closure cfg targets m) as Hm by (by eapply closure_step).
      destruct (Hsorted i a m Hi H Hm) as (k & Hk & Hkm).
      destruct (IH Hm k Hkm) as (j & Hj & Hjb). exists j. split; [lia|done]. }
  apply Hmem, list_elem_of_lookup in Hx as [i Hi].
  destruct (Hdown x x Hcyc ltac:(apply Hmem, list_elem_of_lookup; by eexists) i Hi)
    as (j & Hj & Hjx).
  pose proof (NoDup_lookup _ _ _ _ Hnd Hi Hjx). lia.
Qed.

End built_props.

(** The list [StartOrder] returns is sorted along all the dependencies of
    its members: they lie in the closure with them. *)
Lemma StartOrder_sorted (buildKeys : gset string -> list string)
    (Hbuild : fair_range buildKeys) (rangeKeys : gset string -> list string)
    (Hfair : fair_range rangeKeys) (cfg : Config) (targets order : list string) :
  StartOrder rangeKeys (NewDependencyGraph buildKeys cfg) targets = Ok order ->
  NoDup order /\
  (forall y, y ∈ order <-> closure cfg targets y) /\
  (forall i n d, order !! i = Some n -> dependsOn cfg n d ->
     exists j, j < i /\ order !! j = Some d).
Proof.
  intros Hok.
  destruct (StartOrder_sound buildKeys Hbuild rangeKeys Hfair cfg targets order Hok)
    as (Hnd & Hmem & Hsorted).
  split; [done|]. split; [done|]. intros i n d Hi Hd.
  apply (Hsorted i n d Hi Hd). eapply closure_step; [|exact Hd].
  apply Hmem, list_elem_of_lookup. by eexists.
Qed.

(** X1: the graph [NewDependencyGraph] builds, whatever the order in which
    [range] visits the catalog: its nodes are the catalog's process names,
    [forward] holds each process's [depends_on] list (and nothing for other
    names), and [reverse] is the mirror image of [forward], entry for entry
    with multiplicity. *)
Theorem NewDependencyGraph_mirror (rangeKeys : gset string -> list string) (cfg : Config) :
  fair_range rangeKeys ->
  let g := NewDependencyGraph rangeKeys cfg in
  nodes g = dom (Processes cfg) /\
  dom (forward g) = dom (Processes cfg) /\
  (forall n, edges (forward g) n = depsOf cfg n) /\
  (forall n d, n ∈ edges (reverse g) d <-> d ∈ edges (forward g) n) /\
  (forall n d, occ n (edges (reverse g) d) = occ d (edges (forward g) n)).
Proof.
  intros Hfair g. split; [by apply built_nodes|]. split; [by apply built_forward_dom|].
  split; [by apply built_forward|]. split.
  - intros n d. unfold g. rewrite (built_reverse rangeKeys Hfair cfg).
    unfold dependsOn. by rewrite built_forward.
  - by apply built_mirrored.
Qed.

Lemma NewDependencyGraph_mirror_witness :
  let g := NewDependencyGraph elements diamond in
  nodes g = dom (Processes diamond) /\
  dom (forward g) = dom (Processes diamond) /\
  (forall n, edges (forward g) n = depsOf diamond n) /\
  (forall n d, n ∈ edges (reverse g) d <-> d ∈ edges (forward g) n) /\
  (forall n d, occ n (edges (reverse g) d) = occ d (edges (forward g) n)).
Proof. apply (NewDependencyGraph_mirror elements diamond). exact elements_fair. Defined.

(** X2: whatever list [StartOrder] returns, on a catalog with or without
    cycles, it has no repetition, its members are exactly the closure of the
    targets, and every process comes after each of its dependencies. *)
Theorem StartOrder_returns_topological (rangeKeys : gset string -> list string)
    (cfg : Config) (targets order : list string) :
  fair_range rangeKeys ->
  StartOrder rangeKeys (NewDependencyGraph rangeKeys cfg) targets = Ok order ->
  NoDup order /\
  (forall y, y ∈ order <-> closure cfg targets y) /\
  (forall i n d, order !! i = Some n -> dependsOn cfg n d ->
     exists j, j < i /\ order !! j = Some d).
Proof. intros Hfair Hok. by apply (StartOrder_sorted rangeKeys Hfair rangeKeys Hfair cfg). Qed.

(** A catalog with a cycle B <-> C beside the process A. *)
Definition beside_cycle : Config :=
  {| Processes := <["A" := proc []]> (<["B" := proc ["C"]]> (<["C" := proc ["B"]]> ∅)) |}.

Lemma StartOrder_returns_topological_witness :
  NoDup ["A"] /\
  (forall y, y ∈ ["A"] <-> closure beside_cycle ["A"] y) /\
  (forall i n d, ["A"] !! i = Some n -> dependsOn beside_cycle n d ->
     exists j, j < i /\ ["A"] !! j = Some d).
Proof.
  apply (StartOrder_returns_topological elements beside_cycle ["A"] ["A"]).
  - exact elements_fair.
  - vm_compute. reflexivity.
Defined.

(** X3: on targets that are all known, [StartOrder] fails with "dependency
    cycle detected" exactly when some process of the closure of the targets
    depends on itself through one or more edges, and returns a list exactly
    when none does; a cycle outside the closure does not matter. *)
Theorem StartOrder_cycle_iff (rangeKeys : gset string -> list string)
    (cfg : Config) (targets : list string) :
  fair_range rangeKeys ->
  let g := NewDependencyGraph rangeKeys cfg in
  (forall t, t ∈ targets -> t ∈ nodes g) ->
  ((exists order, StartOrder rangeKeys g targets = Ok order) <->
     forall x, closure cfg targets x -> ~ tc (dependsOn cfg) x x) /\
  (StartOrder rangeKeys g targets = Err ErrCycle <->
     ~ forall x, closure cfg targets x -> ~ tc (dependsOn cfg) x x).
Proof.
  intros Hfair g Hknown.
  assert ((exists order, StartOrder rangeKeys g targets = Ok order) <->
          forall x, closure cfg targets x -> ~ tc (dependsOn cfg) x x) as Hiff.
  { split.
    - intros [order Hok].
      destruct (StartOrder_sound rangeKeys Hfair rangeKeys Hfair cfg targets order Hok)
        as (Hnd & Hmem & Hs).
      by apply (sorted_no_cycle cfg targets order).
    - by apply StartOrder_complete_local. }
  split; [done|]. rewrite <- Hiff.
  destruct (StartOrder_known rangeKeys Hfair rangeKeys Hfair cfg targets Hknown)
    as [[order Hok]|Herr].
  - fold g in Hok. rewrite Hok. split; [done|]. intros H. exfalso. apply H. by eexists.
  - fold g in Herr. rewrite Herr. split; [|done]. intros _ [order Hok]. done.
Qed.

Lemma StartOrder_cycle_iff_witness :
  let g := NewDependencyGraph elements beside_cycle in
  ((exists order, StartOrder elements g ["B"] = Ok order) <->
     forall x, closure beside_cycle ["B"] x -> ~ tc (dependsOn beside_cycle) x x) /\
  (StartOrder elements g ["B"] = Err ErrCycle <->
     ~ forall x, closure beside_cycle ["B"] x -> ~ tc (dependsOn beside_cycle) x x).
Proof.
  apply (StartOrder_cycle_iff elements beside_cycle ["B"] elements_fair).
  intros t Ht. apply elem_of_cons in Ht as [->|Ht]; [|by apply elem_of_nil in Ht].
  rewrite (built_nodes elements elements_fair beside_cycle).
  apply elem_of_dom. eexists. reflexivity.
Defined.

Example StartOrder_beside_cycle :
  StartOrder elements (NewDependencyGraph elements beside_cycle) ["A"] = Ok ["A"] /\
  StartOrder elements (NewDependencyGraph elements beside_cycle) ["B"] = Err ErrCycle.
Proof. split; vm_compute; reflexivity. Qed.

Lemma rev_is_reverse {A} (l : list A) : rev l = list.reverse l.
Proof. unfold list.reverse. apply rev_alt. Qed.

(** X4: whatever list [StopOrder] returns, it has no repetition, its members
    are exactly the closure of the targets, and every process comes before
    each of its dependencies: dependents are stopped first. *)
Theorem StopOrder_dependents_first (rangeKeys : gset string -> list string)
    (cfg : Config) (targets order : list string) :
  fair_range rangeKeys ->
  StopOrder rangeKeys (NewDependencyGraph rangeKeys cfg) targets = Ok order ->
  NoDup order /\
  (forall y, y ∈ order <-> closure cfg targets y) /\
  (forall i n d, order !! i = Some n -> dependsOn cfg n d ->
     exists j, i < j /\ order !! j = Some d).
Proof.
  intros Hfair Hstop. unfold StopOrder in Hstop.
  destruct (StartOrder rangeKeys (NewDependencyGraph rangeKeys cfg) targets)
    as [order0|e] eqn:Hstart; [|done].
  injection Hstop as <-. rewrite reverseInPlace_rev.
  destruct (StartOrder_sorted rangeKeys Hfair rangeKeys Hfair cfg targets order0 Hstart)
    as (Hnd & Hmem & Hsorted).
  rewrite rev_is_reverse. split; [by rewrite reverse_Permutation|]. split.
  - intros y. by rewrite elem_of_reverse.
  - intros i n d Hi Hd. apply reverse_lookup_Some in Hi as [Hi Hlt].
    destruct (Hsorted _ n d Hi Hd) as (j & Hj & Hjd).
    exists (length order0 - S j). split; [lia|].
    apply reverse_lookup_Some. split; [|lia].
    replace (length order0 - S (length order0 - S j)) with j by lia. done.
Qed.

Lemma StopOrder_dependents_first_witness :
  NoDup ["C"; "B"; "A"] /\
  (forall y, y ∈ ["C"; "B"; "A"] <-> closure chain ["C"] y) /\
  (forall i n d, ["C"; "B"; "A"] !! i = Some n -> dependsOn chain n d ->
     exists j, i < j /\ ["C"; "B"; "A"] !! j = Some d).
Proof.
  apply (StopOrder_dependents_first elements chain ["C"] ["C"; "B"; "A"]).
  - exact elements_fair.
  - vm_compute. reflexivity.
Defined.

(** X5: [Dependents] and [Dependencies] list no process twice and list only
    names the catalog relates: every dependent is a catalog process, and so is
    every process that has a dependency; in a catalog without cycles a process
    is neither its own dependent nor its own dependency. *)
Theorem Dependents_wellformed (rangeKeys : gset string -> list string)
    (cfg : Config) (x : string) :
  fair_range rangeKeys ->
  let g := NewDependencyGraph rangeKeys cfg in
  NoDup (Dependents g x) /\ NoDup (Dependencies g x) /\
  (forall y, y ∈ Dependents g x -> y ∈ dom (Processes cfg)) /\
  (Dependencies g x <> [] -> x ∈ dom (Processes cfg)) /\
  (acyclic cfg -> (x ∉ Dependents g x) /\ (x ∉ Dependencies g x)).
Proof.
  intros Hfair g.
  destruct (Dependents_spec rangeKeys Hfair cfg x) as [Hnd1 Hd1].
  destruct (Dependencies_spec rangeKeys Hfair cfg x) as [Hnd2 Hd2].
  split; [done|]. split; [done|]. split; [|split].
  - intros y Hy. apply Hd1 in Hy. destruct Hy as [y x H|y z x H _]; by eapply depsOf_known.
  - intros Hne. destruct (Dependencies g x) as [|y l] eqn:E; [done|].
    assert (tc (dependsOn cfg) x y) as Htc by (apply Hd2; fold g; rewrite E; by left).
    destruct Htc as [x y H|x z y H _]; by eapply depsOf_known.
  - intros Hacyc. split; intros Hin.
    + apply Hd1 in Hin. by apply (Hacyc x).
    + apply Hd2 in Hin. by apply (Hacyc x).
Qed.

Lemma Dependents_wellformed_witness :
  let g := NewDependencyGraph elements diamond in
  NoDup (Dependents g "A") /\ NoDup (Dependencies g "A") /\
  (forall y, y ∈ Dependents g "A" -> y ∈ dom (Processes diamond)) /\
  (Dependencies g "A" <> [] -> "A" ∈ dom (Processes diamond)) /\
  (acyclic diamond -> ("A" ∉ Dependents g "A") /\ ("A" ∉ Dependencies g "A")).
Proof. apply (Dependents_wellformed elements diamond "A"). exact elements_fair. Defined.

End graph_props.

(** ** Dependency graph: [Validate] *)

Module validate_spec.
Import config graph graph_spec graph_claims graph_props.
Local Open Scope nat_scope.

(** A list sorted along a relation holds no member of a cycle. *)
Lemma sorted_irrefl (R : relation string) (order : list string) :
  NoDup order ->
  (forall i n d, order !! i = Some n -> R n d -> exists j, j < i /\ order !! j = Some d) ->
  forall x, x ∈ order -> ~ tc R x x.
Proof.
  intros Hnd Hsorted x Hx Hcyc.
  assert (forall a b, tc R a b ->
            forall i, order !! i = Some a -> exists j, j < i /\ order !! j = Some b) as Hdown.
  { intros a b Htc. induction Htc as [a b H|a m b H _ IH]; intros i Hi.
    - by apply (Hsorted i a b).
    - destruct (Hsorted i a m Hi H) as (k & Hk & Hkm).
      destruct (IH k Hkm) as (j & Hj & Hjb). exists j. split; [lia|done]. }
  apply list_elem_of_lookup in Hx as [i Hi].
  destruct (Hdown x x Hcyc i Hi) as (j & Hj & Hjx).
  pose proof (NoDup_lookup _ _ _ _ Hnd Hi Hjx). lia.
Qed.

(** [release] leaves the degree of a name outside [Q] alone, and removes no key. *)
Lemma release_fold_other (Q : gset string) (l : list string) :
  forall deg q,
  let st := foldl (release Q) (deg, q) l in
  (forall n, n ∉ Q -> degOf st.1 n = degOf deg n) /\
  (forall n, n ∈ dom deg -> n ∈ dom st.1).
Proof.
  induction l as [|d l IH]; intros deg q; simpl; [done|].
  unfold release at 2 4. simpl. destruct (decide (d ∈ Q)) as [HdQ|HdQ]; [|apply IH].
  set (deg1 := <[d := (default 0%Z (deg !! d) - 1)%Z]> deg).
  assert (forall n, n ∉ Q -> degOf deg1 n = degOf deg n) as H1.
  { intros n Hn. unfold degOf, deg1. rewrite lookup_insert_ne; [done|]. by intros ->. }
  assert (forall n, n ∈ dom deg -> n ∈ dom deg1) as H2.
  { intros n Hn. unfold deg1. rewrite dom_insert. set_solver. }
  destruct (default 0%Z (deg1 !! d) =? 0)%Z.
  - destruct (IH deg1 (q ++ [d])) as [Ha Hb]. split.
    + intros n Hn. by rewrite Ha, H1.
    + intros n Hn. by apply Hb, H2.
  - destruct (IH deg1 q) as [Ha Hb]. split.
    + intros n Hn. by rewrite Ha, H1.
    + intros n Hn. by apply Hb, H2.
Qed.

(** On dependents that are all in [Q] the two loop bodies agree. *)
Lemma releaseAll_release (Q : gset string) (l : list string) :
  (forall dep, dep ∈ l -> dep ∈ Q) ->
  forall st, foldl releaseAll st l = foldl (release Q) st l.
Proof.
  induction l as [|d l IH]; intros Hl st; simpl; [done|].
  rewrite IH by (intros; apply Hl; by right). f_equal.
  unfold release, releaseAll. by rewrite decide_True by (apply Hl; by left).
Qed.

(** A process is grounded when the catalog defines it and all it depends on
    is grounded: the processes Kahn's algorithm can visit, in whatever
    order. *)
Inductive grounded (cfg : Config) : string -> Prop :=
  | grounded_intro (n : string) :
      n ∈ dom (Processes cfg) ->
      (forall d, dependsOn cfg n d -> grounded cfg d) ->
      grounded cfg n.

Section validate.
Variable rangeKeys : gset string -> list string.
Hypothesis rangeKeys_fair : fair_range rangeKeys.
Variable cfg : Config.

Local Abbreviation g := (NewDependencyGraph rangeKeys cfg).
Local Abbreviation N := (nodes g).

(** The dependencies of [n] not yet in [order], with multiplicity. *)
Definition pendingAll (order : list string) (n : string) : nat :=
  length (filter (fun d => d ∉ order) (edges (forward g) n)).

Lemma pendingAll_snoc (order : list string) (node n : string) :
  node ∉ order ->
  pendingAll order n = pendingAll (order ++ [node]) n + occ node (edges (forward g) n).
Proof.
  intros Hnot. unfold pendingAll. induction (edges (forward g) n) as [|d l IH]; [done|].
  rewrite !filter_cons, occ_cons.
  destruct (decide (d = node)) as [->|Hne].
  - rewrite decide_True by done. rewrite decide_False by (rewrite elem_of_app; set_solver).
    simpl. lia.
  - destruct (decide (d ∉ order)) as [H1|Hn].
    + rewrite decide_True by (rewrite elem_of_app; set_solver). simpl. lia.
    + rewrite decide_False by (rewrite elem_of_app; set_solver). simpl. lia.
Qed.

Lemma pendingAll_zero (order : list string) (n : string) :
  pendingAll order n = 0 <-> forall d, d ∈ edges (forward g) n -> d ∈ order.
Proof.
  unfold pendingAll. induction (edges (forward g) n) as [|d l IH].
  - split; [by intros _ d ?%elem_of_nil|done].
  - rewrite filter_cons. destruct (decide (d ∉ order)) as [H1|Hn]; simpl.
    + split; [lia|]. intros H. exfalso. apply H1, H. by left.
    + rewrite IH. split.
      * intros H d' [->|Hd']%elem_of_cons; [|by apply H].
        by destruct (decide (d ∈ order)).
      * intros H d' Hd'. apply H. by right.
Qed.

Lemma pendingAll_nil (n : string) :
  pendingAll [] n = length (edges (forward g) n).
Proof.
  unfold pendingAll. f_equal. induction (edges (forward g) n) as [|d l IH]; [done|].
  rewrite filter_cons, decide_True by (by intros ?%elem_of_nil). by rewrite IH.
Qed.

Lemma reverse_in_nodes (node dep : string) : dep ∈ edges (reverse g) node -> dep ∈ N.
Proof.
  intros H. apply (built_reverse rangeKeys rangeKeys_fair cfg) in H.
  rewrite (built_nodes rangeKeys rangeKeys_fair cfg). by eapply depsOf_known.
Qed.

(** The loop invariant of [Validate], with the list [order] of the nodes
    visited so far as a ghost. *)
Record vinv (deg : gmap string Z) (queue order : list string) : Prop := {
  v_nodup : NoDup (order ++ queue);
  v_nodes : forall n, n ∈ order ++ queue -> n ∈ N;
  v_degree : forall n, n ∈ N -> degOf deg n = Z.of_nat (pendingAll order n);
  v_ready : forall n, n ∈ N -> (n ∈ order ++ queue <-> pendingAll order n = 0);
  v_sorted : forall i n d, order !! i = Some n -> d ∈ edges (forward g) n ->
               exists j, j < i /\ order !! j = Some d;
  v_other : forall n, n ∉ N -> degOf deg n = 0%Z;
  v_keys : forall n, n ∈ N -> n ∈ dom deg
}.

Lemma vinv_step deg node queue order :
  vinv deg (node :: queue) order ->
  let st := foldl releaseAll (deg, queue) (edges (reverse g) node) in
  vinv st.1 st.2 (order ++ [node]).
Proof.
  intros [Hnd Hreq Hdeg Hready Hsorted Hother Hkeys]. simpl.
  rewrite (releaseAll_release N) by apply reverse_in_nodes.
  destruct (release_fold N (edges (reverse g) node) deg queue) as (Hd & pushed & Hq & Hndp & Hp).
  destruct (release_fold_other N (edges (reverse g) node) deg queue) as (Ho & Hk).
  assert (node ∈ N) as HnodeN by (apply Hreq; set_solver).
  assert (node ∉ order) as Hnode_order.
  { apply NoDup_app in Hnd as (_ & Hdisj & _). intros Hin. apply (Hdisj node Hin). by left. }
  assert (forall n, pendingAll order n
            = pendingAll (order ++ [node]) n + occ n (edges (reverse g) node)) as Hpend.
  { intros n. rewrite (built_mirrored rangeKeys rangeKeys_fair cfg). by apply pendingAll_snoc. }
  assert (forall n, n ∈ pushed <->
            n ∈ N /\ 0 < pendingAll order n /\ pendingAll (order ++ [node]) n = 0) as Hp'.
  { intros n. rewrite Hp. split.
    - intros [HnQ Hrange]. rewrite (Hdeg n HnQ) in Hrange. pose proof (Hpend n).
      split; [done|lia].
    - intros (HnQ & H1 & H2). rewrite (Hdeg n HnQ). pose proof (Hpend n). split; [done|lia]. }
  rewrite Hq. split.
  - replace ((order ++ [node]) ++ queue ++ pushed)
      with ((order ++ node :: queue) ++ pushed) by (by rewrite <- !app_assoc).
    apply NoDup_app. split; [done|]. split; [|done].
    intros n Hn Hnp. apply Hp' in Hnp as (HnQ & Hpos & _).
    apply (Hready n HnQ) in Hn. lia.
  - intros n. rewrite <- app_assoc. simpl. rewrite !elem_of_app, elem_of_cons, elem_of_app.
    intros [?|[->|[?|Hnp]]]; [apply Hreq; set_solver|done|apply Hreq; set_solver|].
    by apply Hp' in Hnp as (? & _).
  - intros n HnQ. rewrite (Hd n HnQ), (Hdeg n HnQ). pose proof (Hpend n). lia.
  - intros n HnQ.
    assert (n ∈ (order ++ [node]) ++ queue ++ pushed <->
            n ∈ order ++ node :: queue \/ n ∈ pushed) as ->.
    { rewrite !elem_of_app, !elem_of_cons, elem_of_nil. tauto. }
    rewrite (Hready n HnQ), Hp'. pose proof (Hpend n). split.
    + intros [?|(_ & _ & ?)]; lia.
    + intros H0. destruct (decide (pendingAll order n = 0)); [by left|].
      right. split; [done|]. lia.
  - intros i n d Hi Hdn.
    destruct (decide (i < length order)) as [Hlt|Hge].
    + rewrite lookup_app_l in Hi by done.
      destruct (Hsorted i n d Hi Hdn) as (j & Hj & Hjd).
      exists j. split; [done|]. rewrite lookup_app_l by lia. done.
    + assert (length (order ++ [node]) = S (length order)) as Hlen
        by (rewrite length_app; simpl; lia).
      pose proof (lookup_lt_Some _ _ _ Hi) as Hi'.
      assert (i = length order) as -> by lia.
      rewrite lookup_app_r, Nat.sub_diag in Hi by lia. simpl in Hi.
      injection Hi as <-.
      assert (pendingAll order node = 0) as H0 by (apply Hready; [done|set_solver]).
      rewrite pendingAll_zero in H0. specialize (H0 d Hdn).
      apply list_elem_of_lookup in H0 as [j Hj].
      exists j. split; [by eapply lookup_lt_Some|]. rewrite lookup_app_l; [done|].
      by eapply lookup_lt_Some.
  - intros n Hn. rewrite (Ho n Hn). by apply Hother.
  - intros n Hn. by apply Hk, Hkeys.
Qed.

Lemma validateLoop_runs (fuel : nat) :
  forall deg queue order,
    vinv deg queue order -> size N <= fuel + length order ->
    exists deg' order',
      validateLoop g fuel deg queue (Z.of_nat (length order))
        = Some (deg', Z.of_nat (length order')) /\
      vinv deg' [] order'.
Proof.
  induction fuel as [|fuel IH]; intros deg queue order Hinv Hfuel.
  - destruct queue as [|node queue]; simpl; [by eauto|].
    pose proof (NoDup_length_le_size _ _ (v_nodup _ _ _ Hinv) (v_nodes _ _ _ Hinv)) as Hlen.
    rewrite length_app in Hlen. simpl in *. lia.
  - destruct queue as [|node queue]; simpl; [by eauto|].
    replace (Z.of_nat (length order) + 1)%Z with (Z.of_nat (length (order ++ [node])))
      by (rewrite length_app; simpl; lia).
    apply IH; [by apply vinv_step|]. rewrite length_app. simpl. lia.
Qed.

(** The map [inDegree] and the first [queue] of [Validate]. *)
Definition vDegree0 : gmap string Z :=
  foldl (fun deg name => <[name := Z.of_nat (length (edges (forward g) name))]> deg)
        ∅ (rangeKeys N).

Definition vQueue0 : list string :=
  filter (fun name => default 0%Z (vDegree0 !! name) = 0%Z) (rangeKeys (dom vDegree0)).

Lemma vDegree0_lookup n :
  vDegree0 !! n
  = if decide (n ∈ N) then Some (Z.of_nat (length (edges (forward g) n))) else None.
Proof.
  unfold vDegree0.
  rewrite (foldl_insert_lookup (fun name => Z.of_nat (length (edges (forward g) name)))).
  rewrite lookup_empty. destruct (decide (n ∈ N)) as [Hin|Hnin].
  - by rewrite decide_True by (by apply rangeKeys_elem).
  - by rewrite decide_False by (by rewrite rangeKeys_elem).
Qed.

Lemma vDegree0_dom : dom vDegree0 = N.
Proof.
  apply set_eq. intros n. rewrite elem_of_dom, vDegree0_lookup.
  destruct (decide (n ∈ N)); split; try done; by intros [? ?].
Qed.

Lemma vinv_init : vinv vDegree0 vQueue0 [].
Proof.
  assert (forall n, n ∈ N -> degOf vDegree0 n = Z.of_nat (pendingAll [] n)) as Hdeg.
  { intros n Hn. unfold degOf. rewrite vDegree0_lookup, decide_True by done.
    simpl. by rewrite pendingAll_nil. }
  assert (forall n, n ∈ vQueue0 <-> n ∈ N /\ pendingAll [] n = 0) as Hq.
  { intros n. unfold vQueue0. rewrite list_elem_of_filter, rangeKeys_elem by done.
    rewrite vDegree0_dom. split.
    - intros [H0 HQ]. split; [done|]. specialize (Hdeg n HQ). unfold degOf in Hdeg. lia.
    - intros [HQ H0]. split; [|done]. specialize (Hdeg n HQ). unfold degOf in Hdeg. lia. }
  split; simpl.
  - apply NoDup_filter. by apply rangeKeys_NoDup.
  - intros n Hn. by apply Hq in Hn as [? _].
  - done.
  - intros n Hn. rewrite Hq. tauto.
  - intros i n d Hi. by rewrite lookup_nil in Hi.
  - intros n Hn. unfold degOf. by rewrite vDegree0_lookup, decide_False.
  - intros n Hn. by rewrite vDegree0_dom.
Qed.

(** The run of the loop in [Validate]. *)
Lemma validate_result :
  exists deg order,
    validateLoop g (size N) vDegree0 vQueue0 0 = Some (deg, Z.of_nat (length order)) /\
    vinv deg [] order.
Proof.
  destruct (validateLoop_runs (size N) vDegree0 vQueue0 [] vinv_init) as (deg & order & H);
    [simpl; lia|]. by exists deg, order.
Qed.

Lemma Validate_unfold (deg : gmap string Z) (order : list string) :
  validateLoop g (size N) vDegree0 vQueue0 0 = Some (deg, Z.of_nat (length order)) ->
  Validate rangeKeys g
  = if decide (length order = size N) then Valid
    else CycleInvolving (filter (fun name => (0 < default 0 (deg !! name))%Z)
                                (rangeKeys (dom deg))).
Proof.
  intros Hrun. unfold Validate. fold vDegree0. fold vQueue0. rewrite Hrun.
  destruct (decide (length order = size N)) as [Heq|Hne].
  - by rewrite decide_True by lia.
  - by rewrite decide_False by lia.
Qed.

(** Every dependency names a process of the catalog. *)
Definition deps_defined : Prop :=
  forall x y, dependsOn cfg x y -> y ∈ dom (Processes cfg).

Lemma visited_all_iff (deg : gmap string Z) (order : list string) :
  vinv deg [] order ->
  (length order = size N <-> acyclic cfg /\ deps_defined).
Proof.
  intros [Hnd Hreq Hdeg Hready Hsorted _ _].
  rewrite app_nil_r in Hnd.
  assert (forall n, n ∈ order -> n ∈ N) as Hin
    by (intros n Hn; apply Hreq; by rewrite app_nil_r).
  assert (forall n, n ∈ N -> (n ∈ order <-> pendingAll order n = 0)) as Hready'
    by (intros n Hn; rewrite <- (Hready n Hn); by rewrite app_nil_r).
  assert (HN : N = dom (Processes cfg)) by (by apply built_nodes).
  split.
  - intros Hlen.
    assert (list_to_set order = N) as Hset.
    { apply set_subseteq_size_eq.
      - intros y Hy. apply Hin. by apply elem_of_list_to_set in Hy.
      - rewrite size_list_to_set by done. lia. }
    assert (forall y, y ∈ order <-> y ∈ N) as Hmem.
    { intros y. rewrite <- Hset. by rewrite elem_of_list_to_set. }
    assert (forall x y, dependsOn cfg x y -> x ∈ order /\ y ∈ order) as Hdep.
    { intros x y Hxy.
      assert (x ∈ order) as Hx by (apply Hmem; rewrite HN; by eapply depsOf_known).
      split; [done|]. apply list_elem_of_lookup in Hx as [i Hi].
      destruct (Hsorted i x y Hi) as (j & _ & Hj); [by rewrite built_forward|].
      apply list_elem_of_lookup. by eexists. }
    split.
    + intros x Hcyc.
      assert (exists y, dependsOn cfg x y) as [y Hxy]
        by (inversion Hcyc; subst; by eexists).
      assert (x ∈ order) as Hx by (by apply (Hdep x y)).
      revert Hcyc. apply (sorted_irrefl (dependsOn cfg) order); [done| |done].
      intros i n d Hi Hd. apply (Hsorted i n d Hi). by rewrite built_forward.
    + intros x y Hxy. rewrite <- HN. apply Hmem. by apply (Hdep x y).
  - intros [Hacyc Hdef].
    assert (N ⊆ list_to_set order) as Hall.
    { intros x Hx. apply elem_of_list_to_set.
      destruct (decide (x ∈ order)) as [|Hnot]; [done|]. exfalso.
      destruct (minimal_in cfg (size (N ∖ list_to_set order)) Hacyc
                  (N ∖ list_to_set order) x) as (m & Hm & _ & Hmin);
        [done|by rewrite elem_of_difference, elem_of_list_to_set|].
      apply elem_of_difference in Hm as [HmQ Hmo]. rewrite elem_of_list_to_set in Hmo.
      apply Hmo, (Hready' m HmQ), pendingAll_zero. intros d Hd.
      rewrite built_forward in Hd by done.
      destruct (decide (d ∈ order)) as [|Hdo]; [done|]. exfalso.
      apply (Hmin d); [|done].
      rewrite elem_of_difference, elem_of_list_to_set. split; [|done].
      rewrite HN. by eapply Hdef. }
    apply Nat.le_antisymm.
    + by apply NoDup_length_le_size.
    + rewrite <- (size_list_to_set (C := gset string) order) by done.
      by apply subseteq_size.
Qed.

Lemma pendingAll_pos (order : list string) (n : string) :
  pendingAll order n <> 0 -> exists d, d ∈ edges (forward g) n /\ d ∉ order.
Proof.
  intros Hne.
  destruct (decide (Forall (fun d => d ∈ order) (edges (forward g) n))) as [Hall|Hex].
  - exfalso. apply Hne, pendingAll_zero. by apply Forall_forall.
  - apply not_Forall_Exists in Hex; [|apply _]. apply Exists_exists in Hex.
    destruct Hex as (d & Hd & Hno). by exists d.
Qed.

(** What the error of [Validate] lists. *)
Lemma cycleNodes_spec (deg : gmap string Z) (order : list string) :
  vinv deg [] order -> length order <> size N ->
  let l := filter (fun name => (0 < default 0 (deg !! name))%Z) (rangeKeys (dom deg)) in
  l <> [] /\ NoDup l /\
  forall n, n ∈ l ->
    n ∈ dom (Processes cfg) /\
    exists d, dependsOn cfg n d /\ (d ∈ l \/ d ∉ dom (Processes cfg)).
Proof.
  intros [Hnd Hreq Hdeg Hready Hsorted Hother Hkeys] Hlen l.
  rewrite app_nil_r in Hnd.
  assert (HN : N = dom (Processes cfg)) by (by apply built_nodes).
  assert (forall n, n ∈ l <-> n ∈ N /\ n ∉ order) as Hl.
  { intros n. unfold l. rewrite list_elem_of_filter, rangeKeys_elem by done.
    fold (degOf deg n). split.
    - intros [Hpos Hdom]. destruct (decide (n ∈ N)) as [HnN|HnN].
      + split; [done|]. intros Hin.
        assert (pendingAll order n = 0) as H0 by (apply Hready; [done|by rewrite app_nil_r]).
        rewrite (Hdeg n HnN), H0 in Hpos. lia.
      + rewrite (Hother n HnN) in Hpos. lia.
    - intros [HnN Hno]. split; [|by apply Hkeys].
      rewrite (Hdeg n HnN).
      destruct (decide (pendingAll order n = 0)) as [H0|H0]; [|lia].
      exfalso. apply Hno. apply (Hready n HnN) in H0. by rewrite app_nil_r in H0. }
  split; [|split].
  - intros Hnil. apply Hlen. apply Nat.le_antisymm.
    + apply NoDup_length_le_size; [done|]. intros x Hx. apply Hreq. by rewrite app_nil_r.
    + rewrite <- (size_list_to_set (C := gset string) order) by done.
      apply subseteq_size. intros x Hx. apply elem_of_list_to_set.
      destruct (decide (x ∈ order)) as [|Hno]; [done|]. exfalso.
      assert (x ∈ l) as Hxl by (by apply Hl). rewrite Hnil in Hxl. by apply elem_of_nil in Hxl.
  - apply NoDup_filter. by apply rangeKeys_NoDup.
  - intros n Hn. apply Hl in Hn as [HnN Hno]. split; [by rewrite <- HN|].
    assert (pendingAll order n <> 0) as Hpos.
    { intros H0. apply Hno. apply (Hready n HnN) in H0. by rewrite app_nil_r in H0. }
    destruct (pendingAll_pos order n Hpos) as (d & Hd & Hdno).
    exists d. split; [unfold dependsOn; by rewrite <- (built_forward rangeKeys)|].
    destruct (decide (d ∈ N)) as [HdN|HdN].
    + left. by apply Hl.
    + right. by rewrite <- HN.
Qed.

(** The nodes the loop has visited are the grounded processes, whatever
    the order of the visits. *)
Lemma visited_grounded (deg : gmap string Z) (order : list string) :
  vinv deg [] order -> forall n, n ∈ order <-> grounded cfg n.
Proof.
  intros [Hnd Hreq Hdeg Hready Hsorted Hother Hkeys] n.
  assert (HN : N = dom (Processes cfg)) by (by apply built_nodes).
  split.
  - intros [i Hi]%list_elem_of_lookup. revert n Hi.
    induction i as [i IH] using lt_wf_ind. intros n Hi. constructor.
    + rewrite <- HN. apply Hreq. rewrite app_nil_r. apply list_elem_of_lookup. by eexists.
    + intros d Hd. destruct (Hsorted i n d Hi) as (j & Hj & Hjd).
      { by rewrite built_forward. }
      by apply (IH j).
  - induction 1 as [n Hn _ IH].
    assert (n ∈ N) as HnN by (by rewrite HN).
    rewrite <- (app_nil_r order). apply (Hready n HnN), pendingAll_zero.
    intros d Hd. apply IH. unfold dependsOn. by rewrite <- (built_forward rangeKeys).
Qed.

(** The names the error of [Validate] lists are the catalog's processes
    that are not grounded. *)
Lemma cycleNodes_grounded (deg : gmap string Z) (order : list string) :
  vinv deg [] order ->
  let l := filter (fun name => (0 < default 0 (deg !! name))%Z) (rangeKeys (dom deg)) in
  NoDup l /\ forall n, n ∈ l <-> n ∈ dom (Processes cfg) /\ ~ grounded cfg n.
Proof.
  intros Hinv l. pose proof (visited_grounded deg order Hinv) as Hvis.
  destruct Hinv as [Hnd Hreq Hdeg Hready Hsorted Hother Hkeys].
  assert (HN : N = dom (Processes cfg)) by (by apply built_nodes).
  split; [apply NoDup_filter; by apply rangeKeys_NoDup|].
  intros n. rewrite <- Hvis, <- HN. unfold l.
  rewrite list_elem_of_filter, rangeKeys_elem by done.
  fold (degOf deg n). split.
  - intros [Hpos Hdom]. destruct (decide (n ∈ N)) as [HnN|HnN].
    + split; [done|]. intros Hin.
      assert (pendingAll order n = 0) as H0 by (apply Hready; [done|by rewrite app_nil_r]).
      rewrite (Hdeg n HnN), H0 in Hpos. lia.
    + rewrite (Hother n HnN) in Hpos. lia.
  - intros [HnN Hno]. split; [|by apply Hkeys].
    rewrite (Hdeg n HnN).
    destruct (decide (pendingAll order n = 0)) as [H0|H0]; [|lia].
    exfalso. apply Hno. apply (Hready n HnN) in H0. by rewrite app_nil_r in H0.
Qed.

End validate.

(** What [Validate] lists, whatever the order of its ranges. *)
Lemma Validate_listed (rangeKeys : gset string -> list string) (cfg : Config)
    (l : list string) :
  fair_range rangeKeys ->
  Validate rangeKeys (NewDependencyGraph rangeKeys cfg) = CycleInvolving l ->
  NoDup l /\ forall n, n ∈ l <-> n ∈ dom (Processes cfg) /\ ~ grounded cfg n.
Proof.
  intros Hfair.
  destruct (validate_result rangeKeys Hfair cfg) as (deg & order & Hrun & Hinv).
  rewrite (Validate_unfold rangeKeys cfg deg order Hrun).
  destruct (decide _); [done|]. intros [= <-].
  by apply (cycleNodes_grounded rangeKeys Hfair cfg deg order).
Qed.

End validate_spec.

Module validate_props.
Import config graph graph_spec graph_claims graph_props validate_spec.
Local Open Scope nat_scope.

(** A depends on X, which the catalog does not define; B depends on A. *)
Definition dangling : Config :=
  {| Processes := <["A" := proc ["X"]]> (<["B" := proc ["A"]]> ∅) |}.

(** X6: on the graph of a catalog [Validate] returns [nil] exactly when the
    catalog has no dependency cycle and every dependency names a process of
    the catalog: a dependency on an undefined name is reported as a cycle. *)
Theorem Validate_accepts_iff (rangeKeys : gset string -> list string) (cfg : Config) :
  fair_range rangeKeys ->
  (Validate rangeKeys (NewDependencyGraph rangeKeys cfg) = Valid <->
   acyclic cfg /\ deps_defined cfg).
Proof.
  intros Hfair.
  destruct (validate_result rangeKeys Hfair cfg) as (deg & order & Hrun & Hinv).
  rewrite (Validate_unfold rangeKeys cfg deg order Hrun).
  rewrite <- (visited_all_iff rangeKeys Hfair cfg deg order Hinv).
  by destruct (decide _).
Qed.

Lemma Validate_accepts_iff_witness :
  Validate elements (NewDependencyGraph elements dangling) = Valid <->
  acyclic dangling /\ deps_defined dangling.
Proof. apply (Validate_accepts_iff elements dangling). exact elements_fair. Defined.

(** X7: when [Validate] fails, the names its error lists are catalog
    processes, the list is not empty and has no repetition, and every listed
    process has a dependency that is itself listed or is not defined by the
    catalog; [Validate] returns [nil] or this error, nothing else. *)
Theorem Validate_reports (rangeKeys : gset string -> list string) (cfg : Config) :
  fair_range rangeKeys ->
  Validate rangeKeys (NewDependencyGraph rangeKeys cfg) = Valid \/
  exists l, Validate rangeKeys (NewDependencyGraph rangeKeys cfg) = CycleInvolving l /\
    l <> [] /\ NoDup l /\
    forall n, n ∈ l ->
      n ∈ dom (Processes cfg) /\
      exists d, dependsOn cfg n d /\ (d ∈ l \/ d ∉ dom (Processes cfg)).
Proof.
  intros Hfair.
  destruct (validate_result rangeKeys Hfair cfg) as (deg & order & Hrun & Hinv).
  rewrite (Validate_unfold rangeKeys cfg deg order Hrun).
  destruct (decide _) as [Heq|Hne]; [by left|right].
  eexists. split; [done|]. by apply (cycleNodes_spec rangeKeys Hfair cfg deg order).
Qed.

Lemma Validate_reports_witness :
  Validate elements (NewDependencyGraph elements dangling) = Valid \/
  exists l, Validate elements (NewDependencyGraph elements dangling) = CycleInvolving l /\
    l <> [] /\ NoDup l /\
    forall n, n ∈ l ->
      n ∈ dom (Processes dangling) /\
      exists d, dependsOn dangling n d /\ (d ∈ l \/ d ∉ dom (Processes dangling)).
Proof. apply (Validate_reports elements dangling). exact elements_fair. Defined.

(** [dependency_test.go] on [Validate], replayed, and the undefined name. *)
Example Validate_examples :
  Validate elements (NewDependencyGraph elements diamond) = Valid /\
  Validate elements (NewDependencyGraph elements cycle3) = CycleInvolving ["C"; "A"; "B"] /\
  Validate elements (NewDependencyGraph elements beside_cycle) = CycleInvolving ["C"; "B"] /\
  Validate elements (NewDependencyGraph elements dangling) = CycleInvolving ["A"; "B"].
Proof. repeat split; vm_compute; reflexivity. Qed.

End validate_props.

(** ** [StopOrder] against [StartOrder] *)

Module stop_order_claims.
Import config graph graph_spec graph_claims graph_props.
Local Open Scope nat_scope.

(** A topological order of the closure of [targets]: no repetition, the
    members of the closure, each after all it depends on. *)
Definition topological (cfg : Config) (targets order : list string) : Prop :=
  NoDup order /\
  (forall y, y ∈ order <-> closure cfg targets y) /\
  (forall i n d, order !! i = Some n -> dependsOn cfg n d ->
     exists j, j < i /\ order !! j = Some d).

(** Two processes with no dependency between them. *)
Definition pair : Config :=
  {| Processes := <["A" := proc []]> (<["B" := proc []]> ∅) |}.

(** A [range] that visits the keys in the opposite order of [elements]. *)
Definition backwards (s : gset string) : list string := list.reverse (elements s).

Lemma backwards_fair : fair_range backwards.
Proof. intros s. unfold backwards. by rewrite reverse_Permutation. Qed.

(** [StartOrder] returns a list on known targets only. *)
Lemma StartOrder_targets_known (buildKeys rangeKeys : gset string -> list string)
    (cfg : Config) (targets order : list string) :
  StartOrder rangeKeys (NewDependencyGraph buildKeys cfg) targets = Ok order ->
  forall t, t ∈ targets -> t ∈ nodes (NewDependencyGraph buildKeys cfg).
Proof.
  intros Hok.
  destruct (decide (Forall (fun t => t ∈ nodes (NewDependencyGraph buildKeys cfg)) targets))
    as [Hknown|Hunk]; [by apply Forall_forall|].
  apply not_Forall_Exists in Hunk; [|apply _]. apply Exists_exists in Hunk.
  destruct (collectTargets_unknown buildKeys cfg targets ∅ Hunk) as (t & _ & _ & Herr).
  unfold StartOrder in Hok. by rewrite Herr in Hok.
Qed.

Lemma topological_Permutation (cfg : Config) (targets o o' : list string) :
  topological cfg targets o -> topological cfg targets o' -> o ≡ₚ o'.
Proof.
  intros (Hnd & Hmem & _) (Hnd' & Hmem' & _).
  apply NoDup_Permutation; [done|done|]. intros y. by rewrite Hmem, Hmem'.
Qed.

(** C7, as stated, fails: each call of [StartOrder] and of [StopOrder] ranges
    over its map [inDegree] in an order of its own. On two processes with no
    dependency between them, a call of [StartOrder] that visits A first
    returns A, B; a call of [StopOrder] that visits B first computes B, A and
    returns A, B as well, which is not the reverse of A, B. *)
Lemma StopOrder_reverse_counterexample :
  fair_range elements /\ fair_range backwards /\
  StartOrder elements (NewDependencyGraph elements pair) ["A"; "B"] = Ok ["A"; "B"] /\
  StopOrder backwards (NewDependencyGraph elements pair) ["A"; "B"] = Ok ["A"; "B"] /\
  ["A"; "B"] <> rev ["A"; "B"].
Proof.
  split; [exact elements_fair|]. split; [exact backwards_fair|].
  split; [by vm_compute|]. split; [by vm_compute|done].
Qed.

(** C7, amended: whenever [StartOrder] succeeds on a target list, [StopOrder]
    succeeds on it, in whatever order either call ranges over its maps, and
    returns the exact reverse of the list its own run of [StartOrder]
    computes. That list and the list of the other call are both topological
    orders of the closure of the targets, so what [StopOrder] returns is a
    permutation of the reverse of what [StartOrder] has returned, and it is
    that reverse itself where the closure has one topological order only. *)
Theorem StopOrder_reverses_a_start_order
    (buildKeys startKeys stopKeys : gset string -> list string)
    (cfg : Config) (targets order : list string) :
  fair_range buildKeys -> fair_range startKeys -> fair_range stopKeys ->
  StartOrder startKeys (NewDependencyGraph buildKeys cfg) targets = Ok order ->
  exists order',
    StopOrder stopKeys (NewDependencyGraph buildKeys cfg) targets = Ok order' /\
    StartOrder stopKeys (NewDependencyGraph buildKeys cfg) targets = Ok (rev order') /\
    topological cfg targets order /\
    topological cfg targets (rev order') /\
    order' ≡ₚ rev order /\
    ((forall o o', topological cfg targets o -> topological cfg targets o' -> o = o') ->
       order' = rev order).
Proof.
  intros Hbuild Hstart Hstop Hok.
  pose proof (StartOrder_sorted buildKeys Hbuild startKeys Hstart cfg targets order Hok)
    as Htopo.
  pose proof (StartOrder_targets_known buildKeys startKeys cfg targets order Hok) as Hknown.
  destruct (StartOrder_complete_local buildKeys Hbuild stopKeys Hstop cfg targets Hknown)
    as [o Ho].
  { destruct (StartOrder_sound buildKeys Hbuild startKeys Hstart cfg targets order Hok)
      as (Hnd & Hmem & Hs).
    by apply (sorted_no_cycle cfg targets order). }
  pose proof (StartOrder_sorted buildKeys Hbuild stopKeys Hstop cfg targets o Ho) as Htopo'.
  exists (rev o). rewrite StopOrder_unfold, Ho, rev_involutive.
  split; [done|]. split; [done|]. split; [done|]. split; [done|]. split.
  - rewrite !rev_is_reverse, !reverse_Permutation.
    by apply (topological_Permutation cfg targets).
  - intros Hone. f_equal. by apply Hone.
Qed.

(** C, which depends on the two independent processes A and B. *)
Definition vee : Config :=
  {| Processes := <["A" := proc []]> (<["B" := proc []]> (<["C" := proc ["A"; "B"]]> ∅)) |}.

Lemma StopOrder_reverses_a_start_order_witness :
  exists order',
    StopOrder backwards (NewDependencyGraph elements vee) ["C"] = Ok order' /\
    StartOrder backwards (NewDependencyGraph elements vee) ["C"] = Ok (rev order') /\
    topological vee ["C"] ["A"; "B"; "C"] /\
    topological vee ["C"] (rev order') /\
    order' ≡ₚ rev ["A"; "B"; "C"] /\
    ((forall o o', topological vee ["C"] o -> topological vee ["C"] o' -> o = o') ->
       order' = rev ["A"; "B"; "C"]).
Proof.
  apply (StopOrder_reverses_a_start_order elements elements backwards vee ["C"]).
  - exact elements_fair.
  - exact elements_fair.
  - exact backwards_fair.
  - vm_compute. reflexivity.
Defined.

(** The two calls on [vee]: [StopOrder] returns C, A, B where the reverse of
    what [StartOrder] has returned is C, B, A; on the chain, which has one
    topological order, the lists are exact reverses under both orders. *)
Example StopOrder_vee :
  StartOrder elements (NewDependencyGraph elements vee) ["C"] = Ok ["A"; "B"; "C"] /\
  StopOrder backwards (NewDependencyGraph elements vee) ["C"] = Ok ["C"; "A"; "B"] /\
  StartOrder elements (NewDependencyGraph elements chain) ["C"] = Ok ["A"; "B"; "C"] /\
  StopOrder backwards (NewDependencyGraph elements chain) ["C"] = Ok ["C"; "B"; "A"].
Proof. split_and!; by vm_compute. Qed.

End stop_order_claims.

(** ** Managed process *)

Module process_spec.
Import config process.

(** [Start] never writes the two retry fields, whatever its outcome; nor do
    [Stop], [waitForExit], [SetStatus] and [SetError]. *)
Definition keeps_retry (p p' : ManagedProcess) : Prop :=
  RetryCount (state p') = RetryCount (state p) /\
  NextRetryAt (state p') = NextRetryAt (state p).

Lemma Start_keeps_retry now spawn p : keeps_retry p (Start now spawn p).1.
Proof.
  unfold Start. destruct (decide _); [done|]. by destruct spawn.
Qed.

Lemma waitForExit_keeps_retry now exit p : keeps_retry p (waitForExit now exit p).
Proof.
  unfold waitForExit, keeps_retry. destruct exit; simpl; try done;
    by destruct (decide _).
Qed.

Lemma Stop_keeps_retry now exit p : keeps_retry p (Stop now exit p).
Proof.
  unfold Stop. destruct (decide _); [done|]. simpl.
  destruct (cmd p); simpl; [|done].
  apply (waitForExit_keeps_retry now exit
           (withState (withStatus StatusStopping (state p)) p)).
Qed.

Lemma SetStatus_keeps_retry s p : keeps_retry p (SetStatus s p).
Proof. done. Qed.

Lemma SetError_keeps_retry err p : keeps_retry p (SetError err p).
Proof. done. Qed.

End process_spec.

Module process_claims.
Import config process process_spec.

(** C10: when [Start] spawns successfully it sets the status to Running,
    records the pid and the start time, clears [StoppedAt], [LastError] and
    [ExitCode], and leaves [RetryCount] and [NextRetryAt] as they were;
    [ResetRetryCount] is the setter that zeroes those two. *)
Theorem Start_success_frame (now : Time) (spawn : SpawnResult) (p p' : ManagedProcess) :
  Start now spawn p = (p', None) ->
  (status (state p') = StatusRunning /\
   (spawn = PtyStarted (PID (state p')) \/ spawn = PipeStarted (PID (state p'))) /\
   StartedAt (state p') = now) /\
  (StoppedAt (state p') = zeroTime /\ LastError (state p') = "" /\
   ExitCode (state p') = 0) /\
  (RetryCount (state p') = RetryCount (state p) /\
   NextRetryAt (state p') = NextRetryAt (state p)) /\
  (RetryCount (state (ResetRetryCount p')) = 0 /\
   NextRetryAt (state (ResetRetryCount p')) = zeroTime).
Proof.
  unfold Start. destruct (decide _); [done|].
  destruct spawn; intros [= <-]; simpl; try done; repeat split; eauto.
Qed.

Definition retrying_twice : ManagedProcess :=
  SetRetryState 2 5000 (SetStatus StatusRetrying
    (NewManagedProcess "A"
       {| Command := "exit 1"; DependsOn := [];
          Retry := {| Enabled := true; MaxAttempts := 3; InitialBackoff := 100000000;
                      MaxBackoff := 200000000; BackoffMultiplier := 1.5 |} |})).

Lemma Start_success_frame_witness :
  let p' := (Start 7000 (PtyStarted 42) retrying_twice).1 in
  (status (state p') = StatusRunning /\
   (PtyStarted 42 = PtyStarted (PID (state p')) \/
    PtyStarted 42 = PipeStarted (PID (state p'))) /\
   StartedAt (state p') = 7000) /\
  (StoppedAt (state p') = zeroTime /\ LastError (state p') = "" /\
   ExitCode (state p') = 0) /\
  (RetryCount (state p') = RetryCount (state retrying_twice) /\
   NextRetryAt (state p') = NextRetryAt (state retrying_twice)) /\
  (RetryCount (state (ResetRetryCount p')) = 0 /\
   NextRetryAt (state (ResetRetryCount p')) = zeroTime).
Proof.
  apply (Start_success_frame 7000 (PtyStarted 42) retrying_twice). reflexivity.
Defined.

(** [process_test.go]: a second [Start] on a running process is refused. *)
Example Start_double :
  let p := (Start 1 (PtyStarted 42) (NewManagedProcess "A" (Build_Process "sleep 60" [] DefaultRetryConfig))).1 in
  (Start 2 (PtyStarted 43) p).2 = Some "process A is already running".
Proof. reflexivity. Qed.

End process_claims.

(** ** Managed process: further properties *)

Module process_props.
Import config process process_spec.

Definition active (s : Status) : Prop := s = StatusRunning \/ s = StatusStarting.

(** [Stop] on a process that has a running child. *)
Lemma Stop_active (now : Time) (exit : ExitResult) (p : ManagedProcess) :
  active (status (state p)) -> cmd p = true ->
  let s' := state (Stop now exit p) in
  status s' = StatusStopped /\ PID s' = 0 /\ StoppedAt s' = now /\
  LastError s' = LastError (state p) /\ StartedAt s' = StartedAt (state p) /\
  RetryCount s' = RetryCount (state p) /\ NextRetryAt s' = NextRetryAt (state p).
Proof.
  unfold active. intros Hact Hcmd. unfold Stop. rewrite decide_False by tauto. simpl.
  rewrite Hcmd. simpl. unfold waitForExit. simpl.
  destruct exit; simpl; repeat case_decide; done.
Qed.

(** X13: [Stop] leaves a process that is neither Running nor Starting as it
    is. A Running or Starting process with a child ends Stopped, never
    Failed, whatever [cmd.Wait()] returned: its pid is cleared, [StoppedAt]
    is the time of the exit, and [LastError], [StartedAt] and the retry
    fields are as before. Stopping twice is stopping once. *)
Theorem Stop_effect (now now' : Time) (exit exit' : ExitResult) (p : ManagedProcess) :
  (~ active (status (state p)) -> Stop now exit p = p) /\
  (active (status (state p)) -> cmd p = true ->
     let s' := state (Stop now exit p) in
     status s' = StatusStopped /\ PID s' = 0 /\ StoppedAt s' = now /\
     LastError s' = LastError (state p) /\ StartedAt s' = StartedAt (state p) /\
     RetryCount s' = RetryCount (state p) /\ NextRetryAt s' = NextRetryAt (state p)) /\
  Stop now' exit' (Stop now exit p) = Stop now exit p.
Proof.
  unfold active. split; [|split].
  - intros Hna. unfold Stop. rewrite decide_True; [done|]. tauto.
  - intros Hact Hcmd. by apply Stop_active.
  - destruct (decide (status (state p) <> StatusRunning /\
                      status (state p) <> StatusStarting)) as [Hna|Hact].
    + assert (forall t e, Stop t e p = p) as Hid
        by (intros t e; unfold Stop; by rewrite decide_True).
      by rewrite !Hid.
    + assert (~ active (status (state (Stop now exit p)))) as Hdone.
      { unfold Stop, active. rewrite decide_False by done. simpl.
        destruct (cmd p); simpl; [|intros [?|?]; done].
        unfold waitForExit. simpl.
        destruct exit; simpl; repeat case_decide; simpl; intros [?|?]; done. }
      unfold active in Hdone. unfold Stop at 1. rewrite decide_True; [done|]. tauto.
Qed.

Definition running_A : ManagedProcess :=
  (Start 1000 (PtyStarted 42)
     (NewManagedProcess "A" {| Command := "sleep 60"; DependsOn := [];
                               Retry := DefaultRetryConfig |})).1.

Lemma Stop_effect_witness :
  let s' := state (Stop 2000 (ExitError (-1) "signal: terminated") running_A) in
  status s' = StatusStopped /\ PID s' = 0 /\ StoppedAt s' = 2000 /\
  LastError s' = LastError (state running_A) /\ StartedAt s' = StartedAt (state running_A) /\
  RetryCount s' = RetryCount (state running_A) /\
  NextRetryAt s' = NextRetryAt (state running_A).
Proof.
  apply (proj1 (proj2 (Stop_effect 2000 0 (ExitError (-1) "signal: terminated") ExitNil
                         running_A))).
  - left. reflexivity.
  - reflexivity.
Defined.

(** X14: [Start] returns an error exactly when the process is already
    Running or the spawn fails. In the first case nothing changes; in the
    second the status becomes Failed and [LastError] the spawn error, while
    the name, the pid, the times, the exit code and both retry fields
    ([RetryCount], [NextRetryAt]) stay. *)
Theorem Start_error (now : Time) (spawn : SpawnResult) (p : ManagedProcess) :
  let r := Start now spawn p in
  (r.2 <> None <->
     status (state p) = StatusRunning \/ exists err, spawn = SpawnFailed err) /\
  (status (state p) = StatusRunning -> r.1 = p) /\
  (forall err, status (state p) <> StatusRunning -> spawn = SpawnFailed err ->
     let s' := state r.1 in
     status s' = StatusFailed /\ LastError s' = err /\
     Name s' = Name (state p) /\ PID s' = PID (state p) /\
     StartedAt s' = StartedAt (state p) /\ StoppedAt s' = StoppedAt (state p) /\
     ExitCode s' = ExitCode (state p) /\
     RetryCount s' = RetryCount (state p) /\ NextRetryAt s' = NextRetryAt (state p)).
Proof.
  simpl. unfold Start. destruct (decide (status (state p) = StatusRunning)) as [Hr|Hr].
  - split; [|split]; simpl; [|done|done]. split; [by left|done].
  - split; [|split].
    + destruct spawn; simpl; (split; [intros H|intros [H|[e H]]]); try done; eauto.
    + done.
    + intros err _ ->. done.
Qed.

(** A process that has run from 500 to 900, ended with exit code 3 and
    waits for its third attempt, due at 5000. *)
Definition awaiting_retry : ManagedProcess :=
  let p0 := NewManagedProcess "A" {| Command := "nope"; DependsOn := [];
                                     Retry := DefaultRetryConfig |} in
  let p1 := waitForExit 900 (ExitError 3 "exit status 3") (Start 500 (PtyStarted 77) p0).1 in
  SetRetryState 2 5000 (SetStatus StatusRetrying p1).

Lemma Start_error_witness :
  let s := state awaiting_retry in
  let s' := state (Start 1000 (SpawnFailed "fork/exec: no such file") awaiting_retry).1 in
  (StartedAt s, StoppedAt s, ExitCode s, RetryCount s, NextRetryAt s) = (500, 900, 3, 2, 5000) /\
  status s' = StatusFailed /\ LastError s' = "fork/exec: no such file" /\
  Name s' = Name s /\ PID s' = PID s /\
  StartedAt s' = StartedAt s /\ StoppedAt s' = StoppedAt s /\
  ExitCode s' = ExitCode s /\
  RetryCount s' = RetryCount s /\ NextRetryAt s' = NextRetryAt s.
Proof.
  split; [reflexivity|].
  apply (proj2 (proj2 (Start_error 1000 (SpawnFailed "fork/exec: no such file")
                         awaiting_retry))
           "fork/exec: no such file"); done.
Defined.

(** X15: the uptime over a life cycle. A process started at [t0] shows the
    uptime [now - t0] while it runs; once stopped, or once it has exited by
    itself, at [t1] it shows [t1 - t0] whatever the time of the query; a
    process never started shows 0. ([t0] and [t1] are not the zero time.) *)
Theorem Uptime_lifecycle (t0 t1 now : Time) (spawn : SpawnResult) (exit : ExitResult)
    (p p1 : ManagedProcess) :
  Start t0 spawn p = (p1, None) -> t0 <> zeroTime -> t1 <> zeroTime ->
  Uptime now (state p1) = now - t0 /\
  Uptime now (state (Stop t1 exit p1)) = t1 - t0 /\
  Uptime now (state (waitForExit t1 exit p1)) = t1 - t0 /\
  (forall name cfg, Uptime now (state (NewManagedProcess name cfg)) = 0).
Proof.
  intros Hstart Ht0 Ht1. unfold Start in Hstart.
  destruct (decide (status (state p) = StatusRunning)); [done|].
  assert (status (state p1) = StatusRunning /\ StartedAt (state p1) = t0 /\ cmd p1 = true)
    as (Hs & Ht & Hc) by (destruct spawn; injection Hstart as <-; done).
  assert (forall s, StartedAt s = t0 -> StoppedAt s = t1 ->
            status s = StatusStopped \/ status s = StatusFailed ->
            Uptime now s = t1 - t0) as Hended.
  { intros s H0 H1 Hst. unfold Uptime. rewrite H0, H1.
    rewrite decide_False by done.
    rewrite decide_False by (destruct Hst as [-> | ->]; intros [?|?]; done).
    by rewrite decide_True. }
  split; [|split; [|split]].
  - unfold Uptime. rewrite Ht, decide_False by done. rewrite decide_True by (by left). done.
  - destruct (Stop_active t1 exit p1 (or_introl Hs) Hc) as (H1 & _ & H3 & _ & H5 & _).
    apply Hended; [by rewrite H5|done|by left].
  - apply Hended; unfold waitForExit; simpl.
    + destruct exit; simpl; repeat case_decide; done.
    + destruct exit; simpl; repeat case_decide; done.
    + destruct exit; simpl; repeat case_decide; simpl; tauto.
  - intros name cfg. reflexivity.
Qed.

Lemma Uptime_lifecycle_witness :
  Uptime 9000 (state running_A) = 9000 - 1000 /\
  Uptime 9000 (state (Stop 2000 ExitNil running_A)) = 2000 - 1000 /\
  Uptime 9000 (state (waitForExit 2000 ExitNil running_A)) = 2000 - 1000 /\
  (forall name cfg, Uptime 9000 (state (NewManagedProcess name cfg)) = 0).
Proof.
  apply (Uptime_lifecycle 1000 2000 9000 (PtyStarted 42) ExitNil
           (NewManagedProcess "A" {| Command := "sleep 60"; DependsOn := [];
                                     Retry := DefaultRetryConfig |}) running_A);
    done.
Defined.

End process_props.

(** ** Manager *)

Module manager_spec.
Import config graph process manager process_spec.

(** A world in which every spawn succeeds and every child ends by the signal
    it is sent. *)
Definition calm : World :=
  {| now := 1000; spawn := fun _ => PtyStarted 4242;
     exit := fun _ => ExitError (-1) "signal: terminated" |}.

(** Put the process [name] of a manager in a given status and retry count. *)
Definition setProcess (name : string) (s : Status) (retries : Z) (pm : ProcessManager)
    : ProcessManager :=
  match processes pm !! name with
  | None => pm
  | Some p =>
      {| mconfig := mconfig pm; mgraph := mgraph pm;
         processes := <[name := SetRetryState retries zeroTime (SetStatus s p)]> (processes pm);
         events := events pm |}
  end.

(** Start every process of the list in turn. *)
Definition running (names : list string) (pm : ProcessManager) : ProcessManager :=
  foldl (fun pm name =>
           match processes pm !! name with
           | None => pm
           | Some p =>
               {| mconfig := mconfig pm; mgraph := mgraph pm;
                  processes := <[name := (Start 500 (PtyStarted 77) p).1]> (processes pm);
                  events := events pm |}
           end) pm names.

Definition stateOf (name : string) {A} (o : outcome A) : option ProcessState :=
  match o with
  | Return _ pm => state <$> processes pm !! name
  | Panic => None
  end.

Definition eventsOf {A} (o : outcome A) : list (string * Status * Status) :=
  match o with
  | Return _ pm => (fun e => (EvName e, OldState e, NewState e)) <$> events pm
  | Panic => []
  end.

Definition errorOf {A} (o : outcome (option A)) : option (option A) :=
  match o with
  | Return e _ => Some e
  | Panic => None
  end.

(** *** A Hoare logic for the manager's methods *)

(** If [m] starts in a manager satisfying [P] and returns, the value and the
    manager it returns satisfy [Q]. *)
Definition hoare {A} (P : ProcessManager -> Prop) (m : M A)
    (Q : A -> ProcessManager -> Prop) : Prop :=
  forall pm, P pm ->
    match m pm with
    | Return a pm' => Q a pm'
    | Panic => True
    end.

Lemma hoare_ret {A} (P : ProcessManager -> Prop) (a : A) :
  hoare P (ret a) (fun b pm => b = a /\ P pm).
Proof. intros pm HP. by split. Qed.

Lemma hoare_bind {A B} (P : ProcessManager -> Prop) (m : M A) (k : A -> M B)
    (Q : A -> ProcessManager -> Prop) (R : B -> ProcessManager -> Prop) :
  hoare P m Q -> (forall a, hoare (Q a) (k a) R) -> hoare P (m ≫= k) R.
Proof.
  intros Hm Hk pm HP. specialize (Hm pm HP).
  unfold mbind, M_bind. destruct (m pm) as [a pm'|]; [|done]. by apply Hk.
Qed.

Lemma hoare_conseq {A} (P P' : ProcessManager -> Prop) (m : M A)
    (Q Q' : A -> ProcessManager -> Prop) :
  hoare P' m Q' -> (forall pm, P pm -> P' pm) -> (forall a pm, Q' a pm -> Q a pm) ->
  hoare P m Q.
Proof.
  intros Hm HP HQ pm Hpm. specialize (Hm pm (HP pm Hpm)).
  destruct (m pm); [by apply HQ|done].
Qed.

Lemma hoare_forEach {A} (Inv : ProcessManager -> Prop) (l : list A) (body : A -> M unit) :
  (forall x, x ∈ l -> hoare Inv (body x) (fun _ => Inv)) ->
  hoare Inv (forEach l body) (fun _ => Inv).
Proof.
  induction l as [|x l IH]; intros Hbody; simpl.
  - by intros pm HP.
  - eapply hoare_bind; [apply Hbody; by left|]. intros []. apply IH.
    intros y Hy. apply Hbody. by right.
Qed.

Lemma hoare_getProcess (P : ProcessManager -> Prop) (n : string) :
  hoare P (getProcess n) (fun p pm => P pm /\ processes pm !! n = Some p).
Proof.
  intros pm HP. unfold getProcess. by destruct (processes pm !! n) eqn:E.
Qed.

(** An invariant that only reads [processes]. *)
Definition on_processes (Inv : gmap string ManagedProcess -> Prop) : ProcessManager -> Prop :=
  fun pm => Inv (processes pm).

Lemma hoare_getGraph (P : ProcessManager -> Prop) :
  hoare P getGraph (fun g pm => P pm /\ g = mgraph pm).
Proof. intros pm HP. by split. Qed.

Lemma hoare_emitEvent (Inv : gmap string ManagedProcess -> Prop) n o s e :
  hoare (on_processes Inv) (emitEvent n o s e) (fun _ => on_processes Inv).
Proof. intros pm HP. unfold emitEvent. by destruct (decide _). Qed.

Lemma hoare_update (Inv : gmap string ManagedProcess -> Prop)
    (P : ProcessManager -> Prop) n p :
  (forall pm, P pm -> Inv (<[n := p]> (processes pm))) ->
  hoare P (update n p) (fun _ => on_processes Inv).
Proof. intros H pm HP. by apply H. Qed.

(** The process [target] exists and its retry counter is [c]. *)
Definition retry_is (target : string) (c : Z) (ps : gmap string ManagedProcess) : Prop :=
  exists p, ps !! target = Some p /\ RetryCount (state p) = c.

(** The process [target] is exactly [p]. *)
Definition entry_is (target : string) (p : ManagedProcess)
    (ps : gmap string ManagedProcess) : Prop :=
  ps !! target = Some p.

Lemma retry_is_insert target c ps n p p' :
  retry_is target c ps -> ps !! n = Some p ->
  RetryCount (state p') = RetryCount (state p) ->
  retry_is target c (<[n := p']> ps).
Proof.
  intros (q & Hq & Hc) Hn Hkeep. unfold retry_is.
  destruct (decide (n = target)) as [->|Hne].
  - rewrite lookup_insert_eq. exists p'. split; [done|]. congruence.
  - rewrite lookup_insert_ne by done. by exists q.
Qed.

Section world.
Variable w : World.
Variable target : string.

Lemma startSingle_retry c n :
  hoare (on_processes (retry_is target c)) (startSingle w n)
        (fun _ => on_processes (retry_is target c)).
Proof.
  unfold startSingle. eapply hoare_bind; [apply hoare_getProcess|]. intros p. simpl.
  eapply hoare_bind.
  { apply (hoare_update (retry_is target c)). intros pm [HI Hp].
    eapply retry_is_insert; [exact HI|exact Hp|].
    apply (proj1 (Start_keeps_retry (now w) (spawn w n) p)). }
  intros []. destruct (Start (now w) (spawn w n) p).2.
  - eapply hoare_bind; [apply hoare_emitEvent|]. intros [].
    eapply hoare_conseq; [apply hoare_ret|done|]. by intros a pm [_ ?].
  - eapply hoare_bind; [apply hoare_emitEvent|]. intros [].
    eapply hoare_conseq; [apply hoare_ret|done|]. by intros a pm [_ ?].
Qed.

Lemma stopSingle_retry c n :
  hoare (on_processes (retry_is target c)) (stopSingle w n)
        (fun _ => on_processes (retry_is target c)).
Proof.
  unfold stopSingle. eapply hoare_bind; [apply hoare_getProcess|]. intros p. simpl.
  destruct (decide _).
  - eapply hoare_bind.
    { apply (hoare_update (retry_is target c)). intros pm [HI Hp].
      eapply retry_is_insert; [exact HI|exact Hp|done]. }
    intros []. eapply hoare_bind; [apply hoare_emitEvent|]. intros [].
    eapply hoare_conseq; [apply hoare_ret|done|]. by intros a pm [_ ?].
  - eapply hoare_bind.
    { apply (hoare_update (retry_is target c)). intros pm [HI Hp].
      eapply retry_is_insert; [exact HI|exact Hp|].
      apply (proj1 (Stop_keeps_retry (now w) (exit w n) p)). }
    intros []. eapply hoare_bind; [apply hoare_emitEvent|]. intros [].
    eapply hoare_conseq; [apply hoare_ret|done|]. by intros a pm [_ ?].
Qed.

Lemma StopProcess_retry c n :
  hoare (on_processes (retry_is target c)) (StopProcess w n)
        (fun _ => on_processes (retry_is target c)).
Proof.
  unfold StopProcess.
  apply (hoare_bind _ _ _ (fun _ => on_processes (retry_is target c))); [by intros pm HP|].
  intros g.
  apply (hoare_bind _ _ _ (fun _ => on_processes (retry_is target c)));
    [|intros []; apply stopSingle_retry].
  apply hoare_forEach. intros dep _.
  eapply hoare_bind; [apply hoare_getProcess|]. intros p. simpl.
  destruct (decide _).
  - apply (hoare_bind _ _ _ (fun _ => on_processes (retry_is target c))).
    + eapply hoare_conseq; [apply stopSingle_retry|by intros pm [? _]|done].
    + intros ?. eapply hoare_conseq; [apply hoare_ret|done|]. by intros ? pm [_ ?].
  - eapply hoare_conseq; [apply hoare_ret|by intros pm [? _]|]. by intros ? pm [_ ?].
Qed.

Lemma hoare_pure {A} (phi : Prop) (P : ProcessManager -> Prop) (m : M A)
    (Q : A -> ProcessManager -> Prop) :
  (phi -> hoare P m Q) -> hoare (fun pm => phi /\ P pm) m Q.
Proof. intros H pm [Hphi HP]. by apply H. Qed.

(** The process [target] satisfies [phi]. *)
Definition at_target (phi : ManagedProcess -> Prop) (ps : gmap string ManagedProcess) : Prop :=
  exists p, ps !! target = Some p /\ phi p.

(** [startSingle] on another name leaves the target alone. *)
Lemma startSingle_frame phi n :
  n <> target ->
  hoare (on_processes (at_target phi)) (startSingle w n)
        (fun _ => on_processes (at_target phi)).
Proof.
  intros Hne. unfold startSingle. eapply hoare_bind; [apply hoare_getProcess|].
  intros p. simpl.
  apply (hoare_bind _ _ _ (fun _ => on_processes (at_target phi))).
  { apply (hoare_update (at_target phi)). intros pm [(q & Hq & Hphi) _].
    exists q. by rewrite lookup_insert_ne. }
  intros []. destruct (Start (now w) (spawn w n) p).2.
  - eapply hoare_bind; [apply hoare_emitEvent|]. intros [].
    eapply hoare_conseq; [apply hoare_ret|done|]. by intros ? pm [_ ?].
  - eapply hoare_bind; [apply hoare_emitEvent|]. intros [].
    eapply hoare_conseq; [apply hoare_ret|done|]. by intros ? pm [_ ?].
Qed.

(** A successful [startSingle] of the target leaves it Running, with the
    retry counter it had. *)
Lemma startSingle_target c :
  hoare (on_processes (retry_is target c)) (startSingle w target)
        (fun err => on_processes (at_target (fun p =>
           RetryCount (state p) = c /\ (err = None -> status (state p) = StatusRunning)))).
Proof.
  unfold startSingle. eapply hoare_bind; [apply hoare_getProcess|].
  intros p. simpl. set (r := Start (now w) (spawn w target) p).
  apply (hoare_bind _ _ _ (fun _ => on_processes (at_target (fun p' =>
           RetryCount (state p') = c /\ (r.2 = None -> status (state p') = StatusRunning))))).
  { apply (hoare_update (at_target _)). intros pm [(q & Hq & Hc) Hp].
    exists r.1. rewrite lookup_insert_eq. split; [done|].
    assert (q = p) as -> by congruence. split.
    - rewrite <- Hc. apply (proj1 (Start_keeps_retry (now w) (spawn w target) p)).
    - intros Hnone. unfold r in *. unfold Start in *.
      destruct (decide _); [done|]. by destruct (spawn w target). }
  intros []. destruct r.2 as [e|] eqn:Hr.
  - eapply hoare_bind; [apply hoare_emitEvent|]. intros [].
    eapply hoare_conseq; [apply hoare_ret|done|].
    intros ? pm [-> (q & Hq & Hc & _)]. exists q. by split.
  - eapply hoare_bind; [apply hoare_emitEvent|]. intros [].
    eapply hoare_conseq; [apply hoare_ret|done|].
    intros ? pm [-> (q & Hq & Hc & Hrun)]. exists q. split; [done|]. split; [done|].
    intros _. by apply Hrun.
Qed.

Lemma collectRestartDeps_sub (P : ProcessManager -> Prop) (l : list string) :
  forall acc,
  hoare P (collectRestartDeps l acc)
        (fun r pm => P pm /\ forall x, x ∈ r -> x ∈ acc \/ x ∈ l).
Proof.
  induction l as [|dep l IH]; intros acc; simpl.
  - intros pm HP. split; [done|]. intros x Hx. by left.
  - eapply hoare_bind; [apply hoare_getProcess|]. intros p. simpl.
    destruct (decide _).
    + eapply hoare_conseq; [apply (IH (acc ++ [dep]))|by intros pm [? _]|].
      intros r pm [HP Hsub]. split; [done|]. intros x Hx.
      destruct (Hsub x Hx) as [[?|[->|?%elem_of_nil]%elem_of_cons]%elem_of_app|?].
      * by left.
      * right. by left.
      * done.
      * right. by right.
    + eapply hoare_conseq; [apply (IH acc)|by intros pm [? _]|].
      intros r pm [HP Hsub]. split; [done|]. intros x Hx.
      destruct (Hsub x Hx) as [?|?]; [by left|right; by right].
Qed.

(** [RestartProcess] never writes the retry counter of its target; when it
    succeeds the target is Running. *)
Lemma RestartProcess_target c :
  hoare (fun pm => (target ∉ Dependents (mgraph pm) target) /\
                   on_processes (retry_is target c) pm)
        (RestartProcess w target)
        (fun err => on_processes (at_target (fun p =>
           RetryCount (state p) = c /\ (err = None -> status (state p) = StatusRunning)))).
Proof.
  unfold RestartProcess.
  apply (hoare_bind _ _ _ (fun g pm => (target ∉ Dependents g target) /\
                                       on_processes (retry_is target c) pm)).
  { intros pm [? ?]. by split. }
  intros g. apply hoare_pure. intros Hself.
  eapply hoare_bind; [apply collectRestartDeps_sub|]. intros restartDeps.
  eapply hoare_conseq with
    (P' := fun pm => (forall x, x ∈ restartDeps -> x <> target) /\
                     on_processes (retry_is target c) pm);
    [|intros pm [HP Hsub]; split; [|done]|intros a pm H; exact H].
  2:{ intros x Hx ->. destruct (Hsub _ Hx) as [?%elem_of_nil|?]; done. }
  apply hoare_pure. intros Hne.
  eapply hoare_bind; [apply StopProcess_retry|]. intros [e|].
  { eapply hoare_conseq; [apply hoare_ret|done|].
    intros ? pm [-> (q & Hq & Hc)]. exists q. by split. }
  eapply hoare_bind; [apply startSingle_target|]. intros [e|].
  { eapply hoare_conseq; [apply hoare_ret|done|].
    intros ? pm [-> (q & Hq & Hc & _)]. exists q. by split. }
  set (phi := fun p : ManagedProcess =>
                RetryCount (state p) = c /\ status (state p) = StatusRunning).
  apply (hoare_bind _ _ _ (fun _ => on_processes (at_target phi))).
  - eapply hoare_conseq; [apply (hoare_forEach (on_processes (at_target phi)))| |done].
    2:{ intros pm (q & Hq & Hc & Hrun). exists q. split; [done|]. split; [done|]. by apply Hrun. }
    intros dep Hdep. specialize (Hne dep Hdep).
    eapply hoare_bind; [apply hoare_getProcess|]. intros p. simpl.
    apply (hoare_bind _ _ _ (fun _ => on_processes (at_target phi))).
    { apply (hoare_update (at_target phi)). intros pm [(q & Hq & Hphi) _].
      exists q. by rewrite lookup_insert_ne. }
    intros []. apply (hoare_bind _ _ _ (fun _ => on_processes (at_target phi)));
      [by apply startSingle_frame|].
    intros ?. eapply hoare_conseq; [apply hoare_ret|done|]. by intros ? pm [_ ?].
  - intros []. eapply hoare_conseq; [apply hoare_ret|done|].
    intros ? pm [-> (q & Hq & Hc & Hrun)]. exists q. by split.
Qed.

End world.

End manager_spec.

Module manager_claims.
Import config graph process manager graph_spec graph_claims manager_spec.

(** One process, no dependencies, retried up to three times. *)
Definition single : Config := {| Processes := <["A" := proc []]> ∅ |}.

(** The manager of [single] with A Retrying after two failed attempts. *)
Definition retrying_A : ProcessManager :=
  setProcess "A" StatusRetrying 2 (NewProcessManager elements single).

(** The manager of [chain] with A, B and C Running. *)
Definition chain_running (rangeKeys : gset string -> list string) : ProcessManager :=
  running ["A"; "B"; "C"] (NewProcessManager rangeKeys chain).

(** C1 fails on the code: with A Retrying and [RetryCount = 2],
    [RestartProcess("A")] returns [nil] and leaves A Running with
    [RetryCount] still 2. [RestartProcess] calls [ResetRetryCount] on the
    dependents it restarts, never on the target. *)
Theorem RestartProcess_retrying_twice :
  let o := RestartProcess calm "A" retrying_A in
  errorOf o = Some None /\
  status <$> stateOf "A" o = Some StatusRunning /\
  RetryCount <$> stateOf "A" o = Some 2.
Proof. vm_compute. done. Qed.

(** The same for every manager, world and target that is not its own
    dependent: a [RestartProcess] that returns leaves the retry counter of
    the target as it was, and the target Running when it returns [nil]. *)
Theorem RestartProcess_keeps_target_counter (w : World) (target : string) (c : Z)
    (pm pm' : ProcessManager) (err : option string) :
  target ∉ Dependents (mgraph pm) target ->
  retry_is target c (processes pm) ->
  RestartProcess w target pm = Return err pm' ->
  exists p, processes pm' !! target = Some p /\ RetryCount (state p) = c /\
    (err = None -> status (state p) = StatusRunning).
Proof.
  intros Hself Hc Hrun.
  pose proof (RestartProcess_target w target c pm (conj Hself Hc)) as H.
  by rewrite Hrun in H.
Qed.

Lemma RestartProcess_keeps_target_counter_witness :
  match RestartProcess calm "A" retrying_A with
  | Return err pm' =>
      exists p, processes pm' !! "A" = Some p /\ RetryCount (state p) = 2 /\
        (err = None -> status (state p) = StatusRunning)
  | Panic => True
  end.
Proof.
  destruct (RestartProcess calm "A" retrying_A) as [err pm'|] eqn:Hrun; [|done].
  apply (RestartProcess_keeps_target_counter calm "A" 2 retrying_A pm' err); [| |done].
  - replace (Dependents (mgraph retrying_A) "A") with (@nil string) by (by vm_compute).
    by intros ?%elem_of_nil.
  - eexists. split; [by vm_compute|by vm_compute].
Defined.

(** The dependents' path of the same function does reset the counter: B,
    Failed after its three retries, is restarted with [RetryCount = 0]. *)
Example RestartProcess_resets_dependent :
  let pm := setProcess "B" StatusFailed 3 (running ["A"] (NewProcessManager elements chain)) in
  let o := RestartProcess calm "A" pm in
  errorOf o = Some None /\
  status <$> stateOf "B" o = Some StatusRunning /\
  RetryCount <$> stateOf "B" o = Some 0.
Proof. vm_compute. done. Qed.

(** C2 fails on the code: in the chain with A, B, C Running,
    [StopProcess("A")] stops B, then C, then A: the dependents are stopped
    in the order [Dependents] lists them (depth-first from the target), so B
    is stopped before C, which depends on it. *)
Theorem StopProcess_chain_order :
  let o := StopProcess calm "A" (chain_running elements) in
  errorOf o = Some None /\
  eventsOf o = [("B", StatusRunning, StatusStopped);
                ("C", StatusRunning, StatusStopped);
                ("A", StatusRunning, StatusStopped)] /\
  dependsOn chain "C" "B".
Proof.
  split; [by vm_compute|]. split; [by vm_compute|].
  unfold dependsOn. replace (depsOf chain "C") with ["B"] by (by vm_compute). by left.
Qed.

Lemma Permutation_three (l : list string) (a b c : string) :
  l ≡ₚ [a; b; c] ->
  l = [a; b; c] \/ l = [a; c; b] \/ l = [b; a; c] \/
  l = [b; c; a] \/ l = [c; a; b] \/ l = [c; b; a].
Proof.
  intros Hp. pose proof (Permutation_length Hp) as Hlen.
  destruct l as [|x [|y [|z [|]]]]; try done. clear Hlen.
  assert (x ∈ [a; b; c]) as Hx by (rewrite <- Hp; by left).
  apply elem_of_cons in Hx as [->|Hx]; [|apply elem_of_cons in Hx as [->|Hx]].
  - apply Permutation_cons_inv, Permutation_sym, Permutation_length_2_inv in Hp.
    destruct Hp as [[= -> ->]|[= -> ->]]; tauto.
  - assert ([y; z] ≡ₚ [a; c]) as Hp'.
    { eapply (Permutation_cons_inv (a := b)). rewrite Hp. apply perm_swap. }
    apply Permutation_sym, Permutation_length_2_inv in Hp'.
    destruct Hp' as [[= -> ->]|[= -> ->]]; tauto.
  - apply elem_of_cons in Hx as [->|Hx]; [|by apply elem_of_nil in Hx].
    assert ([y; z] ≡ₚ [a; b]) as Hp'.
    { eapply (Permutation_cons_inv (a := c)). rewrite Hp.
      etrans; [apply perm_skip, perm_swap|apply perm_swap]. }
    apply Permutation_sym, Permutation_length_2_inv in Hp'.
    destruct Hp' as [[= -> ->]|[= -> ->]]; tauto.
Qed.

(** The order in which [range] visits the catalog does not change the graph
    of the chain: every adjacency list has at most one entry. *)
Lemma chain_graph_any_range (rangeKeys : gset string -> list string) :
  fair_range rangeKeys ->
  NewDependencyGraph rangeKeys chain = NewDependencyGraph elements chain.
Proof.
  intros Hfair. unfold NewDependencyGraph at 1.
  pose proof (Hfair (dom (Processes chain))) as Hp.
  replace (elements (dom (Processes chain))) with ["C"; "A"; "B"] in Hp by (by vm_compute).
  apply Permutation_three in Hp as [->|[->|[->|[->|[->| ->]]]]]; by vm_compute.
Qed.

(** So the order B, C, A does not depend on it either. *)
Lemma StopProcess_chain_order_any_range (rangeKeys : gset string -> list string) :
  fair_range rangeKeys ->
  eventsOf (StopProcess calm "A" (chain_running rangeKeys))
  = [("B", StatusRunning, StatusStopped);
     ("C", StatusRunning, StatusStopped);
     ("A", StatusRunning, StatusStopped)].
Proof.
  intros Hfair. unfold chain_running, NewProcessManager.
  rewrite (chain_graph_any_range rangeKeys Hfair). by vm_compute.
Qed.

(** [StopAll], the sibling path, takes its order from [StopOrder], which on
    the same chain gives C, B, A. *)
Example StopOrder_chain :
  StopOrder elements (NewDependencyGraph elements chain) ["A"; "B"; "C"]
  = Ok ["C"; "B"; "A"].
Proof. vm_compute. reflexivity. Qed.

End manager_claims.
(** ** Manager: what the operations do to the processes *)

Module manager_effects.
Import config retry graph process manager graph_spec graph_props process_spec manager_spec.

(** *** The manager's primitive steps as functions *)

Definition setEntry (n : string) (p : ManagedProcess) (pm : ProcessManager)
    : ProcessManager :=
  {| mconfig := mconfig pm; mgraph := mgraph pm;
     processes := <[n := p]> (processes pm); events := events pm |}.

Definition event (n : string) (o s : Status) (e : string) : StateEvent :=
  {| EvName := n; OldState := o; NewState := s; Error := e |}.

Definition pushEvent (e : StateEvent) (pm : ProcessManager) : ProcessManager :=
  if decide (length (events pm) < 100)%nat then
    {| mconfig := mconfig pm; mgraph := mgraph pm; processes := processes pm;
       events := events pm ++ [e] |}
  else pm.

Lemma bind_run {A B} (m : M A) (k : A -> M B) pm a pm' :
  m pm = Return a pm' -> (m ≫= k) pm = k a pm'.
Proof. unfold mbind, M_bind. by intros ->. Qed.

Lemma bind_panic {A B} (m : M A) (k : A -> M B) pm :
  m pm = Panic -> (m ≫= k) pm = Panic.
Proof. unfold mbind, M_bind. by intros ->. Qed.

Lemma getProcess_run n pm p :
  processes pm !! n = Some p -> getProcess n pm = Return p pm.
Proof. unfold getProcess. by intros ->. Qed.

Lemma getProcess_panic n pm :
  processes pm !! n = None -> getProcess n pm = Panic.
Proof. unfold getProcess. by intros ->. Qed.

Lemma emitEvent_run n o s e pm :
  emitEvent n o s e pm = Return tt (pushEvent (event n o s e) pm).
Proof. unfold emitEvent, pushEvent. by destruct (decide _). Qed.

Lemma pushEvent_processes e pm : processes (pushEvent e pm) = processes pm.
Proof. unfold pushEvent. by destruct (decide _). Qed.

Lemma pushEvent_graph e pm : mgraph (pushEvent e pm) = mgraph pm.
Proof. unfold pushEvent. by destruct (decide _). Qed.

Lemma pushEvent_config e pm : mconfig (pushEvent e pm) = mconfig pm.
Proof. unfold pushEvent. by destruct (decide _). Qed.

Lemma pushEvent_events e pm :
  (length (events pm) < 100)%nat -> events (pushEvent e pm) = events pm ++ [e].
Proof. intros H. unfold pushEvent. by rewrite decide_True. Qed.

(** *** [stopSingle] *)

(** The statuses in which [StopProcess], [StopAll] and [cascadeFailure]
    call [stopSingle] on a process. *)
Definition live (p : ManagedProcess) : Prop :=
  status (state p) = StatusRunning \/ status (state p) = StatusStarting \/
  status (state p) = StatusRetrying.

Global Instance live_dec p : Decision (live p).
Proof. unfold live. apply _. Defined.

(** What [stopSingle] makes of the process it is called on. *)
Definition stoppedBy (w : World) (n : string) (p : ManagedProcess) : ManagedProcess :=
  if decide (status (state p) = StatusRetrying) then SetStatus StatusStopped p
  else Stop (now w) (exit w n) p.

Lemma stopSingle_run w n pm p :
  processes pm !! n = Some p ->
  stopSingle w n pm
  = Return None (pushEvent (event n (status (state p)) StatusStopped "")
                           (setEntry n (stoppedBy w n p) pm)).
Proof.
  intros Hp. unfold stopSingle. rewrite (bind_run _ _ _ _ _ (getProcess_run _ _ _ Hp)).
  unfold stoppedBy, State. destruct (decide _).
  - unfold mbind, M_bind. simpl. by rewrite emitEvent_run.
  - unfold mbind, M_bind. simpl. by rewrite emitEvent_run.
Qed.

Lemma stopSingle_panic w n pm :
  processes pm !! n = None -> stopSingle w n pm = Panic.
Proof.
  intros Hp. unfold stopSingle. by rewrite (bind_panic _ _ _ (getProcess_panic _ _ Hp)).
Qed.

Lemma stoppedBy_rest w n p : ~ live p -> stoppedBy w n p = p.
Proof.
  unfold live, stoppedBy, Stop. intros H.
  destruct (decide _); [tauto|]. rewrite decide_True; [done|]. tauto.
Qed.

(** A process [stopSingle] has handled is in none of the live statuses. *)
Lemma stoppedBy_not_live w n p : ~ live (stoppedBy w n p).
Proof.
  unfold live, stoppedBy, Stop, SetStatus, waitForExit.
  destruct (decide (status (state p) = StatusRetrying)) as [|Hr]; simpl.
  { intros [?|[?|?]]; done. }
  destruct (decide _) as [[? ?]|Hn]; [tauto|].
  destruct (cmd p); simpl.
  - destruct (exit w n); simpl; repeat case_decide; simpl; intros [?|[?|?]]; done.
  - intros [?|[?|?]]; done.
Qed.

Lemma stoppedBy_idem w n p : stoppedBy w n (stoppedBy w n p) = stoppedBy w n p.
Proof. apply stoppedBy_rest, stoppedBy_not_live. Qed.

(** [stopSingle] leaves a process Stopped when it cancels a pending retry and
    when it ends a child; it never touches the retry counter. *)
Lemma stoppedBy_status w n p :
  status (state p) = StatusRetrying \/
  ((status (state p) = StatusRunning \/ status (state p) = StatusStarting) /\ cmd p = true) ->
  status (state (stoppedBy w n p)) = StatusStopped.
Proof.
  unfold stoppedBy, Stop, SetStatus, waitForExit.
  intros [Hr|[Hs Hc]].
  - by rewrite decide_True.
  - rewrite decide_False by (destruct Hs; congruence).
    rewrite decide_False by tauto. simpl. rewrite Hc. simpl.
    destruct (exit w n); simpl; repeat case_decide; done.
Qed.

Lemma stoppedBy_retry w n p : RetryCount (state (stoppedBy w n p)) = RetryCount (state p).
Proof.
  unfold stoppedBy. destruct (decide _); [done|].
  apply (proj1 (Stop_keeps_retry (now w) (exit w n) p)).
Qed.

(** *** The loop of [StopProcess] and [StopAll] *)

(** The body of both loops. *)
Definition stopIfLive (w : World) (dep : string) : M unit :=
  p ← getProcess dep;
  let st := State p in
  if decide (status st = StatusRunning \/ status st = StatusStarting \/
             status st = StatusRetrying)
  then stopSingle w dep;; ret tt
  else ret tt.

(** The same as a function on managers. *)
Definition stopStep (w : World) (pm : ProcessManager) (dep : string) : ProcessManager :=
  match processes pm !! dep with
  | Some p =>
      if decide (live p) then
        pushEvent (event dep (status (state p)) StatusStopped "")
                  (setEntry dep (stoppedBy w dep p) pm)
      else pm
  | None => pm
  end.

Lemma stopIfLive_run w dep pm :
  is_Some (processes pm !! dep) ->
  stopIfLive w dep pm = Return tt (stopStep w pm dep).
Proof.
  intros [p Hp]. unfold stopIfLive, stopStep.
  rewrite (bind_run _ _ _ _ _ (getProcess_run _ _ _ Hp)). rewrite Hp.
  unfold State, live. destruct (decide _); [|done].
  by rewrite (bind_run _ _ _ _ _ (stopSingle_run w dep pm p Hp)).
Qed.

Lemma stopIfLive_panic w dep pm :
  processes pm !! dep = None -> stopIfLive w dep pm = Panic.
Proof.
  intros Hp. unfold stopIfLive. by rewrite (bind_panic _ _ _ (getProcess_panic _ _ Hp)).
Qed.

Lemma stopStep_lookup w pm dep n :
  processes (stopStep w pm dep) !! n
  = if decide (n = dep) then stoppedBy w n <$> processes pm !! n else processes pm !! n.
Proof.
  unfold stopStep. destruct (processes pm !! dep) as [p|] eqn:Hp.
  - destruct (decide (live p)) as [Hl|Hl].
    + rewrite pushEvent_processes. simpl. destruct (decide (n = dep)) as [->|Hne].
      * by rewrite lookup_insert_eq, Hp.
      * by rewrite lookup_insert_ne.
    + destruct (decide (n = dep)) as [->|Hne]; [|done].
      rewrite Hp. simpl. by rewrite stoppedBy_rest.
  - destruct (decide (n = dep)) as [->|Hne]; [|done]. by rewrite Hp.
Qed.

Lemma stopStep_graph w pm dep : mgraph (stopStep w pm dep) = mgraph pm.
Proof.
  unfold stopStep. destruct (processes pm !! dep); [|done].
  destruct (decide _); [|done]. by rewrite pushEvent_graph.
Qed.

Lemma stopStep_config w pm dep : mconfig (stopStep w pm dep) = mconfig pm.
Proof.
  unfold stopStep. destruct (processes pm !! dep); [|done].
  destruct (decide _); [|done]. by rewrite pushEvent_config.
Qed.

Lemma forEach_stop_run w (l : list string) : forall pm,
  (forall d, d ∈ l -> is_Some (processes pm !! d)) ->
  forEach l (stopIfLive w) pm = Return tt (foldl (stopStep w) pm l).
Proof.
  induction l as [|d l IH]; intros pm Hl; [done|].
  simpl. rewrite (bind_run _ _ _ _ _ (stopIfLive_run w d pm (Hl d ltac:(by left)))).
  apply IH. intros d' Hd'. rewrite stopStep_lookup.
  destruct (decide _); [|apply Hl; by right].
  apply fmap_is_Some, Hl. by right.
Qed.

Lemma stopFold_lookup w (l : list string) : forall pm n,
  processes (foldl (stopStep w) pm l) !! n
  = if decide (n ∈ l) then stoppedBy w n <$> processes pm !! n else processes pm !! n.
Proof.
  induction l as [|d l IH]; intros pm n; cbn [foldl].
  { rewrite decide_False; [done|]. by intros ?%elem_of_nil. }
  rewrite IH, stopStep_lookup.
  destruct (decide (n = d)) as [->|Hne].
  - rewrite (decide_True (P := d ∈ d :: l)) by (by left).
    destruct (decide (d ∈ l)); [|done].
    rewrite <- option_fmap_compose. apply option_fmap_ext. intros p. apply stoppedBy_idem.
  - destruct (decide (n ∈ l)) as [Hin|Hnin].
    + by rewrite decide_True by (by right).
    + rewrite decide_False; [done|]. by intros [?|?]%elem_of_cons.
Qed.

Lemma stopFold_graph w (l : list string) : forall pm,
  mgraph (foldl (stopStep w) pm l) = mgraph pm /\
  mconfig (foldl (stopStep w) pm l) = mconfig pm.
Proof.
  induction l as [|d l IH]; intros pm; simpl; [done|].
  destruct (IH (stopStep w pm d)) as [-> ->].
  by rewrite stopStep_graph, stopStep_config.
Qed.


(** The events the loop sends when the channel has room: one for every
    live process of the list, in the order of the list. *)
Definition stopEvent (pm : ProcessManager) (d : string) : option StateEvent :=
  match processes pm !! d with
  | Some p =>
      if decide (live p) then Some (event d (status (state p)) StatusStopped "") else None
  | None => None
  end.

Lemma omap_cons_eq {A B} (f : A -> option B) (x : A) (l : list A) :
  omap f (x :: l) = match f x with Some y => y :: omap f l | None => omap f l end.
Proof. reflexivity. Qed.

Lemma stopEvents_ext (pm1 pm : ProcessManager) (l : list string) :
  (forall d, d ∈ l -> processes pm1 !! d = processes pm !! d) ->
  omap (stopEvent pm1) l = omap (stopEvent pm) l.
Proof.
  induction l as [|d l IH]; intros H; [done|]. rewrite !omap_cons_eq.
  rewrite IH by (intros d' Hd'; apply H; by right).
  unfold stopEvent at 1 3. by rewrite (H d) by (by left).
Qed.

Lemma stopStep_events w pm d :
  (length (events pm) < 100)%nat ->
  events (stopStep w pm d) = events pm ++ option_list (stopEvent pm d).
Proof.
  intros Hroom. unfold stopStep, stopEvent. destruct (processes pm !! d) as [p|].
  - destruct (decide (live p)); simpl.
    + by rewrite pushEvent_events.
    + by rewrite app_nil_r.
  - simpl. by rewrite app_nil_r.
Qed.

Lemma stopFold_events w (l : list string) : forall pm,
  NoDup l -> (length (events pm) + length l <= 100)%nat ->
  events (foldl (stopStep w) pm l) = events pm ++ omap (stopEvent pm) l.
Proof.
  induction l as [|d l IH]; intros pm Hnd Hroom; cbn [foldl].
  { by rewrite app_nil_r. }
  apply NoDup_cons in Hnd as [Hd Hnd]. cbn [length] in Hroom.
  pose proof (stopStep_events w pm d ltac:(lia)) as Hev.
  rewrite IH; [|done|].
  2:{ rewrite Hev, length_app. destruct (stopEvent pm d); simpl; lia. }
  rewrite Hev, <- app_assoc. f_equal.
  rewrite (stopEvents_ext (stopStep w pm d) pm).
  2:{ intros d' Hd'. rewrite stopStep_lookup. rewrite decide_False; [done|]. by intros ->. }
  rewrite omap_cons_eq. by destruct (stopEvent pm d).
Qed.

(** Positions in [omap f l] follow the positions in [l]. *)
Lemma omap_lookup {A B} (f : A -> option B) (l : list A) i y :
  omap f l !! i = Some y -> exists i' x, l !! i' = Some x /\ f x = Some y.
Proof.
  intros H. assert (y ∈ omap f l) as Hin by (apply list_elem_of_lookup; by eexists).
  apply list_elem_of_omap in Hin as (x & Hx & Hf).
  apply list_elem_of_lookup in Hx as [i' Hi']. by exists i', x.
Qed.

Lemma omap_lookup_order {A B} (f : A -> option B) (l : list A) : forall i j yi yj,
  omap f l !! i = Some yi -> omap f l !! j = Some yj -> (j <= i)%nat ->
  exists i' j' xi xj,
    l !! i' = Some xi /\ l !! j' = Some xj /\ f xi = Some yi /\ f xj = Some yj /\
    (j' <= i')%nat.
Proof.
  induction l as [|x l IH]; intros i j yi yj Hi Hj Hle; [done|].
  rewrite omap_cons_eq in Hi, Hj. destruct (f x) as [y|] eqn:Hfx.
  - destruct j as [|j].
    + simpl in Hj. injection Hj as <-. destruct i as [|i].
      * simpl in Hi. injection Hi as <-. exists 0%nat, 0%nat, x, x. split_and!; [done..|lia].
      * simpl in Hi. destruct (omap_lookup f l i yi Hi) as (i' & xi & Hxi & Hfi).
        exists (S i'), 0%nat, xi, x. split_and!; [done..|lia].
    + destruct i as [|i]; [lia|]. simpl in Hi, Hj.
      destruct (IH i j yi yj Hi Hj ltac:(lia)) as (i' & j' & xi & xj & ? & ? & ? & ? & ?).
      exists (S i'), (S j'), xi, xj. split_and!; [done..|lia].
  - destruct (IH i j yi yj Hi Hj Hle) as (i' & j' & xi & xj & ? & ? & ? & ? & ?).
    exists (S i'), (S j'), xi, xj. split_and!; [done..|lia].
Qed.

Lemma stopEvent_name pm d e : stopEvent pm d = Some e -> EvName e = d.
Proof.
  unfold stopEvent. destruct (processes pm !! d); [|done].
  destruct (decide _); [|done]. by intros [= <-].
Qed.

(** *** [StopProcess] *)

Lemma StopProcess_unfold w name pm :
  StopProcess w name pm
  = (forEach (Dependents (mgraph pm) name) (stopIfLive w);; stopSingle w name) pm.
Proof. reflexivity. Qed.

(** Whether a loop of [stopIfLive] returns or panics, it adds no process. *)
Lemma forEach_stop_none w (l : list string) name : forall pm,
  processes pm !! name = None ->
  match forEach l (stopIfLive w) pm with
  | Return _ pm' => processes pm' !! name = None
  | Panic => True
  end.
Proof.
  induction l as [|d l IH]; intros pm Hn; [done|]. cbn [forEach].
  destruct (processes pm !! d) as [p|] eqn:Hd.
  - rewrite (bind_run _ _ _ _ _ (stopIfLive_run w d pm ltac:(by eexists))).
    apply IH. rewrite stopStep_lookup. destruct (decide _); by rewrite Hn.
  - by rewrite (bind_panic _ _ _ (stopIfLive_panic w d pm Hd)).
Qed.

Lemma collectRestartDeps_pure (l : list string) : forall acc pm,
  collectRestartDeps l acc pm = Panic \/
  exists r, collectRestartDeps l acc pm = Return r pm.
Proof.
  induction l as [|d l IH]; intros acc pm; simpl.
  - right. by eexists.
  - destruct (processes pm !! d) as [p|] eqn:Hd.
    + rewrite (bind_run _ _ _ _ _ (getProcess_run _ _ _ Hd)).
      destruct (decide _); apply IH.
    + left. by rewrite (bind_panic _ _ _ (getProcess_panic _ _ Hd)).
Qed.

(** *** [cascadeFailure] *)

Definition cascadeError (name : string) : string := "dependency " +:+ name +:+ " failed".

(** What [cascadeFailure(name)] makes of a dependent [n]. *)
Definition failedBy (w : World) (name n : string) (p : ManagedProcess) : ManagedProcess :=
  SetError (cascadeError name) (SetStatus StatusFailed (stoppedBy w n p)).

(** The body of its loop. *)
Definition failDependent (w : World) (name dep : string) : M unit :=
  p ← getProcess dep;
  let st := State p in
  (if decide (status st = StatusRunning \/ status st = StatusStarting \/
              status st = StatusRetrying)
   then stopSingle w dep;; ret tt
   else ret tt);;
  let errMsg := "dependency " +:+ name +:+ " failed" in
  p ← getProcess dep;
  let oldStatus := status (State p) in
  update dep (SetError errMsg (SetStatus StatusFailed p));;
  emitEvent dep oldStatus StatusFailed errMsg.

Lemma cascadeFailure_unfold w name pm :
  cascadeFailure w name pm
  = forEach (Dependents (mgraph pm) name) (failDependent w name) pm.
Proof. reflexivity. Qed.

(** The same as a function on managers. *)
Definition failStep (w : World) (name : string) (pm : ProcessManager) (dep : string)
    : ProcessManager :=
  let pm1 := stopStep w pm dep in
  match processes pm1 !! dep with
  | Some p =>
      pushEvent (event dep (status (state p)) StatusFailed (cascadeError name))
                (setEntry dep (SetError (cascadeError name) (SetStatus StatusFailed p)) pm1)
  | None => pm1
  end.

Lemma failDependent_run w name dep pm :
  is_Some (processes pm !! dep) ->
  failDependent w name dep pm = Return tt (failStep w name pm dep).
Proof.
  intros [p Hp]. unfold failDependent.
  rewrite (bind_run _ _ _ _ _ (getProcess_run _ _ _ Hp)).
  pose proof (stopIfLive_run w dep pm ltac:(by eexists)) as Hstop.
  unfold stopIfLive in Hstop. rewrite (bind_run _ _ _ _ _ (getProcess_run _ _ _ Hp)) in Hstop.
  rewrite (bind_run _ _ _ _ _ Hstop).
  assert (processes (stopStep w pm dep) !! dep = Some (stoppedBy w dep p)) as Hp1.
  { by rewrite stopStep_lookup, decide_True, Hp by done. }
  rewrite (bind_run _ _ _ _ _ (getProcess_run _ _ _ Hp1)).
  unfold failStep. rewrite Hp1. unfold mbind, M_bind, update. by rewrite emitEvent_run.
Qed.

Lemma failStep_lookup w name pm dep n :
  processes (failStep w name pm dep) !! n
  = if decide (n = dep) then failedBy w name n <$> processes pm !! n
    else processes pm !! n.
Proof.
  unfold failStep. pose proof (stopStep_lookup w pm dep dep) as Hd.
  rewrite decide_True in Hd by done.
  destruct (processes pm !! dep) as [p|] eqn:Hp.
  - rewrite Hd. simpl. rewrite pushEvent_processes. simpl.
    destruct (decide (n = dep)) as [->|Hne].
    + by rewrite lookup_insert_eq, Hp.
    + rewrite lookup_insert_ne by done. rewrite stopStep_lookup. by rewrite decide_False.
  - rewrite Hd. simpl. rewrite stopStep_lookup.
    destruct (decide (n = dep)) as [->|Hne]; [|done]. by rewrite Hp.
Qed.

Lemma failStep_graph w name pm dep :
  mgraph (failStep w name pm dep) = mgraph pm /\
  mconfig (failStep w name pm dep) = mconfig pm.
Proof.
  unfold failStep. destruct (processes (stopStep w pm dep) !! dep).
  - rewrite pushEvent_graph, pushEvent_config. simpl.
    by rewrite stopStep_graph, stopStep_config.
  - by rewrite stopStep_graph, stopStep_config.
Qed.

Lemma failedBy_status w name n p :
  status (state (failedBy w name n p)) = StatusFailed /\
  LastError (state (failedBy w name n p)) = cascadeError name /\
  RetryCount (state (failedBy w name n p)) = RetryCount (state p).
Proof.
  split; [done|]. split; [done|]. unfold failedBy. simpl. apply stoppedBy_retry.
Qed.

Lemma failedBy_idem w name n p :
  failedBy w name n (failedBy w name n p) = failedBy w name n p.
Proof.
  unfold failedBy at 1. rewrite stoppedBy_rest.
  2:{ unfold live. rewrite (proj1 (failedBy_status w name n p)). intros [?|[?|?]]; done. }
  unfold failedBy. by destruct (stoppedBy w n p) as [? ? [] ? ?].
Qed.

Lemma forEach_fail_run w name (l : list string) : forall pm,
  (forall d, d ∈ l -> is_Some (processes pm !! d)) ->
  forEach l (failDependent w name) pm = Return tt (foldl (failStep w name) pm l).
Proof.
  induction l as [|d l IH]; intros pm Hl; [done|].
  cbn [forEach foldl].
  rewrite (bind_run _ _ _ _ _ (failDependent_run w name d pm (Hl d ltac:(by left)))).
  apply IH. intros d' Hd'. rewrite failStep_lookup.
  destruct (decide _); [|apply Hl; by right].
  apply fmap_is_Some, Hl. by right.
Qed.

Lemma failFold_lookup w name (l : list string) : forall pm n,
  processes (foldl (failStep w name) pm l) !! n
  = if decide (n ∈ l) then failedBy w name n <$> processes pm !! n
    else processes pm !! n.
Proof.
  induction l as [|d l IH]; intros pm n; cbn [foldl].
  { rewrite decide_False; [done|]. by intros ?%elem_of_nil. }
  rewrite IH, failStep_lookup.
  destruct (decide (n = d)) as [->|Hne].
  - rewrite (decide_True (P := d ∈ d :: l)) by (by left).
    destruct (decide (d ∈ l)); [|done].
    rewrite <- option_fmap_compose. apply option_fmap_ext. intros p. apply failedBy_idem.
  - destruct (decide (n ∈ l)) as [Hin|Hnin].
    + by rewrite decide_True by (by right).
    + rewrite decide_False; [done|]. by intros [?|?]%elem_of_cons.
Qed.

Lemma failFold_graph w name (l : list string) : forall pm,
  mgraph (foldl (failStep w name) pm l) = mgraph pm /\
  mconfig (foldl (failStep w name) pm l) = mconfig pm.
Proof.
  induction l as [|d l IH]; intros pm; cbn [foldl]; [done|].
  destruct (IH (failStep w name pm d)) as [-> ->]. apply failStep_graph.
Qed.

(** [cascadeFailure] as a whole. *)
Lemma cascadeFailure_run w name pm :
  (forall n, n ∈ Dependents (mgraph pm) name -> is_Some (processes pm !! n)) ->
  exists pm',
    cascadeFailure w name pm = Return tt pm' /\
    mgraph pm' = mgraph pm /\ mconfig pm' = mconfig pm /\
    (forall n, processes pm' !! n =
       if decide (n ∈ Dependents (mgraph pm) name)
       then failedBy w name n <$> processes pm !! n
       else processes pm !! n).
Proof.
  intros Hall. eexists. rewrite cascadeFailure_unfold.
  rewrite (forEach_fail_run w name _ pm Hall).
  split; [done|]. split; [apply failFold_graph|]. split; [apply failFold_graph|].
  intros n. apply failFold_lookup.
Qed.

(** *** [StopAll] *)

(** The manager of a catalog: its graph is built from the catalog and it
    manages the catalog's processes. *)
Record managed (rangeKeys : gset string -> list string) (pm : ProcessManager) : Prop := {
  managed_graph : mgraph pm = NewDependencyGraph rangeKeys (mconfig pm);
  managed_dom : dom (processes pm) = dom (Processes (mconfig pm))
}.

(** The statuses [StopAll] collects. *)
Definition busy (p : ManagedProcess) : Prop :=
  status (state p) = StatusRunning \/ status (state p) = StatusStarting \/
  status (state p) = StatusRetrying \/ status (state p) = StatusStopping.

Lemma live_busy p : live p -> busy p.
Proof. unfold live, busy. tauto. Qed.

Lemma runningNames_spec rangeKeys pm n :
  fair_range rangeKeys ->
  n ∈ runningNames rangeKeys pm <-> exists p, processes pm !! n = Some p /\ busy p.
Proof.
  intros Hfair. unfold runningNames. rewrite list_elem_of_filter.
  rewrite (rangeKeys_elem rangeKeys Hfair), elem_of_dom. unfold State, busy.
  destruct (processes pm !! n) as [p|]; simpl.
  - rewrite bool_decide_spec. split; [intros [? _]; by eexists|].
    intros (q & [= <-] & ?). split; [done|by eexists].
  - split; [by intros [[] _]|]. by intros (q & ? & _).
Qed.

Lemma runningNames_NoDup rangeKeys pm :
  fair_range rangeKeys -> NoDup (runningNames rangeKeys pm).
Proof. intros Hfair. apply NoDup_filter, (rangeKeys_NoDup rangeKeys Hfair). Qed.

(** The loop of the fallback path: [stopSingle] on every name. *)
Definition stopAlways (w : World) (pm : ProcessManager) (n : string) : ProcessManager :=
  match processes pm !! n with
  | Some p =>
      pushEvent (event n (status (state p)) StatusStopped "")
                (setEntry n (stoppedBy w n p) pm)
  | None => pm
  end.

Lemma stopAlways_lookup w pm d n :
  processes (stopAlways w pm d) !! n
  = if decide (n = d) then stoppedBy w n <$> processes pm !! n else processes pm !! n.
Proof.
  unfold stopAlways. destruct (processes pm !! d) as [p|] eqn:Hp.
  - rewrite pushEvent_processes. simpl. destruct (decide (n = d)) as [->|Hne].
    + by rewrite lookup_insert_eq, Hp.
    + by rewrite lookup_insert_ne.
  - destruct (decide (n = d)) as [->|Hne]; [|done]. by rewrite Hp.
Qed.

Lemma stopAlways_graph w pm d :
  mgraph (stopAlways w pm d) = mgraph pm /\ mconfig (stopAlways w pm d) = mconfig pm.
Proof.
  unfold stopAlways. destruct (processes pm !! d); [|done].
  by rewrite pushEvent_graph, pushEvent_config.
Qed.

Lemma forEach_always_run w (l : list string) : forall pm,
  (forall d, d ∈ l -> is_Some (processes pm !! d)) ->
  forEach l (fun name => stopSingle w name;; ret tt) pm
  = Return tt (foldl (stopAlways w) pm l).
Proof.
  induction l as [|d l IH]; intros pm Hl; [done|].
  cbn [forEach foldl]. destruct (Hl d ltac:(by left)) as [p Hp].
  assert ((stopSingle w d;; ret tt) pm = Return tt (stopAlways w pm d)) as Hstep.
  { rewrite (bind_run _ _ _ _ _ (stopSingle_run w d pm p Hp)). unfold stopAlways.
    by rewrite Hp. }
  rewrite (bind_run _ _ _ _ _ Hstep).
  apply IH. intros d' Hd'. rewrite stopAlways_lookup.
  destruct (decide _); [|apply Hl; by right].
  apply fmap_is_Some, Hl. by right.
Qed.

Lemma alwaysFold_lookup w (l : list string) : forall pm n,
  processes (foldl (stopAlways w) pm l) !! n
  = if decide (n ∈ l) then stoppedBy w n <$> processes pm !! n else processes pm !! n.
Proof.
  induction l as [|d l IH]; intros pm n; cbn [foldl].
  { rewrite decide_False; [done|]. by intros ?%elem_of_nil. }
  rewrite IH, stopAlways_lookup.
  destruct (decide (n = d)) as [->|Hne].
  - rewrite (decide_True (P := d ∈ d :: l)) by (by left).
    destruct (decide (d ∈ l)); [|done].
    rewrite <- option_fmap_compose. apply option_fmap_ext. intros p. apply stoppedBy_idem.
  - destruct (decide (n ∈ l)) as [Hin|Hnin].
    + by rewrite decide_True by (by right).
    + rewrite decide_False; [done|]. by intros [?|?]%elem_of_cons.
Qed.

Lemma alwaysFold_graph w (l : list string) : forall pm,
  mgraph (foldl (stopAlways w) pm l) = mgraph pm /\
  mconfig (foldl (stopAlways w) pm l) = mconfig pm.
Proof.
  induction l as [|d l IH]; intros pm; cbn [foldl]; [done|].
  destruct (IH (stopAlways w pm d)) as [-> ->]. apply stopAlways_graph.
Qed.

(** What [StopOrder] returns: the closure of the targets, every process
    before each of its dependencies. *)
Lemma StopOrder_spec (rangeKeys : gset string -> list string) (cfg : Config)
    (targets order : list string) :
  fair_range rangeKeys ->
  StopOrder rangeKeys (NewDependencyGraph rangeKeys cfg) targets = Ok order ->
  NoDup order /\
  (forall y, y ∈ order <-> closure cfg targets y) /\
  (forall i n d, order !! i = Some n -> dependsOn cfg n d ->
     exists j, (i < j)%nat /\ order !! j = Some d).
Proof.
  intros Hfair Hstop. unfold StopOrder in Hstop.
  destruct (StartOrder rangeKeys (NewDependencyGraph rangeKeys cfg) targets)
    as [order0|e] eqn:Hstart; [|done].
  injection Hstop as <-. rewrite reverseInPlace_rev.
  destruct (StartOrder_sorted rangeKeys Hfair rangeKeys Hfair cfg targets order0 Hstart)
    as (Hnd & Hmem & Hsorted).
  rewrite rev_is_reverse. split; [by rewrite reverse_Permutation|]. split.
  - intros y. by rewrite elem_of_reverse.
  - intros i n d Hi Hd. apply reverse_lookup_Some in Hi as [Hi Hlt].
    destruct (Hsorted _ n d Hi Hd) as (j & Hj & Hjd).
    exists (length order0 - S j)%nat. split; [lia|].
    apply reverse_lookup_Some. split; [|lia].
    replace (length order0 - S (length order0 - S j))%nat with j by lia. done.
Qed.

(** When every dependency is defined, the closure of catalog processes
    stays in the catalog. *)
Lemma closure_defined (cfg : Config) (targets : list string) (y : string) :
  validate_spec.deps_defined cfg ->
  (forall t, t ∈ targets -> t ∈ dom (Processes cfg)) ->
  closure cfg targets y -> y ∈ dom (Processes cfg).
Proof.
  intros Hdef Hknown (t & Ht & Hr). specialize (Hknown t Ht). clear Ht.
  induction Hr as [|x z y Hxz _ IH]; [done|]. apply IH. by eapply Hdef.
Qed.

Lemma StopAll_empty w rangeKeys pm :
  length (runningNames rangeKeys pm) = 0%nat -> StopAll w rangeKeys pm = Return None pm.
Proof.
  intros H. unfold StopAll, mbind, M_bind. by rewrite decide_True.
Qed.

Lemma StopAll_ordered w rangeKeys pm order :
  length (runningNames rangeKeys pm) <> 0%nat ->
  StopOrder rangeKeys (mgraph pm) (runningNames rangeKeys pm) = Ok order ->
  StopAll w rangeKeys pm = (forEach order (stopIfLive w);; ret None) pm.
Proof.
  intros H Hok. unfold StopAll. unfold mbind at 1, M_bind at 1.
  rewrite decide_False by done. unfold mbind at 1, M_bind at 1. simpl.
  by rewrite Hok.
Qed.

Lemma StopAll_fallback w rangeKeys pm e :
  length (runningNames rangeKeys pm) <> 0%nat ->
  StopOrder rangeKeys (mgraph pm) (runningNames rangeKeys pm) = Err e ->
  StopAll w rangeKeys pm
  = (forEach (runningNames rangeKeys pm) (fun name => stopSingle w name;; ret tt);;
     ret None) pm.
Proof.
  intros H Hok. unfold StopAll. unfold mbind at 1, M_bind at 1.
  rewrite decide_False by done. unfold mbind at 1, M_bind at 1. simpl.
  by rewrite Hok.
Qed.

(** A process that is not busy is left alone by [stopSingle]. *)
Lemma stoppedBy_idle w n p : ~ busy p -> stoppedBy w n p = p.
Proof. intros H. apply stoppedBy_rest. intros Hl. by apply H, live_busy. Qed.

(** Whichever path [StopAll] takes, it returns [nil] and has applied
    [stopSingle]'s effect to every process. *)
Lemma StopAll_run w rangeKeys pm :
  fair_range rangeKeys -> managed rangeKeys pm ->
  validate_spec.deps_defined (mconfig pm) ->
  exists pm',
    StopAll w rangeKeys pm = Return None pm' /\
    mgraph pm' = mgraph pm /\ mconfig pm' = mconfig pm /\
    (forall n, processes pm' !! n = stoppedBy w n <$> processes pm !! n).
Proof.
  intros Hfair [Hg Hdom] Hdef.
  assert (forall n, n ∉ runningNames rangeKeys pm ->
            processes pm !! n = stoppedBy w n <$> processes pm !! n) as Hidle.
  { intros n Hn. destruct (processes pm !! n) as [p|] eqn:Hp; [|done]. simpl.
    rewrite stoppedBy_idle; [done|]. intros Hb. apply Hn.
    apply (runningNames_spec rangeKeys pm n Hfair). by exists p. }
  assert (forall t, t ∈ runningNames rangeKeys pm -> t ∈ dom (Processes (mconfig pm)))
    as Hknown.
  { intros t Ht. apply (runningNames_spec rangeKeys pm t Hfair) in Ht as (p & Hp & _).
    rewrite <- Hdom. apply elem_of_dom. by eexists. }
  destruct (decide (length (runningNames rangeKeys pm) = 0%nat)) as [Hlen|Hlen].
  { exists pm. rewrite StopAll_empty by done. split; [done|]. split; [done|]. split; [done|].
    intros n. apply Hidle. apply nil_length_inv in Hlen. rewrite Hlen.
    by intros ?%elem_of_nil. }
  destruct (StopOrder rangeKeys (mgraph pm) (runningNames rangeKeys pm))
    as [order|e] eqn:Hord.
  - pose proof Hord as Hord'. rewrite Hg in Hord'.
    destruct (StopOrder_spec rangeKeys (mconfig pm) _ order Hfair Hord')
      as (Hnd & Hmem & _).
    assert (forall d, d ∈ order -> is_Some (processes pm !! d)) as Hall.
    { intros d Hd. apply elem_of_dom. rewrite Hdom.
      apply (closure_defined (mconfig pm) (runningNames rangeKeys pm)); [done|done|].
      by apply Hmem. }
    eexists. rewrite (StopAll_ordered w rangeKeys pm order Hlen Hord).
    rewrite (bind_run _ _ _ _ _ (forEach_stop_run w order pm Hall)).
    split; [done|]. split; [apply stopFold_graph|]. split; [apply stopFold_graph|].
    intros n. rewrite stopFold_lookup. destruct (decide (n ∈ order)) as [|Hn]; [done|].
    apply Hidle. intros Hin. apply Hn, Hmem. exists n. by split.
  - assert (forall d, d ∈ runningNames rangeKeys pm -> is_Some (processes pm !! d)) as Hall.
    { intros d Hd. apply elem_of_dom. rewrite Hdom. by apply Hknown. }
    eexists. rewrite (StopAll_fallback w rangeKeys pm e Hlen Hord).
    rewrite (bind_run _ _ _ _ _ (forEach_always_run w _ pm Hall)).
    split; [done|]. split; [apply alwaysFold_graph|]. split; [apply alwaysFold_graph|].
    intros n. rewrite alwaysFold_lookup. destruct (decide _) as [|Hn]; [done|].
    by apply Hidle.
Qed.

(** A graph that passed [Validate] belongs to a catalog without cycles in
    which every dependency is defined. *)
Lemma Validate_valid (rangeKeys : gset string -> list string) (cfg : Config) :
  fair_range rangeKeys ->
  Validate rangeKeys (NewDependencyGraph rangeKeys cfg) = Valid ->
  acyclic cfg /\ validate_spec.deps_defined cfg.
Proof.
  intros Hfair Hv.
  destruct (validate_spec.validate_result rangeKeys Hfair cfg) as (deg & order & Hrun & Hinv).
  rewrite (validate_spec.Validate_unfold rangeKeys cfg deg order Hrun) in Hv.
  apply (validate_spec.visited_all_iff rangeKeys Hfair cfg deg order Hinv).
  by destruct (decide _).
Qed.

Lemma NoDup_omap {A B} (f : A -> option B) (l : list A) :
  (forall x y z, f x = Some z -> f y = Some z -> x = y) ->
  NoDup l -> NoDup (omap f l).
Proof.
  intros Hinj. induction 1 as [|x l Hx Hnd IH]; [constructor|].
  rewrite omap_cons_eq. destruct (f x) as [z|] eqn:Hfx; [|done].
  constructor; [|done]. intros Hin. apply list_elem_of_omap in Hin as (y & Hy & Hfy).
  by rewrite (Hinj x y z Hfx Hfy) in Hx.
Qed.

Lemma stopEvent_spec pm d e :
  stopEvent pm d = Some e <->
  exists p, processes pm !! d = Some p /\ live p /\
            e = event d (status (state p)) StatusStopped "".
Proof.
  unfold stopEvent. destruct (processes pm !! d) as [p|].
  - destruct (decide (live p)) as [Hl|Hl].
    + split; [intros [= <-]; by exists p|]. by intros (q & [= <-] & _ & ->).
    + split; [done|]. by intros (q & [= <-] & ? & _).
  - split; [done|]. by intros (q & ? & _).
Qed.

(** The events [StopAll] sends on its main path. *)
Lemma StopAll_events w rangeKeys pm :
  fair_range rangeKeys -> managed rangeKeys pm ->
  Validate rangeKeys (mgraph pm) = Valid ->
  (length (events pm) + size (processes pm) <= 100)%nat ->
  exists pm' order,
    StopAll w rangeKeys pm = Return None pm' /\
    events pm' = events pm ++ omap (stopEvent pm) order /\
    NoDup order /\
    (forall n p, processes pm !! n = Some p -> live p -> n ∈ order) /\
    (forall i n d, order !! i = Some n -> dependsOn (mconfig pm) n d ->
       exists j, (i < j)%nat /\ order !! j = Some d).
Proof.
  intros Hfair [Hg Hdom] Hvalid Hroom. rewrite Hg in Hvalid.
  destruct (Validate_valid rangeKeys (mconfig pm) Hfair Hvalid) as [Hacyc Hdef].
  assert (forall t, t ∈ runningNames rangeKeys pm -> t ∈ dom (Processes (mconfig pm)))
    as Hknown.
  { intros t Ht. apply (runningNames_spec rangeKeys pm t Hfair) in Ht as (p & Hp & _).
    rewrite <- Hdom. apply elem_of_dom. by eexists. }
  destruct (decide (length (runningNames rangeKeys pm) = 0%nat)) as [Hlen|Hlen].
  { exists pm, []. rewrite StopAll_empty by done. split; [done|].
    split; [by rewrite app_nil_r|]. split; [constructor|]. split; [|done].
    intros n p Hp Hl. apply nil_length_inv in Hlen. rewrite <- Hlen.
    apply (runningNames_spec rangeKeys pm n Hfair). exists p. split; [done|].
    by apply live_busy. }
  destruct (StartOrder_complete rangeKeys Hfair rangeKeys Hfair (mconfig pm)
              (runningNames rangeKeys pm) Hacyc)
    as [order0 Hstart].
  { intros t Ht. rewrite (built_nodes rangeKeys Hfair). by apply Hknown. }
  assert (exists order, StopOrder rangeKeys (mgraph pm) (runningNames rangeKeys pm) = Ok order)
    as [order Hord].
  { rewrite Hg. unfold StopOrder. rewrite Hstart. by eexists. }
  pose proof Hord as Hord'. rewrite Hg in Hord'.
  destruct (StopOrder_spec rangeKeys (mconfig pm) _ order Hfair Hord')
    as (Hnd & Hmem & Hsorted).
  assert (forall d, d ∈ order -> d ∈ dom (processes pm)) as Hin.
  { intros d Hd. rewrite Hdom.
    apply (closure_defined (mconfig pm) (runningNames rangeKeys pm)); [done|done|].
    by apply Hmem. }
  assert (forall d, d ∈ order -> is_Some (processes pm !! d)) as Hall.
  { intros d Hd. by apply elem_of_dom, Hin. }
  eexists. exists order. rewrite (StopAll_ordered w rangeKeys pm order Hlen Hord).
  rewrite (bind_run _ _ _ _ _ (forEach_stop_run w order pm Hall)).
  split; [done|]. split.
  { simpl. apply stopFold_events; [done|].
    pose proof (NoDup_length_le_size (dom (processes pm)) order Hnd Hin) as Hle.
    rewrite size_dom in Hle. lia. }
  split; [done|]. split; [|done].
  intros n p Hp Hl. apply Hmem. exists n. split; [|done].
  apply (runningNames_spec rangeKeys pm n Hfair). exists p. split; [done|].
  by apply live_busy.
Qed.

(** *** [startSingle] and [monitor] *)

Lemma startSingle_run w n pm p :
  processes pm !! n = Some p ->
  let r := Start (now w) (spawn w n) p in
  startSingle w n pm
  = Return r.2
      (pushEvent (event n (status (state p))
                        (if r.2 is Some _ then StatusFailed else StatusRunning)
                        (default "" r.2))
                 (setEntry n r.1 pm)).
Proof.
  intros Hp r. unfold startSingle.
  rewrite (bind_run _ _ _ _ _ (getProcess_run _ _ _ Hp)). fold r.
  unfold mbind, M_bind, update, State. simpl.
  destruct r.2 as [e|] eqn:Hr; simpl; by rewrite emitEvent_run.
Qed.

(** The retry policy [monitor] reads for a name. *)
Definition policyOf (pm : ProcessManager) (name : string) : RetryConfig :=
  Retry (default zeroProcess (Processes (mconfig pm) !! name)).

(** The process as [monitor] leaves it when it schedules a retry. *)
Definition scheduled (w : World) (pow : float -> float -> float) (rnd : float)
    (policy : RetryConfig) (p : ManagedProcess) : ManagedProcess :=
  SetRetryState (RetryCount (state p) + 1)
                (now w + nextBackoff pow rnd (RetryCount (state p)) policy)
                (SetStatus StatusRetrying p).

Lemma scheduled_state w pow rnd policy p :
  status (state (scheduled w pow rnd policy p)) = StatusRetrying /\
  RetryCount (state (scheduled w pow rnd policy p)) = RetryCount (state p) + 1 /\
  NextRetryAt (state (scheduled w pow rnd policy p))
  = now w + nextBackoff pow rnd (RetryCount (state p)) policy.
Proof. done. Qed.

Definition exhausted (code : Z) : string :=
  "max retries exhausted (exit code " +:+ pretty code +:+ ")".

Lemma monitorExit_stopped w pow rnd name pm p :
  processes pm !! name = Some p -> status (state p) = StatusStopped ->
  monitorExit w pow rnd name pm = Return None pm.
Proof.
  intros Hp Hs. unfold monitorExit.
  rewrite (bind_run _ _ _ _ _ (getProcess_run _ _ _ Hp)). unfold State.
  by rewrite decide_True.
Qed.

Lemma monitorExit_retry w pow rnd name pm p :
  processes pm !! name = Some p -> status (state p) <> StatusStopped ->
  shouldRetry (RetryCount (state p)) (policyOf pm name) = true ->
  monitorExit w pow rnd name pm
  = Return (Some (nextBackoff pow rnd (RetryCount (state p)) (policyOf pm name)))
      (pushEvent (event name StatusFailed StatusRetrying "")
                 (setEntry name (scheduled w pow rnd (policyOf pm name) p) pm)).
Proof.
  intros Hp Hs Hretry. unfold monitorExit.
  rewrite (bind_run _ _ _ _ _ (getProcess_run _ _ _ Hp)). unfold State.
  rewrite decide_False by done. unfold mbind at 1, M_bind at 1, getConfig.
  fold (policyOf pm name). rewrite Hretry.
  unfold mbind, M_bind, update. by rewrite emitEvent_run.
Qed.

Lemma monitorExit_giveup w pow rnd name pm p :
  processes pm !! name = Some p -> status (state p) <> StatusStopped ->
  shouldRetry (RetryCount (state p)) (policyOf pm name) = false ->
  monitorExit w pow rnd name pm
  = (cascadeFailure w name;; ret None)
      (pushEvent (event name StatusFailed StatusFailed (exhausted (ExitCode (state p))))
                 (setEntry name (SetStatus StatusFailed p) pm)).
Proof.
  intros Hp Hs Hretry. unfold monitorExit.
  rewrite (bind_run _ _ _ _ _ (getProcess_run _ _ _ Hp)). unfold State.
  rewrite decide_False by done. unfold mbind at 1, M_bind at 1, getConfig.
  fold (policyOf pm name). rewrite Hretry.
  unfold mbind at 1, M_bind at 1, update. unfold mbind at 1, M_bind at 1.
  by rewrite emitEvent_run.
Qed.

(** [monitor] on a process whose policy allows another attempt. *)
Lemma monitor_retry_run w w' pow rnd (cancelled : bool) name pm p :
  processes pm !! name = Some p -> status (state p) <> StatusStopped ->
  shouldRetry (RetryCount (state p)) (policyOf pm name) = true ->
  let q := scheduled w pow rnd (policyOf pm name) p in
  let q' := if cancelled then q else (Start (now w') (spawn w' name) q).1 in
  exists pm',
    monitor w w' pow rnd cancelled name pm = Return tt pm' /\
    mgraph pm' = mgraph pm /\ mconfig pm' = mconfig pm /\
    processes pm' = <[name := q']> (processes pm).
Proof.
  intros Hp Hs Hretry q q'. unfold monitor.
  rewrite (bind_run _ _ _ _ _ (monitorExit_retry w pow rnd name pm p Hp Hs Hretry)).
  fold q. unfold q'. destruct cancelled.
  { eexists. split; [done|]. by rewrite pushEvent_graph, pushEvent_config, pushEvent_processes. }
  set (pm1 := pushEvent _ _).
  assert (processes pm1 !! name = Some q) as Hq.
  { unfold pm1. rewrite pushEvent_processes. simpl. by rewrite lookup_insert_eq. }
  unfold monitorRetry. rewrite (bind_run _ _ _ _ _ (getProcess_run _ _ _ Hq)).
  unfold State. rewrite decide_False by (intros H; by apply H).
  rewrite (bind_run _ _ _ _ _ (startSingle_run w' name pm1 q Hq)).
  eexists. split; [done|].
  rewrite pushEvent_graph, pushEvent_config, pushEvent_processes. simpl.
  unfold pm1. rewrite pushEvent_graph, pushEvent_config, pushEvent_processes. simpl.
  split; [done|]. split; [done|]. by rewrite insert_insert_eq.
Qed.

(** [monitor] on a process whose policy allows no further attempt. *)
Lemma monitor_giveup_run w w' pow rnd (cancelled : bool) name pm p :
  processes pm !! name = Some p -> status (state p) <> StatusStopped ->
  shouldRetry (RetryCount (state p)) (policyOf pm name) = false ->
  (forall n, n ∈ Dependents (mgraph pm) name -> n <> name /\ is_Some (processes pm !! n)) ->
  exists pm',
    monitor w w' pow rnd cancelled name pm = Return tt pm' /\
    mgraph pm' = mgraph pm /\ mconfig pm' = mconfig pm /\
    (forall n, processes pm' !! n =
       if decide (n = name) then Some (SetStatus StatusFailed p)
       else if decide (n ∈ Dependents (mgraph pm) name)
            then failedBy w name n <$> processes pm !! n
            else processes pm !! n).
Proof.
  intros Hp Hs Hretry Hdeps. unfold monitor.
  set (pm1 := pushEvent (event name StatusFailed StatusFailed (exhausted (ExitCode (state p))))
                        (setEntry name (SetStatus StatusFailed p) pm)).
  assert (mgraph pm1 = mgraph pm) as Hg1 by (unfold pm1; by rewrite pushEvent_graph).
  assert (mconfig pm1 = mconfig pm) as Hc1 by (unfold pm1; by rewrite pushEvent_config).
  assert (forall n, processes pm1 !! n
                    = if decide (n = name) then Some (SetStatus StatusFailed p)
                      else processes pm !! n) as Hl1.
  { intros n. unfold pm1. rewrite pushEvent_processes. simpl.
    destruct (decide (n = name)) as [->|?];
      [by rewrite lookup_insert_eq|by rewrite lookup_insert_ne]. }
  destruct (cascadeFailure_run w name pm1) as (pm' & Hrun & Hg & Hc & Hlook).
  { rewrite Hg1. intros n Hn. destruct (Hdeps n Hn) as [Hne Hsome].
    by rewrite Hl1, decide_False. }
  exists pm'.
  rewrite (bind_run _ _ _ _ _ (eq_trans (monitorExit_giveup w pow rnd name pm p Hp Hs Hretry)
                                        (bind_run _ _ _ _ _ Hrun))).
  split; [done|]. split; [congruence|]. split; [congruence|].
  intros n. rewrite Hlook, Hg1, Hl1.
  destruct (decide (n = name)) as [->|Hne].
  - rewrite decide_False; [done|]. intros Hin. by destruct (Hdeps name Hin).
  - done.
Qed.

(** *** A process that keeps failing *)

(** One round: the child of [name] ends and [waitForExit] records it in the
    system [w]; the monitor wakes up and, when it retries, does so in the
    system [w'] with the draw [rnd]. *)
Definition crashRound (pow : float -> float -> float) (name : string)
    (r : World * World * float) : M unit :=
  p ← getProcess name;
  update name (waitForExit (now r.1.1) (exit r.1.1 name) p);;
  monitor r.1.1 r.1.2 pow r.2 false name.

Definition crashRounds (pow : float -> float -> float) (name : string)
    (rounds : list (World * World * float)) : M unit :=
  forEach rounds (crashRound pow name).

(** In a round the child fails and the next spawn succeeds. *)
Definition failing (name : string) (r : World * World * float) : Prop :=
  exit r.1.1 name <> ExitNil /\ forall e, spawn r.1.2 name <> SpawnFailed e.

Lemma forEach_app {A} (l1 l2 : list A) (body : A -> M unit) pm :
  forEach (l1 ++ l2) body pm = (forEach l1 body;; forEach l2 body) pm.
Proof.
  revert pm. induction l1 as [|x l1 IH]; intros pm; [done|].
  simpl. unfold mbind, M_bind in *. destruct (body x pm) as [[] pm1|]; [|done].
  apply IH.
Qed.

Lemma waitForExit_failed now e p :
  status (state p) = StatusRunning -> e <> ExitNil ->
  status (state (waitForExit now e p)) = StatusFailed /\
  RetryCount (state (waitForExit now e p)) = RetryCount (state p).
Proof.
  intros Hs He. unfold waitForExit. destruct e; [done| |]; simpl;
    (rewrite decide_False by (rewrite Hs; done)); done.
Qed.

Lemma Start_spawned now s p :
  status (state p) <> StatusRunning -> (forall e, s <> SpawnFailed e) ->
  status (state (Start now s p).1) = StatusRunning /\
  RetryCount (state (Start now s p).1) = RetryCount (state p).
Proof.
  intros Hs He. unfold Start. rewrite decide_False by done.
  destruct s; [done|done|]. by destruct (He err).
Qed.

(** The state of the supervised process between two rounds. *)
Record supervised (name : string) (pm0 pm : ProcessManager) (c : Z) : Prop := {
  sup_graph : mgraph pm = mgraph pm0;
  sup_config : mconfig pm = mconfig pm0;
  sup_frame : forall n, n <> name -> processes pm !! n = processes pm0 !! n;
  sup_target : exists p, processes pm !! name = Some p /\
                 status (state p) = StatusRunning /\ RetryCount (state p) = c
}.

Lemma crashRound_retry pow name r pm0 pm c :
  supervised name pm0 pm c -> failing name r ->
  shouldRetry c (policyOf pm0 name) = true ->
  exists pm', crashRound pow name r pm = Return tt pm' /\ supervised name pm0 pm' (c + 1).
Proof.
  intros [Hg Hc Hframe (p & Hp & Hs & Hcount)] [Hexit Hspawn] Hretry.
  unfold crashRound. rewrite (bind_run _ _ _ _ _ (getProcess_run _ _ _ Hp)).
  unfold mbind at 1, M_bind at 1, update.
  set (p1 := waitForExit (now r.1.1) (exit r.1.1 name) p).
  set (pm1 := {| mconfig := mconfig pm; mgraph := mgraph pm;
                 processes := <[name := p1]> (processes pm); events := events pm |}).
  destruct (waitForExit_failed (now r.1.1) (exit r.1.1 name) p Hs Hexit) as [Hs1 Hc1].
  fold p1 in Hs1, Hc1.
  assert (processes pm1 !! name = Some p1) as Hp1 by (simpl; by rewrite lookup_insert_eq).
  assert (policyOf pm1 name = policyOf pm0 name) as Hpol.
  { unfold policyOf. simpl. by rewrite Hc. }
  destruct (monitor_retry_run r.1.1 r.1.2 pow r.2 false name pm1 p1 Hp1)
    as (pm' & Hrun & Hg' & Hc' & Hprocs).
  { by rewrite Hs1. }
  { by rewrite Hc1, Hcount, Hpol. }
  exists pm'. split; [done|]. simpl in Hprocs.
  set (q := scheduled r.1.1 pow r.2 (policyOf pm1 name) p1) in *.
  destruct (Start_spawned (now r.1.2) (spawn r.1.2 name) q) as [Hsq Hcq]; [done|done|].
  split.
  - by rewrite Hg'.
  - by rewrite Hc'.
  - intros n Hne. rewrite Hprocs. rewrite !lookup_insert_ne by done. by apply Hframe.
  - eexists. rewrite Hprocs, lookup_insert_eq. split; [done|]. split; [done|].
    rewrite Hcq. unfold q.
    rewrite (proj1 (proj2 (scheduled_state r.1.1 pow r.2 (policyOf pm1 name) p1))).
    by rewrite Hc1, Hcount.
Qed.

Lemma crashRounds_retry pow name (rounds : list (World * World * float)) pm0 : forall pm c,
  supervised name pm0 pm c -> Forall (failing name) rounds ->
  (forall k, c <= k < c + Z.of_nat (length rounds) ->
     shouldRetry k (policyOf pm0 name) = true) ->
  exists pm', crashRounds pow name rounds pm = Return tt pm' /\
              supervised name pm0 pm' (c + Z.of_nat (length rounds)).
Proof.
  unfold crashRounds. induction rounds as [|r rounds IH]; intros pm c Hsup Hfail Hretry.
  { exists pm. split; [done|]. simpl. by rewrite Z.add_0_r. }
  apply Forall_cons in Hfail as [Hr Hfail]. cbn [length] in *.
  destruct (crashRound_retry pow name r pm0 pm c Hsup Hr) as (pm1 & Hrun1 & Hsup1).
  { apply Hretry. lia. }
  destruct (IH pm1 (c + 1) Hsup1 Hfail) as (pm' & Hrun & Hsup').
  { intros k Hk. apply Hretry. lia. }
  exists pm'. cbn [forEach]. rewrite (bind_run _ _ _ _ _ Hrun1). split; [done|].
  replace (c + Z.of_nat (S (length rounds))) with (c + 1 + Z.of_nat (length rounds)) by lia.
  done.
Qed.

Lemma crashRound_giveup pow name r pm0 pm c :
  supervised name pm0 pm c -> exit r.1.1 name <> ExitNil ->
  shouldRetry c (policyOf pm0 name) = false ->
  (forall n, n ∈ Dependents (mgraph pm0) name -> n <> name /\ is_Some (processes pm0 !! n)) ->
  exists pm' p',
    crashRound pow name r pm = Return tt pm' /\
    processes pm' !! name = Some p' /\
    status (state p') = StatusFailed /\ RetryCount (state p') = c /\
    (forall n, n <> name ->
       processes pm' !! n =
         if decide (n ∈ Dependents (mgraph pm0) name)
         then failedBy r.1.1 name n <$> processes pm0 !! n
         else processes pm0 !! n).
Proof.
  intros [Hg Hc Hframe (p & Hp & Hs & Hcount)] Hexit Hretry Hdeps.
  unfold crashRound. rewrite (bind_run _ _ _ _ _ (getProcess_run _ _ _ Hp)).
  unfold mbind at 1, M_bind at 1, update.
  set (p1 := waitForExit (now r.1.1) (exit r.1.1 name) p).
  set (pm1 := {| mconfig := mconfig pm; mgraph := mgraph pm;
                 processes := <[name := p1]> (processes pm); events := events pm |}).
  destruct (waitForExit_failed (now r.1.1) (exit r.1.1 name) p Hs Hexit) as [Hs1 Hc1].
  fold p1 in Hs1, Hc1.
  assert (processes pm1 !! name = Some p1) as Hp1 by (simpl; by rewrite lookup_insert_eq).
  assert (policyOf pm1 name = policyOf pm0 name) as Hpol.
  { unfold policyOf. simpl. by rewrite Hc. }
  destruct (monitor_giveup_run r.1.1 r.1.2 pow r.2 false name pm1 p1 Hp1)
    as (pm' & Hrun & Hg' & Hc' & Hlook).
  { by rewrite Hs1. }
  { by rewrite Hc1, Hcount, Hpol. }
  { simpl. rewrite Hg. intros n Hn. destruct (Hdeps n Hn) as [Hne Hsome].
    split; [done|]. rewrite lookup_insert_ne by done. by rewrite Hframe. }
  exists pm', (SetStatus StatusFailed p1). split; [done|]. split.
  { by rewrite Hlook, decide_True. }
  split; [done|]. split; [change (RetryCount (state p1) = c); congruence|].
  intros n Hne. rewrite Hlook, decide_False by done. simpl. rewrite Hg.
  rewrite lookup_insert_ne by done. by rewrite Hframe.
Qed.

Lemma Start_from_retrying now s p :
  status (state p) <> StatusRunning ->
  status (state (Start now s p).1)
  = (if s is SpawnFailed _ then StatusFailed else StatusRunning) /\
  RetryCount (state (Start now s p).1) = RetryCount (state p) /\
  NextRetryAt (state (Start now s p).1) = NextRetryAt (state p).
Proof. intros Hs. unfold Start. rewrite decide_False by done. by destruct s. Qed.

(** *** What no operation changes *)

(** The identity of a managed process: its name, its catalog entry and the
    name in its state. *)
Definition ident (p : ManagedProcess) : string * Process * string :=
  (name p, pconfig p, Name (state p)).

(** [pm'] has the graph, the catalog and the process names of [pm], and
    every process has kept its identity. *)
Record same_shape (pm pm' : ProcessManager) : Prop := {
  shape_graph : mgraph pm' = mgraph pm;
  shape_config : mconfig pm' = mconfig pm;
  shape_ident : forall n, ident <$> processes pm' !! n = ident <$> processes pm !! n
}.

Lemma same_shape_refl pm : same_shape pm pm.
Proof. by split. Qed.

Lemma same_shape_trans pm1 pm2 pm3 :
  same_shape pm1 pm2 -> same_shape pm2 pm3 -> same_shape pm1 pm3.
Proof. intros [? ? H1] [? ? H2]. split; [congruence|congruence|]. intros n. by rewrite H2. Qed.

(** [known] records identities the code has read with [getProcess]. *)
Definition knows (known : gmap string (string * Process * string)) (pm : ProcessManager)
    : Prop :=
  forall n i, known !! n = Some i -> ident <$> processes pm !! n = Some i.

Definition keeps_shape {A} (known : gmap string (string * Process * string)) (m : M A)
    : Prop :=
  forall pm, knows known pm ->
    match m pm with
    | Return _ pm' => same_shape pm pm'
    | Panic => True
    end.

Lemma knows_shape known pm pm' : knows known pm -> same_shape pm pm' -> knows known pm'.
Proof. intros Hk [_ _ Hi] n i Hn. rewrite Hi. by apply Hk. Qed.

Lemma shape_ret {A} known (a : A) : keeps_shape known (ret a).
Proof. intros pm _. apply same_shape_refl. Qed.

Lemma shape_bind {A B} known (m : M A) (k : A -> M B) :
  keeps_shape known m -> (forall a, keeps_shape known (k a)) ->
  keeps_shape known (m ≫= k).
Proof.
  intros Hm Hk pm Hkn. specialize (Hm pm Hkn). unfold mbind, M_bind.
  destruct (m pm) as [a pm1|]; [|done].
  specialize (Hk a pm1 (knows_shape _ _ _ Hkn Hm)).
  destruct (k a pm1); [|done]. by eapply same_shape_trans.
Qed.

Lemma shape_get {B} known n (k : ManagedProcess -> M B) :
  (forall p, keeps_shape (<[n := ident p]> known) (k p)) ->
  keeps_shape known (getProcess n ≫= k).
Proof.
  intros Hk pm Hkn. unfold mbind, M_bind, getProcess.
  destruct (processes pm !! n) as [p|] eqn:Hp; [|done].
  apply Hk. intros n' i. destruct (decide (n' = n)) as [->|Hne].
  - rewrite lookup_insert_eq, Hp. by intros [= <-].
  - rewrite lookup_insert_ne by done. apply Hkn.
Qed.

Lemma shape_read {A B} known (f : ProcessManager -> A) (k : A -> M B) :
  (forall a, keeps_shape known (k a)) ->
  keeps_shape known ((fun pm => Return (f pm) pm) ≫= k).
Proof. intros Hk pm Hkn. unfold mbind, M_bind. by apply Hk. Qed.

Lemma shape_update known n p :
  known !! n = Some (ident p) -> keeps_shape known (update n p).
Proof.
  intros Hn pm Hkn. unfold update. split; [done|done|]. intros n'. simpl.
  destruct (decide (n' = n)) as [->|Hne].
  - rewrite lookup_insert_eq. simpl. symmetry. by apply Hkn.
  - by rewrite lookup_insert_ne.
Qed.

Lemma shape_emit known n o s e : keeps_shape known (emitEvent n o s e).
Proof. intros pm _. unfold emitEvent. by destruct (decide _). Qed.

Lemma shape_forEach {A} known (l : list A) (body : A -> M unit) :
  (forall x, keeps_shape known (body x)) -> keeps_shape known (forEach l body).
Proof.
  intros Hbody. induction l as [|x l IH]; [apply shape_ret|].
  apply shape_bind; [apply Hbody|]. intros _. apply IH.
Qed.

Lemma ident_Start now s p : ident (Start now s p).1 = ident p.
Proof. unfold Start. destruct (decide _); [done|]. by destruct s. Qed.

Lemma ident_waitForExit now e p : ident (waitForExit now e p) = ident p.
Proof. unfold waitForExit. destruct e; simpl; try done; by destruct (decide _). Qed.

Lemma ident_Stop now e p : ident (Stop now e p) = ident p.
Proof.
  unfold Stop. destruct (decide _); [done|]. simpl. destruct (cmd p); simpl; [|done].
  by rewrite ident_waitForExit.
Qed.

Ltac known_entry :=
  rewrite ?lookup_insert_eq; f_equal;
  rewrite ?ident_Start, ?ident_Stop; reflexivity.

Lemma shape_stopSingle w known n : keeps_shape known (stopSingle w n).
Proof.
  unfold stopSingle. apply shape_get. intros p. simpl. destruct (decide _).
  - apply shape_bind; [apply shape_update; known_entry|]. intros _.
    apply shape_bind; [apply shape_emit|]. intros _. apply shape_ret.
  - apply shape_bind; [apply shape_update; known_entry|]. intros _.
    apply shape_bind; [apply shape_emit|]. intros _. apply shape_ret.
Qed.

Lemma shape_startSingle w known n : keeps_shape known (startSingle w n).
Proof.
  unfold startSingle. apply shape_get. intros p. simpl.
  apply shape_bind; [apply shape_update; known_entry|]. intros _.
  destruct (Start _ _ _).2;
    (apply shape_bind; [apply shape_emit|]; intros _; apply shape_ret).
Qed.

Lemma shape_stopIfLive w known n : keeps_shape known (stopIfLive w n).
Proof.
  unfold stopIfLive. apply shape_get. intros p. simpl. destruct (decide _).
  - apply shape_bind; [apply shape_stopSingle|]. intros _. apply shape_ret.
  - apply shape_ret.
Qed.

Lemma shape_StopProcess w known n : keeps_shape known (StopProcess w n).
Proof.
  unfold StopProcess. apply (shape_read known mgraph). intros g.
  apply shape_bind; [|intros _; apply shape_stopSingle].
  apply shape_forEach. intros dep. apply (shape_stopIfLive w known dep).
Qed.

Lemma shape_collectRestartDeps known (l : list string) : forall acc,
  keeps_shape known (collectRestartDeps l acc).
Proof.
  induction l as [|d l IH]; intros acc; simpl; [apply shape_ret|].
  intros pm Hkn. unfold mbind, M_bind, getProcess.
  destruct (processes pm !! d); [|done]. destruct (decide _); by apply IH.
Qed.

Lemma shape_RestartProcess w known n : keeps_shape known (RestartProcess w n).
Proof.
  unfold RestartProcess. apply (shape_read known mgraph). intros g.
  apply shape_bind; [apply shape_collectRestartDeps|]. intros restartDeps.
  apply shape_bind; [apply shape_StopProcess|]. intros [e|]; [apply shape_ret|].
  apply shape_bind; [apply shape_startSingle|]. intros [e|]; [apply shape_ret|].
  apply shape_bind; [|intros _; apply shape_ret].
  apply shape_forEach. intros dep. apply shape_get. intros p.
  apply shape_bind; [apply shape_update; known_entry|]. intros _.
  apply shape_bind; [apply shape_startSingle|]. intros _. apply shape_ret.
Qed.

Lemma shape_cascadeFailure w known n : keeps_shape known (cascadeFailure w n).
Proof.
  unfold cascadeFailure. apply (shape_read known mgraph). intros g.
  apply shape_forEach. intros dep. apply shape_get. intros p. simpl.
  apply shape_bind.
  { destruct (decide _); [|apply shape_ret].
    apply shape_bind; [apply shape_stopSingle|]. intros _. apply shape_ret. }
  intros _. apply shape_get. intros q.
  apply shape_bind; [apply shape_update; known_entry|]. intros _. apply shape_emit.
Qed.

Lemma shape_monitor w w' pow rnd cancelled known n :
  keeps_shape known (monitor w w' pow rnd cancelled n).
Proof.
  unfold monitor. apply shape_bind.
  - unfold monitorExit. apply shape_get. intros p. simpl.
    destruct (decide _); [apply shape_ret|].
    apply (shape_read _ mconfig). intros cfg. destruct (shouldRetry _ _).
    + apply shape_bind; [apply shape_update; known_entry|]. intros _.
      apply shape_bind; [apply shape_emit|]. intros _. apply shape_ret.
    + apply shape_bind; [apply shape_update; known_entry|]. intros _.
      apply shape_bind; [apply shape_emit|]. intros _.
      apply shape_bind; [apply shape_cascadeFailure|]. intros _. apply shape_ret.
  - intros [backoff|]; [|apply shape_ret]. destruct cancelled; [apply shape_ret|].
    unfold monitorRetry. apply shape_get. intros p. destruct (decide _); [apply shape_ret|].
    apply shape_bind; [apply shape_startSingle|]. intros _. apply shape_ret.
Qed.

Lemma shape_StopAll w rangeKeys known : keeps_shape known (StopAll w rangeKeys).
Proof.
  unfold StopAll. apply (shape_read known (runningNames rangeKeys)). intros running.
  destruct (decide _); [apply shape_ret|].
  apply (shape_read known mgraph). intros g. destruct (StopOrder _ _ _).
  - apply shape_bind; [|intros _; apply shape_ret].
    apply shape_forEach. intros dep. apply (shape_stopIfLive w known dep).
  - apply shape_bind; [|intros _; apply shape_ret].
    apply shape_forEach. intros dep.
    apply shape_bind; [apply shape_stopSingle|]. intros _. apply shape_ret.
Qed.

(** A manager in which every process carries the name it is filed under and
    the catalog entry of that name. *)
Record well_formed (rangeKeys : gset string -> list string) (pm : ProcessManager)
    : Prop := {
  wf_managed : managed rangeKeys pm;
  wf_ident : forall n p, processes pm !! n = Some p ->
               name p = n /\ Name (state p) = n /\
               Processes (mconfig pm) !! n = Some (pconfig p)
}.

Lemma same_shape_dom pm pm' :
  same_shape pm pm' -> dom (processes pm') = dom (processes pm).
Proof.
  intros [_ _ Hi]. apply set_eq. intros n. rewrite !elem_of_dom.
  specialize (Hi n). destruct (processes pm' !! n), (processes pm !! n); try done;
    split; eauto.
Qed.

Lemma well_formed_shape rangeKeys pm pm' :
  well_formed rangeKeys pm -> same_shape pm pm' -> well_formed rangeKeys pm'.
Proof.
  intros [[Hg Hdom] Hid] Hs. pose proof (same_shape_dom pm pm' Hs) as Hd.
  destruct Hs as [Hg' Hc' Hi]. split; [split|].
  - by rewrite Hg', Hc'.
  - by rewrite Hd, Hc'.
  - intros n p' Hp'. specialize (Hi n). rewrite Hp' in Hi.
    destruct (processes pm !! n) as [p|] eqn:Hp; [|done].
    injection Hi as Hn Hcfg HN. destruct (Hid n p Hp) as (? & ? & ?).
    rewrite Hc'. split; [congruence|]. split; congruence.
Qed.

Lemma keeps_shape_run {A} (m : M A) pm a pm' :
  keeps_shape ∅ m -> m pm = Return a pm' -> same_shape pm pm'.
Proof. intros Hm Hrun. specialize (Hm pm ltac:(by intros n i ?)). by rewrite Hrun in Hm. Qed.

Lemma NewProcessManager_lookup rangeKeys cfg n :
  processes (NewProcessManager rangeKeys cfg) !! n
  = NewManagedProcess n <$> Processes cfg !! n.
Proof.
  unfold NewProcessManager. simpl. rewrite map_lookup_imap.
  by destruct (Processes cfg !! n).
Qed.

Lemma NewProcessManager_wf rangeKeys cfg :
  well_formed rangeKeys (NewProcessManager rangeKeys cfg).
Proof.
  split; [split|].
  - done.
  - apply set_eq. intros n. rewrite !elem_of_dom, NewProcessManager_lookup.
    by rewrite fmap_is_Some.
  - intros n p. rewrite NewProcessManager_lookup. simpl.
    destruct (Processes cfg !! n) as [proc|]; [|done]. by intros [= <-].
Qed.

(** The managers the examples start from are well formed. *)
Lemma running_shape (names : list string) : forall pm, same_shape pm (running names pm).
Proof.
  induction names as [|n names IH]; intros pm; [apply same_shape_refl|].
  unfold running. cbn [foldl]. eapply same_shape_trans; [|apply IH].
  destruct (processes pm !! n) as [p|] eqn:Hp; [|apply same_shape_refl].
  split; [done|done|]. intros n'. simpl. destruct (decide (n' = n)) as [->|Hne].
  - rewrite lookup_insert_eq, Hp. simpl. by rewrite ident_Start.
  - by rewrite lookup_insert_ne.
Qed.

(** *** [RestartProcess] *)

(** The statuses in which [RestartProcess] notes a dependent for a restart. *)
Definition wasUp (p : ManagedProcess) : Prop :=
  status (state p) = StatusRunning \/ status (state p) = StatusStarting \/
  status (state p) = StatusFailed \/ status (state p) = StatusRetrying.

Global Instance wasUp_dec p : Decision (wasUp p).
Proof. unfold wasUp. apply _. Defined.

Definition upAt (pm : ProcessManager) (d : string) : Prop :=
  from_option wasUp False (processes pm !! d).

Global Instance upAt_dec pm d : Decision (upAt pm d).
Proof. unfold upAt. destruct (processes pm !! d); apply _. Defined.

Lemma collectRestartDeps_run (l : list string) pm : forall acc,
  (forall d, d ∈ l -> is_Some (processes pm !! d)) ->
  collectRestartDeps l acc pm = Return (acc ++ filter (upAt pm) l) pm.
Proof.
  induction l as [|d l IH]; intros acc Hl.
  { simpl. by rewrite app_nil_r. }
  destruct (Hl d ltac:(by left)) as [p Hp]. cbn [collectRestartDeps].
  rewrite (bind_run _ _ _ _ _ (getProcess_run _ _ _ Hp)). unfold State.
  rewrite filter_cons.
  assert (upAt pm d <-> wasUp p) as Hup by (unfold upAt; by rewrite Hp).
  unfold wasUp in Hup.
  destruct (decide (status (state p) = _ \/ _)) as [Hw|Hw];
    destruct (decide (upAt pm d)) as [Hu|Hu]; try (exfalso; tauto).
  - rewrite IH by (intros d' Hd'; apply Hl; by right). by rewrite <- app_assoc.
  - by rewrite IH by (intros d' Hd'; apply Hl; by right).
Qed.

(** What the last loop of [RestartProcess] makes of a dependent. *)
Definition restartedBy (w : World) (n : string) (p : ManagedProcess) : ManagedProcess :=
  (Start (now w) (spawn w n) (ResetRetryCount p)).1.

Definition restartDependent (w : World) (dep : string) : M unit :=
  p ← getProcess dep;
  update dep (ResetRetryCount p);;
  startSingle w dep;; ret tt.

Definition restartStep (w : World) (pm : ProcessManager) (dep : string) : ProcessManager :=
  match processes pm !! dep with
  | Some p =>
      let r := Start (now w) (spawn w dep) (ResetRetryCount p) in
      pushEvent (event dep (status (state p))
                       (if r.2 is Some _ then StatusFailed else StatusRunning)
                       (default "" r.2))
                (setEntry dep r.1 pm)
  | None => pm
  end.

Lemma restartDependent_run w dep pm :
  is_Some (processes pm !! dep) ->
  restartDependent w dep pm = Return tt (restartStep w pm dep).
Proof.
  intros [p Hp]. unfold restartDependent, restartStep.
  rewrite (bind_run _ _ _ _ _ (getProcess_run _ _ _ Hp)), Hp.
  unfold mbind at 1, M_bind at 1, update.
  set (pm1 := {| mconfig := mconfig pm; mgraph := mgraph pm;
                 processes := <[dep := ResetRetryCount p]> (processes pm);
                 events := events pm |}).
  assert (processes pm1 !! dep = Some (ResetRetryCount p)) as Hp1
    by (simpl; by rewrite lookup_insert_eq).
  rewrite (bind_run _ _ _ _ _ (startSingle_run w dep pm1 _ Hp1)).
  unfold ret, mret, M_ret. f_equal. unfold pushEvent, setEntry. simpl.
  by rewrite insert_insert_eq.
Qed.

Lemma restartStep_lookup w pm dep n :
  processes (restartStep w pm dep) !! n
  = if decide (n = dep) then restartedBy w n <$> processes pm !! n
    else processes pm !! n.
Proof.
  unfold restartStep. destruct (processes pm !! dep) as [p|] eqn:Hp.
  - rewrite pushEvent_processes. simpl. destruct (decide (n = dep)) as [->|Hne].
    + by rewrite lookup_insert_eq, Hp.
    + by rewrite lookup_insert_ne.
  - destruct (decide (n = dep)) as [->|Hne]; [|done]. by rewrite Hp.
Qed.

Lemma restartStep_graph w pm dep :
  mgraph (restartStep w pm dep) = mgraph pm /\ mconfig (restartStep w pm dep) = mconfig pm.
Proof.
  unfold restartStep. destruct (processes pm !! dep); [|done].
  by rewrite pushEvent_graph, pushEvent_config.
Qed.

Lemma restartedBy_idem w n p :
  restartedBy w n (restartedBy w n p) = restartedBy w n p.
Proof.
  unfold restartedBy, Start, ResetRetryCount, SetRetryState.
  destruct p as [nm cfg [? st] c t]. simpl.
  destruct st, (spawn w n); reflexivity.
Qed.

Lemma forEach_restart_run w (l : list string) : forall pm,
  (forall d, d ∈ l -> is_Some (processes pm !! d)) ->
  forEach l (restartDependent w) pm = Return tt (foldl (restartStep w) pm l).
Proof.
  induction l as [|d l IH]; intros pm Hl; [done|].
  cbn [forEach foldl].
  rewrite (bind_run _ _ _ _ _ (restartDependent_run w d pm (Hl d ltac:(by left)))).
  apply IH. intros d' Hd'. rewrite restartStep_lookup.
  destruct (decide _); [|apply Hl; by right].
  apply fmap_is_Some, Hl. by right.
Qed.

Lemma restartFold_lookup w (l : list string) : forall pm n,
  processes (foldl (restartStep w) pm l) !! n
  = if decide (n ∈ l) then restartedBy w n <$> processes pm !! n
    else processes pm !! n.
Proof.
  induction l as [|d l IH]; intros pm n; cbn [foldl].
  { rewrite decide_False; [done|]. by intros ?%elem_of_nil. }
  rewrite IH, restartStep_lookup.
  destruct (decide (n = d)) as [->|Hne].
  - rewrite (decide_True (P := d ∈ d :: l)) by (by left).
    destruct (decide (d ∈ l)); [|done].
    rewrite <- option_fmap_compose. apply option_fmap_ext. intros p. apply restartedBy_idem.
  - destruct (decide (n ∈ l)) as [Hin|Hnin].
    + by rewrite decide_True by (by right).
    + rewrite decide_False; [done|]. by intros [?|?]%elem_of_cons.
Qed.

Lemma StopProcess_run w name pm :
  (forall n, n = name \/ n ∈ Dependents (mgraph pm) name -> is_Some (processes pm !! n)) ->
  exists pm',
    StopProcess w name pm = Return None pm' /\
    mgraph pm' = mgraph pm /\ mconfig pm' = mconfig pm /\
    (forall n, processes pm' !! n =
       if decide (n = name \/ n ∈ Dependents (mgraph pm) name)
       then stoppedBy w n <$> processes pm !! n
       else processes pm !! n).
Proof.
  intros Hall. set (deps := Dependents (mgraph pm) name) in *.
  set (pm2 := foldl (stopStep w) pm deps).
  assert (forEach deps (stopIfLive w) pm = Return tt pm2) as Hloop.
  { apply forEach_stop_run. intros d Hd. apply Hall. by right. }
  destruct (Hall name ltac:(by left)) as [p Hp].
  assert (exists p2, processes pm2 !! name = Some p2 /\
                     stoppedBy w name p2 = stoppedBy w name p) as (p2 & Hp2 & Hidem).
  { unfold pm2. rewrite stopFold_lookup, Hp. destruct (decide _); simpl.
    - eexists. split; [done|]. apply stoppedBy_idem.
    - by eexists. }
  eexists. rewrite StopProcess_unfold. fold deps.
  rewrite (bind_run _ _ _ _ _ Hloop), (stopSingle_run w name pm2 p2 Hp2).
  split; [done|]. split; [|split].
  - rewrite pushEvent_graph. simpl. apply (stopFold_graph w deps pm).
  - rewrite pushEvent_config. simpl. apply (stopFold_graph w deps pm).
  - intros n. rewrite pushEvent_processes. simpl.
    destruct (decide (n = name)) as [->|Hne].
    + rewrite lookup_insert_eq, decide_True by (by left). by rewrite Hidem, Hp.
    + rewrite lookup_insert_ne by done. unfold pm2. rewrite stopFold_lookup.
      destruct (decide (n ∈ deps)).
      * by rewrite decide_True by (by right).
      * rewrite decide_False; [done|]. tauto.
Qed.

(** [RestartProcess] when the spawn of the target succeeds. *)
Lemma RestartProcess_run w name pm :
  (forall n, n = name \/ n ∈ Dependents (mgraph pm) name -> is_Some (processes pm !! n)) ->
  name ∉ Dependents (mgraph pm) name ->
  (forall e, spawn w name <> SpawnFailed e) ->
  exists pm',
    RestartProcess w name pm = Return None pm' /\
    (forall n, processes pm' !! n =
       if decide (n = name)
       then (fun p => (Start (now w) (spawn w n) (stoppedBy w n p)).1) <$> processes pm !! n
       else if decide (n ∈ Dependents (mgraph pm) name)
            then (fun p => if decide (wasUp p) then restartedBy w n (stoppedBy w n p)
                           else stoppedBy w n p) <$> processes pm !! n
            else processes pm !! n).
Proof.
  intros Hall Hself Hspawn. set (deps := Dependents (mgraph pm) name) in *.
  destruct (StopProcess_run w name pm Hall) as (pm2 & Hstop & Hg2 & Hc2 & Hl2).
  fold deps in Hl2.
  destruct (Hall name ltac:(by left)) as [p Hp].
  assert (processes pm2 !! name = Some (stoppedBy w name p)) as Hp2.
  { by rewrite Hl2, decide_True, Hp by (by left). }
  pose proof (startSingle_run w name pm2 _ Hp2) as Hstart. simpl in Hstart.
  set (r := Start (now w) (spawn w name) (stoppedBy w name p)) in *.
  assert (r.2 = None) as Hr.
  { unfold r, Start. rewrite decide_False.
    - destruct (spawn w name) as [| |e] eqn:Hsp; [done|done|]. by destruct (Hspawn e).
    - intros Hrun. apply (stoppedBy_not_live w name p). by left. }
  rewrite Hr in Hstart.
  set (pm3 := pushEvent _ _) in Hstart.
  assert (forall n, processes pm3 !! n
                    = if decide (n = name) then Some r.1 else processes pm2 !! n) as Hl3.
  { intros n. unfold pm3. rewrite pushEvent_processes. simpl.
    destruct (decide (n = name)) as [->|?];
      [by rewrite lookup_insert_eq|by rewrite lookup_insert_ne]. }
  set (restartDeps := filter (upAt pm) deps).
  assert (forall d, d ∈ restartDeps -> d ∈ deps /\ d <> name) as Hrd.
  { intros d [_ Hd]%list_elem_of_filter. split; [done|]. by intros ->. }
  assert (forEach restartDeps (restartDependent w) pm3
          = Return tt (foldl (restartStep w) pm3 restartDeps)) as Hloop.
  { apply forEach_restart_run. intros d Hd. destruct (Hrd d Hd) as [Hin Hne].
    rewrite Hl3, decide_False, Hl2, decide_True by tauto.
    apply fmap_is_Some, Hall. by right. }
  eexists. split.
  { unfold RestartProcess. unfold mbind at 1, M_bind at 1, getGraph. fold deps.
    rewrite (bind_run _ _ _ _ _ (collectRestartDeps_run deps pm []
               (fun d Hd => Hall d (or_intror Hd)))).
    rewrite app_nil_l. fold restartDeps.
    rewrite (bind_run _ _ _ _ _ Hstop), (bind_run _ _ _ _ _ Hstart).
    change (forEach restartDeps _) with (forEach restartDeps (restartDependent w)).
    by rewrite (bind_run _ _ _ _ _ Hloop). }
  intros n. rewrite restartFold_lookup, Hl3.
  destruct (decide (n = name)) as [->|Hne].
  - rewrite decide_False by (intros Hin; by destruct (Hrd name Hin)).
    by rewrite Hp.
  - rewrite Hl2. destruct (decide (n ∈ deps)) as [Hin|Hnin].
    + rewrite (decide_True (P := n = name \/ n ∈ deps)) by (by right).
      destruct (processes pm !! n) as [q|] eqn:Hq; simpl.
      * destruct (decide (n ∈ restartDeps)) as [Hr'|Hr'].
        -- apply list_elem_of_filter in Hr' as [Hup _]. unfold upAt in Hup.
           rewrite Hq in Hup. simpl in Hup. by rewrite decide_True.
        -- rewrite decide_False; [done|]. intros Hup. apply Hr'.
           apply list_elem_of_filter. split; [|done]. unfold upAt. by rewrite Hq.
      * by destruct (decide (n ∈ restartDeps)).
    + rewrite decide_False by (intros [_ ?]%list_elem_of_filter; done).
      rewrite decide_False; [done|]. tauto.
Qed.

Lemma Start_started now s p :
  status (state p) <> StatusRunning -> (forall e, s <> SpawnFailed e) ->
  StartedAt (state (Start now s p).1) = now.
Proof.
  intros Hs He. unfold Start. rewrite decide_False by done.
  destruct s; [done|done|]. by destruct (He err).
Qed.

End manager_effects.

Module manager_props.
Import config retry graph process manager graph_spec graph_claims graph_props process_spec
       manager_spec manager_claims manager_effects.

(** X16: [StopProcess(name)], when the target and the processes
    [Dependents] lists are managed, returns [nil]; it does to the target and
    to each of its transitive dependents what [stopSingle] does to a process
    and leaves every other process, the graph and the catalog as they were;
    afterwards neither the target nor any dependent is Running, Starting or
    Retrying. *)
Theorem StopProcess_effect (w : World) (name : string) (pm : ProcessManager) :
  (forall n, n = name \/ n ∈ Dependents (mgraph pm) name -> is_Some (processes pm !! n)) ->
  exists pm',
    StopProcess w name pm = Return None pm' /\
    mgraph pm' = mgraph pm /\ mconfig pm' = mconfig pm /\
    (forall n, processes pm' !! n =
       if decide (n = name \/ n ∈ Dependents (mgraph pm) name)
       then stoppedBy w n <$> processes pm !! n
       else processes pm !! n) /\
    (forall n p', n = name \/ n ∈ Dependents (mgraph pm) name ->
       processes pm' !! n = Some p' -> ~ live p').
Proof.
  intros Hall. destruct (StopProcess_run w name pm Hall) as (pm' & Hrun & Hg & Hc & Hlook).
  exists pm'. split; [done|]. split; [done|]. split; [done|]. split; [done|].
  intros n p' Hn. rewrite Hlook, decide_True by done.
  destruct (processes pm !! n) as [q|]; [|done]. simpl. intros [= <-].
  apply stoppedBy_not_live.
Qed.

Lemma StopProcess_effect_witness :
  exists pm',
    StopProcess calm "A" (chain_running elements) = Return None pm' /\
    mgraph pm' = mgraph (chain_running elements) /\
    mconfig pm' = mconfig (chain_running elements) /\
    (forall n, processes pm' !! n =
       if decide (n = "A" \/ n ∈ Dependents (mgraph (chain_running elements)) "A")
       then stoppedBy calm n <$> processes (chain_running elements) !! n
       else processes (chain_running elements) !! n) /\
    (forall n p', n = "A" \/ n ∈ Dependents (mgraph (chain_running elements)) "A" ->
       processes pm' !! n = Some p' -> ~ live p').
Proof.
  apply (StopProcess_effect calm "A" (chain_running elements)).
  replace (Dependents (mgraph (chain_running elements)) "A") with ["B"; "C"]
    by (by vm_compute).
  intros n [->|[->|[->|?%elem_of_nil]%elem_of_cons]%elem_of_cons];
    [| | |done]; vm_compute; by eexists.
Defined.

(** X17: a name the manager does not manage makes [stopSingle],
    [StopProcess] and [RestartProcess] panic: [pm.processes[name]] is a nil
    pointer, and no path checks it before [p.State()]. *)
Theorem StopProcess_unknown_panics (w : World) (name : string) (pm : ProcessManager) :
  processes pm !! name = None ->
  stopSingle w name pm = Panic /\
  StopProcess w name pm = Panic /\
  RestartProcess w name pm = Panic.
Proof.
  intros Hn.
  assert (StopProcess w name pm = Panic) as Hstop.
  { rewrite StopProcess_unfold.
    pose proof (forEach_stop_none w (Dependents (mgraph pm) name) name pm Hn) as H.
    destruct (forEach _ _ pm) as [[] pm2|] eqn:Hloop.
    - rewrite (bind_run _ _ _ _ _ Hloop). by apply stopSingle_panic.
    - by rewrite (bind_panic _ _ _ Hloop). }
  split; [by apply stopSingle_panic|]. split; [done|].
  unfold RestartProcess. unfold mbind at 1, M_bind at 1. simpl.
  destruct (collectRestartDeps_pure (Dependents (mgraph pm) name) [] pm) as [Hp|[r Hr]].
  - by rewrite (bind_panic _ _ _ Hp).
  - rewrite (bind_run _ _ _ _ _ Hr). by rewrite (bind_panic _ _ _ Hstop).
Qed.

Lemma StopProcess_unknown_panics_witness :
  stopSingle calm "Z" (chain_running elements) = Panic /\
  StopProcess calm "Z" (chain_running elements) = Panic /\
  RestartProcess calm "Z" (chain_running elements) = Panic.
Proof. apply (StopProcess_unknown_panics calm "Z" (chain_running elements)). by vm_compute. Defined.

(** X18: [cascadeFailure(name)], when every process [Dependents] lists is
    managed and none of them is Running, Starting or Retrying (so that
    [stopSingle] is called on none of them and no monitor is woken), marks
    every transitive dependent of [name] Failed with the error
    "dependency <name> failed" and changes nothing else of it: a dependent
    that was Stopped is Failed afterwards. No other process, nor the graph or
    the catalog, changes. *)
Theorem cascadeFailure_effect (w : World) (name : string) (pm : ProcessManager) :
  (forall n, n ∈ Dependents (mgraph pm) name ->
     exists p, processes pm !! n = Some p /\ ~ live p) ->
  exists pm',
    cascadeFailure w name pm = Return tt pm' /\
    mgraph pm' = mgraph pm /\ mconfig pm' = mconfig pm /\
    (forall n, n ∉ Dependents (mgraph pm) name ->
       processes pm' !! n = processes pm !! n) /\
    (forall n p, n ∈ Dependents (mgraph pm) name -> processes pm !! n = Some p ->
       exists p', processes pm' !! n = Some p' /\
         p' = SetError ("dependency " +:+ name +:+ " failed") (SetStatus StatusFailed p) /\
         status (state p') = StatusFailed /\
         LastError (state p') = "dependency " +:+ name +:+ " failed" /\
         RetryCount (state p') = RetryCount (state p)).
Proof.
  intros Hall.
  destruct (cascadeFailure_run w name pm) as (pm' & Hrun & Hg & Hc & Hlook).
  { intros n Hn. destruct (Hall n Hn) as (p & Hp & _). by eexists. }
  exists pm'. split; [done|]. split; [done|]. split; [done|]. split.
  - intros n Hn. by rewrite Hlook, decide_False.
  - intros n p Hn Hp. exists (failedBy w name n p). split.
    + by rewrite Hlook, decide_True, Hp.
    + split; [|apply failedBy_status].
      destruct (Hall n Hn) as (p0 & Hp0 & Hidle). rewrite Hp in Hp0. injection Hp0 as <-.
      unfold failedBy. by rewrite stoppedBy_rest.
Qed.

(** The manager of [chain] with A Running, B Failed after two retries and C
    Stopped. *)
Definition chain_B_failed : ProcessManager :=
  setProcess "B" StatusFailed 2 (running ["A"] (NewProcessManager elements chain)).

Lemma cascadeFailure_effect_witness :
  exists pm',
    cascadeFailure calm "A" chain_B_failed = Return tt pm' /\
    mgraph pm' = mgraph chain_B_failed /\
    mconfig pm' = mconfig chain_B_failed /\
    (forall n, n ∉ Dependents (mgraph chain_B_failed) "A" ->
       processes pm' !! n = processes chain_B_failed !! n) /\
    (forall n p, n ∈ Dependents (mgraph chain_B_failed) "A" ->
       processes chain_B_failed !! n = Some p ->
       exists p', processes pm' !! n = Some p' /\
         p' = SetError ("dependency " +:+ "A" +:+ " failed") (SetStatus StatusFailed p) /\
         status (state p') = StatusFailed /\
         LastError (state p') = "dependency " +:+ "A" +:+ " failed" /\
         RetryCount (state p') = RetryCount (state p)).
Proof.
  apply (cascadeFailure_effect calm "A" chain_B_failed).
  replace (Dependents (mgraph chain_B_failed) "A") with ["B"; "C"] by (by vm_compute).
  intros n [->|[->|?%elem_of_nil]%elem_of_cons]%elem_of_cons; [| |done];
    (eexists; split; [vm_compute; reflexivity|];
     unfold live; simpl; intros [?|[?|?]]; discriminate).
Defined.

(** On that manager: B keeps its two retries, and C, which was Stopped, is
    Failed. *)
Example cascadeFailure_idle_chain :
  let o := cascadeFailure calm "A" chain_B_failed in
  (status <$> stateOf "B" o, RetryCount <$> stateOf "B" o) = (Some StatusFailed, Some 2) /\
  (status <$> stateOf "C" o, LastError <$> stateOf "C" o)
  = (Some StatusFailed, Some "dependency A failed") /\
  eventsOf o = [("B", StatusFailed, StatusFailed); ("C", StatusStopped, StatusFailed)].
Proof. vm_compute. done. Qed.

(** In the chain with A, B and C Running, the failure of A leaves B and C
    Failed and A as it was: the run in which the monitors of B and C, woken
    by the stops, have read the state before the marks ([monitor_after_stop]
    below). *)
Example cascadeFailure_chain :
  let o := cascadeFailure calm "A" (chain_running elements) in
  status <$> stateOf "A" o = Some StatusRunning /\
  status <$> stateOf "B" o = Some StatusFailed /\
  LastError <$> stateOf "C" o = Some "dependency A failed" /\
  eventsOf o = [("B", StatusRunning, StatusStopped); ("B", StatusStopped, StatusFailed);
                ("C", StatusRunning, StatusStopped); ("C", StatusStopped, StatusFailed)].
Proof. vm_compute. done. Qed.

(** X19: [StopAll], on the manager of a catalog whose dependencies are all
    defined, returns [nil] whether the graph has a cycle or not, and does to
    every process what [stopSingle] does to it: afterwards no process is
    Running, Starting or Retrying, a process that was in none of these
    statuses is as it was, and the retry counters are untouched. *)
Theorem StopAll_effect (w : World) (rangeKeys : gset string -> list string)
    (pm : ProcessManager) :
  fair_range rangeKeys ->
  managed rangeKeys pm ->
  (forall x y, dependsOn (mconfig pm) x y -> y ∈ dom (Processes (mconfig pm))) ->
  exists pm',
    StopAll w rangeKeys pm = Return None pm' /\
    mgraph pm' = mgraph pm /\ mconfig pm' = mconfig pm /\
    (forall n, processes pm' !! n = stoppedBy w n <$> processes pm !! n) /\
    (forall n p p', processes pm !! n = Some p -> processes pm' !! n = Some p' ->
       ~ live p' /\ (~ live p -> p' = p) /\
       RetryCount (state p') = RetryCount (state p)).
Proof.
  intros Hfair Hman Hdef.
  destruct (StopAll_run w rangeKeys pm Hfair Hman Hdef) as (pm' & Hrun & Hg & Hc & Hlook).
  exists pm'. split; [done|]. split; [done|]. split; [done|]. split; [done|].
  intros n p p' Hp. rewrite Hlook, Hp. simpl. intros [= <-].
  split; [apply stoppedBy_not_live|]. split; [apply stoppedBy_rest|apply stoppedBy_retry].
Qed.

(** The manager of a catalog with two cycles beside a process: X and Y depend
    on each other, and so do P and Q. *)
Definition two_cycles : Config :=
  {| Processes := <["X" := proc ["Y"]]> (<["Y" := proc ["X"]]>
                  (<["P" := proc ["Q"]]> (<["Q" := proc ["P"]]> (<["A" := proc []]> ∅)))) |}.

Lemma chain_running_managed : managed elements (chain_running elements).
Proof. split; by vm_compute. Qed.

Lemma defined_by_check (cfg : Config) :
  bool_decide (map_Forall (fun _ proc =>
     Forall (fun d => d ∈ dom (Processes cfg)) (DependsOn proc)) (Processes cfg)) = true ->
  forall x y, dependsOn cfg x y -> y ∈ dom (Processes cfg).
Proof.
  intros Hb%bool_decide_eq_true x y. unfold dependsOn, depsOf.
  destruct (Processes cfg !! x) as [proc|] eqn:Hx; simpl; [|by intros ?%elem_of_nil].
  intros Hy. specialize (Hb x proc Hx). simpl in Hb. rewrite Forall_forall in Hb.
  by apply Hb.
Qed.

Lemma StopAll_effect_witness :
  exists pm',
    StopAll calm elements (chain_running elements) = Return None pm' /\
    mgraph pm' = mgraph (chain_running elements) /\
    mconfig pm' = mconfig (chain_running elements) /\
    (forall n, processes pm' !! n
               = stoppedBy calm n <$> processes (chain_running elements) !! n) /\
    (forall n p p', processes (chain_running elements) !! n = Some p ->
       processes pm' !! n = Some p' ->
       ~ live p' /\ (~ live p -> p' = p) /\
       RetryCount (state p') = RetryCount (state p)).
Proof.
  apply (StopAll_effect calm elements (chain_running elements)).
  - exact elements_fair.
  - exact chain_running_managed.
  - apply defined_by_check. vm_compute. reflexivity.
Defined.

(** With a cycle in the graph [StopAll] stops the processes in the order
    [range] gives. *)
Example StopAll_two_cycles :
  let pm := running ["X"; "P"; "A"] (NewProcessManager elements two_cycles) in
  let o := StopAll calm elements pm in
  errorOf o = Some None /\
  status <$> stateOf "X" o = Some StatusStopped /\
  status <$> stateOf "P" o = Some StatusStopped /\
  status <$> stateOf "A" o = Some StatusStopped.
Proof. vm_compute. done. Qed.

(** X20: [StopAll], on the manager of a catalog whose graph passed
    [Validate] and with room in the event channel, sends exactly one event
    for every process that was Running, Starting or Retrying, with the
    status it had and Stopped as the new one, and sends the event of a
    process before the event of each process it depends on: dependents are
    stopped first. *)
Theorem StopAll_dependents_first (w : World) (rangeKeys : gset string -> list string)
    (pm : ProcessManager) :
  fair_range rangeKeys ->
  managed rangeKeys pm ->
  Validate rangeKeys (mgraph pm) = Valid ->
  (length (events pm) + size (processes pm) <= 100)%nat ->
  exists pm' stops,
    StopAll w rangeKeys pm = Return None pm' /\
    events pm' = events pm ++ stops /\
    NoDup stops /\
    (forall e, e ∈ stops <->
       exists n p, processes pm !! n = Some p /\ live p /\
                   e = {| EvName := n; OldState := status (state p);
                          NewState := StatusStopped; Error := "" |}) /\
    (forall i j ei ej, stops !! i = Some ei -> stops !! j = Some ej ->
       dependsOn (mconfig pm) (EvName ei) (EvName ej) -> (i < j)%nat).
Proof.
  intros Hfair Hman Hvalid Hroom.
  destruct (StopAll_events w rangeKeys pm Hfair Hman Hvalid Hroom)
    as (pm' & order & Hrun & Hev & Hnd & Hlive & Hsorted).
  exists pm', (omap (stopEvent pm) order).
  split; [done|]. split; [done|]. split; [|split].
  - apply NoDup_omap; [|done]. intros x y z Hx Hy.
    apply stopEvent_name in Hx, Hy. congruence.
  - intros e. rewrite list_elem_of_omap. split.
    + intros (d & _ & He). apply stopEvent_spec in He as (p & Hp & Hl & ->). by exists d, p.
    + intros (n & p & Hp & Hl & ->). exists n. split; [by eapply Hlive|].
      apply stopEvent_spec. by exists p.
  - intros i j ei ej Hi Hj Hdep.
    destruct (decide (i < j)%nat) as [|Hge]; [done|]. exfalso.
    destruct (omap_lookup_order (stopEvent pm) order i j ei ej Hi Hj ltac:(lia))
      as (i' & j' & xi & xj & Hxi & Hxj & Hfi & Hfj & Hle).
    apply stopEvent_name in Hfi, Hfj. rewrite Hfi, Hfj in Hdep.
    destruct (Hsorted i' xi xj Hxi Hdep) as (k & Hk & Hkx).
    pose proof (NoDup_lookup _ _ _ _ Hnd Hxj Hkx). lia.
Qed.

Lemma StopAll_dependents_first_witness :
  exists pm' stops,
    StopAll calm elements (chain_running elements) = Return None pm' /\
    events pm' = events (chain_running elements) ++ stops /\
    NoDup stops /\
    (forall e, e ∈ stops <->
       exists n p, processes (chain_running elements) !! n = Some p /\ live p /\
                   e = {| EvName := n; OldState := status (state p);
                          NewState := StatusStopped; Error := "" |}) /\
    (forall i j ei ej, stops !! i = Some ei -> stops !! j = Some ej ->
       dependsOn (mconfig (chain_running elements)) (EvName ei) (EvName ej) -> (i < j)%nat).
Proof.
  apply (StopAll_dependents_first calm elements (chain_running elements)).
  - exact elements_fair.
  - exact chain_running_managed.
  - vm_compute. reflexivity.
  - vm_compute. lia.
Defined.

(** On the chain of C2, [StopAll] stops C, then B, then A. *)
Example StopAll_chain :
  eventsOf (StopAll calm elements (chain_running elements))
  = [("C", StatusRunning, StatusStopped);
     ("B", StatusRunning, StatusStopped);
     ("A", StatusRunning, StatusStopped)].
Proof. vm_compute. reflexivity. Qed.

(** X21: when [monitor] finds its process ended otherwise than by a stop
    and [shouldRetry] allows another attempt, it returns having changed
    that process only: the retry counter is one more, [NextRetryAt] is the
    time of the exit plus [nextBackoff] of the old counter, and the process
    is Retrying if the context was cancelled during the backoff, else Running
    or, when the spawn fails, Failed. *)
Theorem monitor_schedules_retry (w w' : World) (pow : float -> float -> float)
    (rnd : float) (cancelled : bool) (name : string) (pm : ProcessManager)
    (p : ManagedProcess) :
  processes pm !! name = Some p ->
  status (state p) <> StatusStopped ->
  shouldRetry (RetryCount (state p)) (policyOf pm name) = true ->
  exists pm' p',
    monitor w w' pow rnd cancelled name pm = Return tt pm' /\
    processes pm' = <[name := p']> (processes pm) /\
    RetryCount (state p') = RetryCount (state p) + 1 /\
    NextRetryAt (state p')
    = now w + nextBackoff pow rnd (RetryCount (state p)) (policyOf pm name) /\
    status (state p')
    = if cancelled then StatusRetrying
      else if spawn w' name is SpawnFailed _ then StatusFailed else StatusRunning.
Proof.
  intros Hp Hs Hretry.
  destruct (monitor_retry_run w w' pow rnd cancelled name pm p Hp Hs Hretry)
    as (pm' & Hrun & _ & _ & Hprocs).
  exists pm'. eexists. split; [exact Hrun|]. split; [exact Hprocs|].
  destruct (scheduled_state w pow rnd (policyOf pm name) p) as (Hst & Hc & Hn).
  destruct cancelled; [done|].
  destruct (Start_from_retrying (now w') (spawn w' name)
              (scheduled w pow rnd (policyOf pm name) p)) as (Hst' & Hc' & Hn').
  { by rewrite Hst. }
  rewrite Hc', Hn', Hst'. done.
Qed.

(** The manager of [single] with A Failed by [waitForExit] after one retry. *)
Definition crashed_A : ProcessManager :=
  setProcess "A" StatusFailed 1 (NewProcessManager elements single).

Lemma monitor_schedules_retry_witness :
  exists pm' p',
    monitor calm calm retry_spec.powInt 0.5 false "A" crashed_A = Return tt pm' /\
    processes pm' = <["A" := p']> (processes crashed_A) /\
    RetryCount (state p')
    = RetryCount (state (SetRetryState 1 zeroTime
                           (SetStatus StatusFailed (NewManagedProcess "A" (proc []))))) + 1 /\
    NextRetryAt (state p')
    = now calm + nextBackoff retry_spec.powInt 0.5
                   (RetryCount (state (SetRetryState 1 zeroTime
                      (SetStatus StatusFailed (NewManagedProcess "A" (proc []))))))
                   (policyOf crashed_A "A") /\
    status (state p')
    = if false then StatusRetrying
      else if spawn calm "A" is SpawnFailed _ then StatusFailed else StatusRunning.
Proof.
  apply (monitor_schedules_retry calm calm retry_spec.powInt 0.5 false "A" crashed_A
           (SetRetryState 1 zeroTime
              (SetStatus StatusFailed (NewManagedProcess "A" (proc []))))).
  - vm_compute. reflexivity.
  - simpl. discriminate.
  - vm_compute. reflexivity.
Defined.

(** A process [monitor] finds Stopped was stopped on purpose: nothing
    happens. *)
Example monitor_after_stop :
  let pm := setProcess "A" StatusStopped 1 (NewProcessManager elements single) in
  monitor calm calm retry_spec.powInt 0.5 false "A" pm = Return tt pm.
Proof. vm_compute. reflexivity. Qed.

(** X22: when [monitor] finds its process ended otherwise than by a stop
    and [shouldRetry] allows no further attempt, it returns with that
    process Failed and otherwise as it was, with every transitive dependent
    marked Failed by "dependency <name> failed" and otherwise as it was,
    and with every other process untouched. The dependents are assumed to be
    managed and none of them Running, Starting or Retrying (so that
    [cascadeFailure] stops none and wakes no other monitor), and the process
    not to depend on itself. *)
Theorem monitor_gives_up (w w' : World) (pow : float -> float -> float) (rnd : float)
    (cancelled : bool) (name : string) (pm : ProcessManager) (p : ManagedProcess) :
  processes pm !! name = Some p ->
  status (state p) <> StatusStopped ->
  shouldRetry (RetryCount (state p)) (policyOf pm name) = false ->
  (forall n, n ∈ Dependents (mgraph pm) name ->
     n <> name /\ exists q, processes pm !! n = Some q /\ ~ live q) ->
  exists pm',
    monitor w w' pow rnd cancelled name pm = Return tt pm' /\
    processes pm' !! name = Some (SetStatus StatusFailed p) /\
    (forall n q, n ∈ Dependents (mgraph pm) name -> processes pm !! n = Some q ->
       processes pm' !! n
       = Some (SetError ("dependency " +:+ name +:+ " failed") (SetStatus StatusFailed q))) /\
    (forall n, n <> name -> n ∉ Dependents (mgraph pm) name ->
       processes pm' !! n = processes pm !! n).
Proof.
  intros Hp Hs Hretry Hdeps.
  destruct (monitor_giveup_run w w' pow rnd cancelled name pm p Hp Hs Hretry)
    as (pm' & Hrun & _ & _ & Hlook).
  { intros n Hn. destruct (Hdeps n Hn) as (Hne & q & Hq & _). split; [done|by eexists]. }
  exists pm'. split; [done|]. split; [|split].
  - by rewrite Hlook, decide_True.
  - intros n q Hn Hq. destruct (Hdeps n Hn) as (Hne & q0 & Hq0 & Hidle).
    rewrite Hq in Hq0. injection Hq0 as <-.
    rewrite Hlook, decide_False, decide_True, Hq by done. simpl.
    unfold failedBy. by rewrite stoppedBy_rest.
  - intros n Hne Hn. by rewrite Hlook, !decide_False.
Qed.

(** The manager of [chain] with A Failed by [waitForExit] after its three
    retries, B Failed after two and C Stopped. *)
Definition exhausted_A : ProcessManager :=
  setProcess "A" StatusFailed 3 chain_B_failed.

Lemma monitor_gives_up_witness :
  exists pm',
    monitor calm calm retry_spec.powInt 0.5 false "A" exhausted_A = Return tt pm' /\
    processes pm' !! "A"
    = Some (SetStatus StatusFailed
              (SetRetryState 3 zeroTime
                 (SetStatus StatusFailed
                    (Start 500 (PtyStarted 77) (NewManagedProcess "A" (proc []))).1))) /\
    (forall n q, n ∈ Dependents (mgraph exhausted_A) "A" ->
       processes exhausted_A !! n = Some q ->
       processes pm' !! n
       = Some (SetError ("dependency " +:+ "A" +:+ " failed") (SetStatus StatusFailed q))) /\
    (forall n, n <> "A" -> n ∉ Dependents (mgraph exhausted_A) "A" ->
       processes pm' !! n = processes exhausted_A !! n).
Proof.
  apply (monitor_gives_up calm calm retry_spec.powInt 0.5 false "A" exhausted_A).
  - vm_compute. reflexivity.
  - simpl. discriminate.
  - vm_compute. reflexivity.
  - replace (Dependents (mgraph exhausted_A) "A") with ["B"; "C"] by (by vm_compute).
    intros n [->|[->|?%elem_of_nil]%elem_of_cons]%elem_of_cons; [| |done];
      (split; [done|]; eexists; split; [vm_compute; reflexivity|];
       unfold live; simpl; intros [?|[?|?]]; discriminate).
Defined.

(** X23: the retry budget. A process is Running with no retry counted, its
    policy is enabled with [max_attempts = m >= 0], and in every round its
    child fails and the next spawn succeeds. After [k] rounds, with [m = 0]
    or [k <= m], the process is Running again with [k] retries counted; the
    round after the [m]-th retry, when [m > 0], leaves it Failed with [m]
    retries counted: the command is spawned [1 + m] times and no more. *)
Theorem crash_loop_budget (pow : float -> float -> float) (name : string)
    (pm : ProcessManager) (p : ManagedProcess) (rounds : list (World * World * float)) :
  Enabled (policyOf pm name) = true ->
  0 <= MaxAttempts (policyOf pm name) ->
  processes pm !! name = Some p ->
  status (state p) = StatusRunning ->
  RetryCount (state p) = 0 ->
  Forall (failing name) rounds ->
  MaxAttempts (policyOf pm name) = 0 \/
    Z.of_nat (length rounds) <= MaxAttempts (policyOf pm name) + 1 ->
  (forall n, n ∈ Dependents (mgraph pm) name -> n <> name /\ is_Some (processes pm !! n)) ->
  exists pm' p',
    crashRounds pow name rounds pm = Return tt pm' /\
    processes pm' !! name = Some p' /\
    if decide (MaxAttempts (policyOf pm name) = 0 \/
               Z.of_nat (length rounds) <= MaxAttempts (policyOf pm name))
    then status (state p') = StatusRunning /\
         RetryCount (state p') = Z.of_nat (length rounds)
    else status (state p') = StatusFailed /\
         RetryCount (state p') = MaxAttempts (policyOf pm name).
Proof.
  intros Hen Hm Hp Hs Hc Hfail Hlen Hdeps.
  set (m := MaxAttempts (policyOf pm name)) in *.
  assert (forall k, shouldRetry k (policyOf pm name)
                    = if m =? 0 then true else k <? m) as Hshould.
  { intros k. unfold shouldRetry. by rewrite Hen. }
  assert (supervised name pm pm 0) as Hsup0.
  { split; [done|done|done|]. by exists p. }
  destruct (decide (m = 0 \/ Z.of_nat (length rounds) <= m)) as [Hin|Hout].
  - destruct (crashRounds_retry pow name rounds pm pm 0 Hsup0 Hfail)
      as (pm' & Hrun & [_ _ _ (p' & Hp' & Hs' & Hc')]).
    { intros k Hk. rewrite Hshould. destruct (Z.eqb_spec m 0); [done|].
      apply Z.ltb_lt. lia. }
    exists pm', p'. split; [done|]. split; [done|]. split; [done|]. by rewrite Hc'.
  - assert (m <> 0 /\ Z.of_nat (length rounds) = m + 1) as [Hm0 Hk] by lia.
    destruct rounds as [|r rounds _] using rev_ind; [simpl in Hk; lia|].
    rewrite length_app in Hk. simpl in Hk.
    apply Forall_app in Hfail as [Hfail Hr]. apply Forall_singleton in Hr as [Hexit _].
    destruct (crashRounds_retry pow name rounds pm pm 0 Hsup0 Hfail) as (pm1 & Hrun1 & Hsup1).
    { intros k Hk'. rewrite Hshould. destruct (Z.eqb_spec m 0); [done|].
      apply Z.ltb_lt. lia. }
    replace (0 + Z.of_nat (length rounds)) with m in Hsup1 by lia.
    destruct (crashRound_giveup pow name r pm pm1 m Hsup1 Hexit) as
      (pm' & p' & Hrun & Hp' & Hs' & Hc' & Hlook).
    { rewrite Hshould. destruct (Z.eqb_spec m 0); [done|]. apply Z.ltb_ge. lia. }
    { done. }
    exists pm', p'. split.
    { unfold crashRounds in *. rewrite forEach_app, (bind_run _ _ _ _ _ Hrun1).
      cbn [forEach]. by rewrite (bind_run _ _ _ _ _ Hrun). }
    split; [done|]. by split.
Qed.

(** Four failures of A in the chain: three retries, then the cascade. *)
Definition four_failures : list (World * World * float) :=
  [(calm, calm, 0.5); (calm, calm, 0); (calm, calm, 0.875); (calm, calm, 0.25)]%float.

Lemma crash_loop_budget_witness :
  exists pm' p',
    crashRounds retry_spec.powInt "A" four_failures (chain_running elements) = Return tt pm' /\
    processes pm' !! "A" = Some p' /\
    if decide (MaxAttempts (policyOf (chain_running elements) "A") = 0 \/
               Z.of_nat (length four_failures)
               <= MaxAttempts (policyOf (chain_running elements) "A"))
    then status (state p') = StatusRunning /\
         RetryCount (state p') = Z.of_nat (length four_failures)
    else status (state p') = StatusFailed /\
         RetryCount (state p') = MaxAttempts (policyOf (chain_running elements) "A").
Proof.
  apply (crash_loop_budget retry_spec.powInt "A" (chain_running elements)
           (Start 500 (PtyStarted 77) (NewManagedProcess "A" (proc []))).1 four_failures).
  - vm_compute. reflexivity.
  - vm_compute. discriminate.
  - vm_compute. reflexivity.
  - vm_compute. reflexivity.
  - vm_compute. reflexivity.
  - unfold four_failures. repeat constructor; simpl; discriminate.
  - right. vm_compute. discriminate.
  - replace (Dependents (mgraph (chain_running elements)) "A") with ["B"; "C"]
      by (by vm_compute).
    intros n [->|[->|?%elem_of_nil]%elem_of_cons]%elem_of_cons; [| |done];
      (split; [done|vm_compute; by eexists]).
Defined.

(** The same run, computed: A ends Failed with three retries counted and
    was set Running three times. *)
Example crash_loop_chain :
  let o := crashRounds retry_spec.powInt "A" four_failures (chain_running elements) in
  (status <$> stateOf "A" o, RetryCount <$> stateOf "A" o) = (Some StatusFailed, Some 3) /\
  length (filter (fun e => e = ("A", StatusRetrying, StatusRunning)) (eventsOf o)) = 3%nat.
Proof. vm_compute. done. Qed.

(** The manager [NewProcessManager] builds: its graph is the graph of
    the catalog, it manages exactly the catalog's processes, each under its
    own name and with its catalog entry, Stopped and with no retry counted,
    and no event is pending. *)
Theorem NewProcessManager_well_formed (rangeKeys : gset string -> list string)
    (cfg : Config) :
  let pm := NewProcessManager rangeKeys cfg in
  mgraph pm = NewDependencyGraph rangeKeys cfg /\ mconfig pm = cfg /\ events pm = [] /\
  dom (processes pm) = dom (Processes cfg) /\
  forall n p, processes pm !! n = Some p ->
    name p = n /\ Name (state p) = n /\ Processes cfg !! n = Some (pconfig p) /\
    status (state p) = StatusStopped /\ RetryCount (state p) = 0.
Proof.
  destruct (NewProcessManager_wf rangeKeys cfg) as [[Hg Hdom] Hid].
  split; [done|]. split; [done|]. split; [done|]. split; [done|].
  intros n p Hp. destruct (Hid n p Hp) as (? & ? & ?).
  split; [done|]. split; [done|]. split; [done|].
  rewrite NewProcessManager_lookup in Hp.
  destruct (Processes cfg !! n) as [proc|]; [|done]. by injection Hp as <-.
Qed.

(** X24: whatever [StopProcess], [RestartProcess], [StopAll],
    [cascadeFailure] or [monitor] return on a well formed manager, it is a
    well formed manager again: none of them changes the graph or the
    catalog, adds or removes a process, or changes the name or the catalog
    entry of one. *)
Theorem operations_stay_well_formed (rangeKeys : gset string -> list string)
    (w w' : World) (pow : float -> float -> float) (rnd : float) (cancelled : bool)
    (name : string) (pm pm' : ProcessManager) :
  well_formed rangeKeys pm ->
  (exists err, StopProcess w name pm = Return err pm' \/
               RestartProcess w name pm = Return err pm' \/
               StopAll w rangeKeys pm = Return err pm') \/
  cascadeFailure w name pm = Return tt pm' \/
  monitor w w' pow rnd cancelled name pm = Return tt pm' ->
  well_formed rangeKeys pm' /\ mgraph pm' = mgraph pm /\ mconfig pm' = mconfig pm /\
  dom (processes pm') = dom (processes pm).
Proof.
  intros Hwf Hrun.
  assert (same_shape pm pm') as Hs.
  { destruct Hrun as [(err & [H|[H|H]])|[H|H]].
    - exact (keeps_shape_run _ _ _ _ (shape_StopProcess w ∅ name) H).
    - exact (keeps_shape_run _ _ _ _ (shape_RestartProcess w ∅ name) H).
    - exact (keeps_shape_run _ _ _ _ (shape_StopAll w rangeKeys ∅) H).
    - exact (keeps_shape_run _ _ _ _ (shape_cascadeFailure w ∅ name) H).
    - exact (keeps_shape_run _ _ _ _ (shape_monitor w w' pow rnd cancelled ∅ name) H). }
  split; [by eapply well_formed_shape|]. split; [apply Hs|]. split; [apply Hs|].
  by apply same_shape_dom.
Qed.

(** The chain after [RestartProcess("A")]. *)
Definition restarted_chain : ProcessManager :=
  match RestartProcess calm "A" (chain_running elements) with
  | Return _ pm' => pm'
  | Panic => chain_running elements
  end.

Lemma operations_stay_well_formed_witness :
  well_formed elements restarted_chain /\
  mgraph restarted_chain = mgraph (chain_running elements) /\
  mconfig restarted_chain = mconfig (chain_running elements) /\
  dom (processes restarted_chain) = dom (processes (chain_running elements)).
Proof.
  apply (operations_stay_well_formed elements calm calm retry_spec.powInt 0 false "A"
           (chain_running elements) restarted_chain).
  - eapply well_formed_shape; [apply NewProcessManager_wf|apply running_shape].
  - left. exists None. right. left. vm_compute. reflexivity.
Defined.

(** X25: [RestartProcess(name)] on processes that are not up. When the
    target and its dependents are managed and none of them is Running,
    Starting or Retrying (the operation then ends no child and wakes no
    monitor), the target is not its own dependent and its spawn succeeds,
    [RestartProcess] returns [nil]; the target ends Running, started now,
    with the retry counter it had; a dependent that was Failed gets its
    retry counter reset and is started, Running or, if its spawn fails,
    Failed; a dependent that was Stopped or Stopping and every other process
    are left as they were. *)
Theorem RestartProcess_effect (w : World) (name : string) (pm : ProcessManager) :
  (forall n, n = name \/ n ∈ Dependents (mgraph pm) name ->
     exists p, processes pm !! n = Some p /\ ~ live p) ->
  name ∉ Dependents (mgraph pm) name ->
  (forall e, spawn w name <> SpawnFailed e) ->
  exists pm',
    RestartProcess w name pm = Return None pm' /\
    (forall p, processes pm !! name = Some p ->
       exists p', processes pm' !! name = Some p' /\
         p' = (Start (now w) (spawn w name) p).1 /\
         status (state p') = StatusRunning /\ StartedAt (state p') = now w /\
         RetryCount (state p') = RetryCount (state p)) /\
    (forall n p, n ∈ Dependents (mgraph pm) name -> processes pm !! n = Some p ->
       exists p', processes pm' !! n = Some p' /\
         (status (state p) = StatusFailed ->
          p' = (Start (now w) (spawn w n) (ResetRetryCount p)).1 /\
          RetryCount (state p') = 0 /\
          status (state p')
          = if spawn w n is SpawnFailed _ then StatusFailed else StatusRunning) /\
         (status (state p) <> StatusFailed -> p' = p)) /\
    (forall n, n <> name -> n ∉ Dependents (mgraph pm) name ->
       processes pm' !! n = processes pm !! n).
Proof.
  intros Hall Hself Hspawn.
  destruct (RestartProcess_run w name pm) as (pm' & Hrun & Hlook); [|done|done|].
  { intros n Hn. destruct (Hall n Hn) as (p & Hp & _). by eexists. }
  exists pm'. split; [done|]. split; [|split].
  - intros p Hp. destruct (Hall name ltac:(by left)) as (p0 & Hp0 & Hidle).
    rewrite Hp in Hp0. injection Hp0 as <-.
    eexists. rewrite Hlook, decide_True, Hp by done. simpl.
    rewrite stoppedBy_rest by done. split; [done|]. split; [done|].
    assert (status (state p) <> StatusRunning) as Hns.
    { intros Hr. apply Hidle. by left. }
    destruct (Start_spawned (now w) (spawn w name) _ Hns Hspawn) as [Hs Hc].
    split; [done|]. split; [by apply Start_started|done].
  - intros n p Hn Hp. destruct (Hall n ltac:(by right)) as (p0 & Hp0 & Hidle).
    rewrite Hp in Hp0. injection Hp0 as <-.
    eexists. rewrite Hlook, decide_False, decide_True, Hp by (done || by intros ->).
    simpl. rewrite stoppedBy_rest by done. split; [done|]. split.
    + intros Hfailed. rewrite decide_True by (unfold wasUp; tauto).
      unfold restartedBy. split; [done|].
      assert (status (state (ResetRetryCount p)) <> StatusRunning) as Hns.
      { simpl. by rewrite Hfailed. }
      destruct (Start_from_retrying (now w) (spawn w n) _ Hns) as (Hs & Hc & _).
      by rewrite Hs, Hc.
    + intros Hother. rewrite decide_False; [done|].
      unfold wasUp. unfold live in Hidle. tauto.
  - intros n Hne Hn. by rewrite Hlook, !decide_False.
Qed.

Lemma RestartProcess_effect_witness :
  exists pm',
    RestartProcess calm "A" exhausted_A = Return None pm' /\
    (forall p, processes exhausted_A !! "A" = Some p ->
       exists p', processes pm' !! "A" = Some p' /\
         p' = (Start (now calm) (spawn calm "A") p).1 /\
         status (state p') = StatusRunning /\ StartedAt (state p') = now calm /\
         RetryCount (state p') = RetryCount (state p)) /\
    (forall n p, n ∈ Dependents (mgraph exhausted_A) "A" ->
       processes exhausted_A !! n = Some p ->
       exists p', processes pm' !! n = Some p' /\
         (status (state p) = StatusFailed ->
          p' = (Start (now calm) (spawn calm n) (ResetRetryCount p)).1 /\
          RetryCount (state p') = 0 /\
          status (state p')
          = if spawn calm n is SpawnFailed _ then StatusFailed else StatusRunning) /\
         (status (state p) <> StatusFailed -> p' = p)) /\
    (forall n, n <> "A" -> n ∉ Dependents (mgraph exhausted_A) "A" ->
       processes pm' !! n = processes exhausted_A !! n).
Proof.
  apply (RestartProcess_effect calm "A" exhausted_A).
  - replace (Dependents (mgraph exhausted_A) "A") with ["B"; "C"] by (by vm_compute).
    intros n [->|[->|[->|?%elem_of_nil]%elem_of_cons]%elem_of_cons];
      [| | |done];
      (eexists; split; [vm_compute; reflexivity|];
       unfold live; simpl; intros [?|[?|?]]; discriminate).
  - replace (Dependents (mgraph exhausted_A) "A") with ["B"; "C"] by (by vm_compute).
    intros [?|[?|?%elem_of_nil]%elem_of_cons]%elem_of_cons; done.
  - intros e. vm_compute. discriminate.
Defined.

(** On that manager, where A has used up its three retries and B has failed
    twice: A ends Running with its three retries still counted, B Running
    with none, and C stays Stopped, though it depends on B. *)
Example RestartProcess_after_failure :
  let o := RestartProcess calm "A" exhausted_A in
  (status <$> stateOf "A" o, RetryCount <$> stateOf "A" o) = (Some StatusRunning, Some 3) /\
  (status <$> stateOf "B" o, RetryCount <$> stateOf "B" o) = (Some StatusRunning, Some 0) /\
  status <$> stateOf "C" o = Some StatusStopped.
Proof. vm_compute. done. Qed.

(** *** A monitor that reads the state late

    [stopSingle] ends a child, and the monitor of that child wakes up with
    the one who stopped it; nothing orders what the monitor reads against
    what the stopper writes next. The two theorems below take the run in
    which the monitor reads the state once the operation has returned. *)

(** X10: the mark of [cascadeFailure] does not hold against the monitor of
    a dependent it has stopped. When the monitor of a Running dependent
    [dep] reads the state after [cascadeFailure(name)] has returned, it
    finds [dep] Failed, not Stopped: with a retry left it counts one more
    and schedules it, and [dep] ends Retrying if the context is cancelled
    during the backoff, else Running again (Failed if the spawn fails),
    although [name] has failed. *)
Theorem cascadeFailure_late_monitor (w w1 w2 : World) (pow : float -> float -> float)
    (rnd : float) (cancelled : bool) (name dep : string) (pm : ProcessManager)
    (q : ManagedProcess) :
  (forall n, n ∈ Dependents (mgraph pm) name -> is_Some (processes pm !! n)) ->
  dep ∈ Dependents (mgraph pm) name ->
  processes pm !! dep = Some q ->
  status (state q) = StatusRunning ->
  shouldRetry (RetryCount (state q)) (policyOf pm dep) = true ->
  exists pm1 q1 pm2 q2,
    cascadeFailure w name pm = Return tt pm1 /\
    processes pm1 !! dep = Some q1 /\ status (state q1) = StatusFailed /\
    monitor w1 w2 pow rnd cancelled dep pm1 = Return tt pm2 /\
    processes pm2 = <[dep := q2]> (processes pm1) /\
    RetryCount (state q2) = RetryCount (state q) + 1 /\
    status (state q2)
    = if cancelled then StatusRetrying
      else if spawn w2 dep is SpawnFailed _ then StatusFailed else StatusRunning.
Proof.
  intros Hall Hdep Hq Hs Hretry.
  destruct (cascadeFailure_run w name pm Hall) as (pm1 & Hrun & _ & Hc & Hlook).
  set (q1 := failedBy w name dep q).
  assert (processes pm1 !! dep = Some q1) as Hq1 by (by rewrite Hlook, decide_True, Hq).
  destruct (failedBy_status w name dep q) as (Hs1 & _ & Hc1). fold q1 in Hs1, Hc1.
  assert (policyOf pm1 dep = policyOf pm dep) as Hpol by (unfold policyOf; by rewrite Hc).
  destruct (monitor_retry_run w1 w2 pow rnd cancelled dep pm1 q1 Hq1)
    as (pm2 & Hrun2 & _ & _ & Hprocs).
  { by rewrite Hs1. }
  { by rewrite Hc1, Hpol. }
  exists pm1, q1, pm2. eexists. split; [done|]. split; [done|]. split; [done|].
  split; [done|]. split; [exact Hprocs|].
  destruct (scheduled_state w1 pow rnd (policyOf pm1 dep) q1) as (Hst & Hcount & _).
  destruct cancelled; [by rewrite Hcount, Hc1|].
  destruct (Start_from_retrying (now w2) (spawn w2 dep)
              (scheduled w1 pow rnd (policyOf pm1 dep) q1)) as (Hst' & Hc' & _).
  { by rewrite Hst. }
  by rewrite Hc', Hst', Hcount, Hc1.
Qed.

Lemma cascadeFailure_late_monitor_witness :
  exists pm1 q1 pm2 q2,
    cascadeFailure calm "A" (chain_running elements) = Return tt pm1 /\
    processes pm1 !! "B" = Some q1 /\ status (state q1) = StatusFailed /\
    monitor calm calm retry_spec.powInt 0.5 false "B" pm1 = Return tt pm2 /\
    processes pm2 = <["B" := q2]> (processes pm1) /\
    RetryCount (state q2)
    = RetryCount (state (Start 500 (PtyStarted 77) (NewManagedProcess "B" (proc ["A"]))).1) + 1 /\
    status (state q2)
    = if false then StatusRetrying
      else if spawn calm "B" is SpawnFailed _ then StatusFailed else StatusRunning.
Proof.
  apply (cascadeFailure_late_monitor calm calm calm retry_spec.powInt 0.5 false "A" "B"
           (chain_running elements)).
  - replace (Dependents (mgraph (chain_running elements)) "A") with ["B"; "C"]
      by (by vm_compute).
    intros n [->|[->|?%elem_of_nil]%elem_of_cons]%elem_of_cons; [| |done];
      vm_compute; by eexists.
  - vm_compute. by left.
  - vm_compute. reflexivity.
  - vm_compute. reflexivity.
  - vm_compute. reflexivity.
Defined.

(** X11: a restart does not hold against the monitor of the child it has
    ended. [RestartProcess(name)] on a Running target ends its child and
    starts a new one. When the monitor of the old child reads the state
    after [RestartProcess] has returned, it finds the target Running, not
    Stopped: with a retry left it counts one more and sets the target
    Retrying while the new child runs, and after the backoff it spawns the
    command once more (the target is Running, or Failed if that spawn
    fails; Retrying if the context was cancelled meanwhile). *)
Theorem RestartProcess_late_monitor (w w1 w2 : World) (pow : float -> float -> float)
    (rnd : float) (cancelled : bool) (name : string) (pm : ProcessManager)
    (p : ManagedProcess) :
  (forall n, n = name \/ n ∈ Dependents (mgraph pm) name -> is_Some (processes pm !! n)) ->
  name ∉ Dependents (mgraph pm) name ->
  (forall e, spawn w name <> SpawnFailed e) ->
  processes pm !! name = Some p ->
  status (state p) = StatusRunning ->
  shouldRetry (RetryCount (state p)) (policyOf pm name) = true ->
  exists pm1 p1 pm2 p2,
    RestartProcess w name pm = Return None pm1 /\
    processes pm1 !! name = Some p1 /\ status (state p1) = StatusRunning /\
    monitor w1 w2 pow rnd cancelled name pm1 = Return tt pm2 /\
    processes pm2 = <[name := p2]> (processes pm1) /\
    RetryCount (state p2) = RetryCount (state p) + 1 /\
    status (state p2)
    = if cancelled then StatusRetrying
      else if spawn w2 name is SpawnFailed _ then StatusFailed else StatusRunning.
Proof.
  intros Hall Hself Hspawn Hp Hs Hretry.
  destruct (RestartProcess_run w name pm Hall Hself Hspawn) as (pm1 & Hrun & Hlook).
  pose proof (keeps_shape_run _ _ _ _ (shape_RestartProcess w ∅ name) Hrun) as [_ Hc _].
  set (p1 := (Start (now w) (spawn w name) (stoppedBy w name p)).1).
  assert (processes pm1 !! name = Some p1) as Hp1 by (by rewrite Hlook, decide_True, Hp).
  assert (status (state (stoppedBy w name p)) <> StatusRunning) as Hns.
  { intros Hr. apply (stoppedBy_not_live w name p). by left. }
  destruct (Start_spawned (now w) (spawn w name) _ Hns Hspawn) as [Hs1 Hc1].
  fold p1 in Hs1, Hc1. rewrite stoppedBy_retry in Hc1.
  assert (policyOf pm1 name = policyOf pm name) as Hpol by (unfold policyOf; by rewrite Hc).
  destruct (monitor_retry_run w1 w2 pow rnd cancelled name pm1 p1 Hp1)
    as (pm2 & Hrun2 & _ & _ & Hprocs).
  { by rewrite Hs1. }
  { by rewrite Hc1, Hpol. }
  exists pm1, p1, pm2. eexists. split; [done|]. split; [done|]. split; [done|].
  split; [done|]. split; [exact Hprocs|].
  destruct (scheduled_state w1 pow rnd (policyOf pm1 name) p1) as (Hst & Hcount & _).
  destruct cancelled; [by rewrite Hcount, Hc1|].
  destruct (Start_from_retrying (now w2) (spawn w2 name)
              (scheduled w1 pow rnd (policyOf pm1 name) p1)) as (Hst' & Hc' & _).
  { by rewrite Hst. }
  by rewrite Hc', Hst', Hcount, Hc1.
Qed.

Lemma RestartProcess_late_monitor_witness :
  exists pm1 p1 pm2 p2,
    RestartProcess calm "A" (chain_running elements) = Return None pm1 /\
    processes pm1 !! "A" = Some p1 /\ status (state p1) = StatusRunning /\
    monitor calm calm retry_spec.powInt 0.5 true "A" pm1 = Return tt pm2 /\
    processes pm2 = <["A" := p2]> (processes pm1) /\
    RetryCount (state p2)
    = RetryCount (state (Start 500 (PtyStarted 77) (NewManagedProcess "A" (proc []))).1) + 1 /\
    status (state p2)
    = if true then StatusRetrying
      else if spawn calm "A" is SpawnFailed _ then StatusFailed else StatusRunning.
Proof.
  apply (RestartProcess_late_monitor calm calm calm retry_spec.powInt 0.5 true "A"
           (chain_running elements)).
  - replace (Dependents (mgraph (chain_running elements)) "A") with ["B"; "C"]
      by (by vm_compute).
    intros n [->|[->|[->|?%elem_of_nil]%elem_of_cons]%elem_of_cons];
      [| | |done]; vm_compute; by eexists.
  - replace (Dependents (mgraph (chain_running elements)) "A") with ["B"; "C"]
      by (by vm_compute).
    intros [?|[?|?%elem_of_nil]%elem_of_cons]%elem_of_cons; done.
  - intros e. vm_compute. discriminate.
  - vm_compute. reflexivity.
  - vm_compute. reflexivity.
  - vm_compute. reflexivity.
Defined.

(** The two runs in the chain with A, B and C Running: after the cascade
    from A and the late monitor of B, B runs again with one retry counted;
    after the restart of A and the late monitor of its old child, A has been
    set Running twice. *)
Example late_monitor_chain :
  let o1 := (cascadeFailure calm "A";; monitor calm calm retry_spec.powInt 0.5 false "B")
              (chain_running elements) in
  let o2 := (RestartProcess calm "A";; monitor calm calm retry_spec.powInt 0.5 false "A")
              (chain_running elements) in
  (status <$> stateOf "B" o1, RetryCount <$> stateOf "B" o1) = (Some StatusRunning, Some 1) /\
  (status <$> stateOf "A" o2, RetryCount <$> stateOf "A" o2) = (Some StatusRunning, Some 1) /\
  filter (fun e => e.1.1 = "A") (eventsOf o2)
  = [("A", StatusRunning, StatusStopped); ("A", StatusStopped, StatusRunning);
     ("A", StatusFailed, StatusRetrying); ("A", StatusRetrying, StatusRunning)].
Proof. vm_compute. done. Qed.

End manager_props.
(** ** The validation of a catalog *)

Module config_check_spec.
Import config graph config_check graph_spec graph_claims graph_props validate_spec.
Local Open Scope nat_scope.

(** The catalog without the dependencies on names it does not define. *)
Definition defined (cfg : Config) (d : string) : Prop := is_Some (Processes cfg !! d).

Global Instance defined_dec cfg d : Decision (defined cfg d).
Proof. unfold defined. apply _. Defined.

Definition pruneProcess (cfg : Config) (p : Process) : Process :=
  {| Command := Command p; DependsOn := filter (defined cfg) (DependsOn p);
     Retry := Retry p |}.

Definition prune (cfg : Config) : Config :=
  {| Processes := pruneProcess cfg <$> Processes cfg |}.

Lemma prune_dom cfg : dom (Processes (prune cfg)) = dom (Processes cfg).
Proof. unfold prune. simpl. apply dom_fmap_L. Qed.

Lemma prune_deps cfg n :
  from_option DependsOn [] (Processes (prune cfg) !! n)
  = filter (defined cfg) (from_option DependsOn [] (Processes cfg !! n)).
Proof.
  unfold prune. simpl. rewrite lookup_fmap. by destruct (Processes cfg !! n).
Qed.

Lemma prune_dependsOn cfg x y :
  dependsOn (prune cfg) x y <-> dependsOn cfg x y /\ defined cfg y.
Proof.
  unfold dependsOn, depsOf. rewrite prune_deps, list_elem_of_filter. tauto.
Qed.

Lemma prune_defined cfg : deps_defined (prune cfg).
Proof.
  intros x y [_ Hy]%prune_dependsOn. rewrite prune_dom. by apply elem_of_dom.
Qed.

(** A cycle only passes through defined processes. *)
Lemma prune_acyclic cfg : acyclic (prune cfg) <-> acyclic cfg.
Proof.
  assert (forall x y, tc (dependsOn (prune cfg)) x y -> tc (dependsOn cfg) x y) as Hdown.
  { intros x y H. induction H as [x y H|x y z H _ IH].
    - apply tc_once. by apply prune_dependsOn in H as [? _].
    - eapply tc_l; [|exact IH]. by apply prune_dependsOn in H as [? _]. }
  assert (forall x y, tc (dependsOn cfg) x y -> defined cfg y ->
            tc (dependsOn (prune cfg)) x y) as Hup.
  { intros x y H. induction H as [x y H|x y z H Hyz IH]; intros Hdef.
    - apply tc_once. by apply prune_dependsOn.
    - eapply tc_l; [|by apply IH]. apply prune_dependsOn. split; [done|].
      apply elem_of_dom. destruct Hyz as [y z Hyz|y w z Hyz _]; by eapply depsOf_known. }
  split.
  - intros Hac x Hx. apply (Hac x), Hup; [done|].
    apply elem_of_dom. inversion Hx; subst; by eapply depsOf_known.
  - intros Hac x Hx. by apply (Hac x), Hdown.
Qed.

(** *** The maps [detectCycles] builds *)

Definition countDefined (name : string)
    (st : gmap string Z * gmap string (list string)) (dep : string)
    : gmap string Z * gmap string (list string) :=
  (<[name := (default 0 (st.1 !! name) + 1)%Z]> st.1,
   <[dep := edges st.2 dep ++ [name]]> st.2).

Lemma countDependency_filter (procs : gmap string Process) name (deps : list string) :
  forall st,
    foldl (countDependency procs name) st deps
    = foldl (countDefined name) st (filter (fun d => is_Some (procs !! d)) deps).
Proof.
  induction deps as [|d deps IH]; intros st; [done|].
  rewrite filter_cons. cbn [foldl]. unfold countDependency at 2.
  destruct (decide (is_Some (procs !! d))); cbn [foldl]; by rewrite IH.
Qed.

Lemma countDefined_fold name (ds : list string) : forall st c,
  st.1 !! name = Some c ->
  foldl (countDefined name) st ds
  = (<[name := (c + Z.of_nat (length ds))%Z]> st.1,
     foldl (fun r dep => <[dep := edges r dep ++ [name]]> r) st.2 ds).
Proof.
  induction ds as [|d ds IH]; intros [deg r] c Hc; simpl in *.
  - f_equal. rewrite Z.add_0_r. by rewrite insert_id.
  - rewrite (IH _ (c + 1)%Z).
    + simpl. rewrite insert_insert_eq. f_equal. f_equal. lia.
    + simpl. rewrite Hc. simpl. by rewrite lookup_insert_eq.
Qed.

Section built.
Variable rangeKeys : gset string -> list string.
Hypothesis rangeKeys_fair : fair_range rangeKeys.
Variable cfg : Config.

Local Abbreviation procs := (Processes cfg).
Local Abbreviation pruned := (NewDependencyGraph rangeKeys (prune cfg)).

Definition countProcess (st : gmap string Z * gmap string (list string)) (name : string)
    : gmap string Z * gmap string (list string) :=
  foldl (countDependency procs name) st (from_option DependsOn [] (procs !! name)).

Lemma countProcess_eq st name c :
  st.1 !! name = Some c ->
  countProcess st name
  = (<[name := (c + Z.of_nat (length (depsOf (prune cfg) name)))%Z]> st.1,
     reverse (addProcess (Processes (prune cfg))
                {| forward := ∅; reverse := st.2; nodes := ∅ |} name)).
Proof.
  intros Hc. unfold countProcess. rewrite countDependency_filter.
  rewrite (countDefined_fold name _ st c Hc). unfold depsOf, addProcess.
  rewrite !prune_deps. reflexivity.
Qed.

Lemma addProcess_reverse (ps : gmap string Process) (g1 g2 : DependencyGraph) name :
  reverse g1 = reverse g2 ->
  reverse (addProcess ps g1 name) = reverse (addProcess ps g2 name).
Proof. unfold addProcess. simpl. by intros ->. Qed.

Lemma countProcess_fold (l : list string) : forall st g,
  NoDup l -> (forall n, n ∈ l -> st.1 !! n = Some 0%Z) -> reverse g = st.2 ->
  let st' := foldl countProcess st l in
  (forall n, st'.1 !! n
             = if decide (n ∈ l) then Some (Z.of_nat (length (depsOf (prune cfg) n)))
               else st.1 !! n) /\
  st'.2 = reverse (foldl (addProcess (Processes (prune cfg))) g l).
Proof.
  induction l as [|x l IH]; intros st g Hnd Hzero Hrev; cbn [foldl].
  { split; [|done]. intros n. rewrite decide_False; [done|]. by intros ?%elem_of_nil. }
  apply NoDup_cons in Hnd as [Hx Hnd].
  pose proof (countProcess_eq st x 0%Z (Hzero x ltac:(by left))) as Hstep.
  destruct (IH (countProcess st x) (addProcess (Processes (prune cfg)) g x) Hnd)
    as [Hdeg Hdep].
  - intros n Hn. rewrite Hstep. cbn [fst snd].
    rewrite lookup_insert_ne by (by intros ->). apply Hzero. by right.
  - rewrite Hstep. cbn [fst snd]. apply addProcess_reverse. by rewrite Hrev.
  - split; [|done]. intros n. rewrite Hdeg. destruct (decide (n ∈ l)) as [Hin|Hnin].
    + by rewrite decide_True by (by right).
    + rewrite Hstep. cbn [fst snd]. destruct (decide (n = x)) as [->|Hne].
      * rewrite lookup_insert_eq, decide_True by (by left). by rewrite Z.add_0_l.
      * rewrite lookup_insert_ne by done. rewrite decide_False; [done|].
        by intros [?|?]%elem_of_cons.
Qed.

Lemma cycleLoop_validateLoop (g : DependencyGraph) (fuel : nat) :
  forall deg queue visited,
    cycleLoop (reverse g) fuel deg queue visited = validateLoop g fuel deg queue visited.
Proof.
  induction fuel as [|fuel IH]; intros deg [|node queue] visited; try done.
  simpl. apply IH.
Qed.

(** [detectCycles] runs [Validate] on the graph of the catalog without its
    undefined dependencies. *)
Lemma detectCycles_Validate :
  detectCycles rangeKeys cfg = graph.Validate rangeKeys pruned.
Proof using rangeKeys_fair.
  set (l := rangeKeys (dom procs)).
  set (deg0 := foldl (fun deg name => <[name := 0%Z]> deg) (∅ : gmap string Z) l).
  assert (NoDup l) as Hnd by apply (rangeKeys_NoDup rangeKeys rangeKeys_fair).
  destruct (countProcess_fold l (deg0, ∅) emptyGraph Hnd) as [Hdeg Hdep]; [|done|].
  { intros n Hn. unfold deg0. simpl.
    by rewrite (foldl_insert_lookup (fun _ => 0%Z)), decide_True. }
  simpl in Hdeg, Hdep.
  assert (nodes pruned = dom procs) as Hnodes.
  { by rewrite (built_nodes rangeKeys rangeKeys_fair), prune_dom. }
  assert ((foldl countProcess (deg0, ∅) l).1 = vDegree0 rangeKeys (prune cfg)) as Hdeg'.
  { apply map_eq. intros n. rewrite Hdeg, (vDegree0_lookup rangeKeys rangeKeys_fair).
    rewrite Hnodes, (built_forward rangeKeys rangeKeys_fair).
    destruct (decide (n ∈ l)) as [Hin|Hnin].
    - by rewrite decide_True by (by apply (rangeKeys_elem rangeKeys rangeKeys_fair) in Hin).
    - rewrite decide_False by (by rewrite <- (rangeKeys_elem rangeKeys rangeKeys_fair)).
      unfold deg0. by rewrite (foldl_insert_lookup (fun _ => 0%Z)), decide_False. }
  assert ((foldl countProcess (deg0, ∅) l).2 = reverse pruned) as Hdep'.
  { rewrite Hdep. unfold NewDependencyGraph. by rewrite prune_dom. }
  unfold detectCycles, graph.Validate. fold l. fold deg0.
  change (foldl (fun st name => foldl (countDependency procs name) st
                   (from_option DependsOn [] (procs !! name))) (deg0, ∅) l)
    with (foldl countProcess (deg0, ∅) l).
  rewrite Hdeg', Hdep', cycleLoop_validateLoop.
  replace (size procs) with (size (nodes pruned)) by (by rewrite Hnodes, size_dom).
  reflexivity.
Qed.

End built.

End config_check_spec.

Module config_check_props.
Import config graph config_check graph_spec graph_claims graph_props validate_spec
       validate_props config_check_spec.
Local Open Scope nat_scope.

(** X26: [detectCycles] returns [nil] exactly when the catalog has no
    dependency cycle; a dependency on a name the catalog does not define
    plays no part in it. It returns [nil] or the cycle error, nothing else;
    the names the error lists are catalog processes, the list is not empty
    and has no repetition, and every listed process depends on a listed
    process. *)
Theorem detectCycles_spec (rangeKeys : gset string -> list string) (cfg : Config) :
  fair_range rangeKeys ->
  (detectCycles rangeKeys cfg = Valid <-> acyclic cfg) /\
  (detectCycles rangeKeys cfg = Valid \/
   exists l, detectCycles rangeKeys cfg = CycleInvolving l /\
     l <> [] /\ NoDup l /\
     forall n, n ∈ l ->
       n ∈ dom (Processes cfg) /\ exists d, dependsOn cfg n d /\ d ∈ l).
Proof.
  intros Hfair. rewrite (detectCycles_Validate rangeKeys Hfair cfg).
  destruct (validate_result rangeKeys Hfair (prune cfg)) as (deg & order & Hrun & Hinv).
  rewrite (Validate_unfold rangeKeys (prune cfg) deg order Hrun).
  rewrite <- prune_acyclic.
  pose proof (visited_all_iff rangeKeys Hfair (prune cfg) deg order Hinv) as Hiff.
  destruct (decide _) as [Hlen|Hlen].
  { split; [|by left]. split; [intros _; by apply Hiff|done]. }
  split.
  { split; [done|]. intros Hac. exfalso. apply Hlen, Hiff.
    split; [done|apply prune_defined]. }
  right.
  destruct (cycleNodes_spec rangeKeys Hfair (prune cfg) deg order Hinv Hlen)
    as (Hne & Hnd & Hl).
  eexists. split; [done|]. split; [done|]. split; [done|].
  intros n Hn. destruct (Hl n Hn) as (Hdom & d & Hd & Hin).
  rewrite prune_dom in Hdom. split; [done|].
  apply prune_dependsOn in Hd as [Hd Hdef]. exists d. split; [done|].
  destruct Hin as [|Hno]; [done|]. exfalso. apply Hno. rewrite prune_dom.
  by apply elem_of_dom.
Qed.

Lemma detectCycles_spec_witness :
  (detectCycles elements cycle3 = Valid <-> acyclic cycle3) /\
  (detectCycles elements cycle3 = Valid \/
   exists l, detectCycles elements cycle3 = CycleInvolving l /\
     l <> [] /\ NoDup l /\
     forall n, n ∈ l ->
       n ∈ dom (Processes cycle3) /\ exists d, dependsOn cycle3 n d /\ d ∈ l).
Proof. apply (detectCycles_spec elements cycle3). exact elements_fair. Defined.

Lemma filter_all {A} (P : A -> Prop) `{forall x, Decision (P x)} (l : list A) :
  Forall P l -> filter P l = l.
Proof.
  induction 1 as [|x l Hx _ IH]; [done|]. by rewrite filter_cons_True, IH.
Qed.

Lemma prune_id (cfg : Config) : deps_defined cfg -> prune cfg = cfg.
Proof.
  intros Hdef. destruct cfg as [procs]. unfold prune. simpl. f_equal.
  apply map_eq. intros n. rewrite lookup_fmap.
  destruct (procs !! n) as [p|] eqn:Hp; [|done]. simpl. f_equal.
  destruct p as [c deps r]. unfold pruneProcess. simpl. f_equal.
  apply filter_all. apply Forall_forall. intros d Hd. unfold defined. simpl.
  apply elem_of_dom. apply (Hdef n d). unfold dependsOn, depsOf. simpl. by rewrite Hp.
Qed.

(** X27: on a catalog in which every dependency names a process of the
    catalog, [detectCycles] and [Validate] on the graph of the catalog
    agree, each ranging over its maps in an order of its own: both return
    [nil] or both return the cycle error, and the two errors list the same
    names, each once; the order of the names may differ. *)
Theorem detectCycles_agrees (configKeys graphKeys : gset string -> list string)
    (cfg : Config) :
  fair_range configKeys -> fair_range graphKeys ->
  (forall x y, dependsOn cfg x y -> y ∈ dom (Processes cfg)) ->
  let g := NewDependencyGraph graphKeys cfg in
  (detectCycles configKeys cfg = Valid <-> graph.Validate graphKeys g = Valid) /\
  ((exists l, detectCycles configKeys cfg = CycleInvolving l) <->
   (exists l, graph.Validate graphKeys g = CycleInvolving l)) /\
  (forall l1 l2, detectCycles configKeys cfg = CycleInvolving l1 ->
     graph.Validate graphKeys g = CycleInvolving l2 -> l1 ≡ₚ l2).
Proof.
  intros Hconfig Hgraph Hdef g.
  pose proof (detectCycles_Validate configKeys Hconfig cfg) as Hd.
  rewrite (prune_id cfg Hdef) in Hd.
  assert (forall rk, fair_range rk ->
            (graph.Validate rk (NewDependencyGraph rk cfg) = Valid <-> acyclic cfg) /\
            (graph.Validate rk (NewDependencyGraph rk cfg) = Valid \/
             exists l, graph.Validate rk (NewDependencyGraph rk cfg) = CycleInvolving l))
    as Hboth.
  { intros rk Hrk.
    destruct (validate_result rk Hrk cfg) as (deg & order & Hrun & Hinv).
    rewrite (Validate_unfold rk cfg deg order Hrun).
    pose proof (visited_all_iff rk Hrk cfg deg order Hinv) as Hiff.
    destruct (decide _) as [Hlen|Hlen].
    - split; [|by left]. split; [intros _; by apply Hiff|done].
    - split; [|right; by eexists]. split; [done|]. intros Hac. exfalso.
      apply Hlen, Hiff. by split. }
  destruct (Hboth configKeys Hconfig) as [Hv1 Hc1].
  destruct (Hboth graphKeys Hgraph) as [Hv2 Hc2]. fold g in Hv2, Hc2.
  rewrite Hd. split; [by rewrite Hv1, Hv2|]. split.
  - split; intros [l Hl].
    + destruct Hc2 as [Hok|?]; [|done]. apply Hv2, Hv1 in Hok. congruence.
    + destruct Hc1 as [Hok|?]; [|done]. apply Hv1, Hv2 in Hok. congruence.
  - intros l1 l2 H1 H2.
    destruct (Validate_listed configKeys cfg l1 Hconfig H1) as [Hnd1 Hl1].
    destruct (Validate_listed graphKeys cfg l2 Hgraph H2) as [Hnd2 Hl2].
    apply NoDup_Permutation; [done|done|]. intros n. by rewrite Hl1, Hl2.
Qed.

Lemma detectCycles_agrees_witness :
  let g := NewDependencyGraph stop_order_claims.backwards cycle3 in
  (detectCycles elements cycle3 = Valid
   <-> graph.Validate stop_order_claims.backwards g = Valid) /\
  ((exists l, detectCycles elements cycle3 = CycleInvolving l) <->
   (exists l, graph.Validate stop_order_claims.backwards g = CycleInvolving l)) /\
  (forall l1 l2, detectCycles elements cycle3 = CycleInvolving l1 ->
     graph.Validate stop_order_claims.backwards g = CycleInvolving l2 -> l1 ≡ₚ l2).
Proof.
  apply (detectCycles_agrees elements stop_order_claims.backwards cycle3).
  - exact elements_fair.
  - exact stop_order_claims.backwards_fair.
  - apply manager_props.defined_by_check. vm_compute. reflexivity.
Defined.

(** The two errors on the cycle of three, under two orders. *)
Example detectCycles_orders :
  detectCycles elements cycle3 = CycleInvolving ["C"; "A"; "B"] /\
  graph.Validate stop_order_claims.backwards
    (NewDependencyGraph stop_order_claims.backwards cycle3)
  = CycleInvolving ["B"; "A"; "C"].
Proof. split; by vm_compute. Qed.

(** The two differ on a dependency that is not defined: [detectCycles]
    passes it, as the check of the references reports it, [Validate] calls
    it a cycle. *)
Example detectCycles_dangling :
  detectCycles elements dangling = Valid /\
  graph.Validate elements (NewDependencyGraph elements dangling)
  = CycleInvolving ["A"; "B"].
Proof. vm_compute. done. Qed.

End config_check_props.
(** ** The validation of a configuration *)

Module config_validate_spec.
Import config retry graph config_check graph_spec graph_claims graph_props validate_spec
       retry_spec config_check_spec.
Local Open Scope nat_scope.

(** *** Loops that only append *)

Lemma foldl_grow {A B} (step : list B -> A -> list B) (h : A -> list B) :
  (forall errs x, step errs x = errs ++ h x) ->
  forall l errs, foldl step errs l = errs ++ concat (h <$> l).
Proof.
  intros Hstep. induction l as [|x l IH]; intros errs; csimpl.
  - by rewrite app_nil_r.
  - by rewrite IH, Hstep, <- app_assoc.
Qed.

Lemma concat_fmap_nil {A B} (h : A -> list B) (l : list A) :
  concat (h <$> l) = [] <-> forall x, x ∈ l -> h x = [].
Proof.
  induction l as [|x l IH]; csimpl.
  - split; [by intros _ x ?%elem_of_nil|done].
  - split.
    + intros [Hx Hl]%app_eq_nil y [->|Hy]%elem_of_cons; [done|]. by apply IH.
    + intros H. rewrite (H x) by (by left). csimpl. apply IH. intros y Hy. apply H. by right.
Qed.

Lemma app_nil_iff {A} (l1 l2 : list A) : l1 ++ l2 = [] <-> l1 = [] /\ l2 = [].
Proof. split; [apply app_eq_nil|]. by intros [-> ->]. Qed.

Lemma concat_fmap_ext {A B} (f g : A -> list B) (l : list A) :
  (forall x, x ∈ l -> f x = g x) -> concat (f <$> l) = concat (g <$> l).
Proof.
  induction l as [|x l IH]; intros H; [done|]. csimpl.
  rewrite (H x) by (by left). rewrite IH; [done|]. intros y Hy. apply H. by right.
Qed.

(** *** The names *)

Definition clash (kind : string) (names : gmap string string) (n : string)
    : list problem :=
  match names !! n with
  | Some existing => [NameClash n existing kind]
  | None => []
  end.

Definition named (kind : string) (names : gmap string string) (l : list string)
    : gmap string string :=
  foldl (fun m n => <[n := kind]> m) names l.

Lemma named_lookup kind (l : list string) : forall names n,
  named kind names l !! n = if decide (n ∈ l) then Some kind else names !! n.
Proof.
  unfold named. induction l as [|x l IH]; intros names n; cbn [foldl].
  { rewrite decide_False; [done|]. by intros ?%elem_of_nil. }
  rewrite IH. destruct (decide (n ∈ l)) as [Hin|Hnin].
  - by rewrite decide_True by (by right).
  - destruct (decide (n = x)) as [->|Hne].
    + rewrite lookup_insert_eq. by rewrite decide_True by (by left).
    + rewrite lookup_insert_ne by done. rewrite decide_False; [done|].
      by intros [?|?]%elem_of_cons.
Qed.

Lemma noteName_fold kind (l : list string) : forall st,
  NoDup l ->
  foldl (noteName kind) st l
  = (st.1 ++ concat (clash kind st.2 <$> l), named kind st.2 l).
Proof.
  induction l as [|x l IH]; intros [errs names] Hnd; csimpl.
  { by rewrite app_nil_r. }
  apply NoDup_cons in Hnd as [Hx Hnd]. rewrite IH by done. csimpl. f_equal.
  rewrite (concat_fmap_ext (clash kind (<[x:=kind]> names)) (clash kind names)).
  2:{ intros n Hn. unfold clash. rewrite lookup_insert_ne; [done|]. by intros ->. }
  unfold clash at 2. destruct (names !! x); [by rewrite <- app_assoc|done].
Qed.

(** *** The checks of one process *)

Lemma checkProcess_grow errs n p : checkProcess errs n p = errs ++ checkProcess [] n p.
Proof.
  unfold checkProcess.
  destruct (Enabled (Retry p)), (InitialBackoff (Retry p) <=? 0)%Z,
    (MaxBackoff (Retry p) <=? 0)%Z, (MaxBackoff (Retry p) <? InitialBackoff (Retry p))%Z,
    (BackoffMultiplier (Retry p) <? 1)%float, (decide (Command p = ""));
    simpl; rewrite <- ?app_assoc; simpl; by rewrite ?app_nil_r.
Qed.

(** What [Validate] asks of an enabled retry policy. The multiplier has to
    be not below 1, which a NaN is not: [Validate] lets it pass. *)
Definition accepted_policy (cfg : RetryConfig) : Prop :=
  (0 < InitialBackoff cfg)%Z /\ (InitialBackoff cfg <= MaxBackoff cfg)%Z /\
  (BackoffMultiplier cfg <? 1)%float = false.

Lemma checkProcess_nil n p :
  checkProcess [] n p = [] <->
  Command p <> "" /\ (Enabled (Retry p) = true -> accepted_policy (Retry p)).
Proof.
  unfold checkProcess, accepted_policy.
  destruct (Enabled (Retry p)).
  2:{ destruct (decide (Command p = "")); simpl; split; try done; by intros [? _]. }
  destruct (Z.leb_spec (InitialBackoff (Retry p)) 0),
    (Z.leb_spec (MaxBackoff (Retry p)) 0),
    (Z.ltb_spec (MaxBackoff (Retry p)) (InitialBackoff (Retry p))),
    (BackoffMultiplier (Retry p) <? 1)%float eqn:Hm,
    (decide (Command p = "")); simpl;
    (split; [try done; intros _|]);
    try (intros [Hc Hv]; try done; destruct (Hv eq_refl) as (? & ? & Hq);
         try lia; congruence).
Qed.

(** *** [Validate], piece by piece *)

Section pieces.
Variable rangeKeys : gset string -> list string.
Hypothesis rangeKeys_fair : fair_range rangeKeys.
Variable cfg : ConfigFile.

Local Abbreviation procs := (Processes (Catalog cfg)).
Local Abbreviation stacks := (rangeKeys (dom (Stacks cfg))).
Local Abbreviation groups := (rangeKeys (dom (Groups cfg))).
Local Abbreviation names := (rangeKeys (dom procs)).

Definition stackNames : gmap string string := named "stack" ∅ stacks.
Definition groupNames : gmap string string := named "group" stackNames groups.

Definition nameErrs : list problem :=
  concat (clash "stack" ∅ <$> stacks) ++ concat (clash "group" stackNames <$> groups)
  ++ concat (clash "process" groupNames <$> names).

Definition stackErrs : list problem :=
  concat ((fun s => concat ((fun g => if decide (is_Some (Groups cfg !! g)) then []
                                      else [UndefinedGroup s g])
                            <$> from_option StackGroups [] (Stacks cfg !! s))) <$> stacks).

Definition groupErrs : list problem :=
  concat ((fun g => concat ((fun p => if decide (is_Some (procs !! p)) then []
                                      else [UndefinedProcess g p])
                            <$> from_option GroupProcesses [] (Groups cfg !! g))) <$> groups).

Definition depErrs : list problem :=
  concat ((fun n => concat ((fun d => (if decide (is_Some (procs !! d)) then []
                                       else [UndefinedDependency n d])
                                      ++ (if decide (d = n) then [SelfDependency n] else []))
                            <$> from_option DependsOn [] (procs !! n))) <$> names).

Definition procErrs : list problem :=
  concat ((fun n => match procs !! n with
                    | Some p => checkProcess [] n p
                    | None => []
                    end) <$> names).

Definition cycleErrs : list problem :=
  match detectCycles rangeKeys (Catalog cfg) with
  | Valid => []
  | CycleInvolving l => [CycleDetected l]
  | ValidateFuel => [CheckOutOfFuel]
  end.

Lemma Validate_pieces :
  config_check.Validate rangeKeys cfg
  = nameErrs ++ stackErrs ++ groupErrs ++ depErrs ++ procErrs ++ cycleErrs.
Proof using rangeKeys_fair.
  unfold config_check.Validate.
  rewrite !noteName_fold by apply (rangeKeys_NoDup rangeKeys rangeKeys_fair).
  cbn [fst snd]. fold stackNames. fold groupNames.
  rewrite (foldl_grow _ (fun n => match procs !! n with
                                  | Some p => checkProcess [] n p
                                  | None => []
                                  end)).
  2:{ intros errs n. destruct (procs !! n); [apply checkProcess_grow|by rewrite app_nil_r]. }
  rewrite (foldl_grow _ (fun n => concat ((fun d =>
             (if decide (is_Some (procs !! d)) then [] else [UndefinedDependency n d])
             ++ (if decide (d = n) then [SelfDependency n] else []))
             <$> from_option DependsOn [] (procs !! n)))).
  2:{ intros errs n. apply foldl_grow. intros errs' d.
      destruct (decide (is_Some _)), (decide (d = n)); simpl;
        rewrite <- ?app_assoc; simpl; by rewrite ?app_nil_r. }
  rewrite (foldl_grow _ (fun g => concat ((fun p =>
             if decide (is_Some (procs !! p)) then [] else [UndefinedProcess g p])
             <$> from_option GroupProcesses [] (Groups cfg !! g)))).
  2:{ intros errs g. apply foldl_grow. intros errs' p.
      destruct (decide _); [by rewrite app_nil_r|done]. }
  rewrite (foldl_grow _ (fun s => concat ((fun g =>
             if decide (is_Some (Groups cfg !! g)) then [] else [UndefinedGroup s g])
             <$> from_option StackGroups [] (Stacks cfg !! s)))).
  2:{ intros errs s. apply foldl_grow. intros errs' g.
      destruct (decide _); [by rewrite app_nil_r|done]. }
  fold stackErrs groupErrs depErrs procErrs.
  unfold cycleErrs, nameErrs. simpl.
  destruct (detectCycles rangeKeys (Catalog cfg)); rewrite <- ?app_assoc; simpl;
    by rewrite ?app_nil_r.
Qed.

Lemma stackNames_lookup n :
  stackNames !! n = if decide (n ∈ dom (Stacks cfg)) then Some "stack" else None.
Proof using rangeKeys_fair.
  unfold stackNames. rewrite named_lookup, lookup_empty.
  destruct (decide (n ∈ stacks)) as [Hin|Hnin].
  - by rewrite decide_True by (by apply (rangeKeys_elem rangeKeys rangeKeys_fair) in Hin).
  - by rewrite decide_False by (by rewrite <- (rangeKeys_elem rangeKeys rangeKeys_fair)).
Qed.

Lemma groupNames_none n :
  groupNames !! n = None <-> (n ∉ dom (Stacks cfg)) /\ (n ∉ dom (Groups cfg)).
Proof using rangeKeys_fair.
  unfold groupNames. rewrite named_lookup, stackNames_lookup.
  rewrite <- (rangeKeys_elem rangeKeys rangeKeys_fair (dom (Groups cfg))).
  destruct (decide (n ∈ groups)), (decide (n ∈ dom (Stacks cfg))); split; try done; tauto.
Qed.

Lemma nameErrs_nil :
  nameErrs = [] <->
  (forall n, n ∈ dom (Groups cfg) -> n ∉ dom (Stacks cfg)) /\
  (forall n, n ∈ dom procs -> (n ∉ dom (Stacks cfg)) /\ (n ∉ dom (Groups cfg))).
Proof using rangeKeys_fair.
  unfold nameErrs. rewrite !app_nil_iff, !concat_fmap_nil.
  assert (forall kind m n, clash kind m n = [] <-> m !! n = None) as Hclash.
  { intros kind m n. unfold clash. by destruct (m !! n). }
  split.
  - intros (_ & Hg & Hp). split.
    + intros n Hn Hs. apply (rangeKeys_elem rangeKeys rangeKeys_fair) in Hn.
      specialize (Hg n Hn). apply Hclash in Hg. rewrite stackNames_lookup in Hg.
      by rewrite decide_True in Hg.
    + intros n Hn. apply (rangeKeys_elem rangeKeys rangeKeys_fair) in Hn.
      specialize (Hp n Hn). by apply Hclash, groupNames_none in Hp.
  - intros [Hg Hp]. split; [|split].
    + intros n _. by apply Hclash.
    + intros n Hn. apply Hclash. rewrite stackNames_lookup, decide_False; [done|].
      apply Hg. by apply (rangeKeys_elem rangeKeys rangeKeys_fair).
    + intros n Hn. apply Hclash, groupNames_none, Hp.
      by apply (rangeKeys_elem rangeKeys rangeKeys_fair).
Qed.

Lemma stackErrs_nil :
  stackErrs = [] <->
  forall s st g, Stacks cfg !! s = Some st -> g ∈ StackGroups st ->
    is_Some (Groups cfg !! g).
Proof using rangeKeys_fair.
  unfold stackErrs. rewrite concat_fmap_nil. split.
  - intros H s st g Hs Hg.
    specialize (H s). rewrite (rangeKeys_elem rangeKeys rangeKeys_fair), elem_of_dom in H.
    specialize (H ltac:(by eexists)). rewrite concat_fmap_nil in H.
    rewrite Hs in H. specialize (H g Hg). by destruct (decide _).
  - intros H s Hs. apply concat_fmap_nil. intros g Hg.
    destruct (Stacks cfg !! s) as [st|] eqn:Hst; [|by apply elem_of_nil in Hg].
    rewrite decide_True; [done|]. by eapply H.
Qed.

Lemma groupErrs_nil :
  groupErrs = [] <->
  forall g gr p, Groups cfg !! g = Some gr -> p ∈ GroupProcesses gr ->
    is_Some (procs !! p).
Proof using rangeKeys_fair.
  unfold groupErrs. rewrite concat_fmap_nil. split.
  - intros H g gr p Hg Hp.
    specialize (H g). rewrite (rangeKeys_elem rangeKeys rangeKeys_fair), elem_of_dom in H.
    specialize (H ltac:(by eexists)). rewrite concat_fmap_nil in H.
    rewrite Hg in H. specialize (H p Hp). by destruct (decide _).
  - intros H g Hg. apply concat_fmap_nil. intros p Hp.
    destruct (Groups cfg !! g) as [gr|] eqn:Hgr; [|by apply elem_of_nil in Hp].
    rewrite decide_True; [done|]. by eapply H.
Qed.

Lemma depErrs_nil :
  depErrs = [] <->
  forall x y, dependsOn (Catalog cfg) x y -> y ∈ dom procs /\ y <> x.
Proof using rangeKeys_fair.
  unfold depErrs. rewrite concat_fmap_nil. split.
  - intros H x y Hxy. pose proof (depsOf_known _ _ _ Hxy) as Hx.
    specialize (H x). rewrite (rangeKeys_elem rangeKeys rangeKeys_fair) in H.
    specialize (H Hx). rewrite concat_fmap_nil in H. specialize (H y Hxy).
    apply app_eq_nil in H as [H1 H2].
    destruct (decide (is_Some _)) as [Hs|]; [|done].
    destruct (decide (y = x)); [done|]. split; [by apply elem_of_dom|done].
  - intros H x Hx. apply concat_fmap_nil. intros y Hy.
    destruct (H x y Hy) as [Hdom Hne].
    rewrite decide_True by (by apply elem_of_dom). by rewrite decide_False.
Qed.

Lemma procErrs_nil :
  procErrs = [] <->
  forall n p, procs !! n = Some p ->
    Command p <> "" /\ (Enabled (Retry p) = true -> accepted_policy (Retry p)).
Proof using rangeKeys_fair.
  unfold procErrs. rewrite concat_fmap_nil. split.
  - intros H n p Hp. specialize (H n).
    rewrite (rangeKeys_elem rangeKeys rangeKeys_fair), elem_of_dom, Hp in H.
    apply (checkProcess_nil n p), H. by eexists.
  - intros H n Hn. destruct (procs !! n) as [p|] eqn:Hp; [|done].
    apply (checkProcess_nil n p). by apply (H n).
Qed.

Lemma detectCycles_Valid :
  detectCycles rangeKeys (Catalog cfg) = Valid <-> acyclic (Catalog cfg).
Proof using rangeKeys_fair.
  rewrite (detectCycles_Validate rangeKeys rangeKeys_fair (Catalog cfg)).
  destruct (validate_result rangeKeys rangeKeys_fair (prune (Catalog cfg)))
    as (deg & order & Hrun & Hinv).
  rewrite (Validate_unfold rangeKeys (prune (Catalog cfg)) deg order Hrun).
  rewrite <- prune_acyclic.
  pose proof (visited_all_iff rangeKeys rangeKeys_fair (prune (Catalog cfg)) deg order Hinv)
    as Hiff.
  destruct (decide _) as [Hlen|Hlen].
  - split; [intros _; by apply Hiff|done].
  - split; [done|]. intros Hac. exfalso. apply Hlen, Hiff. split; [done|apply prune_defined].
Qed.

Lemma cycleErrs_nil : cycleErrs = [] <-> acyclic (Catalog cfg).
Proof using rangeKeys_fair.
  rewrite <- detectCycles_Valid. unfold cycleErrs.
  by destruct (detectCycles rangeKeys (Catalog cfg)).
Qed.

(** What a configuration that passes [Validate] satisfies. *)
Lemma Validate_nil :
  config_check.Validate rangeKeys cfg = [] <->
  (forall n, n ∈ dom (Groups cfg) -> n ∉ dom (Stacks cfg)) /\
  (forall n, n ∈ dom procs -> (n ∉ dom (Stacks cfg)) /\ (n ∉ dom (Groups cfg))) /\
  (forall s st g, Stacks cfg !! s = Some st -> g ∈ StackGroups st ->
     is_Some (Groups cfg !! g)) /\
  (forall g gr p, Groups cfg !! g = Some gr -> p ∈ GroupProcesses gr ->
     is_Some (procs !! p)) /\
  (forall x y, dependsOn (Catalog cfg) x y -> y ∈ dom procs) /\
  (forall n p, procs !! n = Some p ->
     Command p <> "" /\ (Enabled (Retry p) = true -> accepted_policy (Retry p))) /\
  acyclic (Catalog cfg).
Proof using rangeKeys_fair.
  rewrite Validate_pieces, !app_nil_iff.
  rewrite nameErrs_nil, stackErrs_nil, groupErrs_nil, depErrs_nil, procErrs_nil,
    cycleErrs_nil.
  split.
  - intros ([? ?] & ? & ? & Hdep & ? & ?). split_and!; try done.
    intros x y Hxy. by destruct (Hdep x y Hxy).
  - intros (? & ? & ? & ? & Hdep & ? & Hac). split_and!; try done.
    intros x y Hxy. split; [by apply (Hdep x y)|]. intros ->. apply (Hac x).
    by apply tc_once.
Qed.

End pieces.

End config_validate_spec.
Module config_validate_props.
Import config retry graph config_check graph_spec graph_claims graph_props validate_spec
       retry_spec config_check_spec config_validate_spec.
Local Open Scope nat_scope.

(** A configuration: the stack dev holds the group backend, which holds A
    and B of the chain. *)
Definition dev_stack : ConfigFile :=
  {| Stacks := <["dev" := {| StackGroups := ["backend"] |}]> ∅;
     Groups := <["backend" := {| GroupProcesses := ["A"; "B"] |}]> ∅;
     Catalog := chain |}.

(** X28: [config.Validate] returns no error exactly when no name is used
    for two of stack, group and process, every group a stack lists and every
    process a group lists is defined, every dependency names a process of
    the catalog, every process has a command and, if its retry is enabled, a
    policy with [0 < initial_backoff <= max_backoff] and a multiplier that
    is not below 1, and the catalog has no dependency cycle. A multiplier
    that is NaN is not below 1: [Validate] accepts it. *)
Theorem config_Validate_accepts_iff (rangeKeys : gset string -> list string)
    (cfg : ConfigFile) :
  fair_range rangeKeys ->
  (config_check.Validate rangeKeys cfg = [] <->
   (forall n, n ∈ dom (Groups cfg) -> n ∉ dom (Stacks cfg)) /\
   (forall n, n ∈ dom (Processes (Catalog cfg)) ->
      (n ∉ dom (Stacks cfg)) /\ (n ∉ dom (Groups cfg))) /\
   (forall s st g, Stacks cfg !! s = Some st -> g ∈ StackGroups st ->
      is_Some (Groups cfg !! g)) /\
   (forall g gr p, Groups cfg !! g = Some gr -> p ∈ GroupProcesses gr ->
      is_Some (Processes (Catalog cfg) !! p)) /\
   (forall x y, dependsOn (Catalog cfg) x y -> y ∈ dom (Processes (Catalog cfg))) /\
   (forall n p, Processes (Catalog cfg) !! n = Some p ->
      Command p <> "" /\ (Enabled (Retry p) = true -> accepted_policy (Retry p))) /\
   acyclic (Catalog cfg)).
Proof.
  intros Hfair. split.
  - intros Hnil. by apply (Validate_nil rangeKeys Hfair cfg).
  - intros Hok. by apply (Validate_nil rangeKeys Hfair cfg).
Qed.

Lemma config_Validate_accepts_iff_witness :
  config_check.Validate elements dev_stack = [] <->
  (forall n, n ∈ dom (Groups dev_stack) -> n ∉ dom (Stacks dev_stack)) /\
  (forall n, n ∈ dom (Processes (Catalog dev_stack)) ->
     (n ∉ dom (Stacks dev_stack)) /\ (n ∉ dom (Groups dev_stack))) /\
  (forall s st g, Stacks dev_stack !! s = Some st -> g ∈ StackGroups st ->
     is_Some (Groups dev_stack !! g)) /\
  (forall g gr p, Groups dev_stack !! g = Some gr -> p ∈ GroupProcesses gr ->
     is_Some (Processes (Catalog dev_stack) !! p)) /\
  (forall x y, dependsOn (Catalog dev_stack) x y ->
     y ∈ dom (Processes (Catalog dev_stack))) /\
  (forall n p, Processes (Catalog dev_stack) !! n = Some p ->
     Command p <> "" /\ (Enabled (Retry p) = true -> accepted_policy (Retry p))) /\
  acyclic (Catalog dev_stack).
Proof. apply (config_Validate_accepts_iff elements dev_stack). exact elements_fair. Defined.

(** A multiplier that is NaN passes [Validate], and is no multiplier
    [>= 1]: the data model's constraint on it does not hold. *)
Example config_Validate_nan :
  let policy := {| Enabled := true; MaxAttempts := 3; InitialBackoff := 1000;
                   MaxBackoff := 2000; BackoffMultiplier := nan |} in
  config_check.Validate elements
    {| Stacks := ∅; Groups := ∅;
       Catalog := {| Processes :=
         <["A" := {| Command := "run"; DependsOn := []; Retry := policy |}]> ∅ |} |} = [] /\
  accepted_policy policy /\ ~ valid_policy policy.
Proof.
  split; [by vm_compute|]. split; [by vm_compute|].
  unfold valid_policy. simpl. intros (_ & _ & H). by vm_compute in H.
Qed.

(** What [Validate] collects on configurations of the tests. *)
Example config_Validate_examples :
  config_check.Validate elements dev_stack = [] /\
  config_check.Validate elements
    {| Stacks := ∅; Groups := ∅;
       Catalog := {| Processes := <["A" := proc ["A"; "X"]]> ∅ |} |}
  = [SelfDependency "A"; UndefinedDependency "A" "X"; CycleDetected ["A"]] /\
  config_check.Validate elements
    {| Stacks := <["A" := {| StackGroups := ["g"] |}]> ∅; Groups := ∅;
       Catalog := {| Processes :=
         <["A" := {| Command := ""; DependsOn := [];
                     Retry := {| Enabled := true; MaxAttempts := 0;
                                 InitialBackoff := 5; MaxBackoff := 0;
                                 BackoffMultiplier := 0.5 |} |}]> ∅ |} |}
  = [NameClash "A" "stack" "process"; UndefinedGroup "A" "g";
     MaxBackoffNotPositive "A"; InitialAboveMax "A" 5 0; MultiplierBelowOne "A";
     CommandRequired "A"].
Proof. vm_compute. done. Qed.

(** X29: a configuration [config.Validate] accepts is accepted by the
    engine: [Validate] on the graph of its catalog returns [nil], so
    [NewProcessManager] does not fail, and [StartOrder] returns an order for
    every list of catalog processes, among them the processes of every
    group. *)
Theorem config_Validate_then_engine (rangeKeys : gset string -> list string)
    (cfg : ConfigFile) :
  fair_range rangeKeys ->
  config_check.Validate rangeKeys cfg = [] ->
  let g := NewDependencyGraph rangeKeys (Catalog cfg) in
  graph.Validate rangeKeys g = Valid /\
  (forall targets, (forall t, t ∈ targets -> t ∈ dom (Processes (Catalog cfg))) ->
     exists order, StartOrder rangeKeys g targets = Ok order) /\
  (forall name gr, Groups cfg !! name = Some gr ->
     exists order, StartOrder rangeKeys g (GroupProcesses gr) = Ok order).
Proof.
  intros Hfair Hnil g.
  apply (Validate_nil rangeKeys Hfair cfg) in Hnil
    as (_ & _ & _ & Hgroups & Hdef & _ & Hacyc).
  assert (forall targets, (forall t, t ∈ targets -> t ∈ dom (Processes (Catalog cfg))) ->
            exists order, StartOrder rangeKeys g targets = Ok order) as Hstart.
  { intros targets Hknown. apply (StartOrder_complete rangeKeys Hfair rangeKeys Hfair); [done|].
    intros t Ht. rewrite (built_nodes rangeKeys Hfair). by apply Hknown. }
  split; [|split].
  - destruct (validate_result rangeKeys Hfair (Catalog cfg)) as (deg & order & Hrun & Hinv).
    unfold g. rewrite (Validate_unfold rangeKeys (Catalog cfg) deg order Hrun).
    rewrite decide_True; [done|].
    by apply (visited_all_iff rangeKeys Hfair (Catalog cfg) deg order Hinv).
  - exact Hstart.
  - intros name gr Hgr. apply Hstart. intros t Ht. apply elem_of_dom. by eapply Hgroups.
Qed.

Lemma config_Validate_then_engine_witness :
  let g := NewDependencyGraph elements (Catalog dev_stack) in
  graph.Validate elements g = Valid /\
  (forall targets, (forall t, t ∈ targets -> t ∈ dom (Processes (Catalog dev_stack))) ->
     exists order, StartOrder elements g targets = Ok order) /\
  (forall name gr, Groups dev_stack !! name = Some gr ->
     exists order, StartOrder elements g (GroupProcesses gr) = Ok order).
Proof.
  apply (config_Validate_then_engine elements dev_stack); [exact elements_fair|].
  vm_compute. reflexivity.
Defined.

Lemma applyDefaultsTo_idem (p : Process) :
  applyDefaultsTo (applyDefaultsTo p) = applyDefaultsTo p.
Proof.
  destruct p as [c deps [e m i x b]]. unfold applyDefaultsTo. simpl. f_equal. f_equal.
  - destruct ((m =? 0)%Z && negb e) eqn:H; [|by rewrite H]. by destruct e.
  - destruct (i =? 0)%Z eqn:H; [done|]. by rewrite H.
  - destruct (x =? 0)%Z eqn:H; [done|]. by rewrite H.
  - destruct (b =? 0)%float eqn:H; [done|]. by rewrite H.
Qed.

(** X30: [applyDefaults] changes retry settings only: it keeps the names,
    the commands, the dependencies and the [enabled] flags, keeps every
    retry field that is set, and leaves no backoff field at zero; it sets
    [max_attempts] to the default 3 only on a policy that is not enabled, so
    an enabled policy with [max_attempts] unset stays at 0, unbounded.
    Applying it twice is applying it once. *)
Theorem applyDefaults_fills (cfg : ConfigFile) :
  applyDefaults (applyDefaults cfg) = applyDefaults cfg /\
  Stacks (applyDefaults cfg) = Stacks cfg /\ Groups (applyDefaults cfg) = Groups cfg /\
  forall n,
    match Processes (Catalog cfg) !! n, Processes (Catalog (applyDefaults cfg)) !! n with
    | Some p, Some p' =>
        Command p' = Command p /\ DependsOn p' = DependsOn p /\
        Enabled (Retry p') = Enabled (Retry p) /\
        (InitialBackoff (Retry p') <> 0%Z /\ MaxBackoff (Retry p') <> 0%Z /\
         (BackoffMultiplier (Retry p') =? 0)%float = false) /\
        (InitialBackoff (Retry p) <> 0%Z ->
         InitialBackoff (Retry p') = InitialBackoff (Retry p)) /\
        (MaxBackoff (Retry p) <> 0%Z -> MaxBackoff (Retry p') = MaxBackoff (Retry p)) /\
        ((BackoffMultiplier (Retry p) =? 0)%float = false ->
         BackoffMultiplier (Retry p') = BackoffMultiplier (Retry p)) /\
        MaxAttempts (Retry p')
        = (if Enabled (Retry p) then MaxAttempts (Retry p)
           else if (MaxAttempts (Retry p) =? 0)%Z then 3%Z else MaxAttempts (Retry p))
    | None, None => True
    | _, _ => False
    end.
Proof.
  split; [|split; [done|split; [done|]]].
  - unfold applyDefaults. simpl. f_equal. f_equal.
    rewrite <- map_fmap_compose. apply map_fmap_ext. intros n p _. simpl.
    apply applyDefaultsTo_idem.
  - intros n. unfold applyDefaults. simpl. rewrite lookup_fmap.
    destruct (Processes (Catalog cfg) !! n) as [p|]; [|done]. simpl.
    destruct p as [c deps [e m i x b]]. simpl.
    split; [done|]. split; [done|]. split; [done|]. split; [|split; [|split; [|split]]].
    + split; [|split].
      * destruct (Z.eqb_spec i 0); [done|lia].
      * destruct (Z.eqb_spec x 0); [done|lia].
      * by destruct (b =? 0)%float eqn:H.
    + intros Hi. by destruct (Z.eqb_spec i 0).
    + intros Hx. by destruct (Z.eqb_spec x 0).
    + intros Hb. by rewrite Hb.
    + by destruct e, (m =? 0)%Z.
Qed.

(** A retry block that only says [enabled: true] gets the default backoff
    settings, which [Validate] accepts, and retries without limit. *)
Example applyDefaults_enabled_only :
  let bare := {| Command := "run"; DependsOn := [];
                 Retry := {| Enabled := true; MaxAttempts := 0; InitialBackoff := 0;
                             MaxBackoff := 0; BackoffMultiplier := 0 |} |} in
  let cfg := {| Stacks := ∅; Groups := ∅;
                Catalog := {| Processes := <["A" := bare]> ∅ |} |} in
  config_check.Validate elements cfg
  = [InitialBackoffNotPositive "A"; MaxBackoffNotPositive "A"; MultiplierBelowOne "A"] /\
  config_check.Validate elements (applyDefaults cfg) = [] /\
  Retry (applyDefaultsTo bare)
  = {| Enabled := true; MaxAttempts := 0; InitialBackoff := 2000000000;
       MaxBackoff := 60000000000; BackoffMultiplier := 2 |} /\
  forall attempt, shouldRetry attempt (Retry (applyDefaultsTo bare)) = true.
Proof. split; [by vm_compute|]. split; [by vm_compute|]. split; [by vm_compute|done]. Qed.

End config_validate_props.
